(** * OS Scheduler Pro: the scheduling engine, embedded and verified

    The development follows [process.py] and [scheduling_algorithms.py].

    Numbers.  The code computes with Python's [float], binary64.  The
    engine is embedded over the canonical rationals [Qc], whose arithmetic
    is exact.  On times that are whole numbers small enough for every sum
    to stay at or below 2^53 ([exact_times]) the arithmetic of the code is
    exact as well and the two agree; a statement that depends on the
    values of times is made for such inputs.  Where the rounding of
    binary64 itself decides a statement, the functions concerned,
    [calculate_metrics] and [fcfs_scheduling], are embedded again over
    binary64 ([Binary64]).

    Objects.  A [Process] is a mutable Python object.  The objects handed in
    by the caller and the working copies an algorithm creates live in a
    [store]; a [ref] names one of them, and [execute] writes through a
    [ref].  Every algorithm returns the caller's objects as they are after
    the call, together with what the call returned or raised.

    Loops.  A [while] loop is a [Fixpoint] over a fuel counter; running out
    of fuel is the outcome [OutOfFuel], which no Python run has. *)

From Stdlib Require Import QArith Qcanon Qround Lqa Floats.
From stdpp Require Import base numbers option list sorting gmap strings.

(** ** Numbers *)

Definition Qc_of_nat (n : nat) : Qc := Qc_of_Z (Z.of_nat n).

(** Python's [a <= b], [a < b], [a == b] on numbers. *)
Definition Qc_leb (a b : Qc) : bool := bool_decide (a ≤ b)%Qc.
Definition Qc_ltb (a b : Qc) : bool := bool_decide (a < b)%Qc.
Definition Qc_eqb (a b : Qc) : bool := bool_decide (a = b).

(** [min(a, b)] of the builtins: [b] only when it is strictly smaller. *)
Definition py_min (a b : Qc) : Qc := if Qc_ltb b a then b else a.
(** [max(a, b)]: [b] only when it is strictly greater. *)
Definition py_max (a b : Qc) : Qc := if Qc_ltb a b then b else a.

(** [round(x, 2)]: the nearest multiple of 1/100, a tie going to the even
    one. *)
Definition round_half_even (q : Q) : Z :=
  let f := Qfloor q in
  let r := (q - inject_Z f)%Q in
  match (r ?= 1 # 2)%Q with
  | Lt => f
  | Gt => (f + 1)%Z
  | Eq => if Z.even f then f else (f + 1)%Z
  end.

Definition round2 (x : Qc) : Qc :=
  Q2Qc (inject_Z (round_half_even (this x * 100)) / 100).

(** [sum(l)] of the builtins, from the left, starting at 0. *)
Definition py_sum (l : list Qc) : Qc := foldl Qcplus (Q2Qc 0) l.

(** ** process.py *)

Record Process := mkProcess {
  pid : string;
  arrival_time : Qc;
  burst_time : Qc;
  priority : option Z;
  remaining_time : Qc
}.

(** The dataclass constructor followed by [__post_init__]. *)
Definition new_Process (pid : string) (arrival_time burst_time : Qc)
    (priority : option Z) (remaining_time : option Qc) : Process :=
  mkProcess pid arrival_time burst_time priority
    (match remaining_time with
     | None => burst_time
     | Some r => r
     end).

Definition set_remaining_time (p : Process) (r : Qc) : Process :=
  mkProcess (pid p) (arrival_time p) (burst_time p) (priority p) r.

#[global] Instance Process_eq_dec : EqDecision Process.
Proof. solve_decision. Defined.

#[global] Instance Process_inhabited : Inhabited Process :=
  populate (mkProcess "" (Q2Qc 0) (Q2Qc 0) None (Q2Qc 0)).

(** ** The object store *)

Inductive ref :=
  | Caller (k : nat)   (* the k-th object of the caller's list *)
  | Work (k : nat).    (* the k-th element of [processes_copy] *)

#[global] Instance ref_eq_dec : EqDecision ref.
Proof. solve_decision. Defined.

Record store := mkStore {
  caller_objs : list Process;
  work_objs : list Process
}.

Definition deref (σ : store) (r : ref) : Process :=
  match r with
  | Caller k => caller_objs σ !!! k
  | Work k => work_objs σ !!! k
  end.

Definition assign_remaining_time (σ : store) (r : ref) (v : Qc) : store :=
  match r with
  | Caller k =>
      mkStore (alter (λ p, set_remaining_time p v) k (caller_objs σ)) (work_objs σ)
  | Work k =>
      mkStore (caller_objs σ) (alter (λ p, set_remaining_time p v) k (work_objs σ))
  end.

(** [Process.is_completed] *)
Definition is_completed (p : Process) : bool :=
  Qc_leb (remaining_time p) (Q2Qc 0).

(** [Process.execute]: the store after the assignment to
    [self.remaining_time], and the returned execution time. *)
Definition execute (σ : store) (self : ref) (time_quantum : Qc) : store * Qc :=
  let execution_time := py_min time_quantum (remaining_time (deref σ self)) in
  (assign_remaining_time σ self
     (remaining_time (deref σ self) - execution_time)%Qc,
   execution_time).

(** ** Outcomes of a call *)

Inductive exn :=
  | MissingPriority (pid : string)
      (* ValueError: Process <pid> does not have a priority assigned *)
  | InvalidQuantum
      (* ValueError: Time quantum must be positive *)
  | EmptyMin
      (* ValueError: min() arg is an empty sequence *)
  | NoneAttribute
      (* AttributeError: 'NoneType' object has no attribute 'execute' *)
  | Unorderable
      (* TypeError: '<' not supported between the two operands *)
  | EmptyPop.
      (* IndexError: pop from an empty list or deque *)

Inductive outcome (A : Type) :=
  | Returned (a : A)
  | Raised (e : exn)
  | OutOfFuel.
Arguments Returned {A} a.
Arguments Raised {A} e.
Arguments OutOfFuel {A}.

#[global] Instance outcome_ret : MRet outcome := λ A a, Returned a.
#[global] Instance outcome_bind : MBind outcome := λ A B k m,
  match m with
  | Returned a => k a
  | Raised e => Raised e
  | OutOfFuel => OutOfFuel
  end.

#[global] Instance outcome_fmap : FMap outcome := λ A B f m,
  match m with
  | Returned a => Returned (f a)
  | Raised e => Raised e
  | OutOfFuel => OutOfFuel
  end.

(** ** Schedules and results *)

Definition ScheduleEntry : Type := string * Qc * Qc.

Definition IDLE : string := "IDLE".

(** The display name: a literal, or the f-string of [round_robin] with the
    quantum in its hole. *)
Inductive label :=
  | Name (s : string)
  | RoundRobinQuantum (time_quantum : Qc).

Record SchedulingResult := mkResult {
  schedule : list ScheduleEntry;
  metrics : gmap string Qc;
  algorithm_name : label
}.

(** ** calculate_metrics *)

(** The loop that fills [completion_times]. *)
Definition completion_times_of (schedule : list ScheduleEntry) : gmap string Qc :=
  foldl (λ (completion_times : gmap string Qc) (e : ScheduleEntry),
           let '(pid, _, end_time) := e in
           if bool_decide (pid ≠ IDLE) then <[pid := end_time]> completion_times
           else completion_times)
        ∅ schedule.

(** The loop over [processes] that fills [turnaround_times] and
    [waiting_times]. *)
Definition collect_times (completion_times : gmap string Qc)
    (processes : list Process) : list Qc * list Qc :=
  foldl (λ (acc : list Qc * list Qc) (process : Process),
           let '(turnaround_times, waiting_times) := acc in
           match completion_times !! pid process with
           | Some completion_time =>
               let turnaround_time := (completion_time - arrival_time process)%Qc in
               let waiting_time := (turnaround_time - burst_time process)%Qc in
               (turnaround_times ++ [turnaround_time],
                waiting_times ++ [waiting_time])
           | None => acc
           end)
        ([], []) processes.

Definition average (l : list Qc) : Qc :=
  match l with
  | [] => Q2Qc 0
  | _ => (py_sum l / Qc_of_nat (length l))%Qc
  end.

(** [max(end_time for _, _, end_time in schedule) if schedule else 0] *)
Definition max_end_time (schedule : list ScheduleEntry) : Qc :=
  match schedule with
  | [] => Q2Qc 0
  | (_, _, e) :: rest => foldl (λ m (x : ScheduleEntry), py_max m (snd x)) e rest
  end.

Definition busy_time (schedule : list ScheduleEntry) : Qc :=
  py_sum (map (λ e : ScheduleEntry, let '(_, s, t) := e in (t - s)%Qc)
              (filter (λ e : ScheduleEntry, fst (fst e) ≠ IDLE) schedule)).

Definition calculate_metrics (processes : list Process)
    (schedule : list ScheduleEntry) : gmap string Qc :=
  let completion_times := completion_times_of schedule in
  let '(turnaround_times, waiting_times) :=
    collect_times completion_times processes in
  let avg_turnaround_time := average turnaround_times in
  let avg_waiting_time := average waiting_times in
  let total_time := max_end_time schedule in
  let cpu_time := busy_time schedule in
  let cpu_utilization :=
    if Qc_ltb (Q2Qc 0) total_time
    then (cpu_time / total_time * Q2Qc 100)%Qc else Q2Qc 0 in
  <["average_turnaround_time" := round2 avg_turnaround_time]>
  (<["average_waiting_time" := round2 avg_waiting_time]>
  (<["cpu_utilization" := round2 cpu_utilization]>
  (<["total_processes" := Qc_of_nat (length processes)]>
  (<["total_time" := round2 total_time]> ∅)))).

(** ** Orderings, [sorted] and [min] *)

Definition num_lt (a b : Qc) : outcome bool := Returned (Qc_ltb a b).

(** [None] against an [int] is unorderable. *)
Definition priority_eqb (a b : option Z) : bool := bool_decide (a = b).
Definition priority_lt (a b : option Z) : outcome bool :=
  match a, b with
  | Some x, Some y => Returned (bool_decide (x < y)%Z)
  | _, _ => Raised Unorderable
  end.

(** [<] on tuples [(k, pid)]: the first component that differs decides. *)
Definition tuple_lt {K} (keq : K → K → bool) (klt : K → K → outcome bool)
    (a b : K * string) : outcome bool :=
  if keq a.1 b.1 then Returned (String.ltb a.2 b.2) else klt a.1 b.1.

(** The key [(p.arrival_time, p.pid)] of every [sort]. *)
Definition arrival_key_ltb (p q : Process) : bool :=
  if Qc_eqb (arrival_time p) (arrival_time q)
  then String.ltb (pid p) (pid q)
  else Qc_ltb (arrival_time p) (arrival_time q).

(** A stable sort: [x] goes before the first element that is not below it. *)
Fixpoint insert_sorted {A} (ltb : A → A → bool) (x : A) (l : list A) : list A :=
  match l with
  | [] => [x]
  | y :: l' => if ltb y x then y :: insert_sorted ltb x l' else x :: y :: l'
  end.

Fixpoint sorted {A} (ltb : A → A → bool) (l : list A) : list A :=
  match l with
  | [] => []
  | x :: l' => insert_sorted ltb x (sorted ltb l')
  end.

(** [min(l, key=key)]: the first element whose key no other one is below. *)
Fixpoint min_by_from {A K} (klt : K → K → outcome bool) (key : A → K)
    (best : A) (l : list A) : outcome A :=
  match l with
  | [] => Returned best
  | x :: l' =>
      b ← klt (key x) (key best);
      min_by_from klt key (if b : bool then x else best) l'
  end.

Definition min_by {A K} (klt : K → K → outcome bool) (key : A → K)
    (l : list A) : outcome A :=
  match l with
  | [] => Raised EmptyMin
  | x :: l' => min_by_from klt key x l'
  end.

(** ** fcfs_scheduling *)

(** One turn of the [for] loop over [sorted_processes]. *)
Definition fcfs_step (acc : list ScheduleEntry * Qc) (process : Process)
    : list ScheduleEntry * Qc :=
  let '(schedule, current_time) := acc in
  let '(schedule, current_time) :=
    if Qc_ltb current_time (arrival_time process)
    then (schedule ++ [(IDLE, current_time, arrival_time process)],
          arrival_time process)
    else (schedule, current_time) in
  let start_time := current_time in
  let end_time := (current_time + burst_time process)%Qc in
  (schedule ++ [(pid process, start_time, end_time)], end_time).

Definition fcfs_scheduling (processes : list Process)
    : list Process * outcome SchedulingResult :=
  match processes with
  | [] => (processes, Returned (mkResult [] ∅ (Name "FCFS")))
  | _ =>
      let sorted_processes := sorted arrival_key_ltb processes in
      let '(schedule, _) := foldl fcfs_step ([], Q2Qc 0) sorted_processes in
      let metrics := calculate_metrics processes schedule in
      (processes,
       Returned (mkResult schedule metrics (Name "First-Come, First-Served (FCFS)")))
  end.

(** The working copies:
    [[Process(p.pid, p.arrival_time, p.burst_time, p.priority) for p in processes]] *)
Definition copy_processes (processes : list Process) : list Process :=
  map (λ p, new_Process (pid p) (arrival_time p) (burst_time p) (priority p) None)
      processes.

(** ** sjf_non_preemptive and priority_non_preemptive

    The two loops are the same text up to the key of the selection,
    [(p.burst_time, p.pid)] or [(p.priority, p.pid)].  Nothing in them
    assigns to a field of a process. *)

Record np_state := mkNp {
  np_schedule : list ScheduleEntry;
  np_current_time : Qc;
  np_completed : gset string
}.

Section non_preemptive.
Context {K : Type} (key : Process → K).
Context (keq : K → K → bool) (klt : K → K → outcome bool).
Context (processes_copy : list Process).

Definition np_body (s : np_state) : outcome np_state :=
  let available_processes :=
    filter (λ p, (pid p ∉ np_completed s) ∧ Qcle (arrival_time p) (np_current_time s))
           processes_copy in
  match available_processes with
  | [] =>
      next_process ← min_by num_lt arrival_time
        (filter (λ p, pid p ∉ np_completed s) processes_copy);
      Returned (mkNp (np_schedule s ++
                        [(IDLE, np_current_time s, arrival_time next_process)])
                     (arrival_time next_process) (np_completed s))
  | _ =>
      selected_process ← min_by (tuple_lt keq klt) (λ p, (key p, pid p))
                                available_processes;
      let start_time := np_current_time s in
      let end_time := (np_current_time s + burst_time selected_process)%Qc in
      Returned (mkNp (np_schedule s ++ [(pid selected_process, start_time, end_time)])
                     end_time
                     ({[pid selected_process]} ∪ np_completed s))
  end.

Fixpoint np_loop (fuel : nat) (s : np_state) : outcome np_state :=
  if bool_decide (size (np_completed s) < length processes_copy) then
    match fuel with
    | 0 => OutOfFuel
    | S fuel' => s' ← np_body s; np_loop fuel' s'
    end
  else Returned s.
End non_preemptive.

Definition np_init : np_state := mkNp [] (Q2Qc 0) ∅.

Definition sjf_non_preemptive (fuel : nat) (processes : list Process)
    : list Process * outcome SchedulingResult :=
  match processes with
  | [] => (processes, Returned (mkResult [] ∅ (Name "SJF Non-Preemptive")))
  | _ =>
      let processes_copy := copy_processes processes in
      (processes,
       s ← np_loop burst_time Qc_eqb num_lt processes_copy fuel np_init;
       let metrics := calculate_metrics processes (np_schedule s) in
       Returned (mkResult (np_schedule s) metrics
                          (Name "Shortest Job First (Non-Preemptive)")))
  end.

(** The validation loop of both priority algorithms. *)
Fixpoint check_priorities (processes : list Process) : outcome unit :=
  match processes with
  | [] => Returned ()
  | process :: rest =>
      match priority process with
      | None => Raised (MissingPriority (pid process))
      | Some _ => check_priorities rest
      end
  end.

Definition priority_non_preemptive (fuel : nat) (processes : list Process)
    : list Process * outcome SchedulingResult :=
  match processes with
  | [] => (processes, Returned (mkResult [] ∅ (Name "Priority Non-Preemptive")))
  | _ =>
      (processes,
       _ ← check_priorities processes;
       let processes_copy := copy_processes processes in
       s ← np_loop priority priority_eqb priority_lt processes_copy fuel np_init;
       let metrics := calculate_metrics processes (np_schedule s) in
       Returned (mkResult (np_schedule s) metrics (Name "Priority (Non-Preemptive)")))
  end.

(** ** heapq

    The list-based binary heap of the standard library, on the comparison
    [lt] of its items (which may raise). *)

Section heapq.
Context {A : Type} (lt : A → A → outcome bool).

(** The [while pos > startpos] loop of [_siftdown]; the position strictly
    decreases, so [S pos] units of fuel are enough. *)
Fixpoint siftdown_loop (fuel : nat) (heap : list A) (startpos pos : nat)
    (newitem : A) : outcome (list A) :=
  if bool_decide (startpos < pos) then
    match fuel with
    | 0 => OutOfFuel
    | S fuel' =>
        let parentpos := (pos - 1) `div` 2 in
        match heap !! parentpos with
        | None => Raised EmptyPop
        | Some parent =>
            b ← lt newitem parent;
            if b : bool
            then siftdown_loop fuel' (<[pos := parent]> heap) startpos parentpos newitem
            else Returned (<[pos := newitem]> heap)
        end
    end
  else Returned (<[pos := newitem]> heap).

Definition siftdown (heap : list A) (startpos pos : nat) : outcome (list A) :=
  match heap !! pos with
  | None => Raised EmptyPop
  | Some newitem => siftdown_loop (S pos) heap startpos pos newitem
  end.

(** [if rightpos < endpos and not heap[childpos] < heap[rightpos]:
       childpos = rightpos]: the index of the smaller child. *)
Definition smaller_child (heap : list A) (endpos childpos : nat) : outcome nat :=
  let rightpos := childpos + 1 in
  if bool_decide (rightpos < endpos) then
    match heap !! childpos, heap !! rightpos with
    | Some c, Some r =>
        b ← lt c r; Returned (if b : bool then childpos else rightpos)
    | _, _ => Raised EmptyPop
    end
  else Returned childpos.

(** The [while childpos < endpos] loop of [_siftup]: the heap and the
    position of the hole when the loop ends. *)
Fixpoint siftup_loop (fuel : nat) (heap : list A) (endpos pos : nat)
    : outcome (list A * nat) :=
  let childpos := 2 * pos + 1 in
  if bool_decide (childpos < endpos) then
    match fuel with
    | 0 => OutOfFuel
    | S fuel' =>
        childpos ← smaller_child heap endpos childpos;
        match heap !! childpos with
        | None => Raised EmptyPop
        | Some c => siftup_loop fuel' (<[pos := c]> heap) endpos childpos
        end
    end
  else Returned (heap, pos).

Definition siftup (heap : list A) (pos : nat) : outcome (list A) :=
  let endpos := length heap in
  let startpos := pos in
  match heap !! pos with
  | None => Raised EmptyPop
  | Some newitem =>
      '(heap, pos) ← siftup_loop endpos heap endpos pos;
      siftdown (<[pos := newitem]> heap) startpos pos
  end.

Definition heappush (heap : list A) (item : A) : outcome (list A) :=
  siftdown (heap ++ [item]) 0 (length (heap ++ [item]) - 1).

(** The popped item and the heap that is left. *)
Definition heappop (heap : list A) : outcome (A * list A) :=
  match last heap with
  | None => Raised EmptyPop
  | Some lastelt =>
      let heap := removelast heap in
      match heap with
      | [] => Returned (lastelt, heap)
      | returnitem :: _ =>
          heap ← siftup (<[0 := lastelt]> heap) 0;
          Returned (returnitem, heap)
      end
  end.
End heapq.

(** [<] on the heap items [(key, pid, process)].  When key and pid are both
    equal the two processes are compared: equal dataclass instances leave
    the tuples equal, unequal ones cannot be ordered. *)
Definition item_lt {K} (keq : K → K → bool) (klt : K → K → outcome bool)
    (σ : store) (a b : K * string * ref) : outcome bool :=
  let '(ka, pa, ra) := a in
  let '(kb, pb, rb) := b in
  if keq ka kb then
    if String.eqb pa pb then
      if bool_decide (deref σ ra = deref σ rb) then Returned false
      else Raised Unorderable
    else Returned (String.ltb pa pb)
  else klt ka kb.

(** [schedule.append] of a run, or the extension of the last entry when it
    is the same process continuing at the same instant. *)
Definition record_run (schedule : list ScheduleEntry) (pid : string)
    (start_time end_time : Qc) : list ScheduleEntry :=
  match last schedule with
  | Some (last_pid, last_start, last_end) =>
      if bool_decide (last_pid ≠ pid) || bool_decide (last_end ≠ start_time)
      then schedule ++ [(pid, start_time, end_time)]
      else removelast schedule ++ [(pid, last_start, end_time)]
  | None => schedule ++ [(pid, start_time, end_time)]
  end.

(** What a turn of a [while] loop ends with. *)
Inductive control (S : Type) :=
  | Continue (s : S)
  | Break (s : S).
Arguments Continue {S} s.
Arguments Break {S} s.

(** ** sjf_preemptive and priority_preemptive

    The two loops are the same text up to the heap key, [remaining_time] or
    [priority].  [processes_copy] is sorted in place before any of its
    elements is referred to, so [Work k] names the process at position [k]
    after the sort. *)

Record p_state (K : Type) := mkP {
  p_schedule : list ScheduleEntry;
  p_current_time : Qc;
  p_ready_queue : list (K * string * ref);
  p_completed : gset string;
  p_i : nat;
  p_current_process : option ref
}.
Arguments mkP {K}.
Arguments p_schedule {K}.
Arguments p_current_time {K}.
Arguments p_ready_queue {K}.
Arguments p_completed {K}.
Arguments p_i {K}.
Arguments p_current_process {K}.

Section preemptive.
Context {K : Type} (key : Process → K).
Context (keq : K → K → bool) (klt : K → K → outcome bool).

(** [while i < len(processes_copy) and processes_copy[i].arrival_time <= current_time] *)
Fixpoint p_admit (fuel : nat) (σ : store) (current_time : Qc)
    (ready_queue : list (K * string * ref)) (i : nat)
    : outcome (list (K * string * ref) * nat) :=
  if bool_decide (i < length (work_objs σ)) &&
     Qc_leb (arrival_time (deref σ (Work i))) current_time then
    match fuel with
    | 0 => OutOfFuel
    | S fuel' =>
        ready_queue ← heappush (item_lt keq klt σ) ready_queue
          (key (deref σ (Work i)), pid (deref σ (Work i)), Work i);
        p_admit fuel' σ current_time ready_queue (i + 1)
    end
  else Returned (ready_queue, i).

(** Determine which process should run next:
    [next_process = None; if ready_queue: _, _, next_process = heappop(ready_queue)] *)
Definition p_pop (σ : store) (ready_queue : list (K * string * ref))
    : outcome (option ref * list (K * string * ref)) :=
  match ready_queue with
  | [] => Returned (None, ready_queue)
  | _ => '(item, ready_queue) ← heappop (item_lt keq klt σ) ready_queue;
         Returned (Some item.2, ready_queue)
  end.

(** If current process is different, switch context:
    [if current_process is None or (next_process and current_process and
        next_process.pid != current_process.pid)] and its body. *)
Definition p_switch (σ : store) (current_process next_process : option ref)
    (ready_queue : list (K * string * ref))
    : outcome (option ref * list (K * string * ref)) :=
  if match current_process, next_process with
     | None, _ => true
     | Some c, Some nx => bool_decide (pid (deref σ nx) ≠ pid (deref σ c))
     | Some _, None => false
     end
  then
    ready_queue ←
      match current_process with
      | Some c =>
          if negb (is_completed (deref σ c))
          then (* Put current process back in queue *)
               heappush (item_lt keq klt σ) ready_queue
                 (key (deref σ c), pid (deref σ c), c)
          else Returned ready_queue
      | None => Returned ready_queue
      end;
    Returned (next_process, ready_queue)
  else Returned (current_process, ready_queue).

(** The head of a turn of the main loop, up to the choice of
    [current_process]. *)
Definition p_pick (σ : store) (s : p_state K)
    : outcome (list (K * string * ref) * nat * option ref) :=
  '(ready_queue, i) ←
     p_admit (length (work_objs σ) - p_i s) σ (p_current_time s)
             (p_ready_queue s) (p_i s);
  '(next_process, ready_queue) ← p_pop σ ready_queue;
  '(current_process, ready_queue) ←
     p_switch σ (p_current_process s) next_process ready_queue;
  Returned (ready_queue, i, current_process).

Definition p_body (σ : store) (s : p_state K)
    : store * outcome (control (p_state K)) :=
  let n := length (work_objs σ) in
  match p_pick σ s
  with
  | Raised e => (σ, Raised e)
  | OutOfFuel => (σ, OutOfFuel)
  | Returned (ready_queue, i, current_process) =>
      let idle :=
        match current_process with
        | None =>
            (* No processes ready, wait for next arrival *)
            if bool_decide (i < n)
            then let next_arrival := arrival_time (deref σ (Work i)) in
                 Some (p_schedule s ++ [(IDLE, p_current_time s, next_arrival)],
                       next_arrival)
            else None
        | Some _ => Some (p_schedule s, p_current_time s)
        end in
      match idle with
      | None =>
          (σ, Returned (Break (mkP (p_schedule s) (p_current_time s) ready_queue
                                   (p_completed s) i current_process)))
      | Some (schedule, current_time) =>
          match current_process with
          | None => (σ, Raised NoneAttribute)
          | Some c =>
              (* Execute current process for 1 time unit *)
              let '(σ, execution_time) := execute σ c (Q2Qc 1) in
              let start_time := current_time in
              let end_time := (current_time + execution_time)%Qc in
              let schedule := record_run schedule (pid (deref σ c)) start_time end_time in
              let current_time := end_time in
              (* Check if process completed *)
              if is_completed (deref σ c)
              then (σ, Returned (Continue
                     (mkP schedule current_time ready_queue
                          ({[pid (deref σ c)]} ∪ p_completed s) i None)))
              else (σ, Returned (Continue
                     (mkP schedule current_time ready_queue
                          (p_completed s) i current_process)))
          end
      end
  end.

Fixpoint p_loop (fuel : nat) (σ : store) (s : p_state K)
    : store * outcome (p_state K) :=
  if bool_decide (size (p_completed s) < length (work_objs σ)) then
    match fuel with
    | 0 => (σ, OutOfFuel)
    | S fuel' =>
        match p_body σ s with
        | (σ, Returned (Continue s)) => p_loop fuel' σ s
        | (σ, Returned (Break s)) => (σ, Returned s)
        | (σ, Raised e) => (σ, Raised e)
        | (σ, OutOfFuel) => (σ, OutOfFuel)
        end
    end
  else (σ, Returned s).
End preemptive.

Definition p_init {K} : p_state K := mkP [] (Q2Qc 0) [] ∅ 0 None.

Definition sjf_preemptive (fuel : nat) (processes : list Process)
    : list Process * outcome SchedulingResult :=
  match processes with
  | [] => (processes, Returned (mkResult [] ∅ (Name "SJF Preemptive")))
  | _ =>
      let processes_copy := sorted arrival_key_ltb (copy_processes processes) in
      let '(σ, r) :=
        p_loop remaining_time Qc_eqb num_lt fuel
               (mkStore processes processes_copy) p_init in
      (caller_objs σ,
       s ← r;
       let metrics := calculate_metrics (caller_objs σ) (p_schedule s) in
       Returned (mkResult (p_schedule s) metrics
                          (Name "Shortest Job First (Preemptive)")))
  end.

Definition priority_preemptive (fuel : nat) (processes : list Process)
    : list Process * outcome SchedulingResult :=
  match processes with
  | [] => (processes, Returned (mkResult [] ∅ (Name "Priority Preemptive")))
  | _ =>
      match check_priorities processes with
      | Raised e => (processes, Raised e)
      | OutOfFuel => (processes, OutOfFuel)
      | Returned _ =>
          let processes_copy := sorted arrival_key_ltb (copy_processes processes) in
          let '(σ, r) :=
            p_loop priority priority_eqb priority_lt fuel
                   (mkStore processes processes_copy) p_init in
          (caller_objs σ,
           s ← r;
           let metrics := calculate_metrics (caller_objs σ) (p_schedule s) in
           Returned (mkResult (p_schedule s) metrics (Name "Priority (Preemptive)")))
      end
  end.

(** ** round_robin *)

Record rr_state := mkRR {
  rr_schedule : list ScheduleEntry;
  rr_current_time : Qc;
  rr_ready_queue : list ref;
  rr_completed : gset string;
  rr_i : nat
}.

(** [while i < len(processes_copy) and processes_copy[i].arrival_time <= current_time] *)
Fixpoint rr_admit (fuel : nat) (σ : store) (current_time : Qc)
    (ready_queue : list ref) (i : nat) : outcome (list ref * nat) :=
  if bool_decide (i < length (work_objs σ)) &&
     Qc_leb (arrival_time (deref σ (Work i))) current_time then
    match fuel with
    | 0 => OutOfFuel
    | S fuel' => rr_admit fuel' σ current_time (ready_queue ++ [Work i]) (i + 1)
    end
  else Returned (ready_queue, i).

(** The head of a turn: [if not ready_queue:] wait for the next arrival and
    admit it, or [break] ([None]) when no process is left to arrive.  The
    result is the schedule, the time, the queue and [i] after it. *)
Definition rr_wait (σ : store) (s : rr_state)
    : outcome (option (list ScheduleEntry * Qc * list ref * nat)) :=
  let n := length (work_objs σ) in
  match rr_ready_queue s with
  | [] =>
      (* No processes ready, wait for next arrival *)
      if bool_decide (rr_i s < n) then
        let next_arrival := arrival_time (deref σ (Work (rr_i s))) in
        let schedule := rr_schedule s ++ [(IDLE, rr_current_time s, next_arrival)] in
        let current_time := next_arrival in
        '(ready_queue, i) ← rr_admit (n - rr_i s) σ current_time (rr_ready_queue s) (rr_i s);
        Returned (Some (schedule, current_time, ready_queue, i))
      else Returned None
  | _ => Returned (Some (rr_schedule s, rr_current_time s, rr_ready_queue s, rr_i s))
  end.

(** The rest of a turn: run the head of the queue. *)
Definition rr_run (time_quantum : Qc) (σ : store) (completed_processes : gset string)
    (schedule : list ScheduleEntry) (current_time : Qc) (ready_queue : list ref)
    (i : nat) : store * outcome (control rr_state) :=
  let n := length (work_objs σ) in
  (* Get the next process from the queue *)
  match ready_queue with
  | [] => (σ, Raised EmptyPop)
  | current_process :: ready_queue =>
      (* Execute the process for the time quantum or until completion *)
      let '(σ, execution_time) := execute σ current_process time_quantum in
      let start_time := current_time in
      let end_time := (current_time + execution_time)%Qc in
      let schedule :=
        record_run schedule (pid (deref σ current_process)) start_time end_time in
      let current_time := end_time in
      (* Add newly arrived processes during execution *)
      match rr_admit (n - i) σ current_time ready_queue i with
      | Raised e => (σ, Raised e)
      | OutOfFuel => (σ, OutOfFuel)
      | Returned (ready_queue, i) =>
          (* Check if process completed *)
          if is_completed (deref σ current_process)
          then (σ, Returned (Continue
                 (mkRR schedule current_time ready_queue
                       ({[pid (deref σ current_process)]} ∪ completed_processes) i)))
          else (σ, Returned (Continue
                 (mkRR schedule current_time (ready_queue ++ [current_process])
                       completed_processes i)))
      end
  end.

Definition rr_body (time_quantum : Qc) (σ : store) (s : rr_state)
    : store * outcome (control rr_state) :=
  match rr_wait σ s with
  | Raised e => (σ, Raised e)
  | OutOfFuel => (σ, OutOfFuel)
  | Returned None => (σ, Returned (Break s))
  | Returned (Some (schedule, current_time, ready_queue, i)) =>
      rr_run time_quantum σ (rr_completed s) schedule current_time ready_queue i
  end.

Fixpoint rr_loop (time_quantum : Qc) (fuel : nat) (σ : store) (s : rr_state)
    : store * outcome rr_state :=
  if bool_decide (size (rr_completed s) < length (work_objs σ)) then
    match fuel with
    | 0 => (σ, OutOfFuel)
    | S fuel' =>
        match rr_body time_quantum σ s with
        | (σ, Returned (Continue s)) => rr_loop time_quantum fuel' σ s
        | (σ, Returned (Break s)) => (σ, Returned s)
        | (σ, Raised e) => (σ, Raised e)
        | (σ, OutOfFuel) => (σ, OutOfFuel)
        end
    end
  else (σ, Returned s).

(** The state at the head of the main loop: the processes that arrive at
    time 0 are in the queue. *)
Definition rr_init (σ : store) : outcome rr_state :=
  '(ready_queue, i) ← rr_admit (length (work_objs σ)) σ (Q2Qc 0) [] 0;
  Returned (mkRR [] (Q2Qc 0) ready_queue ∅ i).

Definition round_robin (fuel : nat) (processes : list Process) (time_quantum : Qc)
    : list Process * outcome SchedulingResult :=
  match processes with
  | [] => (processes, Returned (mkResult [] ∅ (Name "Round Robin")))
  | _ =>
      if Qc_leb time_quantum (Q2Qc 0) then (processes, Raised InvalidQuantum)
      else
        let processes_copy := sorted arrival_key_ltb (copy_processes processes) in
        let σ := mkStore processes processes_copy in
        match rr_init σ with
        | Raised e => (caller_objs σ, Raised e)
        | OutOfFuel => (caller_objs σ, OutOfFuel)
        | Returned s =>
            let '(σ, r) := rr_loop time_quantum fuel σ s in
            (caller_objs σ,
             s ← r;
             let metrics := calculate_metrics (caller_objs σ) (rr_schedule s) in
             Returned (mkResult (rr_schedule s) metrics (RoundRobinQuantum time_quantum)))
        end
  end.


#[global] Instance exn_eq_dec : EqDecision exn.
Proof. solve_decision. Defined.
#[global] Instance outcome_eq_dec {A} `{EqDecision A} : EqDecision (outcome A).
Proof. solve_decision. Defined.
#[global] Instance label_eq_dec : EqDecision label.
Proof. solve_decision. Defined.
#[global] Instance SchedulingResult_eq_dec : EqDecision SchedulingResult.
Proof. solve_decision. Defined.

Definition P (id : string) (a b : Z) : Process :=
  new_Process id (Qc_of_Z a) (Qc_of_Z b) None None.
Definition PP (id : string) (a b : Z) (p : Z) : Process :=
  new_Process id (Qc_of_Z a) (Qc_of_Z b) (Some p) None.


(** ** The metrics, in the words of the specification *)

(** The completion time of a process: the end time of the last entry of the
    schedule that is not idle and bears its pid. *)
Definition completion_time (schedule : list ScheduleEntry) (p : string) : option Qc :=
  snd <$> last (filter (λ e : ScheduleEntry, e.1.1 ≠ IDLE ∧ e.1.1 = p) schedule).

Definition turnaround_time (schedule : list ScheduleEntry) (p : Process) : option Qc :=
  c ← completion_time schedule (pid p); Some (c - arrival_time p)%Qc.

Definition waiting_time (schedule : list ScheduleEntry) (p : Process) : option Qc :=
  t ← turnaround_time schedule p; Some (t - burst_time p)%Qc.

(** The arithmetic mean, 0 for no value at all. *)
Definition mean (l : list Qc) : Qc :=
  match l with
  | [] => Q2Qc 0
  | _ => (foldr Qcplus (Q2Qc 0) l / Qc_of_nat (length l))%Qc
  end.

(** A call has ended when its outcome is not [OutOfFuel]. *)
Definition ended {A} (r : outcome A) : Prop := r ≠ OutOfFuel.

(** ** Working copies and the caller's objects *)

(** The store with [X] in place of the caller's objects. *)
Definition rebase (X : list Process) (σ : store) : store :=
  mkStore X (work_objs σ).

Definition is_work (r : ref) : Prop :=
  match r with
  | Work _ => True
  | Caller _ => False
  end.

(** The processes a preemptive loop holds: those of the heap items and the
    current one. *)
Definition p_refs {K} (ready_queue : list (K * string * ref))
    (current_process : option ref) : list ref :=
  (snd <$> ready_queue) ++ option_list current_process.

(** ** The six algorithms, side by side *)

(** Two processes that differ at most in [remaining_time]. *)
Definition same_descriptor (p1 p2 : Process) : Prop :=
  pid p1 = pid p2 ∧ arrival_time p1 = arrival_time p2 ∧
  burst_time p1 = burst_time p2 ∧ priority p1 = priority p2.

(** The order of every [sort]: by arrival time, ties by pid. *)
Definition arrival_key_le (p q : Process) : Prop :=
  (arrival_time p < arrival_time q)%Qc ∨
  (arrival_time p = arrival_time q ∧ String.le (pid p) (pid q)).

(** ** A turn of round_robin, in the words of the specification *)

(** The processes not admitted yet (those from position [i] on) that have
    arrived by time [t], in the order of the sorted copies. *)
Definition arrived_by (σ : store) (i : nat) (t : Qc) : list ref :=
  Work <$> filter (λ k, (arrival_time (deref σ (Work k)) ≤ t)%Qc)
                  (seq i (length (work_objs σ) - i)).

(** A run of [p] from [start] to [finish] is emitted as a new entry, or
    extends the last entry when that is an entry of [p] ending at [start]. *)
Inductive emits (sched : list ScheduleEntry) (p : string) (start finish : Qc)
    : list ScheduleEntry → Prop :=
  | emits_new :
      (∀ init s0, sched ≠ init ++ [(p, s0, start)]) →
      emits sched p start finish (sched ++ [(p, start, finish)])
  | emits_extend init s0 :
      sched = init ++ [(p, s0, start)] →
      emits sched p start finish (init ++ [(p, s0, finish)]).

Definition rr_turn (q : Qc) (σ : store) (s : rr_state) (σ' : store) (s' : rr_state)
    : Prop :=
  ∃ (sched0 : list ScheduleEntry) (t0 : Qc) (head : ref) (rest : list ref)
    (i0 : nat) (e : Qc),
    (* the head of the FIFO queue, after the idle gap when the queue is empty *)
    ((rr_ready_queue s = head :: rest ∧ sched0 = rr_schedule s ∧
      t0 = rr_current_time s ∧ i0 = rr_i s) ∨
     (rr_ready_queue s = [] ∧ rr_i s < length (work_objs σ) ∧
      t0 = arrival_time (deref σ (Work (rr_i s))) ∧
      sched0 = rr_schedule s ++ [(IDLE, rr_current_time s, t0)] ∧
      head :: rest = arrived_by σ (rr_i s) t0 ∧
      i0 = rr_i s + length (head :: rest))) ∧
    (* it runs for exactly min(time_quantum, remaining_time) *)
    (e ≤ q)%Qc ∧ (e ≤ remaining_time (deref σ head))%Qc ∧
    (e = q ∨ e = remaining_time (deref σ head)) ∧
    σ' = assign_remaining_time σ head (remaining_time (deref σ head) - e)%Qc ∧
    emits sched0 (pid (deref σ head)) t0 (t0 + e)%Qc (rr_schedule s') ∧
    rr_current_time s' = (t0 + e)%Qc ∧
    (* the processes that arrive during the run are admitted, in the order
       of the sorted copies, before the process that ran is queued again *)
    StronglySorted arrival_key_le (work_objs σ) ∧
    (∀ k, i0 ≤ k → k < length (work_objs σ) →
          (t0 < arrival_time (deref σ (Work k)))%Qc) ∧
    rr_i s' = i0 + length (arrived_by σ i0 (t0 + e)%Qc) ∧
    if bool_decide (remaining_time (deref σ head) - e ≤ Q2Qc 0)%Qc
    then rr_ready_queue s' = rest ++ arrived_by σ i0 (t0 + e)%Qc ∧
         rr_completed s' = {[pid (deref σ head)]} ∪ rr_completed s
    else rr_ready_queue s' = rest ++ arrived_by σ i0 (t0 + e)%Qc ++ [head] ∧
         rr_completed s' = rr_completed s.

(** The states at the head of the main loop of [round_robin]. *)
Inductive rr_reachable (q : Qc) (σ0 : store) : store → rr_state → Prop :=
  | rr_reachable_init s :
      rr_init σ0 = Returned s → rr_reachable q σ0 σ0 s
  | rr_reachable_turn σ s σ' s' :
      rr_reachable q σ0 σ s →
      size (rr_completed s) < length (work_objs σ) →
      rr_body q σ s = (σ', Returned (Continue s')) →
      rr_reachable q σ0 σ' s'.

(** What holds at the head of the main loop of [round_robin]. *)
Record rr_inv (σ : store) (s : rr_state) : Prop := mk_rr_inv {
  rr_sorted : StronglySorted arrival_key_le (work_objs σ);
  rr_i_le : rr_i s ≤ length (work_objs σ);
  rr_queue_admitted :
    Forall (λ r, ∃ k, r = Work k ∧ k < rr_i s) (rr_ready_queue s);
  rr_pending_future :
    ∀ k, rr_i s ≤ k → k < length (work_objs σ) →
         (rr_current_time s < arrival_time (deref σ (Work k)))%Qc;
  rr_accounted :
    ∀ k, k < rr_i s →
         Work k ∈ rr_ready_queue s ∨ pid (deref σ (Work k)) ∈ rr_completed s
}.

(** ** Chronological schedules, in the words of the specification *)

Definition entry_start (e : ScheduleEntry) : Qc := e.1.2.
Definition entry_end (e : ScheduleEntry) : Qc := e.2.

(** Every entry has its start strictly before its end; each entry ends
    where the next one starts; the entries are sorted by start time and do
    not overlap; and every instant of [0, total_time] lies in an entry,
    [total_time] being the maximum end time of the schedule. *)
Definition chronological (sched : list ScheduleEntry) : Prop :=
  (∀ e, e ∈ sched → (entry_start e < entry_end e)%Qc) ∧
  (∀ i e1 e2, sched !! i = Some e1 → sched !! S i = Some e2 →
              entry_end e1 = entry_start e2) ∧
  (∀ i j e1 e2, i < j → sched !! i = Some e1 → sched !! j = Some e2 →
                (entry_start e1 < entry_start e2)%Qc ∧
                (entry_end e1 ≤ entry_start e2)%Qc) ∧
  (∀ t, sched ≠ [] → (Q2Qc 0 ≤ t)%Qc → (t ≤ max_end_time sched)%Qc →
        ∃ e, e ∈ sched ∧ (entry_start e ≤ t)%Qc ∧ (t ≤ entry_end e)%Qc).

(** A chain of entries from time [t0] to time [t1]. *)
Fixpoint chain (t0 : Qc) (sched : list ScheduleEntry) (t1 : Qc) : Prop :=
  match sched with
  | [] => t0 = t1
  | e :: rest =>
      entry_start e = t0 ∧ (entry_start e < entry_end e)%Qc ∧
      chain (entry_end e) rest t1
  end.

(** The inputs the data model admits. *)
Definition valid_input (processes : list Process) : Prop :=
  NoDup (pid <$> processes) ∧
  Forall (λ p, (Q2Qc 0 ≤ arrival_time p)%Qc ∧ (Q2Qc 0 < burst_time p)%Qc) processes.

(** What holds in addition at the head of the main loop of [round_robin]
    when every burst time is positive. *)
Record rr_valid (σ : store) (s : rr_state) : Prop := mk_rr_valid {
  rr_valid_inv : rr_inv σ s;
  rr_valid_nodup : NoDup (rr_ready_queue s);
  rr_valid_live :
    ∀ k, k < length (work_objs σ) → Work k ∈ rr_ready_queue s ∨ rr_i s ≤ k →
         (Q2Qc 0 < remaining_time (deref σ (Work k)))%Qc;
  rr_valid_chain : chain (Q2Qc 0) (rr_schedule s) (rr_current_time s)
}.

(** What holds at the head of the main loop of a preemptive algorithm when
    every burst time is positive. *)
Record p_valid {K} (σ : store) (s : p_state K) : Prop := mk_p_valid {
  p_valid_nodup : NoDup (p_refs (p_ready_queue s) (p_current_process s));
  p_valid_admitted :
    Forall (λ r, ∃ k, r = Work k ∧ k < p_i s)
           (p_refs (p_ready_queue s) (p_current_process s));
  p_valid_i : p_i s ≤ length (work_objs σ);
  p_valid_live :
    ∀ k, k < length (work_objs σ) →
         Work k ∈ p_refs (p_ready_queue s) (p_current_process s) ∨ p_i s ≤ k →
         (Q2Qc 0 < remaining_time (deref σ (Work k)))%Qc;
  p_valid_chain : chain (Q2Qc 0) (p_schedule s) (p_current_time s)
}.

(** Two outcomes that are the same, up to the pid named by a
    missing-priority error. *)
Definition same_outcome {A} (o1 o2 : outcome A) : Prop :=
  o1 = o2 ∨
  ∃ a b, o1 = Raised (MissingPriority a) ∧ o2 = Raised (MissingPriority b).

(** [m] is the least element of [l] for the strict order [ltb]. *)
Definition least_of {A} (ltb : A → A → bool) (l : list A) (m : A) : Prop :=
  m ∈ l ∧ ∀ y, y ∈ l → y ≠ m → ltb m y = true.

(** The strict order of the selection keys [(k, pid)], [k] being the
    projection [proj] compared with [tlt]. *)
Definition lex_ltb {T} (proj : Process → T) (teq tlt : T → T → bool)
    (x y : Process) : bool :=
  if teq (proj x) (proj y) then String.ltb (pid x) (pid y)
  else tlt (proj x) (proj y).

(** ** A scenario used to exercise the statements *)

(** Three processes with priorities; P3 arrives after the first two are
    done, so the processor idles from 8 to 12. *)
Definition scenario : list Process :=
  [PP "P1" 0 5 2; PP "P2" 1 3 1; PP "P3" 12 2 3].

(** The same processes, handed over in another order. *)
Definition scenario_shuffled : list Process :=
  [PP "P3" 12 2 3; PP "P1" 0 5 2; PP "P2" 1 3 1].

(** The same descriptors, on objects whose [remaining_time] was written to
    after construction. *)
Definition scenario_stale : list Process :=
  [set_remaining_time (PP "P1" 0 5 2) (Qc_of_Z 1);
   set_remaining_time (PP "P2" 1 3 1) (Qc_of_Z 0);
   set_remaining_time (PP "P3" 12 2 3) (Qc_of_Z 7)].

(** The store of [round_robin] on the scenario, and its state when the main
    loop is entered: P1 is queued, the other two have not arrived. *)
Definition scenario_store : store :=
  mkStore scenario (sorted arrival_key_ltb (copy_processes scenario)).

Definition scenario_rr_state : rr_state :=
  mkRR [] (Q2Qc 0) [Work 0] ∅ 1.

(** ** Objects of the store *)

(** [r] names an object that exists. *)
Definition ref_in (σ : store) (r : ref) : Prop :=
  match r with
  | Caller k => k < length (caller_objs σ)
  | Work k => k < length (work_objs σ)
  end.

(** ** The keys of the metrics dictionary *)

Definition metric_keys : gset string :=
  {[ "average_turnaround_time"; "average_waiting_time"; "cpu_utilization";
     "total_processes"; "total_time" ]}.

(** The six algorithms, the quantum fixed. *)
Definition algorithms (fuel : nat) (time_quantum : Qc)
    : list (list Process → list Process * outcome SchedulingResult) :=
  [fcfs_scheduling; sjf_non_preemptive fuel; sjf_preemptive fuel;
   priority_non_preemptive fuel; priority_preemptive fuel;
   λ processes, round_robin fuel processes time_quantum].

(** ** The non-preemptive selection, in words *)

(** [available_processes] of the non-preemptive loops: the copies whose pid
    is not in [completed_processes] and that have arrived. *)
Definition available (processes_copy : list Process) (s : np_state) : list Process :=
  filter (λ p, (pid p ∉ np_completed s) ∧ Qcle (arrival_time p) (np_current_time s))
         processes_copy.

(** The copies whose pid is not in [completed_processes]. *)
Definition incomplete (processes_copy : list Process) (s : np_state) : list Process :=
  filter (λ p, pid p ∉ np_completed s) processes_copy.

(** [p] goes before [q] by (burst_time, pid). *)
Definition shorter_or_equal (p q : Process) : Prop :=
  (burst_time p < burst_time q)%Qc ∨
  (burst_time p = burst_time q ∧ String.le (pid p) (pid q)).

(** [p] goes before [q] by (priority, pid), both priorities being set. *)
Definition more_urgent_or_equal (p q : Process) : Prop :=
  ∃ a b, priority p = Some a ∧ priority q = Some b ∧
         ((a < b)%Z ∨ (a = b ∧ String.le (pid p) (pid q))).

(** The entries of a schedule that bear the pid [p]. *)
Definition entries_of (p : string) (schedule : list ScheduleEntry)
    : list ScheduleEntry :=
  filter (λ e : ScheduleEntry, e.1.1 = p) schedule.

(** The pids of a list of processes, as a set. *)
Definition pid_set (processes : list Process) : gset string :=
  list_to_set (pid <$> processes).

(** A bound on the turns a non-preemptive loop still takes: two for every
    pid that is not completed (an idle turn, then its run), one less when a
    process is available. *)
Definition np_turns_left (processes_copy : list Process) (s : np_state) : nat :=
  2 * (size (pid_set processes_copy) - size (np_completed s)) -
  (if decide (available processes_copy s = []) then 0 else 1).

(** What holds of the schedule at the head of a non-preemptive loop: the
    completed pids are pids of the copies; a process (not named IDLE) whose
    pid is completed has exactly one entry, of the length of its burst and
    not before its arrival; another one has no entry. *)
Definition np_runs (processes_copy : list Process) (s : np_state) : Prop :=
  np_completed s ⊆ pid_set processes_copy ∧
  ∀ p, p ∈ processes_copy → pid p ≠ IDLE →
    if decide (pid p ∈ np_completed s)
    then ∃ start,
           entries_of (pid p) (np_schedule s) =
             [(pid p, start, (start + burst_time p)%Qc)] ∧
           (arrival_time p ≤ start)%Qc
    else entries_of (pid p) (np_schedule s) = [].

(** The entries of a schedule in which a process runs. *)
Definition busy_entries (schedule : list ScheduleEntry) : list ScheduleEntry :=
  filter (λ e : ScheduleEntry, e.1.1 ≠ IDLE) schedule.

(** The entry [e] is one run of the whole of [p], not before it arrives. *)
Definition whole_run (p : Process) (e : ScheduleEntry) : Prop :=
  e.1.1 = pid p ∧ (arrival_time p ≤ entry_start e)%Qc ∧
  entry_end e = (entry_start e + burst_time p)%Qc.

(** ** Service *)

Definition duration (e : ScheduleEntry) : Qc := (entry_end e - entry_start e)%Qc.

(** The time for which the schedule runs the pid [p]. *)
Definition service (p : string) (schedule : list ScheduleEntry) : Qc :=
  py_sum (duration <$> entries_of p schedule).

(** What holds of the schedule of [round_robin] at the head of its main
    loop, [W0] being the sorted copies as they were created: the copies
    keep their descriptors; the time a process was run for and its
    remaining time add up to its burst time; no remaining time is negative;
    no entry of a process starts before its arrival; the admitted
    processes have arrived; a completed pid is the pid of a copy with no
    time remaining. *)
Record rr_served (W0 : list Process) (σ : store) (s : rr_state) : Prop :=
  mk_rr_served {
  served_desc : Forall2 same_descriptor (work_objs σ) W0;
  served_sum : ∀ k p0, W0 !! k = Some p0 →
    (service (pid p0) (rr_schedule s) + remaining_time (deref σ (Work k)) =
     burst_time p0)%Qc;
  served_left : ∀ k p0, W0 !! k = Some p0 →
    (Q2Qc 0 ≤ remaining_time (deref σ (Work k)))%Qc;
  served_start : ∀ k p0, W0 !! k = Some p0 →
    Forall (λ e, (arrival_time p0 ≤ entry_start e)%Qc)
           (entries_of (pid p0) (rr_schedule s));
  served_admitted : ∀ k p0, W0 !! k = Some p0 → k < rr_i s →
    (arrival_time p0 ≤ rr_current_time s)%Qc;
  served_completed : ∀ x, x ∈ rr_completed s →
    ∃ k p0, W0 !! k = Some p0 ∧ pid p0 = x ∧
            (remaining_time (deref σ (Work k)) ≤ Q2Qc 0)%Qc
}.

(** ** Turns of round_robin *)

(** The turns a process with [r] units of time left still takes with the
    quantum [q]: [r / q], rounded up. *)
Definition turns_for (q r : Qc) : nat := Z.to_nat (Qceiling (this (r / q)%Qc)).

(** The turns of the main loop of [round_robin] on [processes]. *)
Definition rr_turns (processes : list Process) (q : Qc) : nat :=
  sum_list ((λ p, turns_for q (burst_time p)) <$> processes).

(** The turns that are left in a store. *)
Definition rr_turns_left (q : Qc) (σ : store) : nat :=
  sum_list ((λ p, turns_for q (remaining_time p)) <$> work_objs σ).

(** ** round_robin with a quantum that covers every burst *)

(** What holds at the head of the main loop of [round_robin] when no burst
    exceeds the quantum, [W0] being the sorted copies as they were created
    and [j] the number of turns taken: schedule and time are those of the
    loop of [fcfs_scheduling] after [j] processes; the queue holds the
    admitted processes from position [j] on; the completed pids are those
    of the first [j] copies; the other copies have their whole burst
    left. *)
Record rr_as_fcfs (W0 : list Process) (σ : store) (s : rr_state) (j : nat) : Prop :=
  mk_rr_as_fcfs {
  as_fcfs_state :
    foldl fcfs_step ([], Q2Qc 0) (take j W0) = (rr_schedule s, rr_current_time s);
  as_fcfs_queue : rr_ready_queue s = Work <$> seq j (rr_i s - j);
  as_fcfs_le : j ≤ rr_i s;
  as_fcfs_completed : rr_completed s = pid_set (take j W0);
  as_fcfs_untouched : ∀ k p0, W0 !! k = Some p0 → j ≤ k →
    remaining_time (deref σ (Work k)) = burst_time p0
}.

(** ** The heap order of heapq *)

(** The position of the parent of the position [c] of a heap. *)
Definition parent (c : nat) : nat := (c - 1) `div` 2.

(** The heap invariant: no item is below its parent. *)
Definition heap_ok {A} (le : A → A → Prop) (heap : list A) : Prop :=
  ∀ c x y, 0 < c → heap !! c = Some x → heap !! parent c = Some y → le y x.

(** The heap invariant around a hole at [pos], whose own item does not
    count: it holds between the positions other than [pos], and between
    the parent of [pos] and the children of [pos]. *)
Definition heap_hole {A} (le : A → A → Prop) (heap : list A) (pos : nat) : Prop :=
  (∀ c x y, 0 < c → c ≠ pos → parent c ≠ pos →
            heap !! c = Some x → heap !! parent c = Some y → le y x) ∧
  (∀ c x y, 0 < c → 0 < pos → parent c = pos →
            heap !! c = Some x → heap !! parent pos = Some y → le y x).

(** ** A turn of the preemptive loops, in words *)

(** The heap item pushed for the process at position [k]:
    [(key, pid, process)], the key as it is in the store. *)
Definition fresh_item {K} (key : Process → K) (σ : store) (it : K * string * ref)
    : Prop :=
  ∃ k, k < length (work_objs σ) ∧
       it = (key (deref σ (Work k)), pid (deref σ (Work k)), Work k).

(** The order of two heap items: that of their processes. *)
Definition item_le {K} (ple : Process → Process → Prop) (σ : store)
    (a b : K * string * ref) : Prop :=
  ple (deref σ a.2) (deref σ b.2).

(** The states at the head of the main loop of a preemptive algorithm. *)
Inductive p_reachable {K} (key : Process → K) (keq : K → K → bool)
    (klt : K → K → outcome bool) (σ0 : store) : store → p_state K → Prop :=
  | p_reachable_init : p_reachable key keq klt σ0 σ0 p_init
  | p_reachable_turn σ s σ' s' :
      p_reachable key keq klt σ0 σ s →
      size (p_completed s) < length (work_objs σ) →
      p_body key keq klt σ s = (σ', Returned (Continue s')) →
      p_reachable key keq klt σ0 σ' s'.

(** A turn that runs a process.  The ready processes are those of the heap
    and those that have arrived by the current time.  When there are some,
    the one that goes first in the order [ple] becomes the running process,
    and the process that was running joins the heap; when there are none,
    the running process goes on.  The running process runs for
    min(1, remaining_time); the run is a new entry or extends the
    contiguous entry of the same pid; a process left without remaining
    time is completed and no process is running after the turn. *)
Definition p_turn {K} (ple : Process → Process → Prop) (σ : store)
    (s : p_state K) (σ' : store) (s' : p_state K) : Prop :=
  ∃ (c : ref) (e : Qc),
    let t := p_current_time s in
    let ready := (snd <$> p_ready_queue s) ++ arrived_by σ (p_i s) t in
    p_i s' = p_i s + length (arrived_by σ (p_i s) t) ∧
    ((ready = [] ∧ p_current_process s = Some c ∧ p_ready_queue s' = []) ∨
     (c ∈ ready ∧ (∀ r, r ∈ ready → ple (deref σ c) (deref σ r)) ∧
      c :: (snd <$> p_ready_queue s') ≡ₚ
        ready ++ option_list (p_current_process s))) ∧
    (e ≤ Q2Qc 1)%Qc ∧ (e ≤ remaining_time (deref σ c))%Qc ∧
    (e = Q2Qc 1 ∨ e = remaining_time (deref σ c)) ∧
    σ' = assign_remaining_time σ c (remaining_time (deref σ c) - e)%Qc ∧
    emits (p_schedule s) (pid (deref σ c)) t (t + e)%Qc (p_schedule s') ∧
    p_current_time s' = (t + e)%Qc ∧
    if bool_decide (remaining_time (deref σ c) - e ≤ Q2Qc 0)%Qc
    then p_current_process s' = None ∧
         p_completed s' = {[pid (deref σ c)]} ∪ p_completed s
    else p_current_process s' = Some c ∧ p_completed s' = p_completed s.

(** What holds at the head of the main loop of a preemptive algorithm on a
    valid input: the copies are sorted and have different pids and usable
    keys ([good]); the ready queue is a heap for the order of its
    processes, of items as they are pushed; a process that was admitted is
    in the heap, is running, or is completed. *)
Record p_inv {K} (key : Process → K) (ple : Process → Process → Prop)
    (good : Process → Prop) (σ : store) (s : p_state K) : Prop := mk_p_inv {
  p_inv_valid : p_valid σ s;
  p_inv_sorted : StronglySorted arrival_key_le (work_objs σ);
  p_inv_pids : NoDup (pid <$> work_objs σ);
  p_inv_good : Forall good (work_objs σ);
  p_inv_heap : heap_ok (item_le ple σ) (p_ready_queue s);
  p_inv_fresh : Forall (fresh_item key σ) (p_ready_queue s);
  p_inv_accounted : ∀ k, k < p_i s →
    Work k ∈ p_refs (p_ready_queue s) (p_current_process s) ∨
    pid (deref σ (Work k)) ∈ p_completed s
}.

(** [p] goes before [q] by (remaining_time, pid). *)
Definition less_remaining_or_equal (p q : Process) : Prop :=
  (remaining_time p < remaining_time q)%Qc ∨
  (remaining_time p = remaining_time q ∧ String.le (pid p) (pid q)).

(** ** Service of the preemptive loops *)

(** The time for which the copies of a store have run. *)
Definition served_time (σ : store) : Qc :=
  py_sum ((λ p, burst_time p - remaining_time p)%Qc <$> work_objs σ).

(** What holds of the schedule of a preemptive loop at the head of its main
    loop, [W0] being the sorted copies as they were created: the copies
    keep their descriptors; the time a process was run for and its
    remaining time add up to its burst time; no remaining time is negative;
    no entry of a process starts before its arrival; the admitted
    processes have arrived; a completed pid is the pid of a copy with no
    time remaining; the current time is the time for which the copies have
    run; a process that was not admitted has its whole burst left; every
    entry bears the pid of a process. *)
Record p_served {K} (W0 : list Process) (σ : store) (s : p_state K) : Prop :=
  mk_p_served {
  p_served_desc : Forall2 same_descriptor (work_objs σ) W0;
  p_served_sum : ∀ k p0, W0 !! k = Some p0 →
    (service (pid p0) (p_schedule s) + remaining_time (deref σ (Work k)) =
     burst_time p0)%Qc;
  p_served_left : ∀ k p0, W0 !! k = Some p0 →
    (Q2Qc 0 ≤ remaining_time (deref σ (Work k)))%Qc;
  p_served_start : ∀ k p0, W0 !! k = Some p0 →
    Forall (λ e, (arrival_time p0 ≤ entry_start e)%Qc)
           (entries_of (pid p0) (p_schedule s));
  p_served_admitted : ∀ k p0, W0 !! k = Some p0 → k < p_i s →
    (arrival_time p0 ≤ p_current_time s)%Qc;
  p_served_completed : ∀ x, x ∈ p_completed s →
    ∃ k p0, W0 !! k = Some p0 ∧ pid p0 = x ∧
            (remaining_time (deref σ (Work k)) ≤ Q2Qc 0)%Qc;
  p_served_time : p_current_time s = served_time σ;
  p_served_untouched : ∀ k p0, W0 !! k = Some p0 → p_i s ≤ k →
    remaining_time (deref σ (Work k)) = burst_time p0;
  p_served_busy : Forall (λ e : ScheduleEntry, e.1.1 ∈ pid <$> W0) (p_schedule s)
}.

(** No process of [W], a list in the order of (arrival_time, pid), arrives
    after the time the bursts of those before it add up to: a processor
    that starts at time 0 never waits. *)
Definition no_idle_gap (W : list Process) : Prop :=
  ∀ k p, W !! k = Some p →
         (arrival_time p ≤ py_sum (burst_time <$> take k W))%Qc.

(** A scenario without an idle gap. *)
Definition scenario_busy : list Process :=
  [PP "P1" 0 5 2; PP "P2" 1 3 1; PP "P3" 4 2 3].

(** * The arithmetic of the code

    Python's [float] is IEEE 754 binary64: a sum, a difference or a
    quotient is rounded to the nearest float.  The definitions above
    compute with exact rationals.  They compute what the code computes on
    inputs whose times are whole numbers small enough for every sum the
    code forms to be exact ([exact_times]); a statement that depends on the
    values of times is made for such inputs.  Where the rounding itself
    decides a statement, the functions concerned are given again on
    binary64, in [Binary64]. *)

(** ** Inputs on which the arithmetic is exact *)

(** A whole number. *)
Definition whole (x : Qc) : Prop := Qden (this x) = 1%positive.

(** Up to 2^53 every whole number is a float, and the float sum and
    difference of two whole numbers that stay below it are exact. *)
Definition exact_limit : Qc := Qc_of_Z (2 ^ 53).

(** Two non-negative whole numbers whose sum is exact. *)
Definition exact_sum (a b : Qc) : Prop :=
  whole a ∧ whole b ∧ (Q2Qc 0 ≤ a)%Qc ∧ (Q2Qc 0 ≤ b)%Qc ∧
  (a + b ≤ exact_limit)%Qc.

(** Arrival and burst times are non-negative whole numbers, and the number
    of processes times the sum of all of them is at most 2^53: no time of a
    schedule, and no sum of turnaround or waiting times, leaves the range
    in which the floats are the whole numbers. *)
Definition exact_times (processes : list Process) : Prop :=
  Forall (λ p, whole (arrival_time p) ∧ whole (burst_time p) ∧
               (Q2Qc 0 ≤ arrival_time p)%Qc ∧ (Q2Qc 0 ≤ burst_time p)%Qc)
         processes ∧
  (Qc_of_nat (length processes) *
   py_sum ((λ p, arrival_time p + burst_time p)%Qc <$> processes) ≤
   exact_limit)%Qc.

(** ** calculate_metrics and fcfs_scheduling on binary64 *)

Module Binary64.

(** The numbers are Rocq's primitive floats, which are binary64 with the
    operations of IEEE 754, rounding to the nearest float, ties to even. *)

(** An [int] as a float: the nearest one. *)
Definition of_Z (z : Z) : float := SF2Prim (binary_normalize prec emax z 0 false).

(** The rational [m * 2^e]. *)
Definition magnitude (m : positive) (e : Z) : Q :=
  (inject_Z (Z.pos m) * Qpower 2 e)%Q.

(** The value of a float; 0 for an infinity and for nan. *)
Definition to_Qc (x : float) : Qc :=
  match Prim2SF x with
  | S754_finite s m e => Q2Qc (if s then - magnitude m e else magnitude m e)
  | _ => Q2Qc 0
  end.

(** The float nearest to a rational. *)
Definition of_Qc (q : Qc) : float :=
  match Qnum (this q) with
  | Z.pos n => SF2Prim (SF64div (S754_finite false n 0)
                                (S754_finite false (Qden (this q)) 0))
  | Z.neg n => SF2Prim (SF64div (S754_finite true n 0)
                                (S754_finite false (Qden (this q)) 0))
  | Z0 => 0%float
  end.

(** [round(x, 2)] of a float: the value of [x] is rounded to the nearest
    decimal with two places, a tie going to the even one, and the result
    is the float nearest to that decimal; zeros, infinities and nan are
    returned as they are. *)
Definition round2 (x : float) : float :=
  match Prim2SF x with
  | S754_finite s m e =>
      match round_half_even (magnitude m e * 100) with
      | Z.pos n => SF2Prim (SF64div (S754_finite s n 0) (S754_finite false 100 0))
      | _ => SF2Prim (S754_zero s)
      end
  | _ => x
  end.

(** [sum(l)]: from the left, starting at 0. *)
Definition py_sum (l : list float) : float := foldl PrimFloat.add 0%float l.

(** [max(a, b)]: [b] only when it is strictly greater. *)
Definition py_max (a b : float) : float := if PrimFloat.ltb a b then b else a.

Record Process := mkProcess {
  pid : string;
  arrival_time : float;
  burst_time : float;
  priority : option Z;
  remaining_time : float
}.

(** The dataclass constructor followed by [__post_init__]. *)
Definition new_Process (pid : string) (arrival_time burst_time : float)
    (priority : option Z) (remaining_time : option float) : Process :=
  mkProcess pid arrival_time burst_time priority
    (match remaining_time with
     | None => burst_time
     | Some r => r
     end).

Definition ScheduleEntry : Type := string * float * float.

Record SchedulingResult := mkResult {
  schedule : list ScheduleEntry;
  metrics : gmap string float;
  algorithm_name : string
}.

(** The loop that fills [completion_times]. *)
Definition completion_times_of (schedule : list ScheduleEntry) : gmap string float :=
  foldl (λ (completion_times : gmap string float) (e : ScheduleEntry),
           let '(pid, _, end_time) := e in
           if bool_decide (pid ≠ IDLE) then <[pid := end_time]> completion_times
           else completion_times)
        ∅ schedule.

(** The loop over [processes] that fills [turnaround_times] and
    [waiting_times]. *)
Definition collect_times (completion_times : gmap string float)
    (processes : list Process) : list float * list float :=
  foldl (λ (acc : list float * list float) (process : Process),
           let '(turnaround_times, waiting_times) := acc in
           match completion_times !! pid process with
           | Some completion_time =>
               let turnaround_time :=
                 (completion_time - arrival_time process)%float in
               let waiting_time := (turnaround_time - burst_time process)%float in
               (turnaround_times ++ [turnaround_time],
                waiting_times ++ [waiting_time])
           | None => acc
           end)
        ([], []) processes.

(** [sum(l) / len(l) if l else 0] *)
Definition average (l : list float) : float :=
  match l with
  | [] => 0%float
  | _ => (py_sum l / of_Z (Z.of_nat (length l)))%float
  end.

(** [max(end_time for _, _, end_time in schedule) if schedule else 0] *)
Definition max_end_time (schedule : list ScheduleEntry) : float :=
  match schedule with
  | [] => 0%float
  | (_, _, e) :: rest => foldl (λ m (x : ScheduleEntry), py_max m (snd x)) e rest
  end.

Definition busy_time (schedule : list ScheduleEntry) : float :=
  py_sum (map (λ e : ScheduleEntry, let '(_, s, t) := e in (t - s)%float)
              (filter (λ e : ScheduleEntry, fst (fst e) ≠ IDLE) schedule)).

Definition calculate_metrics (processes : list Process)
    (schedule : list ScheduleEntry) : gmap string float :=
  let completion_times := completion_times_of schedule in
  let '(turnaround_times, waiting_times) :=
    collect_times completion_times processes in
  let avg_turnaround_time := average turnaround_times in
  let avg_waiting_time := average waiting_times in
  let total_time := max_end_time schedule in
  let cpu_time := busy_time schedule in
  let cpu_utilization :=
    if PrimFloat.ltb 0%float total_time
    then (cpu_time / total_time * 100)%float else 0%float in
  <["average_turnaround_time" := round2 avg_turnaround_time]>
  (<["average_waiting_time" := round2 avg_waiting_time]>
  (<["cpu_utilization" := round2 cpu_utilization]>
  (<["total_processes" := of_Z (Z.of_nat (length processes))]>
  (<["total_time" := round2 total_time]> ∅)))).

(** The key [(p.arrival_time, p.pid)] of [sorted]. *)
Definition arrival_key_ltb (p q : Process) : bool :=
  if PrimFloat.eqb (arrival_time p) (arrival_time q)
  then String.ltb (pid p) (pid q)
  else PrimFloat.ltb (arrival_time p) (arrival_time q).

(** One turn of the [for] loop over [sorted_processes]. *)
Definition fcfs_step (acc : list ScheduleEntry * float) (process : Process)
    : list ScheduleEntry * float :=
  let '(schedule, current_time) := acc in
  let '(schedule, current_time) :=
    if PrimFloat.ltb current_time (arrival_time process)
    then (schedule ++ [(IDLE, current_time, arrival_time process)],
          arrival_time process)
    else (schedule, current_time) in
  let start_time := current_time in
  let end_time := (current_time + burst_time process)%float in
  (schedule ++ [(pid process, start_time, end_time)], end_time).

(** [fcfs_scheduling] writes to no object and raises nothing: it is given
    here as a function from the list to the result. *)
Definition fcfs_scheduling (processes : list Process) : SchedulingResult :=
  match processes with
  | [] => mkResult [] ∅ "FCFS"
  | _ =>
      let sorted_processes := sorted arrival_key_ltb processes in
      let '(schedule, _) := foldl fcfs_step ([], 0%float) sorted_processes in
      let metrics := calculate_metrics processes schedule in
      mkResult schedule metrics "First-Come, First-Served (FCFS)"
  end.

(** *** The metrics, in the words of the specification *)

(** The completion time of a process: the end time of the last entry of the
    schedule that is not idle and bears its pid. *)
Definition completion_time (schedule : list ScheduleEntry) (p : string)
    : option float :=
  snd <$> last (filter (λ e : ScheduleEntry, e.1.1 ≠ IDLE ∧ e.1.1 = p) schedule).

Definition turnaround_time (schedule : list ScheduleEntry) (p : Process)
    : option float :=
  c ← completion_time schedule (pid p); Some (c - arrival_time p)%float.

Definition waiting_time (schedule : list ScheduleEntry) (p : Process)
    : option float :=
  t ← turnaround_time schedule p; Some (t - burst_time p)%float.

(** The arithmetic mean as binary64 computes it: the values are added from
    the first to the last and the sum is divided by their number; 0 for no
    value at all. *)
Definition mean (l : list float) : float :=
  match l with
  | [] => 0%float
  | _ => (foldl PrimFloat.add 0%float l / of_Z (Z.of_nat (length l)))%float
  end.

End Binary64.

(** The input and the output of the functions on binary64, as the exact
    numbers they stand for. *)
Definition exact_process (p : Binary64.Process) : Process :=
  mkProcess (Binary64.pid p) (Binary64.to_Qc (Binary64.arrival_time p))
    (Binary64.to_Qc (Binary64.burst_time p)) (Binary64.priority p)
    (Binary64.to_Qc (Binary64.remaining_time p)).

Definition exact_entry (e : Binary64.ScheduleEntry) : ScheduleEntry :=
  (e.1.1, Binary64.to_Qc e.1.2, Binary64.to_Qc e.2).

(** The other way round: every number becomes the float nearest to it. *)
Definition binary64_process (p : Process) : Binary64.Process :=
  Binary64.mkProcess (pid p) (Binary64.of_Qc (arrival_time p))
    (Binary64.of_Qc (burst_time p)) (priority p)
    (Binary64.of_Qc (remaining_time p)).

Definition binary64_entry (e : ScheduleEntry) : Binary64.ScheduleEntry :=
  (e.1.1, Binary64.of_Qc e.1.2, Binary64.of_Qc e.2).

(** ** Scenarios for the turns *)

(** P1 is running when P2 and P3 arrive; both need more time than P1 has
    left, and both are less urgent. *)
Definition scenario_displace : list Process :=
  [PP "P1" 0 3 1; PP "P2" 1 5 2; PP "P3" 1 4 3].

(** The state of a non-preemptive loop on [scenario_busy] once P1 has run:
    P2 and P3 are available. *)
Definition scenario_np_state : np_state :=
  mkNp [("P1", Qc_of_Z 0, Qc_of_Z 5)] (Qc_of_Z 5) {["P1"]}.

(** * Properties *)

(** ** Linear arithmetic on [Qc], through [Q] *)

Lemma Qc_eq_Qeq (x y : Qc) : x = y ↔ (this x == this y)%Q.
Proof. split; [by intros ->|apply Qc_is_canon]. Qed.

Ltac qc_lra :=
  repeat match goal with
  | H : @eq Qc _ _ |- _ => apply Qc_eq_Qeq in H
  | H : not (@eq Qc _ _) |- _ => rewrite Qc_eq_Qeq in H
  | |- @eq Qc _ _ => apply Qc_eq_Qeq
  | |- not (@eq Qc _ _) => rewrite Qc_eq_Qeq
  end;
  unfold Qcle, Qclt, Qcminus, Qcplus, Qcopp, Q2Qc in *; cbn [this] in *;
  rewrite ?Qred_correct in *; lra.

(** ** Fuel: a loop that ends keeps its outcome when given more fuel *)

Lemma np_loop_more_fuel {K} (key : Process → K) keq klt pc f f' s r :
  np_loop key keq klt pc f s = r → ended r → f ≤ f' →
  np_loop key keq klt pc f' s = r.
Proof.
  revert f' s r. induction f as [|f IH]; intros f' s r Hr He Hle.
  - destruct f'; simpl in *; [done|].
    case_bool_decide; [by subst|done].
  - destruct f' as [|f']; [lia|]. simpl in *.
    case_bool_decide; [|done].
    destruct (np_body key keq klt pc s) as [s'| |]; simpl in *; [|done|done].
    apply IH; [done|done|lia].
Qed.

Lemma p_loop_more_fuel {K} (key : Process → K) keq klt f f' σ s σ' r :
  p_loop key keq klt f σ s = (σ', r) → ended r → f ≤ f' →
  p_loop key keq klt f' σ s = (σ', r).
Proof.
  revert f' σ s. induction f as [|f IH]; intros f' σ s Hr He Hle.
  - destruct f'; simpl in *; [done|].
    case_bool_decide; [by simplify_eq|done].
  - destruct f' as [|f']; [lia|]. simpl in *.
    case_bool_decide; [|done].
    destruct (p_body key keq klt σ s) as [σ1 [[s1|s1]| |]]; [|done..].
    apply IH; [done|done|lia].
Qed.

Lemma rr_loop_more_fuel q f f' σ s σ' r :
  rr_loop q f σ s = (σ', r) → ended r → f ≤ f' →
  rr_loop q f' σ s = (σ', r).
Proof.
  revert f' σ s. induction f as [|f IH]; intros f' σ s Hr He Hle.
  - destruct f'; simpl in *; [done|].
    case_bool_decide; [by simplify_eq|done].
  - destruct f' as [|f']; [lia|]. simpl in *.
    case_bool_decide; [|done].
    destruct (rr_body q σ s) as [σ1 [[s1|s1]| |]]; [|done..].
    apply IH; [done|done|lia].
Qed.

Lemma sjf_preemptive_more_fuel f f' ps c r :
  sjf_preemptive f ps = (c, r) → ended r → f ≤ f' → sjf_preemptive f' ps = (c, r).
Proof.
  unfold sjf_preemptive. destruct ps as [|p ps]; [done|].
  intros H He Hle.
  destruct (p_loop _ _ _ f _ _) as [σ' r'] eqn:E.
  rewrite (p_loop_more_fuel _ _ _ _ _ _ _ _ _ E); [done| |done].
  simplify_eq. by destruct r'.
Qed.

Lemma priority_preemptive_more_fuel f f' ps c r :
  priority_preemptive f ps = (c, r) → ended r → f ≤ f' →
  priority_preemptive f' ps = (c, r).
Proof.
  unfold priority_preemptive. destruct ps as [|p ps]; [done|].
  intros H He Hle. destruct (check_priorities _); [|done..].
  destruct (p_loop _ _ _ f _ _) as [σ' r'] eqn:E.
  rewrite (p_loop_more_fuel _ _ _ _ _ _ _ _ _ E); [done| |done].
  simplify_eq. by destruct r'.
Qed.

Lemma round_robin_more_fuel f f' ps q c r :
  round_robin f ps q = (c, r) → ended r → f ≤ f' → round_robin f' ps q = (c, r).
Proof.
  unfold round_robin. destruct ps as [|p ps]; [done|].
  intros H He Hle. destruct (Qc_leb _ _); [done|].
  destruct (rr_init _); [|done..].
  destruct (rr_loop _ f _ _) as [σ' r'] eqn:E.
  rewrite (rr_loop_more_fuel _ _ _ _ _ _ _ E); [done| |done].
  simplify_eq. by destruct r'.
Qed.

(** ** sjf_preemptive and priority_preemptive on small inputs *)

Lemma sjf_preemptive_at_least fuel extra (ps : list Process) c r :
  sjf_preemptive fuel ps = (c, r) → ended r →
  sjf_preemptive (fuel + extra) ps = (c, r).
Proof. intros H He. apply (sjf_preemptive_more_fuel fuel); [done..|lia]. Qed.

(** C1: on P1(arrival 0, burst 2), P2(arrival 0, burst 5), [sjf_preemptive]
    (given the 7 turns of its loop that it needs, or more) returns the
    schedule (P1,0,1), (P2,1,2), (P1,2,3), (P2,3,7): during the step from 1
    to 2 it runs P2, whose remaining time is 5, although P1 has arrived, is
    incomplete and has the least remaining time, 1. *)
Theorem sjf_preemptive_runs_longer_job extra :
  schedule <$> (sjf_preemptive (7 + extra) [P "P1" 0 2; P "P2" 0 5]).2 =
  Returned [("P1", Qc_of_Z 0, Qc_of_Z 1); ("P2", Qc_of_Z 1, Qc_of_Z 2);
            ("P1", Qc_of_Z 2, Qc_of_Z 3); ("P2", Qc_of_Z 3, Qc_of_Z 7)].
Proof.
  destruct (sjf_preemptive 7 [P "P1" 0 2; P "P2" 0 5]) as [c r] eqn:E.
  assert (ended r ∧
          schedule <$> r =
          Returned [("P1", Qc_of_Z 0, Qc_of_Z 1); ("P2", Qc_of_Z 1, Qc_of_Z 2);
                    ("P1", Qc_of_Z 2, Qc_of_Z 3); ("P2", Qc_of_Z 3, Qc_of_Z 7)])
    as [He Hr].
  { replace r with (sjf_preemptive 7 [P "P1" 0 2; P "P2" 0 5]).2 by by rewrite E.
    split; compute_done. }
  by rewrite (sjf_preemptive_at_least 7 extra _ _ _ E He).
Qed.

(** ** round_robin: the quantum check *)


Lemma round_robin_quantum_guard fuel (processes : list Process) time_quantum :
  processes ≠ [] → (time_quantum ≤ Q2Qc 0)%Qc →
  round_robin fuel processes time_quantum = (processes, Raised InvalidQuantum).
Proof.
  intros Hne Hq. unfold round_robin. destruct processes; [done|].
  unfold Qc_leb. by rewrite bool_decide_eq_true_2.
Qed.



(** ** The priority check *)

Lemma check_priorities_missing processes :
  (∃ p, p ∈ processes ∧ priority p = None) →
  ∃ p, p ∈ processes ∧ priority p = None ∧
       check_priorities processes = Raised (MissingPriority (pid p)).
Proof.
  intros (p & Hin & Hp). induction processes as [|p0 ps IH]; [by inversion Hin|].
  simpl. destruct (priority p0) eqn:E.
  - apply elem_of_cons in Hin as [->|Hin]; [congruence|].
    destruct (IH Hin) as (p' & ? & ? & ?). exists p'. by rewrite elem_of_cons; auto.
  - exists p0. by rewrite elem_of_cons; auto.
Qed.

(** C8: on every non-empty list in which some process has no priority,
    [priority_non_preemptive] and [priority_preemptive] raise the
    missing-attribute error for such a process, whatever the fuel: the
    outcome is the error alone, no schedule entry and no result exist, and
    the caller's objects are as they were. *)
Theorem priority_missing_fails_fast fuel processes :
  processes ≠ [] → (∃ p, p ∈ processes ∧ priority p = None) →
  ∃ p, p ∈ processes ∧ priority p = None ∧
    priority_non_preemptive fuel processes =
      (processes, Raised (MissingPriority (pid p))) ∧
    priority_preemptive fuel processes =
      (processes, Raised (MissingPriority (pid p))).
Proof.
  intros Hne Hex. destruct (check_priorities_missing _ Hex) as (p & Hin & Hp & Hc).
  exists p. split_and!; [done|done| |].
  - unfold priority_non_preemptive. destruct processes; [done|]. by rewrite Hc.
  - unfold priority_preemptive. destruct processes; [done|]. by rewrite Hc.
Qed.

Lemma priority_missing_fails_fast_witness :
  ∃ p, p ∈ [P "P1" 0 3; PP "P2" 1 2 1] ∧ priority p = None ∧
    priority_non_preemptive 9 [P "P1" 0 3; PP "P2" 1 2 1] =
      ([P "P1" 0 3; PP "P2" 1 2 1], Raised (MissingPriority (pid p))) ∧
    priority_preemptive 9 [P "P1" 0 3; PP "P2" 1 2 1] =
      ([P "P1" 0 3; PP "P2" 1 2 1], Raised (MissingPriority (pid p))).
Proof.
  apply priority_missing_fails_fast; [done|].
  exists (P "P1" 0 3). split; [apply list_elem_of_here|done].
Defined.

(** ** calculate_metrics *)

Lemma completion_times_of_lookup (schedule : list ScheduleEntry) (p : string) :
  completion_times_of schedule !! p = completion_time schedule p.
Proof.
  unfold completion_times_of, completion_time.
  induction schedule as [|[[q s] t] sched IH] using rev_ind; [done|].
  rewrite foldl_app, filter_app, last_app. simpl.
  rewrite filter_cons, filter_nil. simpl.
  case_bool_decide as Hq.
  - destruct (decide (q = p)) as [->|Hne].
    + rewrite lookup_insert_eq. rewrite decide_True by done. done.
    + rewrite lookup_insert_ne by done. rewrite decide_False by tauto. done.
  - rewrite decide_False by tauto. done.
Qed.

Lemma collect_times_from (ct : gmap string Qc) (processes : list Process)
    (a b : list Qc) :
  foldl (λ (acc : list Qc * list Qc) (process : Process),
           let '(turnaround_times, waiting_times) := acc in
           match ct !! pid process with
           | Some completion_time =>
               let turnaround_time := (completion_time - arrival_time process)%Qc in
               let waiting_time := (turnaround_time - burst_time process)%Qc in
               (turnaround_times ++ [turnaround_time],
                waiting_times ++ [waiting_time])
           | None => acc
           end)
        (a, b) processes =
  (a ++ omap (λ p, c ← ct !! pid p; Some (c - arrival_time p)%Qc) processes,
   b ++ omap (λ p, c ← ct !! pid p; Some (c - arrival_time p - burst_time p)%Qc)
             processes).
Proof.
  revert a b. induction processes as [|p ps IH]; intros a b; simpl.
  - by rewrite !app_nil_r.
  - destruct (ct !! pid p) as [c|]; simpl; [|apply IH].
    rewrite IH. by rewrite <- !app_assoc.
Qed.

Lemma collect_times_spec (schedule : list ScheduleEntry) (processes : list Process) :
  collect_times (completion_times_of schedule) processes =
  (omap (turnaround_time schedule) processes, omap (waiting_time schedule) processes).
Proof.
  unfold collect_times. rewrite collect_times_from. simpl. f_equal.
  - apply list_omap_ext, Forall_Forall2_diag, Forall_forall. intros p _.
    unfold turnaround_time. by rewrite completion_times_of_lookup.
  - apply list_omap_ext, Forall_Forall2_diag, Forall_forall. intros p _.
    unfold waiting_time, turnaround_time. rewrite completion_times_of_lookup.
    by destruct (completion_time schedule (pid p)).
Qed.

Lemma foldl_Qcplus_foldr (z : Qc) (l : list Qc) :
  foldl Qcplus z l = (z + foldr Qcplus (Q2Qc 0) l)%Qc.
Proof.
  revert z. induction l as [|x l IH]; intros z; simpl.
  - by rewrite Qcplus_0_r.
  - by rewrite IH, Qcplus_assoc.
Qed.

Lemma average_mean (l : list Qc) : average l = mean l.
Proof.
  destruct l as [|x l]; [done|]. unfold average, mean, py_sum.
  by rewrite foldl_Qcplus_foldr, Qcplus_0_l.
Qed.

(** ** Lists updated in place *)

Lemma insert_there_perm {A} (l : list A) (j : nat) (x y : A) :
  l !! j = Some y → y :: <[j := x]> l ≡ₚ x :: l.
Proof.
  revert j. induction l as [|a l IH]; intros [|j] Hj; simplify_eq/=.
  - apply Permutation_swap.
  - trans (a :: y :: <[j := x]> l); [apply Permutation_swap|].
    trans (a :: x :: l); [by f_equiv; apply IH|apply Permutation_swap].
Qed.

(** Moving [l !! j] to position [i] and putting [x] at [j] is putting [x]
    at [i], up to the order of the elements. *)
Lemma insert_move_perm {A} (l : list A) (i j : nat) (x y : A) :
  l !! j = Some y → i ≠ j → i < length l →
  <[j := x]> (<[i := y]> l) ≡ₚ <[i := x]> l.
Proof.
  revert i j. induction l as [|a l IH]; intros [|i] [|j] Hj Hne Hi;
    simplify_eq/=; try lia.
  - by apply insert_there_perm.
  - clear IH Hne. revert i Hi. induction l as [|b l IH]; intros [|i] Hi; simpl in *;
      try lia; [apply Permutation_swap|].
    trans (b :: x :: <[i := y]> l); [apply Permutation_swap|].
    trans (b :: y :: <[i := x]> l); [f_equiv; apply IH; lia|apply Permutation_swap].
  - f_equiv. apply IH; [done|congruence|lia].
Qed.

(** ** heapq keeps the items *)

#[local] Arguments Nat.div _ _ : simpl never.

Section heapq_items.
Context {A : Type} (lt : A → A → outcome bool).

Lemma siftdown_loop_perm fuel (heap : list A) startpos pos newitem heap' :
  pos < length heap →
  siftdown_loop lt fuel heap startpos pos newitem = Returned heap' →
  heap' ≡ₚ <[pos := newitem]> heap.
Proof.
  revert heap pos. induction fuel as [|fuel IH]; intros heap pos Hpos; simpl.
  - case_bool_decide; [done|]. by intros [= <-].
  - case_bool_decide as Hlt; [|by intros [= <-]].
    destruct (heap !! _) as [parent|] eqn:Hp; [|done].
    destruct (lt newitem parent) as [[]| |]; simpl; [|by intros [= <-]|done..].
    intros H. apply IH in H.
    + rewrite H. apply insert_move_perm; [done| |done].
      pose proof (Nat.Div0.div_lt_upper_bound (pos - 1) 2 pos). lia.
    + rewrite length_insert. by eapply lookup_lt_Some.
Qed.

Lemma siftdown_perm (heap : list A) startpos pos heap' :
  siftdown lt heap startpos pos = Returned heap' → heap' ≡ₚ heap.
Proof.
  unfold siftdown. destruct (heap !! pos) as [newitem|] eqn:Hp; [|done].
  intros H. apply siftdown_loop_perm in H; [|by eapply lookup_lt_Some].
  by rewrite H, list_insert_id.
Qed.

Lemma smaller_child_ne (heap : list A) endpos pos childpos :
  smaller_child lt heap endpos (2 * pos + 1) = Returned childpos → childpos ≠ pos.
Proof.
  unfold smaller_child. case_bool_decide; [|intros [= <-]; lia].
  repeat case_match; try done.
  destruct (lt _ _) as [[]| |]; simpl; intros [= <-]; lia.
Qed.

Lemma siftup_loop_perm fuel (heap : list A) endpos pos heap' pos' x :
  pos < length heap →
  siftup_loop lt fuel heap endpos pos = Returned (heap', pos') →
  pos' < length heap' ∧ <[pos' := x]> heap' ≡ₚ <[pos := x]> heap.
Proof.
  revert heap pos. induction fuel as [|fuel IH]; intros heap pos Hpos; simpl.
  - case_bool_decide; [done|]. by intros [= <- <-].
  - case_bool_decide as Hlt; [|by intros [= <- <-]].
    destruct (smaller_child _ _ _ _) as [childpos| |] eqn:Hch; simpl; [|done..].
    apply smaller_child_ne in Hch as Hne.
    destruct (heap !! childpos) as [c|] eqn:Hc; [|done].
    intros H. apply IH in H as [? H];
      [|rewrite length_insert; by eapply lookup_lt_Some].
    split; [done|]. rewrite H. by apply insert_move_perm.
Qed.

Lemma siftup_perm (heap : list A) pos heap' :
  siftup lt heap pos = Returned heap' → heap' ≡ₚ heap.
Proof.
  unfold siftup. destruct (heap !! pos) as [newitem|] eqn:Hp; [|done].
  destruct (siftup_loop _ _ _ _ _) as [[heap1 pos1]| |] eqn:Hl; simpl; [|done..].
  intros H%siftdown_perm.
  eapply (siftup_loop_perm _ _ _ _ _ _ newitem) in Hl as [? Hl];
    [|by eapply lookup_lt_Some].
  by rewrite H, Hl, list_insert_id.
Qed.

Lemma heappush_perm (heap : list A) item heap' :
  heappush lt heap item = Returned heap' → heap' ≡ₚ item :: heap.
Proof.
  unfold heappush. intros ->%siftdown_perm.
  by rewrite Permutation_app_comm.
Qed.

Lemma heappop_perm (heap : list A) item heap' :
  heappop lt heap = Returned (item, heap') → heap ≡ₚ item :: heap'.
Proof.
  unfold heappop. destruct (last heap) as [lastelt|] eqn:Hlast; [|done].
  apply last_Some in Hlast as [front ->].
  rewrite removelast_last.
  destruct front as [|returnitem rest]; simpl; [by intros [= <- <-]|].
  destruct (siftup _ _ _) as [heap1| |] eqn:Hs; simpl; [|done..].
  intros [= <- <-]. apply siftup_perm in Hs. rewrite Hs.
  f_equiv. apply (Permutation_app_comm rest [lastelt]).
Qed.
End heapq_items.

(** Two comparisons that agree on the items of a heap give the same heap. *)
Section heapq_ext.
Context {A : Type} (lt lt' : A → A → outcome bool) (Q : A → Prop).
Hypothesis lt_agree : ∀ a b, Q a → Q b → lt a b = lt' a b.

Lemma siftdown_loop_ext fuel (heap : list A) startpos pos newitem :
  Forall Q heap → Q newitem →
  siftdown_loop lt fuel heap startpos pos newitem =
  siftdown_loop lt' fuel heap startpos pos newitem.
Proof.
  revert heap pos. induction fuel as [|fuel IH]; intros heap pos Hh Hn; simpl; [done|].
  case_bool_decide; [|done].
  destruct (heap !! _) as [parent|] eqn:Hp; [|done].
  assert (Q parent) by by eapply Forall_lookup_1.
  rewrite lt_agree by done.
  destruct (lt' newitem parent) as [[]| |]; simpl; [|done..].
  apply IH; [|done]. by apply Forall_insert.
Qed.

Lemma siftdown_ext (heap : list A) startpos pos :
  Forall Q heap → siftdown lt heap startpos pos = siftdown lt' heap startpos pos.
Proof.
  intros Hh. unfold siftdown. destruct (heap !! pos) eqn:Hp; [|done].
  apply siftdown_loop_ext; [done|]. by eapply Forall_lookup_1.
Qed.

Lemma smaller_child_ext (heap : list A) endpos childpos :
  Forall Q heap →
  smaller_child lt heap endpos childpos = smaller_child lt' heap endpos childpos.
Proof.
  intros Hh. unfold smaller_child. case_bool_decide; [|done].
  destruct (heap !! childpos) as [c|] eqn:Hc; [|done].
  destruct (heap !! (childpos + 1)) as [r|] eqn:Hr; [|done].
  rewrite lt_agree; [done|by eapply Forall_lookup_1..].
Qed.

Lemma siftup_loop_ext fuel (heap : list A) endpos pos :
  Forall Q heap →
  siftup_loop lt fuel heap endpos pos = siftup_loop lt' fuel heap endpos pos.
Proof.
  revert heap pos. induction fuel as [|fuel IH]; intros heap pos Hh; simpl; [done|].
  case_bool_decide; [|done].
  rewrite smaller_child_ext by done.
  destruct (smaller_child lt' _ _ _) as [childpos| |]; simpl; [|done..].
  destruct (heap !! childpos) as [c|] eqn:Hc; [|done].
  apply IH. apply Forall_insert; [done|]. by eapply Forall_lookup_1.
Qed.

Lemma siftup_loop_Forall fuel (heap : list A) endpos pos heap' pos' :
  Forall Q heap →
  siftup_loop lt fuel heap endpos pos = Returned (heap', pos') → Forall Q heap'.
Proof.
  revert heap pos. induction fuel as [|fuel IH]; intros heap pos Hh; simpl.
  - case_bool_decide; [done|]. by intros [= <- <-].
  - case_bool_decide; [|by intros [= <- <-]].
    destruct (smaller_child lt _ _ _) as [childpos| |]; simpl; [|done..].
    destruct (heap !! childpos) as [c|] eqn:Hc; [|done].
    apply IH. apply Forall_insert; [done|]. by eapply Forall_lookup_1.
Qed.

Lemma siftup_ext (heap : list A) pos :
  Forall Q heap → siftup lt heap pos = siftup lt' heap pos.
Proof.
  intros Hh. unfold siftup. destruct (heap !! pos) as [newitem|] eqn:Hp; [|done].
  rewrite siftup_loop_ext by done.
  destruct (siftup_loop lt' _ _ _ _) as [[heap1 pos1]| |] eqn:Hl; simpl; [|done..].
  apply siftdown_ext. apply Forall_insert; [|by eapply Forall_lookup_1].
  eapply siftup_loop_Forall; [done|]. by rewrite siftup_loop_ext.
Qed.

Lemma heappush_ext (heap : list A) item :
  Forall Q heap → Q item → heappush lt heap item = heappush lt' heap item.
Proof.
  intros Hh Hi. unfold heappush. apply siftdown_ext.
  apply Forall_app; split; [done|]. by apply Forall_singleton.
Qed.

Lemma heappop_ext (heap : list A) :
  Forall Q heap → heappop lt heap = heappop lt' heap.
Proof.
  intros Hh. unfold heappop. destruct (last heap) as [lastelt|] eqn:Hlast; [|done].
  apply last_Some in Hlast as [front ->]. rewrite removelast_last.
  apply Forall_app in Hh as [Hf Hl]. rewrite Forall_singleton in Hl.
  destruct front as [|returnitem rest]; [done|]. simpl.
  rewrite siftup_ext; [done|].
  apply Forall_cons in Hf as [_ Hf]. by apply Forall_cons.
Qed.
End heapq_ext.

(** ** The store: what [execute] touches *)

Lemma rebase_id σ : rebase (caller_objs σ) σ = σ.
Proof. by destruct σ. Qed.

Lemma deref_rebase X σ r : is_work r → deref (rebase X σ) r = deref σ r.
Proof. by destruct r. Qed.

Lemma execute_rebase X σ r q :
  is_work r →
  execute (rebase X σ) r q = (rebase X (execute σ r q).1, (execute σ r q).2).
Proof. by destruct r. Qed.

Lemma execute_caller_objs σ r q :
  is_work r → caller_objs (execute σ r q).1 = caller_objs σ.
Proof. by destruct r. Qed.

Lemma execute_length σ r q :
  length (work_objs (execute σ r q).1) = length (work_objs σ).
Proof. destruct r; simpl; [done|]. by rewrite length_alter. Qed.

(** ** round_robin works on its copies only *)

Lemma rr_admit_rebase X fuel σ t queue i :
  rr_admit fuel (rebase X σ) t queue i = rr_admit fuel σ t queue i.
Proof.
  revert queue i. induction fuel as [|fuel IH]; intros queue i; simpl; [done|].
  by rewrite IH.
Qed.

Lemma rr_admit_work fuel σ t queue i queue' i' :
  rr_admit fuel σ t queue i = Returned (queue', i') →
  Forall is_work queue → Forall is_work queue'.
Proof.
  revert queue i. induction fuel as [|fuel IH]; intros queue i; simpl.
  - case_match; [done|]. by intros [= <- <-].
  - case_match; [|by intros [= <- <-]].
    intros Ha Hq. eapply IH; [done|]. apply Forall_app; split; [done|].
    by apply Forall_singleton.
Qed.

Lemma rr_wait_rebase X σ s : rr_wait (rebase X σ) s = rr_wait σ s.
Proof. unfold rr_wait. simpl length. by rewrite !rr_admit_rebase. Qed.

Lemma rr_wait_work σ s sc t rq i :
  rr_wait σ s = Returned (Some (sc, t, rq, i)) →
  Forall is_work (rr_ready_queue s) → Forall is_work rq.
Proof.
  unfold rr_wait. destruct (rr_ready_queue s) eqn:E.
  - case_bool_decide; [|done].
    destruct (rr_admit _ _ _ _ _) as [[rq' i']| |] eqn:Ha; simpl; [|done..].
    intros [= <- <- <- <-] ?. by eapply rr_admit_work.
  - by intros [= <- <- <- <-].
Qed.

Lemma rr_run_rebase X q σ completed sc t rq i :
  Forall is_work rq →
  rr_run q (rebase X σ) completed sc t rq i =
  (rebase X (rr_run q σ completed sc t rq i).1, (rr_run q σ completed sc t rq i).2).
Proof.
  intros Hrq. unfold rr_run. destruct rq as [|c rq]; [done|].
  apply Forall_cons in Hrq as [Hc Hrq].
  rewrite execute_rebase by done.
  destruct (execute σ c q) as [σ1 e]. simpl.
  rewrite !rr_admit_rebase, !deref_rebase by done.
  destruct (rr_admit _ _ _ _ _) as [[rq' i']| |]; [|done..].
  by destruct (is_completed _).
Qed.

Lemma rr_run_work q σ completed sc t rq i σ' s' :
  Forall is_work rq →
  rr_run q σ completed sc t rq i = (σ', Returned (Continue s')) →
  Forall is_work (rr_ready_queue s').
Proof.
  intros Hrq. unfold rr_run. destruct rq as [|c rq]; [done|].
  apply Forall_cons in Hrq as [Hc Hrq].
  destruct (execute σ c q) as [σ1 e].
  destruct (rr_admit _ _ _ _ _) as [[rq' i']| |] eqn:Ha; [|done..].
  apply rr_admit_work in Ha; [|done].
  destruct (is_completed _); intros [= <- <-]; simpl; [done|].
  apply Forall_app; split; [done|]. by apply Forall_singleton.
Qed.

Lemma rr_body_rebase X q σ s :
  Forall is_work (rr_ready_queue s) →
  rr_body q (rebase X σ) s = (rebase X (rr_body q σ s).1, (rr_body q σ s).2).
Proof.
  intros Hq. unfold rr_body. rewrite rr_wait_rebase.
  destruct (rr_wait σ s) as [[[[[sc t] rq] i]|]| |] eqn:Hw; [|done..].
  apply rr_run_rebase. by eapply rr_wait_work.
Qed.

Lemma rr_body_work q σ s σ' s' :
  Forall is_work (rr_ready_queue s) →
  rr_body q σ s = (σ', Returned (Continue s')) →
  Forall is_work (rr_ready_queue s').
Proof.
  intros Hq. unfold rr_body.
  destruct (rr_wait σ s) as [[[[[sc t] rq] i]|]| |] eqn:Hw; [|done..].
  apply rr_run_work. by eapply rr_wait_work.
Qed.

Lemma rr_loop_rebase X q fuel σ s :
  Forall is_work (rr_ready_queue s) →
  rr_loop q fuel (rebase X σ) s =
  (rebase X (rr_loop q fuel σ s).1, (rr_loop q fuel σ s).2).
Proof.
  revert σ s. induction fuel as [|fuel IH]; intros σ s Hq; simpl.
  - by case_bool_decide.
  - case_bool_decide; [|done]. rewrite rr_body_rebase by done.
    destruct (rr_body q σ s) as [σ1 [[s1|s1]| |]] eqn:Hb; simpl; [|done..].
    apply IH. by eapply rr_body_work.
Qed.

Lemma rr_loop_caller_objs q fuel σ s :
  Forall is_work (rr_ready_queue s) →
  caller_objs (rr_loop q fuel σ s).1 = caller_objs σ.
Proof.
  intros Hq. rewrite <- (rebase_id σ) at 1. by rewrite rr_loop_rebase.
Qed.

Lemma rr_init_work σ s : rr_init σ = Returned s → Forall is_work (rr_ready_queue s).
Proof.
  unfold rr_init. destruct (rr_admit _ _ _ _ _) as [[rq i]| |] eqn:Ha; simpl; [|done..].
  intros [= <-]. simpl. by eapply rr_admit_work.
Qed.

Lemma rr_init_rebase X σ : rr_init (rebase X σ) = rr_init σ.
Proof. unfold rr_init. simpl length. by rewrite rr_admit_rebase. Qed.

(** ** The preemptive loops work on their copies only *)

Section preemptive_refs.
Context {K : Type} (key : Process → K).
Context (keq : K → K → bool) (klt : K → K → outcome bool).

Abbreviation item := (K * string * ref)%type.
Abbreviation work_item := (λ e : item, is_work e.2).

Lemma item_lt_rebase X σ (a b : item) :
  is_work a.2 → is_work b.2 →
  item_lt keq klt (rebase X σ) a b = item_lt keq klt σ a b.
Proof.
  destruct a as [[ka pa] ra], b as [[kb pb] rb]. simpl. intros Ha Hb.
  by rewrite !deref_rebase.
Qed.

Lemma heappush_rebase X σ (heap : list item) e :
  Forall work_item heap → is_work e.2 →
  heappush (item_lt keq klt (rebase X σ)) heap e =
  heappush (item_lt keq klt σ) heap e.
Proof.
  intros. apply (heappush_ext _ _ work_item); [|done..].
  intros a b. apply item_lt_rebase.
Qed.

Lemma heappop_rebase X σ (heap : list item) :
  Forall work_item heap →
  heappop (item_lt keq klt (rebase X σ)) heap = heappop (item_lt keq klt σ) heap.
Proof.
  intros. apply (heappop_ext _ _ work_item); [|done].
  intros a b. apply item_lt_rebase.
Qed.

(** What [p_admit] adds to the heap: the processes at the positions from
    [i] up to the new [i]. *)
Lemma p_admit_refs fuel σ t (rq : list item) i rq' i' :
  p_admit key keq klt fuel σ t rq i = Returned (rq', i') →
  i ≤ i' ∧ (i ≤ length (work_objs σ) → i' ≤ length (work_objs σ)) ∧
  snd <$> rq' ≡ₚ (Work <$> seq i (i' - i)) ++ (snd <$> rq).
Proof.
  revert rq i. induction fuel as [|fuel IH]; intros rq i; simpl.
  - case_match; [done|]. intros [= <- <-]. by rewrite Nat.sub_diag.
  - case_match eqn:Hc; [|intros [= <- <-]; by rewrite Nat.sub_diag].
    apply andb_true_iff in Hc as [Hi%bool_decide_eq_true _].
    destruct (heappush _ _ _) as [rq1| |] eqn:Hp; simpl; [|done..].
    intros (Hle & Hn & Hperm)%IH. split_and!; [lia|lia|].
    apply heappush_perm, (fmap_Permutation snd) in Hp. rewrite Hperm, Hp.
    replace (i' - i) with (S (i' - (i + 1))) by lia. simpl.
    replace (S i) with (i + 1) by lia.
    solve_Permutation.
Qed.

Lemma p_admit_rebase X fuel σ t (rq : list item) i :
  Forall work_item rq →
  p_admit key keq klt fuel (rebase X σ) t rq i = p_admit key keq klt fuel σ t rq i.
Proof.
  revert rq i. induction fuel as [|fuel IH]; intros rq i Hrq; simpl; [done|].
  case_match; [|done]. rewrite heappush_rebase by done.
  destruct (heappush _ _ _) as [rq1| |] eqn:Hp; simpl; [|done..].
  apply IH. apply heappush_perm in Hp. rewrite Hp. by apply Forall_cons.
Qed.

Lemma p_pop_refs σ (rq : list item) next rq' :
  p_pop keq klt σ rq = Returned (next, rq') →
  snd <$> rq ≡ₚ option_list next ++ (snd <$> rq').
Proof.
  unfold p_pop. destruct rq as [|e rq]; [by intros [= <- <-]|].
  destruct (heappop _ _) as [[it rq1]| |] eqn:Hp; simpl; [|done..].
  intros [= <- <-]. apply heappop_perm in Hp.
  by apply (fmap_Permutation snd) in Hp.
Qed.

Lemma p_pop_rebase X σ (rq : list item) :
  Forall work_item rq → p_pop keq klt (rebase X σ) rq = p_pop keq klt σ rq.
Proof.
  intros Hrq. unfold p_pop. destruct rq as [|e rq]; [done|].
  by rewrite heappop_rebase.
Qed.

(** A switch keeps the processes, except a current one that is complete. *)
Lemma p_switch_refs σ cur next (rq : list item) cur' rq' :
  p_switch key keq klt σ cur next rq = Returned (cur', rq') →
  ∃ dropped,
    p_refs rq' cur' ++ dropped ≡ₚ option_list next ++ p_refs rq cur.
Proof.
  unfold p_switch, p_refs. case_match eqn:Hsw.
  - destruct cur as [c|].
    + destruct (is_completed _); simpl.
      * intros [= <- <-]. exists [c]. solve_Permutation.
      * destruct (heappush _ _ _) as [rq1| |] eqn:Hp; simpl; [|done..].
        intros [= <- <-]. exists [].
        apply heappush_perm, (fmap_Permutation snd) in Hp.
        rewrite Hp. simpl. solve_Permutation.
    + simpl. intros [= <- <-]. exists []. solve_Permutation.
  - intros [= <- <-]. exists (option_list next). solve_Permutation.
Qed.

Lemma p_switch_rebase X σ cur next (rq : list item) :
  Forall work_item rq → from_option is_work True cur →
  from_option is_work True next →
  p_switch key keq klt (rebase X σ) cur next rq =
  p_switch key keq klt σ cur next rq.
Proof.
  intros Hrq Hcur Hnext. unfold p_switch.
  destruct cur as [c|], next as [nx|]; simpl in *;
    rewrite ?deref_rebase, ?heappush_rebase by done; done.
Qed.

Lemma Forall_work_items (rq : list item) :
  Forall work_item rq ↔ Forall is_work (snd <$> rq).
Proof. by rewrite Forall_fmap. Qed.

Lemma Forall_option_list (o : option ref) :
  Forall is_work (option_list o) → from_option is_work True o.
Proof. destruct o; simpl; [|done]. by rewrite Forall_singleton. Qed.

Lemma Forall_work_seq i n : Forall is_work (Work <$> seq i n).
Proof. by apply Forall_fmap, Forall_true. Qed.

(** The head of a turn only moves processes around: it admits those at
    the positions [p_i s .. i'), and may let go of some. *)
Lemma p_pick_refs σ (s : p_state K) rq' i' cur' :
  p_pick key keq klt σ s = Returned (rq', i', cur') →
  p_i s ≤ i' ∧ (p_i s ≤ length (work_objs σ) → i' ≤ length (work_objs σ)) ∧
  ∃ dropped,
    p_refs rq' cur' ++ dropped ≡ₚ
    (Work <$> seq (p_i s) (i' - p_i s)) ++
    p_refs (p_ready_queue s) (p_current_process s).
Proof.
  unfold p_pick.
  destruct (p_admit _ _ _ _ _ _ _ _) as [[rq1 i1]| |] eqn:Ha; simpl; [|done..].
  destruct (p_pop _ _ _ _) as [[next rq2]| |] eqn:Hpop; simpl; [|done..].
  destruct (p_switch _ _ _ _ _ _ _) as [[cur1 rq3]| |] eqn:Hsw; simpl; [|done..].
  intros [= <- <- <-].
  apply p_admit_refs in Ha as (? & ? & Ha). apply p_pop_refs in Hpop.
  apply p_switch_refs in Hsw as [dropped Hsw].
  split_and!; [done..|]. exists dropped.
  rewrite Hsw. unfold p_refs. rewrite app_assoc, <- Hpop, Ha.
  by rewrite <- app_assoc.
Qed.

Lemma p_pick_rebase X σ (s : p_state K) :
  Forall is_work (p_refs (p_ready_queue s) (p_current_process s)) →
  p_pick key keq klt (rebase X σ) s = p_pick key keq klt σ s.
Proof.
  unfold p_refs. intros [Hrq Hcur]%Forall_app.
  unfold p_pick. simpl length.
  rewrite p_admit_rebase by by apply Forall_work_items.
  destruct (p_admit _ _ _ _ _ _ _ _) as [[rq1 i1]| |] eqn:Ha; simpl; [|done..].
  apply p_admit_refs in Ha as (_ & _ & Ha).
  assert (Forall is_work (snd <$> rq1)) as Hrq1.
  { rewrite Ha. apply Forall_app; split; [apply Forall_work_seq|done]. }
  rewrite p_pop_rebase by by apply Forall_work_items.
  destruct (p_pop _ _ _ _) as [[next rq2]| |] eqn:Hpop; simpl; [|done..].
  apply p_pop_refs in Hpop. rewrite Hpop in Hrq1.
  apply Forall_app in Hrq1 as [Hnext Hrq2].
  rewrite p_switch_rebase; [done|by apply Forall_work_items|..].
  - by apply Forall_option_list.
  - by apply Forall_option_list.
Qed.

Lemma p_body_refs σ (s : p_state K) σ' s' :
  p_body key keq klt σ s = (σ', Returned (Continue s')) →
  p_i s ≤ p_i s' ∧
  (p_i s ≤ length (work_objs σ) → p_i s' ≤ length (work_objs σ)) ∧
  ∃ dropped,
    p_refs (p_ready_queue s') (p_current_process s') ++ dropped ≡ₚ
    (Work <$> seq (p_i s) (p_i s' - p_i s)) ++
    p_refs (p_ready_queue s) (p_current_process s).
Proof.
  unfold p_body.
  destruct (p_pick _ _ _ _ _) as [[[rq1 i1] cur1]| |] eqn:Hpick; [|done..].
  apply p_pick_refs in Hpick as (? & ? & dropped & Hpick).
  destruct cur1 as [c|]; [|by case_bool_decide].
  destruct (execute σ c (Q2Qc 1)) as [σ1 e].
  destruct (is_completed _); intros [= <- <-]; simpl; (split_and!; [done..|]).
  - exists (c :: dropped). rewrite <- Hpick. unfold p_refs. simpl.
    solve_Permutation.
  - by exists dropped.
Qed.

Lemma p_body_rebase X σ (s : p_state K) :
  Forall is_work (p_refs (p_ready_queue s) (p_current_process s)) →
  p_body key keq klt (rebase X σ) s =
  (rebase X (p_body key keq klt σ s).1, (p_body key keq klt σ s).2).
Proof.
  intros Hw. unfold p_body. rewrite p_pick_rebase by done. simpl length.
  destruct (p_pick _ _ _ _ _) as [[[rq1 i1] cur1]| |] eqn:Hpick; [|done..].
  apply p_pick_refs in Hpick as (_ & _ & dropped & Hpick).
  destruct cur1 as [c|]; [|by case_bool_decide].
  assert (is_work c) as Hc.
  { assert (Forall is_work (p_refs rq1 (Some c) ++ dropped)) as Hall.
    { rewrite Hpick. apply Forall_app; split; [apply Forall_work_seq|done]. }
    unfold p_refs in Hall. rewrite !Forall_app in Hall.
    destruct Hall as [[_ H] _]. by apply (Forall_option_list (Some c)). }
  rewrite execute_rebase by done.
  destruct (execute σ c (Q2Qc 1)) as [σ1 e]. simpl.
  rewrite !deref_rebase by done.
  by destruct (is_completed _).
Qed.

Lemma p_body_work σ (s : p_state K) σ' s' :
  p_body key keq klt σ s = (σ', Returned (Continue s')) →
  Forall is_work (p_refs (p_ready_queue s) (p_current_process s)) →
  Forall is_work (p_refs (p_ready_queue s') (p_current_process s')).
Proof.
  intros (_ & _ & dropped & Hb)%p_body_refs Hw.
  assert (Forall is_work
            (p_refs (p_ready_queue s') (p_current_process s') ++ dropped)) as Hall.
  { rewrite Hb. apply Forall_app; split; [apply Forall_work_seq|done]. }
  by apply Forall_app in Hall as [? _].
Qed.

Lemma p_loop_rebase X fuel σ (s : p_state K) :
  Forall is_work (p_refs (p_ready_queue s) (p_current_process s)) →
  p_loop key keq klt fuel (rebase X σ) s =
  (rebase X (p_loop key keq klt fuel σ s).1, (p_loop key keq klt fuel σ s).2).
Proof.
  revert σ s. induction fuel as [|fuel IH]; intros σ s Hw; simpl.
  - by case_bool_decide.
  - case_bool_decide; [|done]. rewrite p_body_rebase by done.
    destruct (p_body key keq klt σ s) as [σ1 [[s1|s1]| |]] eqn:Hb; simpl; [|done..].
    apply IH. by eapply p_body_work.
Qed.

Lemma p_loop_caller_objs fuel σ (s : p_state K) :
  Forall is_work (p_refs (p_ready_queue s) (p_current_process s)) →
  caller_objs (p_loop key keq klt fuel σ s).1 = caller_objs σ.
Proof.
  intros Hw. rewrite <- (rebase_id σ) at 1. by rewrite p_loop_rebase.
Qed.
End preemptive_refs.

(** ** The caller's objects after a call *)

(** C9: for each of the six algorithms and every input, whether the call
    returns or raises (and wherever a run is cut off), the caller's list
    holds the same objects with the same fields as before the call. *)
Theorem caller_objects_unchanged fuel (processes : list Process) (time_quantum : Qc) :
  (fcfs_scheduling processes).1 = processes ∧
  (sjf_non_preemptive fuel processes).1 = processes ∧
  (sjf_preemptive fuel processes).1 = processes ∧
  (priority_non_preemptive fuel processes).1 = processes ∧
  (priority_preemptive fuel processes).1 = processes ∧
  (round_robin fuel processes time_quantum).1 = processes.
Proof.
  split_and!.
  - unfold fcfs_scheduling. destruct processes; [done|].
    by destruct (foldl _ _ _).
  - unfold sjf_non_preemptive. by destruct processes.
  - unfold sjf_preemptive. destruct processes as [|p ps]; [done|].
    destruct (p_loop _ _ _ _ _ _) as [σ' r] eqn:E. simpl.
    change σ' with (σ', r).1. rewrite <- E.
    by rewrite p_loop_caller_objs.
  - unfold priority_non_preemptive. by destruct processes.
  - unfold priority_preemptive. destruct processes as [|p ps]; [done|].
    destruct (check_priorities _); [|done..].
    destruct (p_loop _ _ _ _ _ _) as [σ' r] eqn:E. simpl.
    change σ' with (σ', r).1. rewrite <- E.
    by rewrite p_loop_caller_objs.
  - unfold round_robin. destruct processes as [|p ps]; [done|].
    destruct (Qc_leb _ _); [done|].
    destruct (rr_init _) as [s| |] eqn:Hi; [|done..].
    destruct (rr_loop _ _ _ _) as [σ' r] eqn:E. simpl.
    change σ' with (σ', r).1. rewrite <- E.
    rewrite rr_loop_caller_objs; [done|]. by eapply rr_init_work.
Qed.

(** ** The stateful algorithms as functions of their sorted copies *)

Lemma sjf_preemptive_unfold fuel (processes : list Process) :
  processes ≠ [] →
  sjf_preemptive fuel processes =
  (processes,
   s ← (p_loop remaining_time Qc_eqb num_lt fuel
          (mkStore [] (sorted arrival_key_ltb (copy_processes processes))) p_init).2;
   Returned (mkResult (p_schedule s) (calculate_metrics processes (p_schedule s))
                      (Name "Shortest Job First (Preemptive)"))).
Proof.
  intros Hne. unfold sjf_preemptive. destruct processes as [|p ps]; [done|].
  change (mkStore (p :: ps) ?W) with (rebase (p :: ps) (mkStore [] W)).
  by rewrite p_loop_rebase.
Qed.

Lemma priority_preemptive_unfold fuel (processes : list Process) :
  processes ≠ [] →
  priority_preemptive fuel processes =
  (processes,
   _ ← check_priorities processes;
   s ← (p_loop priority priority_eqb priority_lt fuel
          (mkStore [] (sorted arrival_key_ltb (copy_processes processes))) p_init).2;
   Returned (mkResult (p_schedule s) (calculate_metrics processes (p_schedule s))
                      (Name "Priority (Preemptive)"))).
Proof.
  intros Hne. unfold priority_preemptive. destruct processes as [|p ps]; [done|].
  destruct (check_priorities _); [|done..]. simpl.
  change (mkStore (p :: ps) ?W) with (rebase (p :: ps) (mkStore [] W)).
  by rewrite p_loop_rebase.
Qed.

Lemma round_robin_unfold fuel (processes : list Process) time_quantum :
  processes ≠ [] → ¬ (time_quantum ≤ Q2Qc 0)%Qc →
  round_robin fuel processes time_quantum =
  (processes,
   let σ := mkStore [] (sorted arrival_key_ltb (copy_processes processes)) in
   s0 ← rr_init σ;
   s ← (rr_loop time_quantum fuel σ s0).2;
   Returned (mkResult (rr_schedule s) (calculate_metrics processes (rr_schedule s))
                      (RoundRobinQuantum time_quantum))).
Proof.
  intros Hne Hq. unfold round_robin. destruct processes as [|p ps]; [done|].
  unfold Qc_leb. rewrite bool_decide_eq_false_2 by done.
  change (mkStore (p :: ps) ?W) with (rebase (p :: ps) (mkStore [] W)).
  rewrite rr_init_rebase. simpl.
  destruct (rr_init _) as [s0| |] eqn:Hi; [|done..].
  rewrite rr_loop_rebase by by eapply rr_init_work. done.
Qed.

(** ** Independence of the caller's [remaining_time] *)


Lemma sorted_Forall2 {A} (R : A → A → Prop) (ltb : A → A → bool) (l l' : list A) :
  (∀ x x' y y', R x x' → R y y' → ltb x y = ltb x' y') →
  Forall2 R l l' → Forall2 R (sorted ltb l) (sorted ltb l').
Proof.
  intros Hltb. induction 1 as [|x x' l l' Hx Hl IH]; simpl; [done|].
  induction IH as [|y y' m m' Hy Hm IHm]; simpl; [by repeat constructor|].
  rewrite (Hltb y y' x x') by done.
  destruct (ltb y' x'); by repeat constructor.
Qed.

Lemma foldl_Forall2 {A B} (R : A → A → Prop) (f : B → A → B) (b : B) (l l' : list A) :
  (∀ acc x x', R x x' → f acc x = f acc x') →
  Forall2 R l l' → foldl f b l = foldl f b l'.
Proof.
  intros Hf Hl. revert b. induction Hl as [|x x' l l' Hx Hl IH]; intros b; simpl; [done|].
  by rewrite (Hf _ _ _ Hx), IH.
Qed.

Lemma copy_processes_same (ps1 ps2 : list Process) :
  Forall2 same_descriptor ps1 ps2 → copy_processes ps1 = copy_processes ps2.
Proof.
  induction 1 as [|p1 p2 l1 l2 (Hp & Ha & Hb & Hpr) _ IH]; simpl; [done|].
  by rewrite Hp, Ha, Hb, Hpr, IH.
Qed.

Lemma calculate_metrics_same (ps1 ps2 : list Process) (schedule : list ScheduleEntry) :
  Forall2 same_descriptor ps1 ps2 →
  calculate_metrics ps1 schedule = calculate_metrics ps2 schedule.
Proof.
  intros H. unfold calculate_metrics, collect_times.
  rewrite (Forall2_length _ _ _ H).
  rewrite (foldl_Forall2 same_descriptor _ _ ps1 ps2); [done| |done].
  intros [tt wt] p1 p2 (Hp & Ha & Hb & _). by rewrite Hp, Ha, Hb.
Qed.

Lemma check_priorities_same (ps1 ps2 : list Process) :
  Forall2 same_descriptor ps1 ps2 → check_priorities ps1 = check_priorities ps2.
Proof.
  induction 1 as [|p1 p2 l1 l2 (Hp & Ha & Hb & Hpr) _ IH]; simpl; [done|].
  by rewrite Hp, Hpr, IH.
Qed.

#[local] Arguments copy_processes : simpl never.
#[local] Arguments calculate_metrics : simpl never.

(** C10: two input lists that agree, process by process, on pid,
    arrival_time, burst_time and priority give the same outcome (the same
    result, or the same error) under each of the six algorithms, whatever
    their remaining_time fields hold. *)
Theorem remaining_time_is_not_an_input fuel (ps1 ps2 : list Process) (time_quantum : Qc) :
  Forall2 same_descriptor ps1 ps2 →
  (fcfs_scheduling ps1).2 = (fcfs_scheduling ps2).2 ∧
  (sjf_non_preemptive fuel ps1).2 = (sjf_non_preemptive fuel ps2).2 ∧
  (sjf_preemptive fuel ps1).2 = (sjf_preemptive fuel ps2).2 ∧
  (priority_non_preemptive fuel ps1).2 = (priority_non_preemptive fuel ps2).2 ∧
  (priority_preemptive fuel ps1).2 = (priority_preemptive fuel ps2).2 ∧
  (round_robin fuel ps1 time_quantum).2 = (round_robin fuel ps2 time_quantum).2.
Proof.
  intros H.
  pose proof (copy_processes_same _ _ H) as Hcopy.
  pose proof (λ sched, calculate_metrics_same _ _ sched H) as Hm.
  destruct H as [|p1 p2 l1 l2 Hp Hl]; [by repeat split|].
  assert (Forall2 same_descriptor (p1 :: l1) (p2 :: l2)) as H by by constructor.
  split_and!.
  - unfold fcfs_scheduling.
    rewrite (foldl_Forall2 same_descriptor fcfs_step _
               (sorted arrival_key_ltb (p1 :: l1)) (sorted arrival_key_ltb (p2 :: l2))).
    + destruct (foldl _ _ _) as [sched t]. simpl. by rewrite Hm.
    + intros [sched t] x x' (Hxp & Hxa & Hxb & _). unfold fcfs_step.
      by rewrite Hxp, Hxa, Hxb.
    + apply sorted_Forall2; [|done].
      intros x x' y y' (Hxp & Hxa & _) (Hyp & Hya & _). unfold arrival_key_ltb.
      by rewrite Hxp, Hxa, Hyp, Hya.
  - unfold sjf_non_preemptive. cbn [snd]. rewrite Hcopy.
    destruct (np_loop _ _ _ _ _ _) as [s| |]; simpl; [|done..]. by rewrite Hm.
  - rewrite !sjf_preemptive_unfold by done. cbn [snd]. rewrite Hcopy.
    destruct (p_loop _ _ _ _ _ _).2 as [s| |]; simpl; [|done..]. by rewrite Hm.
  - unfold priority_non_preemptive. cbn [snd]. rewrite (check_priorities_same _ _ H).
    destruct (check_priorities _); [|done..]. cbn [mbind outcome_bind]. rewrite Hcopy.
    destruct (np_loop _ _ _ _ _ _) as [s| |]; simpl; [|done..]. by rewrite Hm.
  - rewrite !priority_preemptive_unfold by done. cbn [snd].
    rewrite (check_priorities_same _ _ H).
    destruct (check_priorities _); [|done..]. cbn [mbind outcome_bind]. rewrite Hcopy.
    destruct (p_loop _ _ _ _ _ _).2 as [s| |]; simpl; [|done..]. by rewrite Hm.
  - destruct (decide (time_quantum ≤ Q2Qc 0)%Qc) as [Hq|Hq].
    + by rewrite !round_robin_quantum_guard.
    + rewrite !round_robin_unfold by done. cbn [snd]. rewrite Hcopy.
      destruct (rr_init _) as [s0| |]; simpl; [|done..].
      destruct (rr_loop _ _ _ _).2 as [s| |]; simpl; [|done..]. by rewrite Hm.
Qed.

Lemma remaining_time_is_not_an_input_witness :
  Forall2 same_descriptor scenario scenario_stale ∧
  (fcfs_scheduling scenario).2 = (fcfs_scheduling scenario_stale).2 ∧
  (sjf_non_preemptive 20 scenario).2 = (sjf_non_preemptive 20 scenario_stale).2 ∧
  (sjf_preemptive 20 scenario).2 = (sjf_preemptive 20 scenario_stale).2 ∧
  (priority_non_preemptive 20 scenario).2 =
    (priority_non_preemptive 20 scenario_stale).2 ∧
  (priority_preemptive 20 scenario).2 = (priority_preemptive 20 scenario_stale).2 ∧
  (round_robin 20 scenario (Qc_of_Z 2)).2 =
    (round_robin 20 scenario_stale (Qc_of_Z 2)).2.
Proof.
  assert (Forall2 same_descriptor scenario scenario_stale) as H
    by (repeat constructor).
  split; [exact H|].
  exact (remaining_time_is_not_an_input 20 scenario scenario_stale (Qc_of_Z 2) H).
Defined.

(** ** The sort *)

Lemma String_ltb_false (a b : string) : String.ltb a b = false ↔ String.le b a.
Proof.
  unfold String.le, String.ltb, String.leb. rewrite (String.compare_antisym b a).
  destruct (String.compare a b); simpl; naive_solver.
Qed.

Lemma String_ltb_true (a b : string) : String.ltb a b = true → String.le a b.
Proof.
  unfold String.le, String.ltb, String.leb.
  destruct (String.compare a b); simpl; naive_solver.
Qed.

Lemma arrival_key_ltb_false (p q : Process) :
  arrival_key_ltb q p = false ↔ arrival_key_le p q.
Proof.
  unfold arrival_key_ltb, arrival_key_le, Qc_eqb, Qc_ltb.
  case_bool_decide as Heq.
  - rewrite String_ltb_false, Heq. split; [by right|].
    intros [Hlt|[_ ?]]; [|done]. qc_lra.
  - rewrite bool_decide_eq_false. split.
    + intros Hnlt. left. qc_lra.
    + intros [Hlt|[? _]] ?; [|done]. qc_lra.
Qed.

Lemma arrival_key_ltb_true (p q : Process) :
  arrival_key_ltb p q = true → arrival_key_le p q.
Proof.
  unfold arrival_key_ltb, arrival_key_le, Qc_eqb, Qc_ltb.
  case_bool_decide as Heq.
  - intros ?%String_ltb_true. by right.
  - intros ?%bool_decide_eq_true. by left.
Qed.

#[local] Instance arrival_key_le_trans : Transitive arrival_key_le.
Proof.
  intros p q r [H1|[H1 H1']] [H2|[H2 H2']]; unfold arrival_key_le.
  - left. qc_lra.
  - left. by rewrite <- H2.
  - left. by rewrite H1.
  - right. split; [by etrans|by etrans].
Qed.

Lemma arrival_key_le_antisym (p q : Process) :
  arrival_key_le p q → arrival_key_le q p →
  arrival_time p = arrival_time q ∧ pid p = pid q.
Proof.
  intros [H1|[H1 H1']] [H2|[H2 H2']].
  - exfalso. qc_lra.
  - exfalso. qc_lra.
  - exfalso. qc_lra.
  - split; [done|]. by apply (anti_symm String.le).
Qed.

Lemma arrival_key_le_arrival (p q : Process) :
  arrival_key_le p q → (arrival_time p ≤ arrival_time q)%Qc.
Proof. intros [?|[? _]]; qc_lra. Qed.

Lemma insert_sorted_perm {A} (ltb : A → A → bool) x l :
  insert_sorted ltb x l ≡ₚ x :: l.
Proof.
  induction l as [|y l IH]; simpl; [done|].
  destruct (ltb y x); [|done]. rewrite IH. apply Permutation_swap.
Qed.

Lemma sorted_perm {A} (ltb : A → A → bool) l : sorted ltb l ≡ₚ l.
Proof.
  induction l as [|x l IH]; simpl; [done|]. by rewrite insert_sorted_perm, IH.
Qed.

Lemma sorted_length {A} (ltb : A → A → bool) l : length (sorted ltb l) = length l.
Proof. by rewrite sorted_perm. Qed.

Lemma insert_sorted_StronglySorted {A} (R : relation A) `{!Transitive R}
    (ltb : A → A → bool) x l :
  (∀ a b, ltb b a = false → R a b) → (∀ a b, ltb a b = true → R a b) →
  StronglySorted R l → StronglySorted R (insert_sorted ltb x l).
Proof.
  intros Hf Ht. induction 1 as [|y l Hl IH Hy]; simpl.
  - by repeat constructor.
  - destruct (ltb y x) eqn:E.
    + constructor; [done|]. rewrite insert_sorted_perm.
      constructor; [by apply Ht|done].
    + constructor; [by constructor|]. constructor; [by apply Hf|].
      eapply Forall_impl; [done|]. intros z ?. trans y; [by apply Hf|done].
Qed.

Lemma sorted_StronglySorted {A} (R : relation A) `{!Transitive R}
    (ltb : A → A → bool) l :
  (∀ a b, ltb b a = false → R a b) → (∀ a b, ltb a b = true → R a b) →
  StronglySorted R (sorted ltb l).
Proof.
  intros Hf Ht. induction l as [|x l IH]; simpl; [constructor|].
  by apply insert_sorted_StronglySorted.
Qed.

Lemma sorted_arrival_StronglySorted (l : list Process) :
  StronglySorted arrival_key_le (sorted arrival_key_ltb l).
Proof.
  apply sorted_StronglySorted; [apply _| |].
  - intros a b. by rewrite arrival_key_ltb_false.
  - apply arrival_key_ltb_true.
Qed.

(** ** The store under [execute] *)

Lemma deref_assign_ne σ r v r' :
  r ≠ r' → deref (assign_remaining_time σ r v) r' = deref σ r'.
Proof.
  intros Hne. destruct r as [k|k], r' as [k'|k']; simpl; try done;
    apply list_lookup_total_alter_ne; congruence.
Qed.

Lemma deref_assign_eq σ k v :
  k < length (work_objs σ) →
  deref (assign_remaining_time σ (Work k) v) (Work k) =
  set_remaining_time (deref σ (Work k)) v.
Proof. intros Hk. simpl. by rewrite list_lookup_total_alter_eq. Qed.

Lemma deref_assign_cases σ r v r' :
  deref (assign_remaining_time σ r v) r' = deref σ r' ∨
  deref (assign_remaining_time σ r v) r' = set_remaining_time (deref σ r') v.
Proof.
  destruct r as [k|k], r' as [k'|k']; simpl; auto;
    rewrite list_lookup_total_alter; case_decide as H; auto;
    destruct H as [-> _]; auto.
Qed.

Lemma pid_deref_assign σ r v r' :
  pid (deref (assign_remaining_time σ r v) r') = pid (deref σ r').
Proof. by destruct (deref_assign_cases σ r v r') as [->| ->]. Qed.

Lemma arrival_deref_assign σ r v r' :
  arrival_time (deref (assign_remaining_time σ r v) r') = arrival_time (deref σ r').
Proof. by destruct (deref_assign_cases σ r v r') as [->| ->]. Qed.

Lemma length_work_assign σ r v :
  length (work_objs (assign_remaining_time σ r v)) = length (work_objs σ).
Proof. destruct r; simpl; [done|]. by rewrite length_alter. Qed.

Lemma StronglySorted_alter {A} (R : relation A) (f : A → A) (l : list A) i :
  (∀ x y, R x y → R (f x) y) → (∀ x y, R x y → R x (f y)) →
  StronglySorted R l → StronglySorted R (alter f i l).
Proof.
  intros Hl Hr Hs. revert i. induction Hs as [|x l Hs IH Hx]; intros [|i]; simpl.
  - constructor.
  - constructor.
  - constructor; [done|]. eapply Forall_impl; [done|]. eauto.
  - constructor; [apply IH|]. apply Forall_alter; [done|]. eauto.
Qed.

Lemma sorted_assign σ r v :
  StronglySorted arrival_key_le (work_objs σ) →
  StronglySorted arrival_key_le (work_objs (assign_remaining_time σ r v)).
Proof.
  intros Hs. destruct r; simpl; [done|]. by apply StronglySorted_alter.
Qed.

Lemma StronglySorted_lookup_lt {A} (R : relation A) (l : list A) i j x y :
  StronglySorted R l → l !! i = Some x → l !! j = Some y → i < j → R x y.
Proof.
  intros Hs. revert i j. induction Hs as [|z l Hs IH Hz]; intros [|i] [|j] Hi Hj Hlt;
    simplify_eq/=; try lia.
  - rewrite Forall_forall in Hz. apply Hz. by eapply list_elem_of_lookup_2.
  - eapply IH; [done..|lia].
Qed.

Lemma sorted_arrivals σ k1 k2 :
  StronglySorted arrival_key_le (work_objs σ) →
  k1 ≤ k2 → k2 < length (work_objs σ) →
  (arrival_time (deref σ (Work k1)) ≤ arrival_time (deref σ (Work k2)))%Qc.
Proof.
  intros Hs Hle Hlt. simpl.
  destruct (decide (k1 = k2)) as [->|Hne]; [done|].
  apply arrival_key_le_arrival.
  eapply (StronglySorted_lookup_lt _ _ k1 k2); [done| | |lia];
    apply list_lookup_lookup_total_lt; lia.
Qed.

(** ** round_robin: admission *)

Lemma arrived_by_assign σ r v i t :
  arrived_by (assign_remaining_time σ r v) i t = arrived_by σ i t.
Proof.
  unfold arrived_by. rewrite length_work_assign. f_equal.
  apply list_filter_iff. intros k. by rewrite arrival_deref_assign.
Qed.

(** The processes that have arrived by [t] are a run of consecutive
    positions of the sorted copies. *)
Lemma arrived_by_prefix σ i t :
  StronglySorted arrival_key_le (work_objs σ) →
  ∃ m, arrived_by σ i t = Work <$> seq i m ∧
       (i ≤ length (work_objs σ) → i + m ≤ length (work_objs σ)) ∧
       (∀ k, i ≤ k → k < i + m → (arrival_time (deref σ (Work k)) ≤ t)%Qc) ∧
       (∀ k, i + m ≤ k → k < length (work_objs σ) →
             (t < arrival_time (deref σ (Work k)))%Qc).
Proof.
  intros Hs. unfold arrived_by.
  remember (length (work_objs σ) - i) as d eqn:Hd.
  revert i Hd. induction d as [|d IH]; intros i Hd.
  - exists 0. split_and!; [done|lia|lia|lia].
  - cbn [seq]. rewrite filter_cons. case_decide as Ht.
    + destruct (IH (S i)) as (m & Hm & Hle & Hin & Hout); [lia|].
      exists (S m). rewrite fmap_cons, Hm. split_and!; [done|lia| |].
      * intros k ? ?. destruct (decide (k = i)) as [->|]; [done|]. apply Hin; lia.
      * intros k ? ?. apply Hout; lia.
    + assert (∀ k, i ≤ k → k < length (work_objs σ) →
                   (t < arrival_time (deref σ (Work k)))%Qc) as Hout.
      { intros k ? ?.
        pose proof (sorted_arrivals σ i k Hs ltac:(lia) ltac:(lia)). qc_lra. }
      exists 0. split_and!; [|lia|lia|intros; apply Hout; lia].
      rewrite (elem_of_nil_inv (filter _ _)); [done|]. intros k.
      rewrite list_elem_of_filter, elem_of_seq. intros [Hk ?].
      assert (t < arrival_time (deref σ (Work k)))%Qc by (apply Hout; lia).
      qc_lra.
Qed.

Lemma arrived_by_cons σ i t :
  i < length (work_objs σ) → (arrival_time (deref σ (Work i)) ≤ t)%Qc →
  arrived_by σ i t = Work i :: arrived_by σ (S i) t.
Proof.
  intros Hi Ht. unfold arrived_by.
  replace (length (work_objs σ) - i) with (S (length (work_objs σ) - S i)) by lia.
  cbn [seq]. by rewrite filter_cons_True.
Qed.

Lemma arrived_by_nil σ i t :
  StronglySorted arrival_key_le (work_objs σ) →
  ¬ (i < length (work_objs σ) ∧ (arrival_time (deref σ (Work i)) ≤ t)%Qc) →
  arrived_by σ i t = [].
Proof.
  intros Hs Hn. destruct (decide (i < length (work_objs σ))) as [Hi|Hi].
  - destruct (arrived_by_prefix σ i t Hs) as (m & -> & _ & Hin & _).
    destruct m as [|m]; [done|]. destruct Hn. split; [done|]. apply Hin; lia.
  - unfold arrived_by. by replace (length (work_objs σ) - i) with 0 by lia.
Qed.

Lemma rr_admit_spec fuel σ t rq i :
  StronglySorted arrival_key_le (work_objs σ) →
  length (work_objs σ) - i ≤ fuel →
  rr_admit fuel σ t rq i =
  Returned (rq ++ arrived_by σ i t, i + length (arrived_by σ i t)).
Proof.
  intros Hs. revert rq i. induction fuel as [|fuel IH]; intros rq i Hf;
    cbn [rr_admit]; unfold Qc_leb.
  - case_match eqn:Hg.
    + apply andb_true_iff in Hg as [?%bool_decide_eq_true _]. lia.
    + rewrite arrived_by_nil; [by rewrite app_nil_r, Nat.add_0_r|done|].
      intros [? ?]. by rewrite !bool_decide_eq_true_2 in Hg.
  - case_match eqn:Hg.
    + apply andb_true_iff in Hg as [?%bool_decide_eq_true ?%bool_decide_eq_true].
      rewrite IH by lia. rewrite (arrived_by_cons σ i) by done.
      replace (i + 1) with (S i) by lia.
      rewrite <- app_assoc. simpl. do 2 f_equal. lia.
    + rewrite arrived_by_nil; [by rewrite app_nil_r, Nat.add_0_r|done|].
      intros [? ?]. by rewrite !bool_decide_eq_true_2 in Hg.
Qed.

Lemma py_min_spec (a b : Qc) :
  (py_min a b ≤ a)%Qc ∧ (py_min a b ≤ b)%Qc ∧ (py_min a b = a ∨ py_min a b = b).
Proof.
  unfold py_min, Qc_ltb. case_bool_decide; split_and!; auto; qc_lra.
Qed.

Lemma record_run_emits (sched : list ScheduleEntry) p start finish :
  emits sched p start finish (record_run sched p start finish).
Proof.
  unfold record_run. destruct (last sched) as [[[lp ls] le]|] eqn:Hlast.
  - apply last_Some in Hlast as [init ->].
    destruct (bool_decide (lp ≠ p) || bool_decide (le ≠ start)) eqn:Hc.
    + apply emits_new. intros init' s0 [_ [=]]%app_inj_tail. subst.
      apply orb_true_iff in Hc as [?%bool_decide_eq_true|?%bool_decide_eq_true]; done.
    + apply orb_false_iff in Hc as [Hp%bool_decide_eq_false Hs%bool_decide_eq_false].
      apply dec_stable in Hp as ->. apply dec_stable in Hs as ->.
      rewrite removelast_last. by eapply emits_extend.
  - apply last_None in Hlast as ->. apply emits_new.
    intros init s0 H. by destruct init.
Qed.

(** ** round_robin: a turn of the main loop *)

Lemma rr_wait_spec σ s :
  rr_inv σ s →
  (rr_ready_queue s = [] ∧ length (work_objs σ) ≤ rr_i s ∧
   rr_wait σ s = Returned None) ∨
  ∃ sc t head rest i,
    rr_wait σ s = Returned (Some (sc, t, head :: rest, i)) ∧
    rr_inv σ (mkRR sc t (head :: rest) (rr_completed s) i) ∧
    ((rr_ready_queue s = head :: rest ∧ sc = rr_schedule s ∧
      t = rr_current_time s ∧ i = rr_i s) ∨
     (rr_ready_queue s = [] ∧ rr_i s < length (work_objs σ) ∧
      t = arrival_time (deref σ (Work (rr_i s))) ∧
      sc = rr_schedule s ++ [(IDLE, rr_current_time s, t)] ∧
      head :: rest = arrived_by σ (rr_i s) t ∧
      i = rr_i s + length (head :: rest))).
Proof.
  intros [Hs Hi Hq Hp Ha]. unfold rr_wait.
  destruct (rr_ready_queue s) as [|head rest] eqn:Hrq.
  - case_bool_decide as Hlt; [|left; split_and!; [done|lia|done]].
    right. rewrite rr_admit_spec by done. simpl.
    set (t := arrival_time (work_objs σ !!! rr_i s)).
    assert (arrived_by σ (rr_i s) t = Work (rr_i s) :: arrived_by σ (S (rr_i s)) t)
      as Hcons by by apply arrived_by_cons.
    destruct (arrived_by_prefix σ (rr_i s) t Hs) as (m & Hm & Hle & Hin & Hout).
    rewrite Hcons. eexists _, _, _, _, _. split; [done|]. split.
    + rewrite <- Hcons, Hm. rewrite length_fmap, length_seq.
      split; simpl.
      * done.
      * lia.
      * apply Forall_fmap, Forall_forall. intros k [? ?]%elem_of_seq.
        exists k. split; [done|lia].
      * intros k ? ?. by apply Hout.
      * intros k Hk. destruct (decide (k < rr_i s)) as [Hk'|Hk'].
        -- destruct (Ha k Hk') as [Hin'|?]; [by inversion Hin'|by right].
        -- left. apply list_elem_of_fmap_2, elem_of_seq. lia.
    + right. split_and!; try done.
  - right. eexists _, _, _, _, _. split; [done|]. split; [|by left].
    by constructor.
Qed.

Lemma rr_run_spec q σ completed sc t head rest i :
  rr_inv σ (mkRR sc t (head :: rest) completed i) →
  ∃ σ' s' e,
    rr_run q σ completed sc t (head :: rest) i = (σ', Returned (Continue s')) ∧
    rr_inv σ' s' ∧
    (e ≤ q)%Qc ∧ (e ≤ remaining_time (deref σ head))%Qc ∧
    (e = q ∨ e = remaining_time (deref σ head)) ∧
    σ' = assign_remaining_time σ head (remaining_time (deref σ head) - e)%Qc ∧
    emits sc (pid (deref σ head)) t (t + e)%Qc (rr_schedule s') ∧
    rr_current_time s' = (t + e)%Qc ∧
    rr_i s' = i + length (arrived_by σ i (t + e)%Qc) ∧
    if bool_decide (remaining_time (deref σ head) - e ≤ Q2Qc 0)%Qc
    then rr_ready_queue s' = rest ++ arrived_by σ i (t + e)%Qc ∧
         rr_completed s' = {[pid (deref σ head)]} ∪ completed
    else rr_ready_queue s' = rest ++ arrived_by σ i (t + e)%Qc ++ [head] ∧
         rr_completed s' = completed.
Proof.
  intros [Hs Hi Hq Hp Ha]. simpl in *.
  apply Forall_cons in Hq as [(kh & -> & Hkh) Hrest].
  set (p := deref σ (Work kh)).
  set (e := py_min q (remaining_time p)).
  set (σ1 := assign_remaining_time σ (Work kh) (remaining_time p - e)%Qc).
  set (arrived := arrived_by σ i (t + e)%Qc).
  set (done_ := bool_decide (remaining_time p - e ≤ Q2Qc 0)%Qc).
  set (s1 := if done_
             then mkRR (record_run sc (pid p) t (t + e)%Qc) (t + e)%Qc
                       (rest ++ arrived) ({[pid p]} ∪ completed) (i + length arrived)
             else mkRR (record_run sc (pid p) t (t + e)%Qc) (t + e)%Qc
                       ((rest ++ arrived) ++ [Work kh]) completed (i + length arrived)).
  assert (deref σ1 (Work kh) = set_remaining_time p (remaining_time p - e)%Qc) as Hd.
  { apply deref_assign_eq. lia. }
  assert (length (work_objs σ1) = length (work_objs σ)) as Hlen
    by apply length_work_assign.
  assert (StronglySorted arrival_key_le (work_objs σ1)) as Hs1 by by apply sorted_assign.
  assert (rr_run q σ completed sc t (Work kh :: rest) i = (σ1, Returned (Continue s1)))
    as Hrun.
  { unfold rr_run, execute. fold p e σ1.
    rewrite rr_admit_spec by (done || lia).
    assert (arrived_by σ1 i (t + e)%Qc = arrived) as -> by apply arrived_by_assign.
    rewrite Hd. unfold is_completed, Qc_leb. simpl. fold done_.
    unfold s1. by destruct done_. }
  destruct (arrived_by_prefix σ i (t + e)%Qc Hs) as (m & Hm & Hle & Hin & Hout).
  fold arrived in Hm.
  destruct (py_min_spec q (remaining_time p)) as (Heq & Her & Hcase).
  assert (rr_inv σ1 s1) as Hinv.
  { assert (length arrived = m) as Hlm by by rewrite Hm, length_fmap, length_seq.
    assert (Forall (λ r, ∃ k, r = Work k ∧ k < i + m) (rest ++ arrived)) as Hq1.
    { rewrite Forall_app. split.
      - eapply Forall_impl; [done|]. intros r (k & -> & ?). exists k. split; [done|lia].
      - rewrite Hm. apply Forall_fmap, Forall_forall. intros k [? ?]%elem_of_seq.
        exists k. split; [done|lia]. }
    assert (∀ k, i + m ≤ k → k < length (work_objs σ1) →
                 (t + e < arrival_time (deref σ1 (Work k)))%Qc) as Hp1.
    { intros k ? ?. unfold σ1. rewrite arrival_deref_assign.
      apply Hout; [done|]. by rewrite <- Hlen. }
    assert (∀ k, k < i + m → k ≠ kh →
                 Work k ∈ rest ++ arrived ∨ pid (deref σ1 (Work k)) ∈ completed) as Ha1.
    { intros k Hk Hne. unfold σ1. rewrite pid_deref_assign, elem_of_app.
      destruct (decide (k < i)) as [Hk'|Hk'].
      - destruct (Ha k Hk') as [[[= ->]|?]%elem_of_cons|?]; [done|by left; left|by right].
      - left. right. rewrite Hm. apply list_elem_of_fmap_2, elem_of_seq. lia. }
    assert (pid (deref σ1 (Work kh)) = pid p) as Hpid by by rewrite Hd.
    unfold s1. destruct done_; constructor;
      cbn [rr_i rr_ready_queue rr_current_time rr_completed rr_schedule];
      rewrite ?Hlm; try done.
    - rewrite Hlen. lia.
    - intros k Hk. destruct (decide (k = kh)) as [->|Hne].
      + right. rewrite Hpid. set_solver.
      + destruct (Ha1 k Hk Hne) as [?|?]; [by left|right; set_solver].
    - rewrite Hlen. lia.
    - rewrite Forall_app. split; [done|]. apply Forall_singleton.
      exists kh. split; [done|lia].
    - intros k Hk. destruct (decide (k = kh)) as [->|Hne].
      + left. set_solver.
      + destruct (Ha1 k Hk Hne) as [?|?]; [left; set_solver|by right]. }
  exists σ1, s1, e. split; [done|]. split; [done|].
  split_and!; try done.
  - unfold s1. destruct done_; apply record_run_emits.
  - unfold s1. by destruct done_.
  - unfold s1. by destruct done_.
  - fold p e done_ arrived. unfold s1. destruct done_; simpl; [done|].
    by rewrite <- app_assoc.
Qed.

Lemma rr_body_turn q σ s :
  rr_inv σ s →
  (rr_ready_queue s = [] ∧ length (work_objs σ) ≤ rr_i s ∧
   rr_body q σ s = (σ, Returned (Break s))) ∨
  ∃ σ' s', rr_body q σ s = (σ', Returned (Continue s')) ∧
           rr_turn q σ s σ' s' ∧ rr_inv σ' s'.
Proof.
  intros Hinv. unfold rr_body.
  destruct (rr_wait_spec σ s Hinv) as [(? & ? & ->)|(sc & t & head & rest & i & -> & Hmid & Hw)];
    [by left|right].
  destruct (rr_run_spec q σ (rr_completed s) sc t head rest i Hmid)
    as (σ' & s' & e & Hrun & Hinv' & ? & ? & ? & ? & ? & ? & ? & ?).
  exists σ', s'. split; [done|]. split; [|done].
  exists sc, t, head, rest, i, e. split_and!; try done.
  - by destruct Hmid.
  - by destruct Hmid.
Qed.

Lemma rr_init_spec σ :
  StronglySorted arrival_key_le (work_objs σ) →
  ∃ s, rr_init σ = Returned s ∧ rr_inv σ s ∧
       rr_schedule s = [] ∧ rr_current_time s = Q2Qc 0 ∧ rr_completed s = ∅ ∧
       rr_ready_queue s = arrived_by σ 0 (Q2Qc 0) ∧
       rr_i s = length (arrived_by σ 0 (Q2Qc 0)).
Proof.
  intros Hs. unfold rr_init. rewrite rr_admit_spec by (done || lia).
  eexists. split; [done|]. split; [|done].
  destruct (arrived_by_prefix σ 0 (Q2Qc 0) Hs) as (m & Hm & Hle & Hin & Hout).
  rewrite Hm, length_fmap, length_seq. constructor;
    cbn [rr_i rr_ready_queue rr_current_time rr_completed rr_schedule].
  - done.
  - lia.
  - apply Forall_fmap, Forall_forall. intros k [? ?]%elem_of_seq.
    exists k. split; [done|lia].
  - intros k ? ?. by apply Hout.
  - intros k Hk. left. apply list_elem_of_fmap_2, elem_of_seq. lia.
Qed.

Lemma rr_reachable_inv q σ0 σ s :
  StronglySorted arrival_key_le (work_objs σ0) →
  rr_reachable q σ0 σ s → rr_inv σ s.
Proof.
  intros Hs. induction 1 as [s Hi|σ s σ' s' _ IH _ Hb].
  - destruct (rr_init_spec σ0 Hs) as (s0 & Hi0 & ? & _).
    by assert (s = s0) as -> by congruence.
  - destruct (rr_body_turn q σ s IH) as [(_ & _ & Hbr)|(σ1 & s1 & Hc & _ & ?)];
      [congruence|].
    by assert (σ' = σ1 ∧ s' = s1) as [-> ->] by (split; congruence).
Qed.

Lemma pids_assign σ r v :
  pid <$> work_objs (assign_remaining_time σ r v) = pid <$> work_objs σ.
Proof.
  destruct r; simpl; [done|].
  rewrite (list_fmap_alter pid _ id); [by apply list_alter_id|by apply Forall_true].
Qed.

Lemma rr_reachable_pids q σ0 σ s :
  StronglySorted arrival_key_le (work_objs σ0) →
  rr_reachable q σ0 σ s → pid <$> work_objs σ = pid <$> work_objs σ0.
Proof.
  intros Hs. induction 1 as [s Hi|σ s σ' s' Hr IH _ Hb]; [done|].
  apply rr_reachable_inv in Hr; [|done].
  destruct (rr_body_turn q σ s Hr) as [(_ & _ & Hbr)|(σ1 & s1 & Hc & Ht & _)];
    [congruence|].
  assert (σ' = σ1) as -> by congruence.
  destruct Ht as (? & ? & ? & ? & ? & ? & _ & _ & _ & _ & -> & _).
  by rewrite pids_assign.
Qed.

(** With unique pids the loop is never left through [break]. *)
Lemma rr_no_break σ s :
  rr_inv σ s → NoDup (pid <$> work_objs σ) →
  size (rr_completed s) < length (work_objs σ) →
  ¬ (rr_ready_queue s = [] ∧ length (work_objs σ) ≤ rr_i s).
Proof.
  intros [_ Hi _ _ Ha] Hnd Hsz [Hq Hn].
  assert (list_to_set (pid <$> work_objs σ) ⊆ rr_completed s) as Hsub.
  { intros x [p [-> [k Hk]%list_elem_of_lookup_1]]%elem_of_list_to_set%list_elem_of_fmap.
    pose proof (lookup_lt_Some _ _ _ Hk).
    destruct (Ha k) as [Hin|Hin]; [lia|by rewrite Hq in Hin; inversion Hin|].
    simpl in Hin. by rewrite (list_lookup_total_correct _ _ _ Hk) in Hin. }
  apply subseteq_size in Hsub. rewrite size_list_to_set, length_fmap in Hsub by done.
  lia.
Qed.




(** ** Chains of schedule entries *)

Lemma chain_le t0 sched t1 : chain t0 sched t1 → (t0 ≤ t1)%Qc.
Proof.
  revert t0. induction sched as [|e l IH]; intros t0; simpl.
  - intros ->. qc_lra.
  - intros (<- & Hlt & Hc%IH). qc_lra.
Qed.

Lemma chain_snoc t0 sched e t1 :
  chain t0 (sched ++ [e]) t1 ↔
  chain t0 sched (entry_start e) ∧ (entry_start e < entry_end e)%Qc ∧ entry_end e = t1.
Proof.
  revert t0. induction sched as [|x l IH]; intros t0; simpl.
  - naive_solver.
  - rewrite IH. naive_solver.
Qed.

Lemma chain_record_run t0 sched p t t' :
  chain t0 sched t → (t < t')%Qc → chain t0 (record_run sched p t t') t'.
Proof.
  intros Hc Hlt. destruct (record_run_emits sched p t t') as [_|init s0 ->].
  - apply chain_snoc. by split_and!.
  - apply chain_snoc in Hc as (Hc & Hlt' & _). apply chain_snoc.
    unfold entry_start, entry_end in *. simpl in *. split_and!; [done| |done].
    qc_lra.
Qed.

Lemma chain_max_end t0 sched t1 :
  chain t0 sched t1 → sched ≠ [] → max_end_time sched = t1.
Proof.
  destruct sched as [|[[p s] e] l]; [done|]. simpl. intros (_ & _ & Hc) _.
  unfold entry_end in Hc. simpl in Hc.
  revert e Hc. induction l as [|x l IH]; intros e Hc; simpl in *; [done|].
  destruct Hc as (Hs & Hlt & Hc). apply IH.
  unfold py_max, Qc_ltb. rewrite bool_decide_eq_true_2; [done|].
  unfold entry_start, entry_end in *. destruct x as [[? ?] ?]. simpl in *. qc_lra.
Qed.

Lemma chain_lookup t0 sched t1 i e :
  chain t0 sched t1 → sched !! i = Some e →
  (t0 ≤ entry_start e)%Qc ∧ (entry_start e < entry_end e)%Qc ∧
  (entry_end e ≤ t1)%Qc ∧
  (∀ e', sched !! S i = Some e' → entry_end e = entry_start e') ∧
  (i = 0 → entry_start e = t0).
Proof.
  revert t0 i. induction sched as [|x l IH]; intros t0 [|i] Hc Hi; simplify_eq/=.
  - destruct Hc as (<- & Hlt & Hc). pose proof (chain_le _ _ _ Hc).
    split_and!; [qc_lra|done|done| |done].
    intros e' He'. destruct l as [|y l]; simplify_eq/=. by destruct Hc as (-> & _).
  - destruct Hc as (<- & Hlt & Hc).
    destruct (IH _ _ Hc Hi) as (? & ? & ? & ? & _).
    split_and!; [qc_lra|done|done|done|lia].
Qed.

Lemma chain_chronological sched t1 :
  chain (Q2Qc 0) sched t1 → chronological sched.
Proof.
  intros Hc. split_and!.
  - intros e [i Hi]%list_elem_of_lookup_1.
    by destruct (chain_lookup _ _ _ _ _ Hc Hi) as (_ & ? & _).
  - intros i e1 e2 H1 H2.
    destruct (chain_lookup _ _ _ _ _ Hc H1) as (_ & _ & _ & Hn & _). by apply Hn.
  - intros i j e1 e2 Hij H1 H2.
    assert (∀ d e2, sched !! (S i + d) = Some e2 →
                    (entry_end e1 ≤ entry_start e2)%Qc) as Hd.
    { clear j e2 Hij H2. induction d as [|d IHd]; intros e2 H2.
      - destruct (chain_lookup _ _ _ _ _ Hc H1) as (_ & _ & _ & Hn & _).
        rewrite Nat.add_0_r in H2. rewrite (Hn _ H2). qc_lra.
      - destruct (lookup_lt_is_Some_2 sched (S i + d)) as [em Hem].
        { apply lookup_lt_Some in H2. lia. }
        specialize (IHd _ Hem).
        destruct (chain_lookup _ _ _ _ _ Hc Hem) as (_ & ? & _ & Hn & _).
        replace (S i + S d) with (S (S i + d)) in H2 by lia.
        rewrite <- (Hn _ H2). qc_lra. }
    replace j with (S i + (j - S i)) in H2 by lia. specialize (Hd _ _ H2).
    destruct (chain_lookup _ _ _ _ _ Hc H1) as (_ & ? & _). split; qc_lra.
  - intros t Hne H0 Ht. rewrite (chain_max_end _ _ _ Hc Hne) in Ht.
    assert (∀ l t0, chain t0 l t1 → (t0 < t)%Qc →
                    ∃ e, e ∈ l ∧ (entry_start e ≤ t)%Qc ∧ (t ≤ entry_end e)%Qc) as Hin.
    { clear Hc Hne H0. induction l as [|x l IH]; intros t0 Hc H0; simpl in *.
      - subst. exfalso. qc_lra.
      - destruct Hc as (<- & Hlt & Hc).
        destruct (decide (t ≤ entry_end x)%Qc) as [Hle|Hgt].
        + exists x. split_and!; [by left|qc_lra|done].
        + destruct (IH (entry_end x) Hc) as (e & He & ? & ?); [qc_lra|].
          exists e. split_and!; [by right|done|done]. }
    destruct sched as [|x l]; [done|]. simpl in Hc. destruct Hc as (Hx & Hlt & Hc).
    destruct (decide (t ≤ entry_end x)%Qc) as [Hle|Hgt].
    + exists x. split_and!; [by left|by rewrite Hx|done].
    + destruct (Hin l (entry_end x) Hc) as (e & He & ? & ?); [qc_lra|].
      exists e. split_and!; [by right|done|done].
Qed.

(** ** The schedules are chains: FCFS and the non-preemptive loops *)

Lemma fcfs_step_chain (p : Process) t0 sched t :
  (Q2Qc 0 < burst_time p)%Qc → chain t0 sched t →
  chain t0 (fcfs_step (sched, t) p).1 (fcfs_step (sched, t) p).2.
Proof.
  intros Hp Hc. unfold fcfs_step, Qc_ltb. case_bool_decide as Ha; simpl.
  - apply chain_snoc. split; [|split; [|done]].
    + apply chain_snoc. by split_and!.
    + unfold entry_start, entry_end. simpl. qc_lra.
  - apply chain_snoc. split; [done|split; [|done]].
    unfold entry_start, entry_end. simpl. qc_lra.
Qed.

Lemma fcfs_chain (l : list Process) t0 sched t :
  Forall (λ p, (Q2Qc 0 < burst_time p)%Qc) l →
  chain t0 sched t →
  chain t0 (foldl fcfs_step (sched, t) l).1 (foldl fcfs_step (sched, t) l).2.
Proof.
  intros Hl. revert sched t. induction Hl as [|p l Hp _ IH]; intros sched t Hc; [done|].
  cbn [foldl]. pose proof (fcfs_step_chain p t0 sched t Hp Hc) as Hs.
  destruct (fcfs_step (sched, t) p) as [sched1 t1]. by apply IH.
Qed.

Lemma min_by_from_elem {A K} (klt : K → K → outcome bool) (key : A → K) best l x :
  min_by_from klt key best l = Returned x → x = best ∨ x ∈ l.
Proof.
  revert best. induction l as [|y l IH]; intros best; simpl.
  - intros [= ->]. by left.
  - destruct (klt _ _) as [b| |]; simpl; [|done..].
    intros [->|?]%IH; [|by right; right].
    destruct b; [right; left|left]; done.
Qed.

Lemma min_by_elem {A K} (klt : K → K → outcome bool) (key : A → K) l x :
  min_by klt key l = Returned x → x ∈ l.
Proof.
  destruct l as [|y l]; [done|]. simpl.
  intros [->|?]%min_by_from_elem; [by left|by right].
Qed.

Section non_preemptive_chain.
Context {K : Type} (key : Process → K).
Context (keq : K → K → bool) (klt : K → K → outcome bool).
Context (processes_copy : list Process).
Hypothesis bursts : Forall (λ p, (Q2Qc 0 < burst_time p)%Qc) processes_copy.

Lemma np_body_chain s s' :
  np_body key keq klt processes_copy s = Returned s' →
  chain (Q2Qc 0) (np_schedule s) (np_current_time s) →
  chain (Q2Qc 0) (np_schedule s') (np_current_time s').
Proof.
  unfold np_body. intros Hb Hc.
  destruct (filter _ processes_copy) as [|a l] eqn:Hav.
  - destruct (min_by num_lt _ _) as [next| |] eqn:Hm;
      cbn [mbind outcome_bind] in Hb; simplify_eq.
    cbn [np_schedule np_current_time].
    apply chain_snoc. split_and!; [done| |done].
    apply min_by_elem, list_elem_of_filter in Hm as [Hnc Hin].
    unfold entry_start, entry_end. simpl.
    assert (next ∉ filter (λ p, pid p ∉ np_completed s ∧
              Qcle (arrival_time p) (np_current_time s)) processes_copy) as Hnot.
    { rewrite Hav. apply not_elem_of_nil. }
    rewrite list_elem_of_filter in Hnot.
    destruct (decide (arrival_time next ≤ np_current_time s)%Qc); [|qc_lra].
    destruct Hnot. by split_and!.
  - destruct (min_by _ _ _) as [sel| |] eqn:Hm;
      cbn [mbind outcome_bind] in Hb; simplify_eq.
    cbn [np_schedule np_current_time].
    apply chain_snoc. split_and!; [done| |done].
    apply min_by_elem in Hm. rewrite <- Hav in Hm.
    apply list_elem_of_filter in Hm as [_ Hin].
    rewrite Forall_forall in bursts. specialize (bursts _ Hin).
    unfold entry_start, entry_end. simpl. qc_lra.
Qed.

Lemma np_loop_chain fuel s s' :
  np_loop key keq klt processes_copy fuel s = Returned s' →
  chain (Q2Qc 0) (np_schedule s) (np_current_time s) →
  chain (Q2Qc 0) (np_schedule s') (np_current_time s').
Proof.
  revert s. induction fuel as [|fuel IH]; intros s; simpl.
  - case_bool_decide; [done|]. by intros [= ->].
  - case_bool_decide; [|by intros [= ->]].
    destruct (np_body _ _ _ _ s) as [s1| |] eqn:Hb; simpl; [|done..].
    intros Hl Hc. eapply IH; [done|]. by eapply np_body_chain.
Qed.
End non_preemptive_chain.

Lemma copy_processes_bursts (processes : list Process) :
  Forall (λ p, (Q2Qc 0 < burst_time p)%Qc) processes →
  Forall (λ p, (Q2Qc 0 < burst_time p)%Qc ∧ remaining_time p = burst_time p)
         (copy_processes processes).
Proof.
  intros H. unfold copy_processes. apply Forall_fmap.
  eapply Forall_impl; [done|]. by intros p Hp.
Qed.

(** ** The schedules are chains: round_robin *)

Lemma chain_emits t0 sched p t t' sched' :
  chain t0 sched t → (t < t')%Qc → emits sched p t t' sched' → chain t0 sched' t'.
Proof.
  intros Hc Hlt [_|init s0 ->].
  - apply chain_snoc. by split_and!.
  - apply chain_snoc in Hc as (Hc & Hlt' & _). apply chain_snoc.
    unfold entry_start, entry_end in *. simpl in *. split_and!; [done| |done].
    qc_lra.
Qed.

Lemma NoDup_work_seq i m : NoDup (Work <$> seq i m).
Proof. apply NoDup_fmap_2; [by intros ?? [=]|apply NoDup_seq]. Qed.

Lemma rr_wait_valid σ s sc t rq i :
  rr_valid σ s → rr_wait σ s = Returned (Some (sc, t, rq, i)) →
  rr_valid σ (mkRR sc t rq (rr_completed s) i).
Proof.
  intros [Hinv Hnd Hlive Hc] Hw.
  destruct (rr_wait_spec σ s Hinv)
    as [(_ & _ & ?)|(sc' & t' & head & rest & i' & Hw' & Hmid & Hcase)]; [congruence|].
  rewrite Hw in Hw'. simplify_eq.
  destruct Hcase as [(Hq & -> & -> & ->)|(Hq & Hi & -> & -> & Harr & ->)].
  - constructor; [exact Hmid|..];
      cbn [rr_i rr_ready_queue rr_current_time rr_completed rr_schedule];
      rewrite <- ?Hq; done.
  - destruct (arrived_by_prefix σ (rr_i s) (arrival_time (deref σ (Work (rr_i s))))
                (rr_sorted _ _ Hinv)) as (m & Hm & Hle & Hin & Hout).
    rewrite <- Harr in Hm.
    constructor; cbn [rr_i rr_ready_queue rr_current_time rr_completed rr_schedule].
    + done.
    + rewrite Hm. apply NoDup_work_seq.
    + intros k Hk Hl. apply Hlive; [done|]. right.
      destruct Hl as [Hl|Hl]; [|lia].
      rewrite Hm in Hl. apply list_elem_of_fmap in Hl as (k' & [= ->] & Hk').
      apply elem_of_seq in Hk'. lia.
    + apply chain_snoc. split_and!; [done| |done].
      unfold entry_start, entry_end. simpl. by apply (rr_pending_future _ _ Hinv).
Qed.

Lemma rr_run_valid q σ completed sc t head rest i σ' s' :
  (Q2Qc 0 < q)%Qc →
  rr_valid σ (mkRR sc t (head :: rest) completed i) →
  rr_run q σ completed sc t (head :: rest) i = (σ', Returned (Continue s')) →
  rr_valid σ' s'.
Proof.
  intros Hq [Hinv Hnd Hlive Hc] Hrun.
  cbn [rr_i rr_ready_queue rr_current_time rr_completed rr_schedule] in *.
  destruct (rr_run_spec q σ completed sc t head rest i Hinv)
    as (σ1 & s1 & e & Hrun' & Hinv' & Heq & Her & Hcase & Hσ & Hem & Ht & Hi & Hqueue).
  assert (σ' = σ1 ∧ s' = s1) as [-> ->] by (split; congruence).
  clear Hrun'. subst σ1.
  pose proof (rr_queue_admitted _ _ Hinv) as Hadm.
  cbn [rr_i rr_ready_queue] in Hadm.
  apply Forall_cons in Hadm as [(kh & -> & Hkh) Hrest].
  pose proof (rr_i_le _ _ Hinv) as Hile. cbn [rr_i] in Hile.
  set (p := deref σ (Work kh)) in *.
  assert (Q2Qc 0 < remaining_time p)%Qc as Hrem.
  { apply Hlive; [lia|]. left. by left. }
  assert (Q2Qc 0 < e)%Qc as He by (destruct Hcase as [->| ->]; done).
  destruct (arrived_by_prefix σ i (t + e)%Qc (rr_sorted _ _ Hinv))
    as (m & Hm & Hle & Hin & Hout).
  apply NoDup_cons in Hnd as [Hhead Hnd].
  assert (NoDup (rest ++ arrived_by σ i (t + e)%Qc)) as Hnd1.
  { apply NoDup_app. split_and!; [done| |rewrite Hm; apply NoDup_work_seq].
    intros r Hr. rewrite Hm. intros (k & -> & [? ?]%elem_of_seq)%list_elem_of_fmap.
    rewrite Forall_forall in Hrest. destruct (Hrest _ Hr) as (k' & [= <-] & ?). lia. }
  assert (Work kh ∉ rest ++ arrived_by σ i (t + e)%Qc) as Hkh1.
  { rewrite elem_of_app, Hm. intros [?|(k & [= <-] & [? ?]%elem_of_seq)%list_elem_of_fmap];
      [done|lia]. }
  assert (∀ k, k ≠ kh → k < length (work_objs σ) →
               Work k ∈ rest ++ arrived_by σ i (t + e)%Qc ∨ rr_i s1 ≤ k →
               (Q2Qc 0 < remaining_time (deref
                  (assign_remaining_time σ (Work kh) (remaining_time p - e)%Qc)
                  (Work k)))%Qc) as Hlive1.
  { intros k Hne Hk Hl. rewrite deref_assign_ne by congruence. apply Hlive; [done|].
    destruct Hl as [[?|Hl]%elem_of_app|Hl].
    - left. by right.
    - right. rewrite Hm in Hl. apply list_elem_of_fmap in Hl as (k' & [= ->] & Hk').
      apply elem_of_seq in Hk'. lia.
    - right. lia. }
  assert (rr_i s1 ≤ kh → False) as Hnot by lia.
  constructor.
  - done.
  - destruct (bool_decide _); destruct Hqueue as [-> _]; [done|].
    rewrite app_assoc. apply NoDup_app. split_and!; [done| |apply NoDup_singleton].
    intros r Hr ->%list_elem_of_singleton. done.
  - rewrite length_work_assign. intros k Hk Hl.
    destruct (decide (k = kh)) as [->|Hne].
    + rewrite deref_assign_eq by lia. simpl. fold p.
      destruct (bool_decide _) eqn:Hd; destruct Hqueue as [Hqu _]; rewrite Hqu in Hl.
      * destruct Hl as [?|?]; [done|lia].
      * apply bool_decide_eq_false in Hd.
        clear -Hd. qc_lra.
    + apply Hlive1; [done..|].
      destruct (bool_decide _); destruct Hqueue as [Hqu _]; rewrite Hqu in Hl; [done|].
      destruct Hl as [Hl|?]; [|by right].
      rewrite app_assoc, elem_of_app in Hl. destruct Hl as [?|Hl]; [by left|].
      apply list_elem_of_singleton in Hl. congruence.
  - rewrite Ht. eapply chain_emits; [done| |done]. clear -He. qc_lra.
Qed.

Lemma rr_body_valid q σ s σ' s' :
  (Q2Qc 0 < q)%Qc → rr_valid σ s →
  rr_body q σ s = (σ', Returned (Continue s')) → rr_valid σ' s'.
Proof.
  intros Hq Hv. unfold rr_body.
  destruct (rr_wait σ s) as [[[[[sc t] rq] i]|]| |] eqn:Hw; [|done..].
  apply rr_wait_valid in Hw; [|done].
  destruct rq as [|head rest]; [done|]. by apply rr_run_valid.
Qed.

Lemma rr_loop_valid q fuel σ s σ' s' :
  (Q2Qc 0 < q)%Qc → rr_valid σ s →
  rr_loop q fuel σ s = (σ', Returned s') →
  chain (Q2Qc 0) (rr_schedule s') (rr_current_time s').
Proof.
  intros Hq. revert σ s. induction fuel as [|fuel IH]; intros σ s Hv; simpl.
  - case_bool_decide; [done|]. intros [= <- <-]. by destruct Hv.
  - case_bool_decide; [|intros [= <- <-]; by destruct Hv].
    destruct (rr_body q σ s) as [σ1 [[s1|s1]| |]] eqn:Hb; [| |done..].
    + apply IH. by eapply rr_body_valid.
    + intros [= <- <-]. unfold rr_body in Hb.
      destruct (rr_wait σ s) as [[[[[sc t] rq] i]|]| |] eqn:Hw; simplify_eq.
      * unfold rr_run in Hb. destruct rq as [|c rq]; [done|].
        destruct (execute _ _ _). destruct (rr_admit _ _ _ _ _) as [[??]| |]; [|done..].
        by destruct (is_completed _).
      * by destruct Hv.
Qed.

(** ** The schedules are chains: the preemptive loops *)

Section preemptive_chain.
Context {K : Type} (key : Process → K).
Context (keq : K → K → bool) (klt : K → K → outcome bool).

Lemma p_body_valid σ (s : p_state K) σ' s' :
  p_valid σ s →
  p_body key keq klt σ s = (σ', Returned (Continue s')) →
  p_valid σ' s'.
Proof.
  intros [Hnd Hadm Hi Hlive Hc]. unfold p_body.
  destruct (p_pick _ _ _ _ _) as [[[rq1 i1] cur1]| |] eqn:Hpick; [|done..].
  apply p_pick_refs in Hpick as (Hi1 & Hn1 & dropped & Hperm).
  specialize (Hn1 Hi).
  destruct cur1 as [c|]; [|by case_bool_decide].
  set (R0 := p_refs (p_ready_queue s) (p_current_process s)) in *.
  set (A := Work <$> seq (p_i s) (i1 - p_i s)) in *.
  assert (NoDup (A ++ R0)) as HndAR.
  { apply NoDup_app. split_and!; [apply NoDup_work_seq| |done].
    intros r (k & -> & [? ?]%elem_of_seq)%list_elem_of_fmap Hr.
    rewrite Forall_forall in Hadm. destruct (Hadm _ Hr) as (k' & [= <-] & ?). lia. }
  assert (Forall (λ r, ∃ k, r = Work k ∧ k < i1) (A ++ R0)) as HadmAR.
  { apply Forall_app. split.
    - apply Forall_fmap, Forall_forall. intros k [? ?]%elem_of_seq.
      exists k. split; [done|lia].
    - eapply Forall_impl; [done|]. intros r (k & -> & ?). exists k. split; [done|lia]. }
  assert (∀ k, k < length (work_objs σ) → Work k ∈ A ++ R0 ∨ i1 ≤ k →
               (Q2Qc 0 < remaining_time (deref σ (Work k)))%Qc) as HliveAR.
  { intros k Hk [[Hl|Hl]%elem_of_app|Hl]; apply Hlive; try done.
    - right. apply list_elem_of_fmap in Hl as (k' & [= ->] & Hk').
      apply elem_of_seq in Hk'. lia.
    - by left.
    - right. lia. }
  rewrite <- Hperm in HndAR, HadmAR.
  apply NoDup_app in HndAR as (Hnd1 & _ & _).
  apply Forall_app in HadmAR as [Hadm1 _].
  assert (∀ r, r ∈ p_refs rq1 (Some c) → r ∈ A ++ R0) as Hsub.
  { intros r Hr. rewrite <- Hperm. apply elem_of_app. by left. }
  unfold p_refs in Hnd1, Hadm1, Hsub. simpl in Hnd1, Hadm1, Hsub.
  apply NoDup_app in Hnd1 as (Hndq & Hcq & _).
  apply Forall_app in Hadm1 as [Hadmq Hadmc].
  apply Forall_singleton in Hadmc as (kc & -> & Hkc).
  assert (Work kc ∉ snd <$> rq1) as Hcnot.
  { intros Hin. by apply (Hcq _ Hin), list_elem_of_singleton. }
  unfold execute.
  set (p := deref σ (Work kc)).
  set (e := py_min (Q2Qc 1) (remaining_time p)).
  set (σ1 := assign_remaining_time σ (Work kc) (remaining_time p - e)%Qc).
  assert (deref σ1 (Work kc) = set_remaining_time p (remaining_time p - e)%Qc) as Hd.
  { apply deref_assign_eq. lia. }
  assert (Q2Qc 0 < remaining_time p)%Qc as Hrem.
  { apply HliveAR; [lia|]. left. apply Hsub, elem_of_app. right.
    by apply list_elem_of_singleton. }
  assert (Q2Qc 0 < e)%Qc as He.
  { destruct (py_min_spec (Q2Qc 1) (remaining_time p)) as (_ & _ & [Hx|Hx]);
      fold e in Hx; rewrite Hx; done. }
  assert (∀ k, k ≠ kc → k < length (work_objs σ) →
               Work k ∈ snd <$> rq1 ∨ i1 ≤ k →
               (Q2Qc 0 < remaining_time (deref σ1 (Work k)))%Qc) as Hlive1.
  { intros k Hne Hk Hl. unfold σ1. rewrite deref_assign_ne by congruence.
    apply HliveAR; [done|]. destruct Hl as [Hl|Hl]; [left|by right].
    apply Hsub, elem_of_app. by left. }
  assert (chain (Q2Qc 0)
            (record_run (p_schedule s) (pid (deref σ1 (Work kc))) (p_current_time s)
                        (p_current_time s + e)%Qc)
            (p_current_time s + e)%Qc) as Hchain.
  { apply chain_record_run; [done|]. clear -He. qc_lra. }
  assert (length (work_objs σ1) = length (work_objs σ)) as Hlen
    by apply length_work_assign.
  rewrite Hd in Hchain. cbn [pid set_remaining_time] in Hchain.
  rewrite Hd. unfold is_completed, Qc_leb.
  cbn [remaining_time pid set_remaining_time].
  case_bool_decide as Hdone; intros [= <- <-]; constructor;
    cbn [p_schedule p_current_time p_ready_queue p_i p_current_process];
    unfold p_refs; cbn [option_list]; rewrite ?app_nil_r, ?Hlen;
    try done.
  - intros k Hk Hl. apply Hlive1; [|done..].
    intros ->. destruct Hl as [?|?]; [done|lia].
  - apply NoDup_app. split_and!; [done| |apply NoDup_singleton].
    intros r Hr ->%list_elem_of_singleton. done.
  - apply Forall_app. split; [done|]. apply Forall_singleton.
    exists kc. split; [done|lia].
  - intros k Hk Hl. destruct (decide (k = kc)) as [->|Hne].
    + rewrite Hd. simpl. clear -Hdone. qc_lra.
    + apply Hlive1; [done..|]. destruct Hl as [Hl|?]; [|by right].
      apply elem_of_app in Hl as [?|Hl]; [by left|].
      apply list_elem_of_singleton in Hl. congruence.
Qed.

Lemma p_body_break_chain σ (s : p_state K) σ' s' :
  p_body key keq klt σ s = (σ', Returned (Break s')) →
  p_schedule s' = p_schedule s ∧ p_current_time s' = p_current_time s.
Proof.
  unfold p_body.
  destruct (p_pick _ _ _ _ _) as [[[rq1 i1] cur1]| |] eqn:Hpick; [|done..].
  destruct cur1 as [c|].
  - destruct (execute _ _ _). by destruct (is_completed _).
  - case_bool_decide; [done|]. by intros [= <- <-].
Qed.

Lemma p_loop_valid fuel σ (s : p_state K) σ' s' :
  p_valid σ s →
  p_loop key keq klt fuel σ s = (σ', Returned s') →
  chain (Q2Qc 0) (p_schedule s') (p_current_time s').
Proof.
  revert σ s. induction fuel as [|fuel IH]; intros σ s Hv; simpl.
  - case_bool_decide; [done|]. intros [= <- <-]. by destruct Hv.
  - case_bool_decide; [|intros [= <- <-]; by destruct Hv].
    destruct (p_body key keq klt σ s) as [σ1 [[s1|s1]| |]] eqn:Hb; [| |done..].
    + apply IH. by eapply p_body_valid.
    + intros [= <- <-]. apply p_body_break_chain in Hb as [-> ->]. by destruct Hv.
Qed.
End preemptive_chain.

(** ** Every returned schedule is chronological *)

Lemma sorted_copies_positive (processes : list Process) k :
  Forall (λ p, (Q2Qc 0 ≤ arrival_time p)%Qc ∧ (Q2Qc 0 < burst_time p)%Qc) processes →
  k < length (sorted arrival_key_ltb (copy_processes processes)) →
  (Q2Qc 0 < remaining_time
     (sorted arrival_key_ltb (copy_processes processes) !!! k))%Qc.
Proof.
  intros Hv Hk.
  assert (Forall (λ p, (Q2Qc 0 < remaining_time p)%Qc)
            (sorted arrival_key_ltb (copy_processes processes))) as Hall.
  { apply Forall_forall. intros x Hx. rewrite sorted_perm in Hx.
    unfold copy_processes in Hx. apply list_elem_of_fmap in Hx as (p & -> & Hp).
    rewrite Forall_forall in Hv. by destruct (Hv _ Hp). }
  rewrite Forall_forall in Hall. apply Hall.
  by apply list_elem_of_lookup_total_2.
Qed.

Lemma p_init_valid {K} (processes : list Process) :
  Forall (λ p, (Q2Qc 0 ≤ arrival_time p)%Qc ∧ (Q2Qc 0 < burst_time p)%Qc) processes →
  p_valid (K:=K)
    (mkStore [] (sorted arrival_key_ltb (copy_processes processes))) p_init.
Proof.
  intros Hv. constructor; simpl.
  - constructor.
  - constructor.
  - lia.
  - intros k Hk _. by apply sorted_copies_positive.
  - done.
Qed.

Lemma rr_init_valid (processes : list Process) s :
  Forall (λ p, (Q2Qc 0 ≤ arrival_time p)%Qc ∧ (Q2Qc 0 < burst_time p)%Qc) processes →
  rr_init (mkStore [] (sorted arrival_key_ltb (copy_processes processes))) = Returned s →
  rr_valid (mkStore [] (sorted arrival_key_ltb (copy_processes processes))) s.
Proof.
  intros Hv Hi.
  set (σ := mkStore [] (sorted arrival_key_ltb (copy_processes processes))) in *.
  assert (StronglySorted arrival_key_le (work_objs σ)) as Hs
    by apply sorted_arrival_StronglySorted.
  destruct (rr_init_spec σ Hs) as (s0 & Hi0 & Hinv & Hsc & Ht & _ & Hq & _).
  assert (s = s0) as -> by congruence.
  constructor; [done| | |].
  - rewrite Hq. destruct (arrived_by_prefix σ 0 (Q2Qc 0) Hs) as (m & -> & _).
    apply NoDup_work_seq.
  - intros k Hk _. by apply sorted_copies_positive.
  - by rewrite Hsc, Ht.
Qed.

(** C6: on a valid input (unique pids, arrivals at or after 0, positive
    bursts; a positive quantum) whose times and quantum are whole numbers
    on which the arithmetic is exact, whenever one of the six algorithms
    returns a result its schedule is chronological: every entry starts
    strictly before it ends, each entry ends where the next one starts, the
    entries are sorted by start time and do not overlap, and every instant
    between 0 and the maximum end time lies in an entry. *)
Theorem returned_schedule_is_chronological fuel (processes : list Process)
    (time_quantum : Qc) (r : SchedulingResult) :
  valid_input processes → exact_times processes →
  (Q2Qc 0 < time_quantum)%Qc → whole time_quantum →
  (fcfs_scheduling processes).2 = Returned r ∨
  (sjf_non_preemptive fuel processes).2 = Returned r ∨
  (sjf_preemptive fuel processes).2 = Returned r ∨
  (priority_non_preemptive fuel processes).2 = Returned r ∨
  (priority_preemptive fuel processes).2 = Returned r ∨
  (round_robin fuel processes time_quantum).2 = Returned r →
  chronological (schedule r).
Proof.
  intros [Hnd Hv] _ Hq _ Hr.
  destruct processes as [|p0 ps].
  { assert (schedule r = []) as ->.
    { destruct Hr as [Hr|[Hr|[Hr|[Hr|[Hr|Hr]]]]]; simpl in Hr; by simplify_eq. }
    by apply (chain_chronological [] (Q2Qc 0)). }
  assert (Forall (λ p, (Q2Qc 0 < burst_time p)%Qc) (p0 :: ps)) as Hb.
  { eapply Forall_impl; [done|]. by intros p [_ ?]. }
  assert (Forall (λ p, (Q2Qc 0 < burst_time p)%Qc) (copy_processes (p0 :: ps))) as Hbc.
  { eapply Forall_impl; [by apply copy_processes_bursts|]. by intros p [? _]. }
  destruct Hr as [Hr|[Hr|[Hr|[Hr|[Hr|Hr]]]]].
  - unfold fcfs_scheduling in Hr.
    pose proof (fcfs_chain (sorted arrival_key_ltb (p0 :: ps)) (Q2Qc 0) [] (Q2Qc 0)) as Hc.
    destruct (foldl fcfs_step _ _) as [sched t]. cbn [snd] in Hr. simplify_eq.
    cbn [schedule fst snd] in *.
    eapply chain_chronological, Hc; [|done].
    apply Forall_forall. intros x Hx. rewrite sorted_perm in Hx.
    rewrite Forall_forall in Hb. by apply Hb.
  - unfold sjf_non_preemptive in Hr. cbn [snd] in Hr.
    destruct (np_loop _ _ _ _ _ _) as [s| |] eqn:Hl;
      cbn [mbind outcome_bind] in Hr; simplify_eq. cbn [schedule].
    eapply chain_chronological, np_loop_chain; [done..|]. done.
  - rewrite sjf_preemptive_unfold in Hr by done. cbn [snd] in Hr.
    destruct (p_loop _ _ _ _ _ _) as [σ' [s| |]] eqn:Hl;
      cbn [snd mbind outcome_bind] in Hr; simplify_eq. cbn [schedule].
    eapply chain_chronological, p_loop_valid; [|done]. by apply p_init_valid.
  - unfold priority_non_preemptive in Hr. cbn [snd] in Hr.
    destruct (check_priorities _); [|done..]. cbn [mbind outcome_bind] in Hr.
    destruct (np_loop _ _ _ _ _ _) as [s| |] eqn:Hl;
      cbn [mbind outcome_bind] in Hr; simplify_eq. cbn [schedule].
    eapply chain_chronological, np_loop_chain; [done..|]. done.
  - rewrite priority_preemptive_unfold in Hr by done. cbn [snd] in Hr.
    destruct (check_priorities _); [|done..]. cbn [mbind outcome_bind] in Hr.
    destruct (p_loop _ _ _ _ _ _) as [σ' [s| |]] eqn:Hl;
      cbn [snd mbind outcome_bind] in Hr; simplify_eq. cbn [schedule].
    eapply chain_chronological, p_loop_valid; [|done]. by apply p_init_valid.
  - rewrite round_robin_unfold in Hr; [|done|clear -Hq; intros ?; qc_lra].
    cbn [snd] in Hr.
    destruct (rr_init _) as [s0| |] eqn:Hi; [|done..]. cbn [mbind outcome_bind] in Hr.
    destruct (rr_loop _ _ _ _) as [σ' [s| |]] eqn:Hl;
      cbn [snd mbind outcome_bind] in Hr; simplify_eq. cbn [schedule].
    eapply chain_chronological, rr_loop_valid; [done| |done].
    by apply rr_init_valid.
Qed.

Lemma returned_schedule_is_chronological_witness :
  ∃ r, (round_robin 20 scenario (Qc_of_Z 2)).2 = Returned r ∧
       chronological (schedule r).
Proof.
  destruct (round_robin 20 scenario (Qc_of_Z 2)).2 as [r|e|] eqn:E.
  - exists r. split; [reflexivity|].
    apply (returned_schedule_is_chronological 20 scenario (Qc_of_Z 2) r).
    + split; compute_done.
    + split; compute_done.
    + reflexivity.
    + reflexivity.
    + do 5 right. exact E.
  - vm_compute in E. discriminate E.
  - vm_compute in E. discriminate E.
Defined.

(** ** The order of the caller's list does not matter *)

Lemma NoDup_fmap_eq {A B} (f : A → B) (l : list A) x y :
  NoDup (f <$> l) → x ∈ l → y ∈ l → f x = f y → x = y.
Proof.
  induction l as [|a l IH]; simpl; [by inversion 2|].
  intros [Ha Hnd]%NoDup_cons [->|Hx]%elem_of_cons [->|Hy]%elem_of_cons Hf; try done.
  - destruct Ha. rewrite Hf. by apply list_elem_of_fmap_2.
  - destruct Ha. rewrite <- Hf. by apply list_elem_of_fmap_2.
  - by apply IH.
Qed.

Lemma sorted_arrival_unique (l l' : list Process) :
  NoDup (pid <$> l) → l' ≡ₚ l →
  sorted arrival_key_ltb l' = sorted arrival_key_ltb l.
Proof.
  intros Hnd Hp.
  apply (StronglySorted_unique_strong arrival_key_le);
    [|apply sorted_arrival_StronglySorted..|by rewrite !sorted_perm].
  intros x y Hx Hy Hxy Hyx. rewrite sorted_perm in Hx, Hy. rewrite Hp in Hx.
  destruct (arrival_key_le_antisym _ _ Hxy Hyx) as [_ Hpid].
  by eapply NoDup_fmap_eq.
Qed.

Lemma pid_copy_processes (l : list Process) : pid <$> copy_processes l = pid <$> l.
Proof. unfold copy_processes. by rewrite <- list_fmap_compose. Qed.

Lemma sorted_copies_unique (l l' : list Process) :
  NoDup (pid <$> l) → l' ≡ₚ l →
  sorted arrival_key_ltb (copy_processes l') =
  sorted arrival_key_ltb (copy_processes l).
Proof.
  intros Hnd Hp. apply sorted_arrival_unique.
  - by rewrite pid_copy_processes.
  - unfold copy_processes. by apply fmap_Permutation.
Qed.

Lemma py_sum_perm (l l' : list Qc) : l' ≡ₚ l → py_sum l' = py_sum l.
Proof.
  intros Hp. unfold py_sum. rewrite !foldl_Qcplus_foldr. f_equal.
  induction Hp as [|x l1 l2 _ IH|x y l1|l1 l2 l3 _ IH1 _ IH2]; simpl.
  - done.
  - by rewrite IH.
  - rewrite !Qcplus_assoc. by rewrite (Qcplus_comm y x).
  - by rewrite IH1.
Qed.

Lemma average_perm (l l' : list Qc) : l' ≡ₚ l → average l' = average l.
Proof.
  intros Hp. unfold average. rewrite (py_sum_perm _ _ Hp).
  rewrite (Permutation_length Hp).
  destruct l as [|x l].
  - by apply Permutation_nil_r in Hp as ->.
  - destruct l'; [by apply Permutation_nil in Hp|done].
Qed.

Lemma calculate_metrics_perm (ps ps' : list Process) (sched : list ScheduleEntry) :
  ps' ≡ₚ ps → calculate_metrics ps' sched = calculate_metrics ps sched.
Proof.
  intros Hp. unfold calculate_metrics. rewrite !collect_times_spec.
  rewrite (Permutation_length Hp).
  rewrite (average_perm (omap (turnaround_time sched) ps)
                        (omap (turnaround_time sched) ps')) by by rewrite Hp.
  by rewrite (average_perm (omap (waiting_time sched) ps)
                           (omap (waiting_time sched) ps')) by by rewrite Hp.
Qed.

(** [min] with a key that orders the elements of the list strictly and
    totally returns the least element, whatever the order of the list. *)
Section min_by_least.
Context {A K : Type} `{EqDecision A} (klt : K → K → outcome bool) (key : A → K).
Context (ltb : A → A → bool) (dom : A → Prop).
Hypothesis klt_ltb : ∀ x y, dom x → dom y → klt (key x) (key y) = Returned (ltb x y).
Hypothesis ltb_trans : ∀ x y z, dom x → dom y → dom z →
  ltb x y = true → ltb y z = true → ltb x z = true.
Hypothesis ltb_asym : ∀ x y, dom x → dom y → ltb x y = true → ltb y x = false.
Hypothesis ltb_total : ∀ x y, dom x → dom y → x ≠ y → ltb x y = true ∨ ltb y x = true.

#[local] Abbreviation least_of := (least_of ltb).

Lemma min_by_from_least best l seen :
  Forall dom (seen ++ l) → least_of seen best →
  ∃ m, min_by_from klt key best l = Returned m ∧ least_of (seen ++ l) m.
Proof.
  revert best seen. induction l as [|x l IH]; intros best seen Hdom Hbest; simpl.
  - exists best. by rewrite app_nil_r.
  - assert (dom x ∧ dom best) as [Hx Hb].
    { rewrite Forall_forall in Hdom. destruct Hbest as [Hin _].
      split; apply Hdom; set_solver. }
    rewrite klt_ltb by done. simpl.
    assert (Forall dom ((seen ++ [x]) ++ l)) as Hdom' by by rewrite <- app_assoc.
    assert (least_of (seen ++ [x]) (if ltb x best then x else best)) as Hl.
    { destruct Hbest as [Hin Hleast]. destruct (ltb x best) eqn:E.
      - split; [set_solver|]. intros y [Hy|Hy]%elem_of_app Hne;
          [|by apply list_elem_of_singleton in Hy].
        destruct (decide (y = best)) as [->|Hyb]; [done|].
        apply (ltb_trans x best y); try done; [|by apply Hleast].
        rewrite Forall_forall in Hdom. apply Hdom. set_solver.
      - split; [set_solver|]. intros y [Hy|Hy]%elem_of_app Hne; [by apply Hleast|].
        apply list_elem_of_singleton in Hy as ->.
        destruct (ltb_total x best) as [?|?]; congruence. }
    destruct (IH _ _ Hdom' Hl) as (m & Hm & Hleast). exists m.
    by rewrite <- app_assoc in Hleast.
Qed.

Lemma min_by_least l :
  Forall dom l → l ≠ [] → ∃ m, min_by klt key l = Returned m ∧ least_of l m.
Proof.
  intros Hdom Hne. destruct l as [|x l]; [done|]. simpl.
  apply (min_by_from_least x l [x]); [by apply Forall_cons in Hdom as [? ?]; constructor|].
  split; [set_solver|]. by intros y ->%list_elem_of_singleton.
Qed.

Lemma least_of_unique l m m' :
  Forall dom l → least_of l m → least_of l m' → m = m'.
Proof.
  intros Hdom [Hm Hl] [Hm' Hl']. destruct (decide (m = m')) as [|Hne]; [done|].
  rewrite Forall_forall in Hdom.
  pose proof (Hl m' Hm' (not_eq_sym Hne)) as H1.
  pose proof (Hl' m Hm Hne) as H2.
  rewrite (ltb_asym m m') in H2 by auto. done.
Qed.

Lemma min_by_perm l l' :
  Forall dom l → l' ≡ₚ l → min_by klt key l' = min_by klt key l.
Proof.
  intros Hdom Hp. destruct l as [|x l].
  { by apply Permutation_nil_r in Hp as ->. }
  assert (l' ≠ []) as Hne' by by intros ->; apply Permutation_nil in Hp.
  assert (Forall dom l') as Hdom' by by rewrite Hp.
  destruct (min_by_least (x :: l) Hdom) as (m & Hm & Hl); [done|].
  destruct (min_by_least l' Hdom' Hne') as (m' & Hm' & Hl').
  rewrite Hm, Hm'. f_equal. apply (least_of_unique (x :: l)); [done| |done].
  destruct Hl' as [Hin Hleast]. split; [by rewrite <- Hp|].
  intros y Hy. apply Hleast. by rewrite Hp.
Qed.
End min_by_least.

(** [min(..., key=lambda p: p.arrival_time)]: the least arrival time. *)
Lemma min_by_arrival_from best (l : list Process) :
  ∃ m, min_by_from num_lt arrival_time best l = Returned m ∧
       m ∈ best :: l ∧ (arrival_time m ≤ arrival_time best)%Qc ∧
       ∀ y, y ∈ l → (arrival_time m ≤ arrival_time y)%Qc.
Proof.
  revert best. induction l as [|x l IH]; intros best; simpl.
  - exists best. split_and!; [done|set_solver|done|]. by inversion 1.
  - unfold Qc_ltb. case_bool_decide as Hlt.
    + destruct (IH x) as (m & -> & Hin & Hle & Hall). exists m.
      split_and!; [done|set_solver|qc_lra|].
      intros y [->|Hy]%elem_of_cons; [done|by apply Hall].
    + destruct (IH best) as (m & -> & Hin & Hle & Hall). exists m.
      split_and!; [done|set_solver|done|].
      intros y [->|Hy]%elem_of_cons; [qc_lra|by apply Hall].
Qed.

Lemma min_by_arrival (l : list Process) :
  l ≠ [] →
  ∃ m, min_by num_lt arrival_time l = Returned m ∧ m ∈ l ∧
       ∀ y, y ∈ l → (arrival_time m ≤ arrival_time y)%Qc.
Proof.
  destruct l as [|x l]; [done|]. intros _. simpl.
  destruct (min_by_arrival_from x l) as (m & -> & Hin & Hle & Hall). exists m.
  split_and!; [done..|]. intros y [->|Hy]%elem_of_cons; [done|by apply Hall].
Qed.

Lemma min_by_arrival_perm (l l' : list Process) :
  l' ≡ₚ l →
  arrival_time <$> min_by num_lt arrival_time l' =
  arrival_time <$> min_by num_lt arrival_time l.
Proof.
  intros Hp. destruct l as [|x l].
  { by apply Permutation_nil_r in Hp as ->. }
  assert (l' ≠ []) as Hne' by by intros ->; apply Permutation_nil in Hp.
  destruct (min_by_arrival (x :: l)) as (m & -> & Hin & Hall); [done|].
  destruct (min_by_arrival l' Hne') as (m' & -> & Hin' & Hall').
  simpl. f_equal.
  rewrite Hp in Hin'. rewrite <- Hp in Hin.
  specialize (Hall _ Hin'). specialize (Hall' _ Hin). qc_lra.
Qed.

Lemma String_ltb_asym (a b : string) : String.ltb a b = true → String.ltb b a = false.
Proof.
  intros Hab. apply String_ltb_false. by apply String_ltb_true.
Qed.

Lemma String_ltb_trans (a b c : string) :
  String.ltb a b = true → String.ltb b c = true → String.ltb a c = true.
Proof.
  intros Hab Hbc.
  pose proof (String_ltb_true _ _ Hab) as Lab.
  pose proof (String_ltb_true _ _ Hbc) as Lbc.
  apply not_false_iff_true. intros Lca%String_ltb_false.
  assert (String.le c b) as Lcb by by etrans.
  assert (b = c) as -> by by apply (anti_symm String.le).
  assert (String.ltb c c = false) by by apply String_ltb_false.
  congruence.
Qed.

Lemma String_ltb_total (a b : string) :
  a ≠ b → String.ltb a b = true ∨ String.ltb b a = true.
Proof.
  intros Hne. destruct (String.ltb a b) eqn:Hab; [by left|right].
  apply not_false_iff_true. intros Hba.
  apply String_ltb_false in Hab, Hba. destruct Hne. by apply (anti_symm String.le).
Qed.

Section lex_order.
Context {T : Type} (proj : Process → T) (teq tlt : T → T → bool).
Hypothesis teq_spec : ∀ a b, teq a b = true ↔ a = b.
Hypothesis tlt_trans : ∀ a b c, tlt a b = true → tlt b c = true → tlt a c = true.
Hypothesis tlt_asym : ∀ a b, tlt a b = true → tlt b a = false.
Hypothesis tlt_total : ∀ a b, a ≠ b → tlt a b = true ∨ tlt b a = true.

Lemma teq_false a b : teq a b = false ↔ a ≠ b.
Proof. rewrite <- teq_spec. by destruct (teq a b). Qed.

Lemma lex_ltb_trans x y z :
  lex_ltb proj teq tlt x y = true → lex_ltb proj teq tlt y z = true →
  lex_ltb proj teq tlt x z = true.
Proof.
  unfold lex_ltb. intros H1 H2.
  destruct (teq (proj x) (proj y)) eqn:Hxy; destruct (teq (proj y) (proj z)) eqn:Hyz.
  - apply teq_spec in Hxy, Hyz.
    assert (teq (proj x) (proj z) = true) as -> by (apply teq_spec; congruence).
    by eapply String_ltb_trans.
  - apply teq_spec in Hxy. by rewrite Hxy, Hyz.
  - apply teq_spec in Hyz. by rewrite <- Hyz, Hxy.
  - destruct (teq (proj x) (proj z)) eqn:Hxz.
    + apply teq_spec in Hxz. rewrite Hxz in H1.
      rewrite (tlt_asym _ _ H1) in H2. done.
    + by eapply tlt_trans.
Qed.

Lemma lex_ltb_asym x y :
  lex_ltb proj teq tlt x y = true → lex_ltb proj teq tlt y x = false.
Proof.
  unfold lex_ltb. destruct (teq (proj x) (proj y)) eqn:Hxy.
  - apply teq_spec in Hxy.
    assert (teq (proj y) (proj x) = true) as -> by by apply teq_spec.
    apply String_ltb_asym.
  - apply teq_false in Hxy.
    assert (teq (proj y) (proj x) = false) as -> by by apply teq_false.
    apply tlt_asym.
Qed.

Lemma lex_ltb_total x y :
  pid x ≠ pid y →
  lex_ltb proj teq tlt x y = true ∨ lex_ltb proj teq tlt y x = true.
Proof.
  intros Hne. unfold lex_ltb. destruct (teq (proj x) (proj y)) eqn:Hxy.
  - apply teq_spec in Hxy.
    assert (teq (proj y) (proj x) = true) as -> by by apply teq_spec.
    by apply String_ltb_total.
  - apply teq_false in Hxy.
    assert (teq (proj y) (proj x) = false) as -> by by apply teq_false.
    by apply tlt_total.
Qed.
End lex_order.

Section non_preemptive_perm.
Context {K T : Type} (key : Process → K).
Context (keq : K → K → bool) (klt : K → K → outcome bool).
Context (proj : Process → T) (teq tlt : T → T → bool).
Context (pc pc' : list Process) (dom : Process → Prop).
Hypothesis teq_spec : ∀ a b, teq a b = true ↔ a = b.
Hypothesis tlt_trans : ∀ a b c, tlt a b = true → tlt b c = true → tlt a c = true.
Hypothesis tlt_asym : ∀ a b, tlt a b = true → tlt b a = false.
Hypothesis tlt_total : ∀ a b, a ≠ b → tlt a b = true ∨ tlt b a = true.
Hypothesis perm : pc' ≡ₚ pc.
Hypothesis unique_pids : NoDup (pid <$> pc).
Hypothesis pc_dom : Forall dom pc.
Hypothesis key_order : ∀ x y, dom x → dom y →
  tuple_lt keq klt (key x, pid x) (key y, pid y) =
  Returned (lex_ltb proj teq tlt x y).

Lemma np_select_perm (l l' : list Process) :
  (∀ x, x ∈ l → x ∈ pc) → l' ≡ₚ l →
  min_by (tuple_lt keq klt) (λ p, (key p, pid p)) l' =
  min_by (tuple_lt keq klt) (λ p, (key p, pid p)) l.
Proof.
  intros Hsub Hp.
  apply (min_by_perm _ _ (lex_ltb proj teq tlt) (λ x, x ∈ pc ∧ dom x)); [..|done].
  - intros x y [_ ?] [_ ?]. by apply key_order.
  - intros x y z _ _ _. by apply lex_ltb_trans.
  - intros x y _ _. by apply lex_ltb_asym.
  - intros x y [Hx _] [Hy _] Hne. apply lex_ltb_total; [done..|].
    intros Hpid. destruct Hne. by eapply NoDup_fmap_eq.
  - apply Forall_forall. intros x Hx. split; [by apply Hsub|].
    rewrite Forall_forall in pc_dom. by apply pc_dom, Hsub.
Qed.

Lemma np_body_perm s :
  np_body key keq klt pc' s = np_body key keq klt pc s.
Proof.
  unfold np_body.
  set (avail := λ p, (pid p ∉ np_completed s) ∧
                     Qcle (arrival_time p) (np_current_time s)).
  set (incomplete := λ p, pid p ∉ np_completed s).
  assert (filter avail pc' ≡ₚ filter avail pc) as Hav by by rewrite perm.
  assert (filter incomplete pc' ≡ₚ filter incomplete pc) as Hinc by by rewrite perm.
  destruct (filter avail pc) as [|a l] eqn:Ha.
  - apply Permutation_nil_r in Hav as ->.
    pose proof (min_by_arrival_perm _ _ Hinc) as Hmin.
    destruct (min_by num_lt arrival_time (filter incomplete pc')) as [m'| |],
             (min_by num_lt arrival_time (filter incomplete pc)) as [m| |];
      simplify_eq/=; [by rewrite Hmin|done..].
  - destruct (filter avail pc') as [|a' l'] eqn:Ha'.
    { by apply Permutation_nil in Hav. }
    rewrite (np_select_perm (a :: l) (a' :: l')); [done| |done].
    intros x Hx. rewrite <- Ha in Hx. by apply list_elem_of_filter in Hx as [_ ?].
Qed.

Lemma np_loop_perm fuel s :
  np_loop key keq klt pc' fuel s = np_loop key keq klt pc fuel s.
Proof.
  revert s. induction fuel as [|fuel IH]; intros s; simpl;
    rewrite (Permutation_length perm); [done|].
  case_bool_decide; [|done]. rewrite np_body_perm.
  destruct (np_body key keq klt pc s); simpl; [|done..]. apply IH.
Qed.
End non_preemptive_perm.

Lemma check_priorities_cases (processes : list Process) :
  (check_priorities processes = Returned () ∧
   Forall (λ p, is_Some (priority p)) processes) ∨
  (∃ a, check_priorities processes = Raised (MissingPriority a)) ∧
  ¬ Forall (λ p, is_Some (priority p)) processes.
Proof.
  induction processes as [|p ps IH]; simpl; [by left|].
  destruct (priority p) as [z|] eqn:Hp.
  - destruct IH as [[-> Hall]|[Hex Hn]]; [left|right].
    + split; [done|]. constructor; [by rewrite Hp|done].
    + split; [done|]. by intros [_ ?]%Forall_cons.
  - right. split; [by eexists|]. intros [Hs _]%Forall_cons.
    rewrite Hp in Hs. by destruct Hs.
Qed.

Lemma sjf_key_order (x y : Process) :
  tuple_lt Qc_eqb num_lt (burst_time x, pid x) (burst_time y, pid y) =
  Returned (lex_ltb burst_time Qc_eqb Qc_ltb x y).
Proof. unfold tuple_lt, lex_ltb, num_lt. simpl. by destruct (Qc_eqb _ _). Qed.

Lemma priority_key_order (x y : Process) :
  is_Some (priority x) → is_Some (priority y) →
  tuple_lt priority_eqb priority_lt (priority x, pid x) (priority y, pid y) =
  Returned (lex_ltb (λ p, default 0%Z (priority p))
                    (λ a b, bool_decide (a = b)) (λ a b, bool_decide (a < b)%Z) x y).
Proof.
  intros [a Ha] [b Hb]. unfold tuple_lt, lex_ltb, priority_eqb. simpl.
  rewrite Ha, Hb. simpl.
  destruct (decide (a = b)) as [->|Hne].
  - by rewrite !bool_decide_eq_true_2.
  - rewrite (bool_decide_eq_false_2 (Some a = Some b)) by congruence.
    by rewrite (bool_decide_eq_false_2 (a = b)).
Qed.

Lemma sjf_np_loop_perm (pc pc' : list Process) fuel s :
  NoDup (pid <$> pc) → pc' ≡ₚ pc →
  np_loop burst_time Qc_eqb num_lt pc' fuel s =
  np_loop burst_time Qc_eqb num_lt pc fuel s.
Proof.
  intros Hnd Hp.
  apply (np_loop_perm _ _ _ burst_time Qc_eqb Qc_ltb pc pc' (λ _, True));
    try done.
  - intros a b. apply bool_decide_eq_true.
  - intros a b c ?%bool_decide_eq_true ?%bool_decide_eq_true.
    apply bool_decide_eq_true. qc_lra.
  - intros a b ?%bool_decide_eq_true. apply bool_decide_eq_false. intros ?. qc_lra.
  - intros a b Hne. unfold Qc_ltb. rewrite !bool_decide_eq_true.
    destruct (Qclt_le_dec a b) as [?|Hle]; [by left|right].
    apply Qcle_lt_or_eq in Hle as [?|?]; [done|congruence].
  - by apply Forall_true.
  - intros x y _ _. apply sjf_key_order.
Qed.

Lemma priority_np_loop_perm (pc pc' : list Process) fuel s :
  NoDup (pid <$> pc) → pc' ≡ₚ pc → Forall (λ p, is_Some (priority p)) pc →
  np_loop priority priority_eqb priority_lt pc' fuel s =
  np_loop priority priority_eqb priority_lt pc fuel s.
Proof.
  intros Hnd Hp Hall.
  apply (np_loop_perm _ _ _ (λ p, default 0%Z (priority p))
           (λ a b, bool_decide (a = b)) (λ a b, bool_decide (a < b)%Z)
           pc pc' (λ p, is_Some (priority p))); try done.
  - intros a b. apply bool_decide_eq_true.
  - intros a b c ?%bool_decide_eq_true ?%bool_decide_eq_true.
    apply bool_decide_eq_true. lia.
  - intros a b ?%bool_decide_eq_true. apply bool_decide_eq_false. lia.
  - intros a b Hne. rewrite !bool_decide_eq_true. lia.
  - apply priority_key_order.
Qed.

#[local] Arguments sorted : simpl never.

(** ** The idle gap in the preemptive loops *)

Lemma p_admit_none {K} (key : Process → K) keq klt fuel σ t
    (ready_queue : list (K * string * ref)) i :
  (i < length (work_objs σ) → (t < arrival_time (deref σ (Work i)))%Qc) →
  p_admit key keq klt fuel σ t ready_queue i = Returned (ready_queue, i).
Proof.
  intros H.
  assert (bool_decide (i < length (work_objs σ)) &&
          Qc_leb (arrival_time (deref σ (Work i))) t = false) as Hc.
  { destruct (bool_decide (i < length (work_objs σ))) eqn:E; [|done].
    apply bool_decide_eq_true in E. simpl. unfold Qc_leb.
    apply bool_decide_eq_false. by apply Qclt_not_le, H. }
  destruct fuel; cbn [p_admit]; by rewrite Hc.
Qed.

(** When nothing has arrived at time 0 the first turn records the idle
    entry and reaches [current_process.execute(1.0)] with [current_process]
    still [None]. *)
Lemma p_body_idle_first {K} (key : Process → K) keq klt σ :
  work_objs σ ≠ [] → (Q2Qc 0 < arrival_time (deref σ (Work 0)))%Qc →
  p_body key keq klt σ p_init = (σ, Raised NoneAttribute).
Proof.
  intros Hne H0. unfold p_body, p_pick, p_init.
  cbn [p_i p_current_time p_ready_queue p_current_process p_schedule p_completed].
  rewrite p_admit_none by (intros _; exact H0).
  cbn [mbind outcome_bind p_pop p_switch mret outcome_ret].
  rewrite bool_decide_eq_true_2; [done|].
  destruct (work_objs σ); simpl; [done|lia].
Qed.

Lemma p_loop_idle_first {K} (key : Process → K) keq klt fuel σ :
  work_objs σ ≠ [] → (Q2Qc 0 < arrival_time (deref σ (Work 0)))%Qc →
  p_loop key keq klt (S fuel) σ p_init = (σ, Raised NoneAttribute).
Proof.
  intros Hne H0. cbn [p_loop].
  rewrite p_body_idle_first by done.
  rewrite bool_decide_eq_true_2; [done|].
  unfold p_init; cbn [p_completed]. rewrite size_empty.
  destruct (work_objs σ); simpl; [done|lia].
Qed.

Lemma sorted_copies_late (processes : list Process) :
  processes ≠ [] →
  Forall (λ p, (Q2Qc 0 < arrival_time p)%Qc) processes →
  sorted arrival_key_ltb (copy_processes processes) ≠ [] ∧
  (Q2Qc 0 < arrival_time
     (sorted arrival_key_ltb (copy_processes processes) !!! 0%nat))%Qc.
Proof.
  intros Hne Hall.
  assert (Forall (λ p, (Q2Qc 0 < arrival_time p)%Qc)
            (sorted arrival_key_ltb (copy_processes processes))) as Hs.
  { rewrite sorted_perm. unfold copy_processes.
    apply Forall_fmap. by eapply Forall_impl; [exact Hall|]. }
  assert (length (sorted arrival_key_ltb (copy_processes processes)) ≠ 0) as Hl.
  { rewrite sorted_length. unfold copy_processes. rewrite length_map.
    by destruct processes. }
  destruct (sorted arrival_key_ltb (copy_processes processes)) as [|p0 l];
    [done|].
  split; [done|]. by apply Forall_cons in Hs as [? _].
Qed.

(** C2: on every non-empty list whose processes all arrive after time 0
    (the idle gap at the start), [sjf_preemptive] ends in the
    AttributeError of [execute] called on [None], given fuel for one turn
    of its loop or more, and so does [priority_preemptive] when every
    process has a priority: no result is returned. *)
Theorem preemptive_idle_gap_faults fuel (processes : list Process) :
  processes ≠ [] →
  Forall (λ p, (Q2Qc 0 < arrival_time p)%Qc) processes →
  sjf_preemptive (S fuel) processes = (processes, Raised NoneAttribute) ∧
  (Forall (λ p, is_Some (priority p)) processes →
   priority_preemptive (S fuel) processes = (processes, Raised NoneAttribute)).
Proof.
  intros Hne Hall.
  destruct (sorted_copies_late processes Hne Hall) as [Hs H0].
  split.
  - rewrite sjf_preemptive_unfold by done.
    by rewrite p_loop_idle_first.
  - intros Hp. rewrite priority_preemptive_unfold by done.
    destruct (check_priorities_cases processes) as [[-> _]|[_ Hn]]; [|done].
    by rewrite p_loop_idle_first.
Qed.

Lemma preemptive_idle_gap_faults_witness :
  sjf_preemptive 1 [PP "P1" 1 2 1] = ([PP "P1" 1 2 1], Raised NoneAttribute) ∧
  (Forall (λ p, is_Some (priority p)) [PP "P1" 1 2 1] →
   priority_preemptive 1 [PP "P1" 1 2 1] = ([PP "P1" 1 2 1], Raised NoneAttribute)).
Proof.
  apply (preemptive_idle_gap_faults 0 [PP "P1" 1 2 1]); [done|].
  apply Forall_singleton. reflexivity.
Defined.



(** * Further properties of the engine *)

(** ** Process.execute and Process.is_completed *)

(** X1: [execute] on an existing object with a quantum that is not negative
    and a remaining time that is not negative, both whole numbers, the
    remaining time at most 2^53 (so that the subtraction is exact), runs
    for min(time_quantum, remaining_time), takes exactly that off
    [remaining_time], which stays at or above 0, leaves the other fields
    and every other object as they were, and completes the process
    exactly when its remaining time was at most the quantum. *)
Theorem execute_contract σ self time_quantum :
  ref_in σ self →
  (Q2Qc 0 ≤ time_quantum)%Qc → (Q2Qc 0 ≤ remaining_time (deref σ self))%Qc →
  whole time_quantum → whole (remaining_time (deref σ self)) →
  (remaining_time (deref σ self) ≤ exact_limit)%Qc →
  let σ' := (execute σ self time_quantum).1 in
  let execution_time := (execute σ self time_quantum).2 in
  (Q2Qc 0 ≤ execution_time)%Qc ∧ (execution_time ≤ time_quantum)%Qc ∧
  (execution_time = time_quantum ∨
   execution_time = remaining_time (deref σ self)) ∧
  remaining_time (deref σ' self) =
    (remaining_time (deref σ self) - execution_time)%Qc ∧
  (Q2Qc 0 ≤ remaining_time (deref σ' self))%Qc ∧
  (is_completed (deref σ' self) = true ↔
   (remaining_time (deref σ self) ≤ time_quantum)%Qc) ∧
  same_descriptor (deref σ' self) (deref σ self) ∧
  ∀ r, r ≠ self → deref σ' r = deref σ r.
Proof.
  intros Hin Hq Hr _ _ _ σ' e. subst σ' e. unfold execute. cbn [fst snd].
  set (rem := remaining_time (deref σ self)) in *.
  destruct (py_min_spec time_quantum rem) as (Hle1 & Hle2 & Hor).
  assert (remaining_time (deref (assign_remaining_time σ self
            (rem - py_min time_quantum rem)%Qc) self) =
          (rem - py_min time_quantum rem)%Qc) as Hrem.
  { destruct self as [k|k]; simpl in *.
    - rewrite list_lookup_total_alter_eq by done. done.
    - rewrite list_lookup_total_alter_eq by done. done. }
  split_and!.
  - destruct Hor as [->| ->]; done.
  - done.
  - done.
  - done.
  - rewrite Hrem. clear -Hle2. qc_lra.
  - unfold is_completed, Qc_leb. rewrite Hrem, bool_decide_eq_true.
    split; intros H.
    + destruct Hor as [Ho|Ho]; rewrite Ho in H; clear -H Hle1 Hle2 Ho; qc_lra.
    + destruct Hor as [Ho|Ho]; rewrite Ho; clear -H Hle1 Hle2 Ho; qc_lra.
  - destruct self as [k|k]; unfold same_descriptor; simpl in *;
      rewrite list_lookup_total_alter_eq by done; done.
  - intros r Hne. by apply deref_assign_ne.
Qed.

Lemma execute_contract_witness :
  let σ' := (execute scenario_store (Work 0) (Qc_of_Z 2)).1 in
  let execution_time := (execute scenario_store (Work 0) (Qc_of_Z 2)).2 in
  (Q2Qc 0 ≤ execution_time)%Qc ∧ (execution_time ≤ Qc_of_Z 2)%Qc ∧
  (execution_time = Qc_of_Z 2 ∨
   execution_time = remaining_time (deref scenario_store (Work 0))) ∧
  remaining_time (deref σ' (Work 0)) =
    (remaining_time (deref scenario_store (Work 0)) - execution_time)%Qc ∧
  (Q2Qc 0 ≤ remaining_time (deref σ' (Work 0)))%Qc ∧
  (is_completed (deref σ' (Work 0)) = true ↔
   (remaining_time (deref scenario_store (Work 0)) ≤ Qc_of_Z 2)%Qc) ∧
  same_descriptor (deref σ' (Work 0)) (deref scenario_store (Work 0)) ∧
  ∀ r, r ≠ Work 0 → deref σ' r = deref scenario_store r.
Proof.
  apply (execute_contract scenario_store (Work 0) (Qc_of_Z 2)).
  - vm_compute. lia.
  - compute_done.
  - compute_done.
  - reflexivity.
  - reflexivity.
  - compute_done.
Defined.

(** ** The metrics dictionary of a result *)

Lemma calculate_metrics_keys (processes : list Process)
    (schedule : list ScheduleEntry) :
  dom (calculate_metrics processes schedule) = metric_keys ∧
  calculate_metrics processes schedule !! "total_processes" =
    Some (Qc_of_nat (length processes)).
Proof.
  unfold calculate_metrics.
  destruct (collect_times _ _) as [tt wt]. split.
  - rewrite !dom_insert_L, dom_empty_L. unfold metric_keys. set_solver.
  - by simplify_map_eq.
Qed.

(** X2: a result returned by any of the six algorithms on the empty list
    has an empty schedule and a metrics dictionary without keys; a result
    returned on a non-empty list has exactly the five keys of
    [calculate_metrics], [total_processes] being the length of the
    caller's list. *)
Theorem metrics_of_a_result fuel time_quantum alg (processes : list Process) r :
  alg ∈ algorithms fuel time_quantum →
  (alg processes).2 = Returned r →
  match processes with
  | [] => schedule r = [] ∧ metrics r = ∅
  | _ => dom (metrics r) = metric_keys ∧
         metrics r !! "total_processes" = Some (Qc_of_nat (length processes))
  end.
Proof.
  intros Halg Hr. unfold algorithms in Halg.
  destruct processes as [|p ps].
  { repeat (apply elem_of_cons in Halg as [->|Halg]);
      [..|by apply elem_of_nil in Halg]; by simplify_eq/=. }
  assert (p :: ps ≠ []) as Hne by done.
  repeat (apply elem_of_cons in Halg as [->|Halg]);
    [..|by apply elem_of_nil in Halg].
  - unfold fcfs_scheduling in Hr.
    destruct (foldl _ _ _) as [sched t]. simplify_eq/=.
    apply calculate_metrics_keys.
  - unfold sjf_non_preemptive in Hr. cbn [snd] in Hr.
    destruct (np_loop _ _ _ _ _ _) as [s| |]; simplify_eq/=.
    apply calculate_metrics_keys.
  - rewrite sjf_preemptive_unfold in Hr by done. cbn [snd] in Hr.
    destruct (p_loop _ _ _ _ _ _).2 as [s| |]; simplify_eq/=.
    apply calculate_metrics_keys.
  - unfold priority_non_preemptive in Hr. cbn [snd] in Hr.
    destruct (check_priorities _); [|done..]. cbn [mbind outcome_bind] in Hr.
    destruct (np_loop _ _ _ _ _ _) as [s| |]; simplify_eq/=.
    apply calculate_metrics_keys.
  - rewrite priority_preemptive_unfold in Hr by done. cbn [snd] in Hr.
    destruct (check_priorities _); [|done..]. cbn [mbind outcome_bind] in Hr.
    destruct (p_loop _ _ _ _ _ _).2 as [s| |]; simplify_eq/=.
    apply calculate_metrics_keys.
  - cbn beta in Hr.
    destruct (decide (time_quantum ≤ Q2Qc 0)%Qc) as [Hq|Hq].
    { by rewrite round_robin_quantum_guard in Hr. }
    rewrite round_robin_unfold in Hr by done. cbn [snd] in Hr.
    cbn zeta in Hr. destruct (rr_init _) as [s0| |]; [|done..].
    cbn [mbind outcome_bind] in Hr.
    destruct (rr_loop _ _ _ _).2 as [s| |]; simplify_eq/=.
    apply calculate_metrics_keys.
Qed.

Lemma metrics_of_a_result_witness :
  ∃ r, (round_robin 20 scenario (Qc_of_Z 2)).2 = Returned r ∧
       dom (metrics r) = metric_keys ∧
       metrics r !! "total_processes" = Some (Qc_of_nat 3).
Proof.
  destruct (round_robin 20 scenario (Qc_of_Z 2)).2 as [r|e|] eqn:E.
  - exists r. split; [reflexivity|].
    apply (metrics_of_a_result 20 (Qc_of_Z 2)
             (λ processes, round_robin 20 processes (Qc_of_Z 2)) scenario r).
    + unfold algorithms. do 5 apply list_elem_of_further. apply list_elem_of_here.
    + exact E.
  - vm_compute in E. discriminate E.
  - vm_compute in E. discriminate E.
Defined.

(** ** The priority check, in the caller's order *)

Lemma check_priorities_first (before : list Process) p after :
  Forall (λ x, is_Some (priority x)) before → priority p = None →
  check_priorities (before ++ p :: after) = Raised (MissingPriority (pid p)).
Proof.
  intros Hb Hp. induction Hb as [|x l [z Hz] _ IH]; simpl.
  - by rewrite Hp.
  - by rewrite Hz.
Qed.

(** X3: the missing-priority error of [priority_non_preemptive] and
    [priority_preemptive] names the first process of the caller's list
    that has no priority, whatever follows it in the list. *)
Theorem priority_error_names_first fuel (before : list Process) p after :
  Forall (λ x, is_Some (priority x)) before → priority p = None →
  (priority_non_preemptive fuel (before ++ p :: after)).2 =
    Raised (MissingPriority (pid p)) ∧
  (priority_preemptive fuel (before ++ p :: after)).2 =
    Raised (MissingPriority (pid p)).
Proof.
  intros Hb Hp.
  pose proof (check_priorities_first before p after Hb Hp) as Hc.
  assert (before ++ p :: after ≠ []) as Hne by by destruct before.
  split.
  - unfold priority_non_preemptive.
    destruct (before ++ p :: after) as [|x l]; [done|].
    cbn [snd]. by rewrite Hc.
  - rewrite priority_preemptive_unfold by done. cbn [snd]. by rewrite Hc.
Qed.

Lemma priority_error_names_first_witness :
  (priority_non_preemptive 9 ([PP "P1" 0 3 2] ++ P "P2" 1 2 :: [P "P3" 2 2])).2 =
    Raised (MissingPriority (pid (P "P2" 1 2))) ∧
  (priority_preemptive 9 ([PP "P1" 0 3 2] ++ P "P2" 1 2 :: [P "P3" 2 2])).2 =
    Raised (MissingPriority (pid (P "P2" 1 2))).
Proof.
  apply (priority_error_names_first 9 [PP "P1" 0 3 2] (P "P2" 1 2) [P "P3" 2 2]).
  - apply Forall_singleton. by exists 2%Z.
  - reflexivity.
Defined.

(** ** The non-preemptive loops: what a turn selects *)

Section min_by_order.
Context {A K : Type} (klt : K → K → outcome bool) (key : A → K).
Context (le : A → A → Prop) (dom : A → Prop).
Hypothesis klt_le : ∀ x y, dom x → dom y →
  ∃ b : bool, klt (key x) (key y) = Returned b ∧
              if b then le x y else le y x.
Hypothesis le_refl : ∀ x, dom x → le x x.
Hypothesis le_trans : ∀ x y z, le x y → le y z → le x z.

Lemma min_by_from_order best l :
  dom best → Forall dom l →
  ∃ m, min_by_from klt key best l = Returned m ∧ m ∈ best :: l ∧
       le m best ∧ ∀ y, y ∈ l → le m y.
Proof.
  intros Hb Hl. revert best Hb. induction Hl as [|x l Hx _ IH]; intros best Hb; simpl.
  - exists best. split_and!; [done|set_solver|by apply le_refl|]. by inversion 1.
  - destruct (klt_le x best Hx Hb) as (b & -> & Hle). simpl. destruct b.
    + destruct (IH x Hx) as (m & -> & Hin & Hmx & Hall). exists m.
      split_and!; [done|set_solver|by eapply le_trans|].
      intros y [->|Hy]%elem_of_cons; [done|by apply Hall].
    + destruct (IH best Hb) as (m & -> & Hin & Hmb & Hall). exists m.
      split_and!; [done|set_solver|done|].
      intros y [->|Hy]%elem_of_cons; [by eapply le_trans|by apply Hall].
Qed.

Lemma min_by_order l :
  l ≠ [] → Forall dom l →
  ∃ m, min_by klt key l = Returned m ∧ m ∈ l ∧ ∀ y, y ∈ l → le m y.
Proof.
  destruct l as [|x l]; [done|]. intros _ [Hx Hl]%Forall_cons. simpl.
  destruct (min_by_from_order x l Hx Hl) as (m & -> & Hin & Hle & Hall).
  exists m. split_and!; [done..|].
  intros y [->|Hy]%elem_of_cons; [done|by apply Hall].
Qed.
End min_by_order.

Lemma shorter_or_equal_order (x y : Process) :
  ∃ b : bool,
    tuple_lt Qc_eqb num_lt (burst_time x, pid x) (burst_time y, pid y) = Returned b ∧
    if b then shorter_or_equal x y else shorter_or_equal y x.
Proof.
  unfold tuple_lt, num_lt, shorter_or_equal, Qc_eqb, Qc_ltb. cbn [fst snd].
  case_bool_decide as He.
  - eexists. split; [done|]. destruct (String.ltb (pid x) (pid y)) eqn:E.
    + right. split; [done|]. by apply String_ltb_true.
    + right. split; [done|]. by apply String_ltb_false.
  - eexists. split; [done|]. case_bool_decide as Hl; [by left|].
    left. clear -He Hl. qc_lra.
Qed.

Lemma shorter_or_equal_trans (x y z : Process) :
  shorter_or_equal x y → shorter_or_equal y z → shorter_or_equal x z.
Proof.
  unfold shorter_or_equal.
  intros [H1|[H1 L1]] [H2|[H2 L2]].
  - left. clear -H1 H2. qc_lra.
  - left. by rewrite <- H2.
  - left. by rewrite H1.
  - right. split; [congruence|by etrans].
Qed.

Lemma more_urgent_or_equal_order (x y : Process) :
  is_Some (priority x) → is_Some (priority y) →
  ∃ b : bool,
    tuple_lt priority_eqb priority_lt (priority x, pid x) (priority y, pid y) =
      Returned b ∧
    if b then more_urgent_or_equal x y else more_urgent_or_equal y x.
Proof.
  intros [a Ha] [b Hb].
  unfold tuple_lt, priority_eqb, priority_lt, more_urgent_or_equal. cbn [fst snd].
  rewrite Ha, Hb. case_bool_decide as He.
  - simplify_eq. eexists. split; [done|].
    destruct (String.ltb (pid x) (pid y)) eqn:E.
    + exists b, b. split_and!; [done..|]. right. split; [done|].
      by apply String_ltb_true.
    + exists b, b. split_and!; [done..|]. right. split; [done|].
      by apply String_ltb_false.
  - eexists. split; [done|]. case_bool_decide as Hl.
    + exists a, b. split_and!; [done..|]. by left.
    + exists b, a. split_and!; [done..|]. left.
      assert (a ≠ b) by congruence. lia.
Qed.

Lemma more_urgent_or_equal_trans (x y z : Process) :
  more_urgent_or_equal x y → more_urgent_or_equal y z → more_urgent_or_equal x z.
Proof.
  intros (a & b & Ha & Hb & H1) (b' & c & Hb' & Hc & H2).
  assert (b' = b) as -> by congruence.
  exists a, c. split_and!; [done..|].
  destruct H1 as [H1|[-> L1]], H2 as [H2|[-> L2]]; [left; lia..|].
  right. split; [done|by etrans].
Qed.

(** X4: in a turn of the loop of [sjf_non_preemptive] in which some process
    is available (arrived, its pid not completed), the current time and
    the burst times being whole numbers whose sums are exact, the process
    that is run is an available one that goes before every available
    process by (burst_time, pid); it runs from the current time for its
    whole burst time, and its pid is recorded as completed. *)
Theorem sjf_non_preemptive_selects_shortest (processes_copy : list Process) s :
  Forall (λ p, exact_sum (np_current_time s) (burst_time p)) processes_copy →
  available processes_copy s ≠ [] →
  ∃ m, m ∈ available processes_copy s ∧
       (∀ y, y ∈ available processes_copy s → shorter_or_equal m y) ∧
       np_body burst_time Qc_eqb num_lt processes_copy s =
         Returned (mkNp (np_schedule s ++
                           [(pid m, np_current_time s,
                             (np_current_time s + burst_time m)%Qc)])
                        (np_current_time s + burst_time m)%Qc
                        ({[pid m]} ∪ np_completed s)).
Proof.
  intros _ Hne.
  destruct (min_by_order (tuple_lt Qc_eqb num_lt) (λ p, (burst_time p, pid p))
              shorter_or_equal (λ _, True)) with (l := available processes_copy s)
    as (m & Hm & Hin & Hall); [| | |done| |].
  - intros x y _ _. apply shorter_or_equal_order.
  - intros x _. right. split; [done|reflexivity].
  - apply shorter_or_equal_trans.
  - by apply Forall_true.
  - exists m. split_and!; [done..|].
    unfold np_body. fold (available processes_copy s).
    destruct (available processes_copy s) as [|a l]; [done|].
    by rewrite Hm.
Qed.

Lemma sjf_non_preemptive_selects_shortest_witness :
  pid <$> available (copy_processes scenario_busy) scenario_np_state = ["P2"; "P3"] ∧
  ∃ m, m ∈ available (copy_processes scenario_busy) scenario_np_state ∧
       (∀ y, y ∈ available (copy_processes scenario_busy) scenario_np_state →
             shorter_or_equal m y) ∧
       np_body burst_time Qc_eqb num_lt (copy_processes scenario_busy)
               scenario_np_state =
         Returned (mkNp (np_schedule scenario_np_state ++
                           [(pid m, np_current_time scenario_np_state,
                             (np_current_time scenario_np_state + burst_time m)%Qc)])
                        (np_current_time scenario_np_state + burst_time m)%Qc
                        ({[pid m]} ∪ np_completed scenario_np_state)).
Proof.
  split; [vm_compute; reflexivity|].
  apply (sjf_non_preemptive_selects_shortest (copy_processes scenario_busy)
           scenario_np_state).
  - repeat constructor; compute_done.
  - vm_compute. discriminate.
Defined.

(** X5: in a turn of the loop of [priority_non_preemptive] in which some
    process is available, every copy having a priority (which the check
    before the loop ensures), the current time and the burst times being
    whole numbers whose sums are exact, the process that is run is an
    available one that goes before every available process by
    (priority, pid); it runs from the current time for its whole burst
    time, and its pid is recorded as completed. *)
Theorem priority_non_preemptive_selects_most_urgent
    (processes_copy : list Process) s :
  Forall (λ p, is_Some (priority p)) processes_copy →
  Forall (λ p, exact_sum (np_current_time s) (burst_time p)) processes_copy →
  available processes_copy s ≠ [] →
  ∃ m, m ∈ available processes_copy s ∧
       (∀ y, y ∈ available processes_copy s → more_urgent_or_equal m y) ∧
       np_body priority priority_eqb priority_lt processes_copy s =
         Returned (mkNp (np_schedule s ++
                           [(pid m, np_current_time s,
                             (np_current_time s + burst_time m)%Qc)])
                        (np_current_time s + burst_time m)%Qc
                        ({[pid m]} ∪ np_completed s)).
Proof.
  intros Hp _ Hne.
  destruct (min_by_order (tuple_lt priority_eqb priority_lt)
              (λ p, (priority p, pid p))
              more_urgent_or_equal (λ p, is_Some (priority p)))
    with (l := available processes_copy s)
    as (m & Hm & Hin & Hall); [| | |done| |].
  - intros x y. apply more_urgent_or_equal_order.
  - intros x [a Ha]. exists a, a. split_and!; [done..|]. right. split; [done|reflexivity].
  - apply more_urgent_or_equal_trans.
  - unfold available. rewrite Forall_forall in Hp. apply Forall_forall.
    intros x [_ Hx]%list_elem_of_filter. by apply Hp.
  - exists m. split_and!; [done..|].
    unfold np_body. fold (available processes_copy s).
    destruct (available processes_copy s) as [|a l]; [done|].
    by rewrite Hm.
Qed.

Lemma priority_non_preemptive_selects_most_urgent_witness :
  pid <$> available (copy_processes scenario_busy) scenario_np_state = ["P2"; "P3"] ∧
  ∃ m, m ∈ available (copy_processes scenario_busy) scenario_np_state ∧
       (∀ y, y ∈ available (copy_processes scenario_busy) scenario_np_state →
             more_urgent_or_equal m y) ∧
       np_body priority priority_eqb priority_lt (copy_processes scenario_busy)
               scenario_np_state =
         Returned (mkNp (np_schedule scenario_np_state ++
                           [(pid m, np_current_time scenario_np_state,
                             (np_current_time scenario_np_state + burst_time m)%Qc)])
                        (np_current_time scenario_np_state + burst_time m)%Qc
                        ({[pid m]} ∪ np_completed scenario_np_state)).
Proof.
  split; [vm_compute; reflexivity|].
  apply (priority_non_preemptive_selects_most_urgent (copy_processes scenario_busy)
           scenario_np_state).
  - repeat constructor; by eexists.
  - repeat constructor; compute_done.
  - vm_compute. discriminate.
Defined.

(** ** The non-preemptive loops: every turn, and how many there are *)

Lemma elem_of_pid_set (l : list Process) (x : string) :
  x ∈ pid_set l ↔ ∃ p, p ∈ l ∧ pid p = x.
Proof.
  unfold pid_set. rewrite elem_of_list_to_set, list_elem_of_fmap. naive_solver.
Qed.

Lemma pid_set_cons (x : Process) (l : list Process) :
  pid_set (x :: l) = {[pid x]} ∪ pid_set l.
Proof. done. Qed.

Lemma size_pid_set_cons (x : Process) (l : list Process) :
  size (pid_set (x :: l)) =
  if decide (pid x ∈ pid <$> l) then size (pid_set l) else S (size (pid_set l)).
Proof.
  rewrite pid_set_cons. case_decide as Hin.
  - f_equal. assert (pid x ∈ pid_set l)
      by (unfold pid_set; by apply elem_of_list_to_set).
    set_solver.
  - assert (pid x ∉ pid_set l)
      by (unfold pid_set; by rewrite elem_of_list_to_set).
    rewrite size_union by set_solver. by rewrite size_singleton.
Qed.

Lemma size_pid_set_le (l : list Process) : size (pid_set l) ≤ length l.
Proof.
  induction l as [|x l IH]; [done|].
  rewrite size_pid_set_cons. simpl. case_decide; lia.
Qed.

Lemma size_pid_set_NoDup (l : list Process) :
  NoDup (pid <$> l) → size (pid_set l) = length l.
Proof.
  intros H. unfold pid_set. rewrite size_list_to_set by done. by rewrite length_fmap.
Qed.

Lemma size_pid_set_dup (l : list Process) :
  ¬ NoDup (pid <$> l) → size (pid_set l) < length l.
Proof.
  induction l as [|x l IH]; intros Hn; [by destruct Hn; constructor|].
  rewrite size_pid_set_cons. pose proof (size_pid_set_le l). simpl.
  case_decide as Hin; [lia|].
  assert (¬ NoDup (pid <$> l)) as Hl.
  { intros Hl. apply Hn. simpl. by constructor. }
  specialize (IH Hl). lia.
Qed.

Section non_preemptive_turns.
Context {K : Type} (key : Process → K).
Context (keq : K → K → bool) (klt : K → K → outcome bool).
Context (pc : list Process).
Hypothesis keys_ordered : ∀ x y, x ∈ pc → y ∈ pc →
  ∃ b : bool, tuple_lt keq klt (key x, pid x) (key y, pid y) = Returned b.

Lemma available_incomplete s x : x ∈ available pc s → x ∈ incomplete pc s.
Proof.
  unfold available, incomplete. rewrite !list_elem_of_filter. naive_solver.
Qed.

(** The three ways a turn can go. *)
Lemma np_body_cases s :
  (∃ m, m ∈ available pc s ∧
        np_body key keq klt pc s =
          Returned (mkNp (np_schedule s ++
                            [(pid m, np_current_time s,
                              (np_current_time s + burst_time m)%Qc)])
                         (np_current_time s + burst_time m)%Qc
                         ({[pid m]} ∪ np_completed s))) ∨
  (available pc s = [] ∧
   ∃ m, m ∈ incomplete pc s ∧
        (∀ y, y ∈ incomplete pc s → (arrival_time m ≤ arrival_time y)%Qc) ∧
        np_body key keq klt pc s =
          Returned (mkNp (np_schedule s ++
                            [(IDLE, np_current_time s, arrival_time m)])
                         (arrival_time m) (np_completed s))) ∨
  (incomplete pc s = [] ∧ np_body key keq klt pc s = Raised EmptyMin).
Proof.
  unfold np_body. fold (available pc s). fold (incomplete pc s).
  destruct (available pc s) as [|a l] eqn:Ha.
  - right. destruct (incomplete pc s) as [|b l'] eqn:Hi.
    + right. done.
    + left. split; [done|].
      destruct (min_by_arrival (b :: l')) as (m & -> & Hin & Hall); [done|].
      by exists m.
  - left.
    destruct (min_by_order (tuple_lt keq klt) (λ p, (key p, pid p))
                (λ _ _, True) (λ x, x ∈ pc)) with (l := a :: l)
      as (m & -> & Hin & _); [| done | done | done | |].
    + intros x y Hx Hy. destruct (keys_ordered x y Hx Hy) as (b & ->).
      exists b. split; [done|]. by destruct b.
    + apply Forall_forall. intros x Hx. rewrite <- Ha in Hx.
      unfold available in Hx. by apply list_elem_of_filter in Hx as [_ ?].
    + by exists m.
Qed.

Lemma np_size_completed s :
  np_completed s ⊆ pid_set pc →
  size (np_completed s) ≤ size (pid_set pc).
Proof. apply subseteq_size. Qed.

Lemma incomplete_nil_completed s :
  np_completed s ⊆ pid_set pc → incomplete pc s = [] →
  np_completed s = pid_set pc.
Proof.
  intros Hsub Hnil. apply set_eq. intros x. split; [apply Hsub|].
  intros (p & Hp & <-)%elem_of_pid_set.
  destruct (decide (pid p ∈ np_completed s)) as [|Hn]; [done|].
  assert (p ∈ incomplete pc s) as Hin
    by (unfold incomplete; by apply list_elem_of_filter).
  rewrite Hnil in Hin. by apply elem_of_nil in Hin.
Qed.

Lemma incomplete_cons_size s :
  np_completed s ⊆ pid_set pc → incomplete pc s ≠ [] →
  size (np_completed s) < size (pid_set pc).
Proof.
  intros Hsub Hne. destruct (incomplete pc s) as [|p l] eqn:E; [done|].
  assert (p ∈ incomplete pc s) as Hin by (rewrite E; left).
  unfold incomplete in Hin. apply list_elem_of_filter in Hin as [Hn Hp].
  apply subset_size. split; [done|]. intros Hsup. apply Hn, Hsup.
  apply elem_of_pid_set. eauto.
Qed.

Lemma size_completed_add s (m : Process) :
  np_completed s ⊆ pid_set pc → m ∈ available pc s →
  {[pid m]} ∪ np_completed s ⊆ pid_set pc ∧
  size ({[pid m]} ∪ np_completed s) = S (size (np_completed s)) ∧
  size (np_completed s) < size (pid_set pc).
Proof.
  intros Hsub Hm. pose proof (available_incomplete _ _ Hm) as Hi.
  unfold available in Hm. apply list_elem_of_filter in Hm as [[Hn _] Hp].
  assert (pid m ∈ pid_set pc) by (apply elem_of_pid_set; eauto).
  split_and!.
  - set_solver.
  - rewrite size_union by set_solver. by rewrite size_singleton.
  - apply incomplete_cons_size; [done|]. intros E. rewrite E in Hi.
    by apply elem_of_nil in Hi.
Qed.

(** A turn uses up one of the turns that are left. *)
Lemma np_body_progress s :
  np_completed s ⊆ pid_set pc → incomplete pc s ≠ [] →
  ∃ s', np_body key keq klt pc s = Returned s' ∧
        np_completed s' ⊆ pid_set pc ∧
        np_turns_left pc s' < np_turns_left pc s.
Proof.
  intros Hsub Hinc.
  destruct (np_body_cases s) as [(m & Hm & Hb)|[(Hav & m & Hm & Hall & Hb)|[? _]]];
    [| |done].
  - eexists. split; [exact Hb|]. cbn [np_completed].
    destruct (size_completed_add s m Hsub Hm) as (Hsub' & Hsz & Hlt).
    split; [done|]. unfold np_turns_left. cbn [np_completed]. rewrite Hsz.
    destruct (decide (available pc s = [])) as [E|_].
    { rewrite E in Hm. by apply elem_of_nil in Hm. }
    case_decide; lia.
  - eexists. split; [exact Hb|]. cbn [np_completed]. split; [done|].
    pose proof (incomplete_cons_size s Hsub Hinc) as Hlt.
    unfold np_turns_left. cbn [np_completed].
    rewrite (decide_True _ _ Hav).
    rewrite decide_False; [lia|].
    intros E.
    assert (m ∈ available pc (mkNp (np_schedule s ++
              [(IDLE, np_current_time s, arrival_time m)])
              (arrival_time m) (np_completed s))) as Hin.
    { unfold available. cbn [np_completed np_current_time].
      unfold incomplete in Hm. apply list_elem_of_filter in Hm as [Hn Hp].
      apply list_elem_of_filter. split_and!; [done| |done]. apply Qcle_refl. }
    rewrite E in Hin. by apply elem_of_nil in Hin.
Qed.

Lemma np_loop_returns fuel s :
  NoDup (pid <$> pc) → np_completed s ⊆ pid_set pc →
  np_turns_left pc s ≤ fuel →
  ∃ s', np_loop key keq klt pc fuel s = Returned s'.
Proof.
  intros Hnd. revert s. induction fuel as [|fuel IH]; intros s Hsub Hfuel.
  - cbn [np_loop]. case_bool_decide as Hc; [|by eexists].
    rewrite <- (size_pid_set_NoDup pc Hnd) in Hc.
    unfold np_turns_left in Hfuel. case_decide as Hav; [lia|].
    assert (incomplete pc s ≠ []) as Hi.
    { intros E. apply incomplete_nil_completed in E; [|done]. rewrite E in Hc. lia. }
    destruct (available pc s) as [|a l] eqn:Ea; [done|]. lia.
  - cbn [np_loop]. case_bool_decide as Hc; [|by eexists].
    rewrite <- (size_pid_set_NoDup pc Hnd) in Hc.
    assert (incomplete pc s ≠ []) as Hi.
    { intros E. apply incomplete_nil_completed in E; [|done]. rewrite E in Hc. lia. }
    destruct (np_body_progress s Hsub Hi) as (s' & -> & Hsub' & Hlt).
    cbn [mbind outcome_bind]. apply IH; [done|lia].
Qed.

Lemma np_loop_raises fuel s :
  ¬ NoDup (pid <$> pc) → np_completed s ⊆ pid_set pc →
  np_turns_left pc s < fuel →
  np_loop key keq klt pc fuel s = Raised EmptyMin.
Proof.
  intros Hnd. pose proof (size_pid_set_dup pc Hnd) as Hdup.
  revert s. induction fuel as [|fuel IH]; intros s Hsub Hfuel; [lia|].
  cbn [np_loop]. pose proof (np_size_completed s Hsub).
  rewrite bool_decide_eq_true_2 by lia.
  destruct (decide (incomplete pc s = [])) as [E|Hi].
  - destruct (np_body_cases s) as [(m & Hm & _)|[(_ & m & Hm & _)|[_ ->]]]; [| |done].
    + apply available_incomplete in Hm. rewrite E in Hm. by apply elem_of_nil in Hm.
    + rewrite E in Hm. by apply elem_of_nil in Hm.
  - destruct (np_body_progress s Hsub Hi) as (s' & -> & Hsub' & Hlt).
    cbn [mbind outcome_bind]. apply IH; [done|lia].
Qed.

Lemma np_turns_left_init : np_turns_left pc np_init ≤ 2 * length pc.
Proof.
  unfold np_turns_left. pose proof (size_pid_set_le pc).
  cbn [np_completed np_init]. rewrite size_empty. case_decide; lia.
Qed.

Lemma np_turns_left_init_dup :
  ¬ NoDup (pid <$> pc) → np_turns_left pc np_init < 2 * length pc.
Proof.
  intros Hnd. unfold np_turns_left. pose proof (size_pid_set_dup pc Hnd).
  cbn [np_completed np_init]. rewrite size_empty. case_decide; lia.
Qed.

Lemma entries_of_snoc (p : string) (sched : list ScheduleEntry) (e : ScheduleEntry) :
  entries_of p (sched ++ [e]) =
  entries_of p sched ++ (if decide (e.1.1 = p) then [e] else []).
Proof.
  unfold entries_of. by rewrite filter_app.
Qed.

(** A turn keeps what [np_runs] says of the schedule. *)
Lemma np_body_runs s s' :
  NoDup (pid <$> pc) → np_runs pc s →
  np_body key keq klt pc s = Returned s' → np_runs pc s'.
Proof.
  intros Hnd [Hsub Hruns] Hb.
  destruct (np_body_cases s) as [(m & Hm & Hb')|[(Hav & m & Hm & Hall & Hb')|[_ Hb']]];
    rewrite Hb' in Hb; [| |done]; simplify_eq.
  - destruct (size_completed_add s m Hsub Hm) as (Hsub' & _ & _).
    split; [done|]. intros p Hp Hidle. cbn [np_completed np_schedule].
    rewrite entries_of_snoc. cbn [fst].
    unfold available in Hm. apply list_elem_of_filter in Hm as [[Hn Harr] Hmpc].
    specialize (Hruns p Hp Hidle).
    destruct (decide (pid m = pid p)) as [Heq|Hne].
    + assert (m = p) as -> by by eapply NoDup_fmap_eq.
      rewrite decide_False in Hruns by done.
      rewrite decide_True by set_solver.
      exists (np_current_time s). by rewrite Hruns.
    + rewrite app_nil_r.
      destruct (decide (pid p ∈ np_completed s)) as [Hc|Hc].
      * by rewrite decide_True by set_solver.
      * by rewrite decide_False by set_solver.
  - split; [done|]. intros p Hp Hidle. cbn [np_completed np_schedule].
    rewrite entries_of_snoc. cbn [fst].
    rewrite (decide_False (P := IDLE = pid p)) by done.
    rewrite app_nil_r. by apply Hruns.
Qed.

Lemma np_loop_runs fuel s s' :
  NoDup (pid <$> pc) → np_runs pc s →
  np_loop key keq klt pc fuel s = Returned s' →
  np_runs pc s' ∧ np_completed s' = pid_set pc.
Proof.
  intros Hnd. revert s. induction fuel as [|fuel IH]; intros s Hr; cbn [np_loop].
  - case_bool_decide as Hc; [done|]. intros [= <-]. split; [done|].
    destruct Hr as [Hsub _]. apply set_subseteq_size_eq; [done|].
    rewrite size_pid_set_NoDup by done. lia.
  - case_bool_decide as Hc.
    + destruct (np_body key keq klt pc s) as [s1| |] eqn:Hb; [|done..].
      cbn [mbind outcome_bind]. apply IH. by eapply np_body_runs.
    + intros [= <-]. split; [done|].
      destruct Hr as [Hsub _]. apply set_subseteq_size_eq; [done|].
      rewrite size_pid_set_NoDup by done. lia.
Qed.

End non_preemptive_turns.

Lemma np_runs_init (pc : list Process) : np_runs pc np_init.
Proof.
  split; [set_solver|]. intros p _ _. cbn [np_completed np_schedule np_init].
  by rewrite decide_False by set_solver.
Qed.

Lemma length_copy_processes (l : list Process) :
  length (copy_processes l) = length l.
Proof. unfold copy_processes. apply length_map. Qed.

Lemma sjf_keys_ordered (pc : list Process) x y :
  x ∈ pc → y ∈ pc →
  ∃ b : bool,
    tuple_lt Qc_eqb num_lt (burst_time x, pid x) (burst_time y, pid y) = Returned b.
Proof. intros _ _. destruct (shorter_or_equal_order x y) as (b & ? & _). eauto. Qed.

Lemma priority_copies (processes : list Process) :
  Forall (λ p, is_Some (priority p)) processes →
  Forall (λ p, is_Some (priority p)) (copy_processes processes).
Proof.
  intros H. unfold copy_processes. apply Forall_fmap.
  by eapply Forall_impl; [exact H|].
Qed.

Lemma priority_keys_ordered (pc : list Process) x y :
  Forall (λ p, is_Some (priority p)) pc → x ∈ pc → y ∈ pc →
  ∃ b : bool,
    tuple_lt priority_eqb priority_lt (priority x, pid x) (priority y, pid y) =
      Returned b.
Proof.
  intros Hall Hx Hy. rewrite Forall_forall in Hall.
  destruct (more_urgent_or_equal_order x y) as (b & ? & _); eauto.
Qed.

Lemma check_priorities_passes (processes : list Process) :
  Forall (λ p, is_Some (priority p)) processes →
  check_priorities processes = Returned ().
Proof.
  intros H. by destruct (check_priorities_cases processes) as [[? _]|[_ ?]].
Qed.

(** X6: on a list without a repeated pid, [sjf_non_preemptive] returns a
    result after at most two turns of its loop per process (an idle turn
    and a run), and so does [priority_non_preemptive] when every process
    has a priority. *)
Theorem non_preemptive_returns fuel (processes : list Process) :
  NoDup (pid <$> processes) → 2 * length processes ≤ fuel →
  (∃ r, (sjf_non_preemptive fuel processes).2 = Returned r) ∧
  (Forall (λ p, is_Some (priority p)) processes →
   ∃ r, (priority_non_preemptive fuel processes).2 = Returned r).
Proof.
  intros Hnd Hfuel.
  destruct processes as [|p ps]; [by split; eauto|].
  set (processes := p :: ps) in *.
  assert (NoDup (pid <$> copy_processes processes)) as Hnd'
    by by rewrite pid_copy_processes.
  assert (np_turns_left (copy_processes processes) np_init ≤ fuel) as Hturns.
  { etrans; [apply np_turns_left_init|]. by rewrite length_copy_processes. }
  split.
  - destruct (np_loop_returns burst_time Qc_eqb num_lt (copy_processes processes)
                (sjf_keys_ordered _) fuel np_init) as (s & Hs); [done|done|done|].
    unfold sjf_non_preemptive, processes. fold processes. cbn [snd].
    rewrite Hs. by eexists.
  - intros Hp.
    destruct (np_loop_returns priority priority_eqb priority_lt
                (copy_processes processes)
                (λ x y, priority_keys_ordered _ x y (priority_copies _ Hp))
                fuel np_init) as (s & Hs); [done|done|done|].
    unfold priority_non_preemptive, processes. fold processes. cbn [snd].
    rewrite (check_priorities_passes _ Hp). cbn [mbind outcome_bind].
    rewrite Hs. by eexists.
Qed.

Lemma non_preemptive_returns_witness :
  (∃ r, (sjf_non_preemptive 6 scenario).2 = Returned r) ∧
  (Forall (λ p, is_Some (priority p)) scenario →
   ∃ r, (priority_non_preemptive 6 scenario).2 = Returned r).
Proof.
  apply (non_preemptive_returns 6 scenario).
  - compute_done.
  - vm_compute. lia.
Defined.

(** X7: on a list in which a pid is repeated, [sjf_non_preemptive] returns
    no result: once every pid is completed the loop goes on, finds no
    process left and raises the ValueError of [min] on an empty sequence;
    so does [priority_non_preemptive] when every process has a priority. *)
Theorem non_preemptive_repeated_pid fuel (processes : list Process) :
  ¬ NoDup (pid <$> processes) → 2 * length processes ≤ fuel →
  (sjf_non_preemptive fuel processes).2 = Raised EmptyMin ∧
  (Forall (λ p, is_Some (priority p)) processes →
   (priority_non_preemptive fuel processes).2 = Raised EmptyMin).
Proof.
  intros Hnd Hfuel.
  destruct processes as [|p ps]; [by destruct Hnd; constructor|].
  set (processes := p :: ps) in *.
  assert (¬ NoDup (pid <$> copy_processes processes)) as Hnd'
    by by rewrite pid_copy_processes.
  assert (np_turns_left (copy_processes processes) np_init < fuel) as Hturns.
  { eapply Nat.lt_le_trans; [by apply np_turns_left_init_dup|].
    by rewrite length_copy_processes. }
  split.
  - unfold sjf_non_preemptive, processes. fold processes. cbn [snd].
    by rewrite (np_loop_raises burst_time Qc_eqb num_lt (copy_processes processes)
                  (sjf_keys_ordered _) fuel np_init).
  - intros Hp.
    unfold priority_non_preemptive, processes. fold processes. cbn [snd].
    rewrite (check_priorities_passes _ Hp). cbn [mbind outcome_bind].
    by rewrite (np_loop_raises priority priority_eqb priority_lt
                  (copy_processes processes)
                  (λ x y, priority_keys_ordered _ x y (priority_copies _ Hp))
                  fuel np_init).
Qed.

Lemma non_preemptive_repeated_pid_witness :
  (sjf_non_preemptive 4 [PP "A" 0 1 1; PP "A" 0 2 1]).2 = Raised EmptyMin ∧
  (Forall (λ p, is_Some (priority p)) [PP "A" 0 1 1; PP "A" 0 2 1] →
   (priority_non_preemptive 4 [PP "A" 0 1 1; PP "A" 0 2 1]).2 = Raised EmptyMin).
Proof.
  apply (non_preemptive_repeated_pid 4 [PP "A" 0 1 1; PP "A" 0 2 1]).
  - apply (bool_decide_eq_false_1 (NoDup (pid <$> [PP "A" 0 1 1; PP "A" 0 2 1]))).
    vm_compute. reflexivity.
  - vm_compute. lia.
Defined.

Lemma np_runs_result (pc : list Process) s (processes : list Process) p :
  pc = copy_processes processes →
  np_runs pc s → np_completed s = pid_set pc →
  p ∈ processes → pid p ≠ IDLE →
  ∃ start,
    entries_of (pid p) (np_schedule s) =
      [(pid p, start, (start + burst_time p)%Qc)] ∧
    (arrival_time p ≤ start)%Qc.
Proof.
  intros -> [_ Hruns] Hall Hp Hidle.
  set (p' := new_Process (pid p) (arrival_time p) (burst_time p) (priority p) None).
  assert (p' ∈ copy_processes processes) as Hp'.
  { unfold copy_processes. apply list_elem_of_fmap. by exists p. }
  specialize (Hruns p' Hp' Hidle).
  rewrite decide_True in Hruns; [done|].
  rewrite Hall. apply elem_of_pid_set. by exists p'.
Qed.

(** X8: in a result returned by [sjf_non_preemptive] or
    [priority_non_preemptive] on a list without a repeated pid, whose times
    are whole numbers on which the arithmetic is exact, every process (not
    named IDLE) has exactly one schedule entry; the entry starts at or
    after the arrival time of the process and lasts for its burst time. *)
Theorem non_preemptive_runs_each_once fuel (processes : list Process) r :
  NoDup (pid <$> processes) → exact_times processes →
  (sjf_non_preemptive fuel processes).2 = Returned r ∨
  (priority_non_preemptive fuel processes).2 = Returned r →
  ∀ p, p ∈ processes → pid p ≠ IDLE →
    ∃ start,
      entries_of (pid p) (schedule r) =
        [(pid p, start, (start + burst_time p)%Qc)] ∧
      (arrival_time p ≤ start)%Qc.
Proof.
  intros Hnd _ Hr p Hp Hidle.
  destruct processes as [|p0 ps]; [by apply elem_of_nil in Hp|].
  set (processes := p0 :: ps) in *.
  assert (NoDup (pid <$> copy_processes processes)) as Hnd'
    by by rewrite pid_copy_processes.
  destruct Hr as [Hr|Hr].
  - unfold sjf_non_preemptive, processes in Hr. fold processes in Hr.
    cbn [snd] in Hr.
    destruct (np_loop _ _ _ _ _ _) as [s| |] eqn:Hl; simplify_eq/=.
    apply (np_loop_runs _ _ _ _ (sjf_keys_ordered _)) in Hl as [Hruns Hall];
      [|done|apply np_runs_init].
    by eapply np_runs_result.
  - unfold priority_non_preemptive, processes in Hr. fold processes in Hr.
    cbn [snd] in Hr.
    destruct (check_priorities_cases processes) as [[Hc Hsome]|[[a Hc] _]];
      rewrite Hc in Hr; [|done]. cbn [mbind outcome_bind] in Hr.
    destruct (np_loop _ _ _ _ _ _) as [s| |] eqn:Hl; simplify_eq/=.
    apply (np_loop_runs _ _ _ _
             (λ x y, priority_keys_ordered _ x y (priority_copies _ Hsome)))
      in Hl as [Hruns Hall]; [|done|apply np_runs_init].
    by eapply np_runs_result.
Qed.

Lemma non_preemptive_runs_each_once_witness :
  ∃ r, (sjf_non_preemptive 6 scenario).2 = Returned r ∧
  ∀ p, p ∈ scenario → pid p ≠ IDLE →
    ∃ start,
      entries_of (pid p) (schedule r) =
        [(pid p, start, (start + burst_time p)%Qc)] ∧
      (arrival_time p ≤ start)%Qc.
Proof.
  destruct (sjf_non_preemptive 6 scenario).2 as [r|e|] eqn:E.
  - exists r. split; [reflexivity|].
    apply (non_preemptive_runs_each_once 6 scenario r).
    + compute_done.
    + split; compute_done.
    + left. exact E.
  - vm_compute in E. discriminate E.
  - vm_compute in E. discriminate E.
Defined.

(** ** fcfs_scheduling: one run per process, in the order of arrival *)

Lemma busy_entries_snoc (sched : list ScheduleEntry) (e : ScheduleEntry) :
  busy_entries (sched ++ [e]) =
  busy_entries sched ++ (if decide (e.1.1 ≠ IDLE) then [e] else []).
Proof. unfold busy_entries. by rewrite filter_app. Qed.

Lemma fcfs_step_run (sched : list ScheduleEntry) t (p : Process) :
  pid p ≠ IDLE →
  ∃ e, busy_entries (fcfs_step (sched, t) p).1 = busy_entries sched ++ [e] ∧
       whole_run p e.
Proof.
  intros Hp. unfold fcfs_step, Qc_ltb. case_bool_decide as Hlt; cbn [fst].
  - eexists. rewrite !busy_entries_snoc. cbn [fst].
    rewrite (decide_True (P := pid p ≠ IDLE)) by done.
    rewrite (decide_False (P := IDLE ≠ IDLE)) by (intros H; by apply H).
    rewrite app_nil_r. split; [done|].
    unfold whole_run, entry_start, entry_end. cbn [fst snd].
    split_and!; [done|apply Qcle_refl|done].
  - eexists. rewrite !busy_entries_snoc. cbn [fst].
    rewrite (decide_True (P := pid p ≠ IDLE)) by done. split; [done|].
    unfold whole_run, entry_start, entry_end. cbn [fst snd].
    split_and!; [done| |done]. by apply Qcnot_lt_le.
Qed.

Lemma fcfs_fold_runs (l : list Process) (sched : list ScheduleEntry) t :
  Forall (λ p, pid p ≠ IDLE) l →
  ∃ runs, busy_entries (foldl fcfs_step (sched, t) l).1 = busy_entries sched ++ runs ∧
          Forall2 whole_run l runs.
Proof.
  intros Hl. revert sched t. induction Hl as [|p l Hp _ IH]; intros sched t.
  - exists []. by rewrite app_nil_r.
  - cbn [foldl]. destruct (fcfs_step_run sched t p Hp) as (e & He & Hrun).
    destruct (fcfs_step (sched, t) p) as [sched1 t1]. cbn [fst] in He.
    destruct (IH sched1 t1) as (runs & Hruns & Hall).
    exists (e :: runs). split; [|by constructor].
    by rewrite Hruns, He, <- app_assoc.
Qed.

(** X9: in the result of [fcfs_scheduling] on processes none of which is
    named IDLE, whose times are whole numbers on which the arithmetic is
    exact, the entries that are not idle are one per process, in the order
    of (arrival_time, pid) (equal keys in the caller's order); each starts
    at or after the arrival time of its process and lasts for its burst
    time. *)
Theorem fcfs_runs_in_arrival_order (processes : list Process) r :
  Forall (λ p, pid p ≠ IDLE) processes → exact_times processes →
  (fcfs_scheduling processes).2 = Returned r →
  ∃ order, order ≡ₚ processes ∧ StronglySorted arrival_key_le order ∧
           Forall2 whole_run order (busy_entries (schedule r)).
Proof.
  intros Hidle _ Hr. exists (sorted arrival_key_ltb processes).
  split; [apply sorted_perm|]. split; [apply sorted_arrival_StronglySorted|].
  unfold fcfs_scheduling in Hr. destruct processes as [|p ps].
  { simplify_eq/=. constructor. }
  set (processes := p :: ps) in *.
  destruct (fcfs_fold_runs (sorted arrival_key_ltb processes) [] (Q2Qc 0))
    as (runs & Hruns & Hall).
  { by rewrite sorted_perm. }
  destruct (foldl fcfs_step _ _) as [sched t]. by simplify_eq/=.
Qed.

Lemma fcfs_runs_in_arrival_order_witness :
  ∃ r, (fcfs_scheduling scenario_shuffled).2 = Returned r ∧
  ∃ order, order ≡ₚ scenario_shuffled ∧ StronglySorted arrival_key_le order ∧
           Forall2 whole_run order (busy_entries (schedule r)).
Proof.
  destruct (fcfs_scheduling scenario_shuffled).2 as [r|e|] eqn:E.
  - exists r. split; [reflexivity|].
    apply (fcfs_runs_in_arrival_order scenario_shuffled r); [| |exact E].
    + unfold scenario_shuffled. repeat constructor; discriminate.
    + split; compute_done.
  - vm_compute in E. discriminate E.
  - vm_compute in E. discriminate E.
Defined.

(** ** round_robin: every process is served for its burst time *)

Lemma py_sum_snoc (l : list Qc) (x : Qc) : py_sum (l ++ [x]) = (py_sum l + x)%Qc.
Proof. unfold py_sum. by rewrite foldl_app. Qed.

Lemma service_snoc (x : string) (sched : list ScheduleEntry) (e : ScheduleEntry) :
  service x (sched ++ [e]) =
  (service x sched + (if decide (e.1.1 = x) then duration e else Q2Qc 0))%Qc.
Proof.
  unfold service. rewrite entries_of_snoc. case_decide.
  - rewrite fmap_app. apply py_sum_snoc.
  - rewrite app_nil_r. clear. qc_lra.
Qed.

(** What a run that is emitted adds to the service of a pid. *)
Lemma service_emits (x : string) sched p start finish sched' :
  emits sched p start finish sched' →
  service x sched' =
  (service x sched + (if decide (p = x) then finish - start else Q2Qc 0))%Qc.
Proof.
  intros [_|init s0 ->].
  - rewrite service_snoc. cbn [fst]. unfold duration, entry_end, entry_start.
    cbn [fst snd]. done.
  - rewrite !service_snoc. cbn [fst]. unfold duration, entry_end, entry_start.
    cbn [fst snd]. case_decide; clear; qc_lra.
Qed.

Lemma entries_of_emits (x : string) (Q : Qc → Prop) sched p start finish sched' :
  emits sched p start finish sched' →
  Forall (λ e, Q (entry_start e)) (entries_of x sched) →
  (p = x → Q start) →
  Forall (λ e, Q (entry_start e)) (entries_of x sched').
Proof.
  intros [_|init s0 ->] Hall Hnew.
  - rewrite entries_of_snoc. cbn [fst]. apply Forall_app. split; [done|].
    case_decide; [|done]. apply Forall_singleton. by apply Hnew.
  - rewrite entries_of_snoc in Hall |- *. cbn [fst] in *.
    apply Forall_app in Hall as [Hinit Hlast]. apply Forall_app. split; [done|].
    case_decide; [|done]. rewrite Forall_singleton in Hlast. by apply Forall_singleton.
Qed.

Lemma burst_deref_assign σ r v r' :
  burst_time (deref (assign_remaining_time σ r v) r') = burst_time (deref σ r').
Proof. by destruct (deref_assign_cases σ r v r') as [->| ->]. Qed.



Lemma same_descriptor_set (p : Process) v (p0 : Process) :
  same_descriptor p p0 → same_descriptor (set_remaining_time p v) p0.
Proof. done. Qed.

Lemma same_descriptor_assign σ r v (W0 : list Process) :
  Forall2 same_descriptor (work_objs σ) W0 →
  Forall2 same_descriptor (work_objs (assign_remaining_time σ r v)) W0.
Proof.
  intros H. destruct r as [k|k]; [done|]. cbn [assign_remaining_time work_objs].
  revert k. induction H as [|x y l l' Hxy Hl IH]; intros k; [done|].
  destruct k as [|k]; simpl; constructor; auto. apply IH.
Qed.

Lemma same_descriptor_deref σ (W0 : list Process) k p0 :
  Forall2 same_descriptor (work_objs σ) W0 → W0 !! k = Some p0 →
  same_descriptor (deref σ (Work k)) p0 ∧ k < length (work_objs σ).
Proof.
  intros H Hk. destruct (Forall2_lookup_r _ _ _ _ _ H Hk) as (x & Hx & Hd).
  cbn [deref]. rewrite (list_lookup_total_correct _ _ _ Hx).
  split; [done|]. by eapply lookup_lt_Some.
Qed.

Section rr_service.
Context (q : Qc) (W0 : list Process).
Hypothesis q_pos : (Q2Qc 0 < q)%Qc.
Hypothesis unique_pids : NoDup (pid <$> W0).
Hypothesis not_idle : Forall (λ p, pid p ≠ IDLE) W0.

Lemma W0_pid_inj k k' (p0 p0' : Process) :
  W0 !! k = Some p0 → W0 !! k' = Some p0' → pid p0 = pid p0' → k = k'.
Proof.
  intros Hk Hk' Hpid.
  apply (NoDup_lookup (pid <$> W0) k k' (pid p0)); [done|..];
    rewrite list_lookup_fmap.
  - by rewrite Hk.
  - by rewrite Hk', Hpid.
Qed.

Lemma W0_not_idle k (p0 : Process) : W0 !! k = Some p0 → pid p0 ≠ IDLE.
Proof.
  intros Hk. rewrite Forall_forall in not_idle.
  by eapply not_idle, list_elem_of_lookup_2.
Qed.

(** The head of the queue when a turn runs it: an admitted process, which
    has arrived. *)
Lemma rr_turn_head σ s (sched0 : list ScheduleEntry) t0 head rest i0 :
  rr_inv σ s → rr_served W0 σ s →
  (rr_ready_queue s = head :: rest ∧ sched0 = rr_schedule s ∧
   t0 = rr_current_time s ∧ i0 = rr_i s) ∨
  (rr_ready_queue s = [] ∧ rr_i s < length (work_objs σ) ∧
   t0 = arrival_time (deref σ (Work (rr_i s))) ∧
   sched0 = rr_schedule s ++ [(IDLE, rr_current_time s, t0)] ∧
   head :: rest = arrived_by σ (rr_i s) t0 ∧
   i0 = rr_i s + length (head :: rest)) →
  ∃ kh ph, head = Work kh ∧ W0 !! kh = Some ph ∧ kh < i0 ∧
    (rr_current_time s ≤ t0)%Qc ∧
    (∀ k p0, W0 !! k = Some p0 → k < i0 → (arrival_time p0 ≤ t0)%Qc) ∧
    (∀ x, x ≠ IDLE → entries_of x sched0 = entries_of x (rr_schedule s)).
Proof.
  intros Hinv Hserved Hcase.
  pose proof (served_desc _ _ _ Hserved) as Hdesc.
  assert (∀ k, k < length (work_objs σ) → ∃ p0, W0 !! k = Some p0) as Hex.
  { intros k Hk. apply lookup_lt_is_Some.
    by rewrite <- (Forall2_length _ _ _ Hdesc). }
  destruct Hcase as [(Hq & -> & -> & ->)|(Hq & Hi & -> & -> & Harr & ->)].
  - pose proof (rr_queue_admitted _ _ Hinv) as Hadm. rewrite Hq in Hadm.
    apply Forall_cons in Hadm as [(kh & -> & Hkh) _].
    pose proof (rr_i_le _ _ Hinv).
    destruct (Hex kh) as [ph Hph]; [lia|].
    exists kh, ph. split_and!; [done..|apply Qcle_refl| |done].
    intros k p0 Hk Hlt. by eapply served_admitted.
  - destruct (arrived_by_prefix σ (rr_i s)
                (arrival_time (deref σ (Work (rr_i s)))) (rr_sorted _ _ Hinv))
      as (m & Hm & Hle & Hin & Hout).
    rewrite <- Harr in Hm. destruct m as [|m]; [done|].
    cbn [seq fmap list_fmap] in Hm. injection Hm as -> Hrest.
    destruct (Hex (rr_i s)) as [ph Hph]; [lia|].
    pose proof (rr_pending_future _ _ Hinv (rr_i s) ltac:(lia) Hi) as Hfut.
    exists (rr_i s), ph. split_and!; [done|done|simpl; lia| | |].
    + clear -Hfut. qc_lra.
    + intros k p0 Hk Hlt.
      destruct (same_descriptor_deref σ W0 k p0 Hdesc Hk) as [(_ & Ha & _) _].
      destruct (decide (k < rr_i s)) as [Hlt'|Hge].
      * pose proof (served_admitted _ _ _ Hserved k p0 Hk Hlt') as H1.
        clear -H1 Hfut. qc_lra.
      * rewrite <- Ha. apply Hin; [lia|].
        rewrite Hrest, length_cons, length_fmap, length_seq in Hlt. lia.
    + intros x Hx. rewrite entries_of_snoc. cbn [fst].
      rewrite decide_False by done. by rewrite app_nil_r.
Qed.

Lemma rr_body_served σ s σ' s' :
  rr_inv σ s → rr_served W0 σ s →
  rr_body q σ s = (σ', Returned (Continue s')) →
  rr_served W0 σ' s'.
Proof.
  intros Hinv Hserved Hb.
  destruct (rr_body_turn q σ s Hinv) as [(_ & _ & Hbr)|(σ1 & s1 & Hc & Ht & Hinv')];
    [congruence|].
  assert (σ' = σ1 ∧ s' = s1) as [-> ->] by (split; congruence).
  destruct Ht as (sched0 & t0 & head & rest & i0 & e & Hhead & Heq & Her & Hcase &
                  Hσ & Hem & Hct & Hsorted & Hpend & Hi' & Hqueue).
  destruct (rr_turn_head σ s sched0 t0 head rest i0 Hinv Hserved Hhead)
    as (kh & ph & -> & Hph & Hkh & Htime & Harrived & Hentries).
  pose proof (served_desc _ _ _ Hserved) as Hdesc.
  destruct (same_descriptor_deref σ W0 kh ph Hdesc Hph) as [(Hpid & Harr & Hburst & _) Hlen].
  pose proof (served_left _ _ _ Hserved kh ph Hph) as Hleft.
  set (rem := remaining_time (deref σ (Work kh))) in *.
  assert (Q2Qc 0 ≤ e)%Qc as He.
  { destruct Hcase as [->| ->]; [|done]. clear -q_pos. qc_lra. }
  assert (∀ k, k ≠ kh → deref σ1 (Work k) = deref σ (Work k)) as Hother.
  { intros k Hne. rewrite Hσ. apply deref_assign_ne. congruence. }
  assert (remaining_time (deref σ1 (Work kh)) = (rem - e)%Qc) as Hrem.
  { rewrite Hσ, deref_assign_eq by done. done. }
  assert (∀ x, service x (rr_schedule s1) =
               (service x sched0 + (if decide (pid ph = x) then e else Q2Qc 0))%Qc)
    as Hservice.
  { intros x. rewrite (service_emits x _ _ _ _ _ Hem). rewrite Hpid.
    destruct (decide (pid ph = x)); clear; qc_lra. }
  constructor.
  - rewrite Hσ. by apply same_descriptor_assign.
  - intros k p0 Hk. rewrite Hservice.
    pose proof (served_sum _ _ _ Hserved k p0 Hk) as Hsum.
    unfold service in *. rewrite Hentries by by eapply W0_not_idle.
    destruct (decide (k = kh)) as [->|Hne].
    + assert (p0 = ph) as -> by congruence.
      rewrite decide_True by done. rewrite Hrem. fold rem in Hsum.
      clear -Hsum. qc_lra.
    + rewrite decide_False.
      * rewrite Hother by done. clear -Hsum. qc_lra.
      * intros Hp. apply Hne. symmetry. by eapply W0_pid_inj.
  - intros k p0 Hk. destruct (decide (k = kh)) as [->|Hne].
    + rewrite Hrem. clear -Her. fold rem in Her. qc_lra.
    + rewrite Hother by done. by eapply served_left.
  - intros k p0 Hk.
    eapply (entries_of_emits (pid p0) (λ t, (arrival_time p0 ≤ t)%Qc)); [exact Hem| |].
    + rewrite Hentries by by eapply W0_not_idle. by eapply served_start.
    + rewrite Hpid. intros Hp.
      assert (kh = k) as -> by by eapply W0_pid_inj.
      by apply (Harrived k p0).
  - intros k p0 Hk Hlt. rewrite Hct. rewrite Hi' in Hlt.
    destruct (decide (k < i0)) as [Hlt0|Hge].
    + pose proof (Harrived k p0 Hk Hlt0) as H1. clear -H1 He. qc_lra.
    + destruct (arrived_by_prefix σ i0 (t0 + e)%Qc Hsorted)
        as (m & Hm & Hle & Hin & Hout).
      rewrite Hm, length_fmap, length_seq in Hlt.
      destruct (same_descriptor_deref σ W0 k p0 Hdesc Hk) as [(_ & Ha & _) _].
      rewrite <- Ha. apply Hin; lia.
  - intros x Hx.
    assert (x ∈ rr_completed s →
            ∃ k p0, W0 !! k = Some p0 ∧ pid p0 = x ∧
                    (remaining_time (deref σ1 (Work k)) ≤ Q2Qc 0)%Qc) as Hold.
    { intros Hin. destruct (served_completed _ _ _ Hserved x Hin) as (k & p0 & Hk & Hp & Hr).
      exists k, p0. split_and!; [done..|].
      destruct (decide (k = kh)) as [->|Hne].
      - rewrite Hrem. fold rem in Hr. clear -Hr He. qc_lra.
      - by rewrite Hother. }
    fold rem in Hqueue. case_bool_decide as Hdone.
    + destruct Hqueue as [_ Hcomp]. rewrite Hcomp in Hx.
      apply elem_of_union in Hx as [Hx|Hx]; [|by apply Hold].
      apply elem_of_singleton in Hx as ->.
      exists kh, ph. split_and!; [done|done|]. by rewrite Hrem.
    + destruct Hqueue as [_ Hcomp]. rewrite Hcomp in Hx. by apply Hold.
Qed.
End rr_service.

Lemma rr_loop_served q (W0 : list Process) fuel σ s σ' s' :
  (Q2Qc 0 < q)%Qc → NoDup (pid <$> W0) → Forall (λ p, pid p ≠ IDLE) W0 →
  rr_inv σ s → rr_served W0 σ s →
  rr_loop q fuel σ s = (σ', Returned s') →
  rr_served W0 σ' s' ∧ length W0 ≤ size (rr_completed s').
Proof.
  intros Hq Hnd Hidle. revert σ s.
  assert (∀ σ s, rr_served W0 σ s → length (work_objs σ) = length W0) as Hlen.
  { intros σ s Hs. by eapply Forall2_length, served_desc. }
  induction fuel as [|fuel IH]; intros σ s Hinv Hs; cbn [rr_loop].
  - case_bool_decide as Hc; [done|]. intros [= <- <-]. split; [done|].
    rewrite <- (Hlen σ s Hs). lia.
  - case_bool_decide as Hc.
    + destruct (rr_body_turn q σ s Hinv)
        as [(Hq0 & Hi0 & Hbr)|(σ1 & s1 & Hb & _ & Hinv1)].
      * destruct (rr_no_break σ s Hinv); [|done|done].
        assert (pid <$> work_objs σ = pid <$> W0) as ->; [|done].
        pose proof (served_desc _ _ _ Hs) as Hd. clear -Hd.
        induction Hd as [|x y l l' (Hp & _) _ IH]; [done|]. simpl. by f_equal.
      * rewrite Hb. apply IH; [done|].
        exact (rr_body_served q W0 Hq Hnd Hidle σ s σ1 s1 Hinv Hs Hb).
    + intros [= <- <-]. split; [done|]. rewrite <- (Hlen σ s Hs). lia.
Qed.

Lemma rr_served_done (W0 : list Process) σ s k p0 :
  NoDup (pid <$> W0) → rr_served W0 σ s → length W0 ≤ size (rr_completed s) →
  W0 !! k = Some p0 →
  service (pid p0) (rr_schedule s) = burst_time p0.
Proof.
  intros Hnd Hs Hsize Hk.
  assert (rr_completed s ⊆ pid_set W0) as Hsub.
  { intros x Hx. destruct (served_completed _ _ _ Hs x Hx) as (k' & p' & Hk' & <- & _).
    apply elem_of_pid_set. exists p'. split; [|done]. by eapply list_elem_of_lookup_2. }
  assert (rr_completed s = pid_set W0) as Hall.
  { apply set_subseteq_size_eq; [done|]. rewrite size_pid_set_NoDup by done. lia. }
  assert (pid p0 ∈ rr_completed s) as Hin.
  { rewrite Hall. apply elem_of_pid_set. exists p0. split; [|done].
    by eapply list_elem_of_lookup_2. }
  destruct (served_completed _ _ _ Hs _ Hin) as (k' & p' & Hk' & Hp & Hrem).
  assert (k' = k) as ->.
  { apply (NoDup_lookup (pid <$> W0) k' k (pid p0)); [done|..];
      rewrite list_lookup_fmap.
    - rewrite Hk'. simpl. by rewrite Hp.
    - by rewrite Hk. }
  pose proof (served_sum _ _ _ Hs k p0 Hk) as Hsum.
  pose proof (served_left _ _ _ Hs k p0 Hk) as Hleft.
  clear -Hsum Hleft Hrem. qc_lra.
Qed.

Lemma rr_served_init (processes : list Process) s :
  Forall (λ p, (Q2Qc 0 ≤ arrival_time p)%Qc ∧ (Q2Qc 0 < burst_time p)%Qc) processes →
  rr_init (mkStore [] (sorted arrival_key_ltb (copy_processes processes))) = Returned s →
  rr_served (sorted arrival_key_ltb (copy_processes processes))
            (mkStore [] (sorted arrival_key_ltb (copy_processes processes))) s.
Proof.
  intros Hv Hi.
  set (W0 := sorted arrival_key_ltb (copy_processes processes)) in *.
  set (σ := mkStore [] W0) in *.
  assert (StronglySorted arrival_key_le (work_objs σ)) as Hs
    by apply sorted_arrival_StronglySorted.
  destruct (rr_init_spec σ Hs) as (s0 & Hi0 & Hinv & Hsc & Ht & Hcomp & Hq & Hi').
  assert (s = s0) as -> by congruence.
  assert (Forall (λ p, (Q2Qc 0 < burst_time p)%Qc ∧ remaining_time p = burst_time p) W0)
    as Hcopies.
  { unfold W0. rewrite sorted_perm. apply copy_processes_bursts.
    eapply Forall_impl; [exact Hv|]. by intros p [_ ?]. }
  rewrite Forall_forall in Hcopies.
  constructor.
  - apply Forall2_same_length_lookup. split; [done|].
    intros k x y Hx Hy. cbn [work_objs σ] in Hx. by simplify_eq.
  - intros k p0 Hk. rewrite Hsc. cbn [deref work_objs σ].
    rewrite (list_lookup_total_correct _ _ _ Hk).
    destruct (Hcopies p0) as [_ ->]; [by eapply list_elem_of_lookup_2|].
    unfold service, entries_of. simpl. unfold py_sum. simpl. clear. qc_lra.
  - intros k p0 Hk. cbn [deref work_objs σ].
    rewrite (list_lookup_total_correct _ _ _ Hk).
    destruct (Hcopies p0) as [Hb ->]; [by eapply list_elem_of_lookup_2|].
    clear -Hb. qc_lra.
  - intros k p0 Hk. rewrite Hsc. constructor.
  - intros k p0 Hk Hlt. rewrite Ht.
    destruct (arrived_by_prefix σ 0 (Q2Qc 0) Hs) as (m & Hm & _ & Hin & _).
    rewrite Hi', Hm, length_fmap, length_seq in Hlt.
    specialize (Hin k ltac:(lia) ltac:(lia)). cbn [deref work_objs σ] in Hin.
    by rewrite (list_lookup_total_correct _ _ _ Hk) in Hin.
  - intros x Hx. rewrite Hcomp in Hx. by apply elem_of_empty in Hx.
Qed.

Lemma sorted_copies_lookup (processes : list Process) p :
  p ∈ processes →
  ∃ k p0, sorted arrival_key_ltb (copy_processes processes) !! k = Some p0 ∧
          same_descriptor p0 p.
Proof.
  intros Hp.
  set (p' := new_Process (pid p) (arrival_time p) (burst_time p) (priority p) None).
  assert (p' ∈ sorted arrival_key_ltb (copy_processes processes)) as Hin.
  { rewrite sorted_perm. unfold copy_processes. apply list_elem_of_fmap. by exists p. }
  apply list_elem_of_lookup_1 in Hin as [k Hk]. by exists k, p'.
Qed.

(** X10: in a result returned by [round_robin] on a valid input (unique
    pids, none of them IDLE, arrivals at or after 0, positive bursts) with a
    positive quantum, times and quantum being whole numbers on which the
    arithmetic is exact, the entries of every process add up to its burst
    time, and none of them starts before the process arrives. *)
Theorem round_robin_serves_each_burst fuel (processes : list Process)
    (time_quantum : Qc) r :
  valid_input processes → Forall (λ p, pid p ≠ IDLE) processes →
  exact_times processes →
  (Q2Qc 0 < time_quantum)%Qc → whole time_quantum →
  (round_robin fuel processes time_quantum).2 = Returned r →
  ∀ p, p ∈ processes →
    service (pid p) (schedule r) = burst_time p ∧
    Forall (λ e, (arrival_time p ≤ entry_start e)%Qc)
           (entries_of (pid p) (schedule r)).
Proof.
  intros [Hnd Hv] Hidle _ Hq _ Hr p Hp.
  assert (processes ≠ []) as Hne by (intros ->; by apply elem_of_nil in Hp).
  rewrite round_robin_unfold in Hr by (done || by apply Qclt_not_le).
  cbn [snd] in Hr. cbn zeta in Hr.
  set (W0 := sorted arrival_key_ltb (copy_processes processes)) in *.
  destruct (rr_init (mkStore [] W0)) as [s0| |] eqn:Hi; [|done..].
  cbn [mbind outcome_bind] in Hr.
  destruct (rr_loop time_quantum fuel (mkStore [] W0) s0) as [σ' [s'| |]] eqn:Hl;
    [|done..].
  cbn [snd mbind outcome_bind] in Hr. simplify_eq. cbn [schedule].
  assert (NoDup (pid <$> W0)) as HndW.
  { unfold W0. by rewrite sorted_perm, pid_copy_processes. }
  assert (Forall (λ p, pid p ≠ IDLE) W0) as HidleW.
  { unfold W0. rewrite sorted_perm. unfold copy_processes. apply Forall_fmap.
    by eapply Forall_impl; [exact Hidle|]. }
  pose proof (rr_served_init processes s0 Hv Hi) as Hs0.
  assert (rr_inv (mkStore [] W0) s0) as Hinv0.
  { destruct (rr_init_spec (mkStore [] W0)) as (s1 & Hi1 & Hinv1 & _);
      [apply sorted_arrival_StronglySorted|].
    by assert (s0 = s1) as -> by congruence. }
  destruct (rr_loop_served time_quantum W0 fuel _ _ _ _ Hq HndW HidleW Hinv0 Hs0 Hl)
    as [Hs Hsize].
  destruct (sorted_copies_lookup processes p Hp) as (k & p0 & Hk & Hpid & Harr & Hburst & _).
  fold W0 in Hk. rewrite <- Hpid, <- Harr, <- Hburst. split.
  - by eapply rr_served_done.
  - by eapply served_start.
Qed.

Lemma round_robin_serves_each_burst_witness :
  ∃ r, (round_robin 20 scenario (Qc_of_Z 2)).2 = Returned r ∧
  ∀ p, p ∈ scenario →
    service (pid p) (schedule r) = burst_time p ∧
    Forall (λ e, (arrival_time p ≤ entry_start e)%Qc)
           (entries_of (pid p) (schedule r)).
Proof.
  destruct (round_robin 20 scenario (Qc_of_Z 2)).2 as [r|e|] eqn:E.
  - exists r. split; [reflexivity|].
    apply (round_robin_serves_each_burst 20 scenario (Qc_of_Z 2) r).
    + split; compute_done.
    + unfold scenario. repeat constructor; discriminate.
    + split; compute_done.
    + reflexivity.
    + reflexivity.
    + exact E.
  - vm_compute in E. discriminate E.
  - vm_compute in E. discriminate E.
Defined.

(** ** round_robin: how many turns it takes *)

Lemma Qceiling_unique (x : Q) (z : Z) :
  (inject_Z (z - 1) < x)%Q → (x <= inject_Z z)%Q → Qceiling x = z.
Proof.
  intros H1 H2.
  pose proof (Qle_ceiling x) as H3. pose proof (Qceiling_lt x) as H4.
  assert (inject_Z (z - 1) < inject_Z (Qceiling x))%Q as H5 by lra.
  assert (inject_Z (Qceiling x - 1) < inject_Z z)%Q as H6 by lra.
  rewrite <- Zlt_Qlt in H5, H6. lia.
Qed.

Lemma this_Qcdiv (r q : Qc) : (this (r / q)%Qc == this r / this q)%Q.
Proof.
  unfold Qcdiv, Qcmult, Qcinv, Q2Qc. cbn [this].
  rewrite !Qred_correct. reflexivity.
Qed.

Lemma turns_for_zero (q r : Qc) :
  (Q2Qc 0 < q)%Qc → (r ≤ Q2Qc 0)%Qc → turns_for q r = 0.
Proof.
  intros Hq Hr. unfold turns_for.
  assert (this (r / q)%Qc <= inject_Z 0)%Q as H.
  { rewrite this_Qcdiv. unfold Qcle, Qclt in *. cbn [this Q2Qc] in *.
    rewrite Qred_correct in *. apply Qle_shift_div_r; [done|]. 
    change (inject_Z 0) with 0%Q. lra. }
  apply Qceiling_resp_le in H. rewrite Qceiling_Z in H. lia.
Qed.

Lemma turns_for_step (q r : Qc) :
  (Q2Qc 0 < q)%Qc → (Q2Qc 0 < r)%Qc →
  turns_for q r = S (turns_for q (r - py_min q r)).
Proof.
  intros Hq Hr. unfold py_min, Qc_ltb. case_bool_decide as Hlt.
  - replace (r - r)%Qc with (Q2Qc 0) by (clear; qc_lra).
    rewrite (turns_for_zero q (Q2Qc 0)) by (done || apply Qcle_refl).
    unfold turns_for. rewrite (Qceiling_unique _ 1); [done| |].
    + rewrite this_Qcdiv. unfold Qcle, Qclt in *. cbn [this Q2Qc] in *.
      rewrite Qred_correct in *. change (inject_Z (1 - 1)) with 0%Q.
      apply Qlt_shift_div_l; [done|]. lra.
    + rewrite this_Qcdiv. unfold Qcle, Qclt in *. cbn [this Q2Qc] in *.
      rewrite Qred_correct in *. apply Qle_shift_div_r; [done|].
      change (inject_Z 1) with 1%Q. lra.
  - unfold turns_for.
    assert (this ((r - q) / q)%Qc == this (r / q)%Qc - 1)%Q as Hx.
    { rewrite !this_Qcdiv. unfold Qcminus, Qcplus, Qcopp, Q2Qc, Qclt in *.
      cbn [this] in *. rewrite !Qred_correct in *. field. lra. }
    assert (1 <= this (r / q)%Qc)%Q as Hone.
    { rewrite this_Qcdiv. unfold Qcle, Qclt in *. cbn [this Q2Qc] in *.
      rewrite Qred_correct in *. apply Qle_shift_div_l; [done|].
      apply Qnot_lt_le in Hlt. lra. }
    pose proof (Qceiling_resp_le _ _ Hone) as Hc.
    change 1%Q with (inject_Z 1) in Hc. rewrite Qceiling_Z in Hc.
    rewrite (Qceiling_comp _ _ Hx).
    rewrite (Qceiling_unique (this (r / q)%Qc - 1) (Qceiling (this (r / q)%Qc) - 1)).
    + lia.
    + pose proof (Qceiling_lt (this (r / q)%Qc)) as H4.
      unfold Z.sub in *. rewrite !inject_Z_plus, !inject_Z_opp in *.
      change (inject_Z 1) with 1%Q in *. lra.
    + pose proof (Qle_ceiling (this (r / q)%Qc)) as H3.
      unfold Z.sub in *. rewrite !inject_Z_plus, !inject_Z_opp in *.
      change (inject_Z 1) with 1%Q in *. lra.
Qed.

Lemma sum_list_alter {A} (f : A → nat) (g : A → A) `{Inhabited A} (l : list A) k :
  k < length l →
  sum_list (f <$> alter g k l) + f (l !!! k) =
  sum_list (f <$> l) + f (g (l !!! k)).
Proof.
  revert k. induction l as [|x l IH]; intros k Hk; simpl in *; [lia|].
  destruct k as [|k]; simpl; [lia|].
  specialize (IH k ltac:(lia)). unfold alter, fmap in IH. lia.
Qed.

Lemma rr_turns_left_assign q σ k v :
  k < length (work_objs σ) →
  rr_turns_left q (assign_remaining_time σ (Work k) v) +
    turns_for q (remaining_time (deref σ (Work k))) =
  rr_turns_left q σ + turns_for q v.
Proof.
  intros Hk. unfold rr_turns_left. cbn [assign_remaining_time work_objs deref].
  by rewrite (sum_list_alter (λ p, turns_for q (remaining_time p))
                (λ p, set_remaining_time p v) _ k Hk).
Qed.

Lemma py_min_eq (q r e : Qc) :
  (e ≤ q)%Qc → (e ≤ r)%Qc → e = q ∨ e = r → e = py_min q r.
Proof.
  intros H1 H2 H3. unfold py_min, Qc_ltb. case_bool_decide as Hlt.
  - destruct H3 as [->| ->]; [|done]. clear -H2 Hlt. qc_lra.
  - destruct H3 as [->| ->]; [done|]. clear -H1 Hlt. qc_lra.
Qed.

(** The head of the queue when a turn runs it has time remaining. *)
Lemma rr_turn_head_live σ s (sched0 : list ScheduleEntry) t0 head rest i0 :
  rr_valid σ s →
  (rr_ready_queue s = head :: rest ∧ sched0 = rr_schedule s ∧
   t0 = rr_current_time s ∧ i0 = rr_i s) ∨
  (rr_ready_queue s = [] ∧ rr_i s < length (work_objs σ) ∧
   t0 = arrival_time (deref σ (Work (rr_i s))) ∧
   sched0 = rr_schedule s ++ [(IDLE, rr_current_time s, t0)] ∧
   head :: rest = arrived_by σ (rr_i s) t0 ∧
   i0 = rr_i s + length (head :: rest)) →
  ∃ kh, head = Work kh ∧ kh < length (work_objs σ) ∧
        (Q2Qc 0 < remaining_time (deref σ (Work kh)))%Qc.
Proof.
  intros [Hinv Hnd Hlive _] [(Hq & _)|(Hq & Hi & -> & _ & Harr & _)].
  - pose proof (rr_queue_admitted _ _ Hinv) as Hadm. rewrite Hq in Hadm.
    apply Forall_cons in Hadm as [(kh & -> & Hkh) _].
    pose proof (rr_i_le _ _ Hinv).
    exists kh. split_and!; [done|lia|]. apply Hlive; [lia|]. left. rewrite Hq. left.
  - destruct (arrived_by_prefix σ (rr_i s)
                (arrival_time (deref σ (Work (rr_i s)))) (rr_sorted _ _ Hinv))
      as (m & Hm & _).
    rewrite <- Harr in Hm. destruct m as [|m]; [done|].
    cbn [seq fmap list_fmap] in Hm. injection Hm as -> _.
    exists (rr_i s). split_and!; [done..|]. apply Hlive; [done|]. by right.
Qed.

Lemma rr_loop_returns q fuel σ s :
  (Q2Qc 0 < q)%Qc → NoDup (pid <$> work_objs σ) → rr_valid σ s →
  rr_turns_left q σ ≤ fuel →
  ∃ σ' s', rr_loop q fuel σ s = (σ', Returned s').
Proof.
  intros Hq. revert σ s.
  assert (∀ σ s, NoDup (pid <$> work_objs σ) → rr_valid σ s →
            size (rr_completed s) < length (work_objs σ) →
            ∃ σ1 s1, rr_body q σ s = (σ1, Returned (Continue s1)) ∧
                     NoDup (pid <$> work_objs σ1) ∧ rr_valid σ1 s1 ∧
                     rr_turns_left q σ = S (rr_turns_left q σ1)) as Hturn.
  { intros σ s Hnd Hv Hc. pose proof (rr_valid_inv _ _ Hv) as Hinv.
    destruct (rr_body_turn q σ s Hinv) as [(Hq0 & Hi0 & _)|(σ1 & s1 & Hb & Ht & _)].
    { by destruct (rr_no_break σ s Hinv Hnd Hc). }
    exists σ1, s1. split; [done|].
    pose proof (rr_body_valid q σ s σ1 s1 Hq Hv Hb) as Hv1.
    destruct Ht as (sched0 & t0 & head & rest & i0 & e & Hhead & Heq & Her & Hcase &
                    Hσ & _).
    destruct (rr_turn_head_live σ s sched0 t0 head rest i0 Hv Hhead)
      as (kh & -> & Hkh & Hrem).
    split_and!; [|done|].
    - by rewrite Hσ, pids_assign.
    - pose proof (rr_turns_left_assign q σ kh
                    (remaining_time (deref σ (Work kh)) - e)%Qc Hkh) as Hsum.
      rewrite <- Hσ in Hsum.
      rewrite (turns_for_step q (remaining_time (deref σ (Work kh)))) in Hsum by done.
      rewrite <- (py_min_eq q _ e) in Hsum by done. lia. }
  induction fuel as [|fuel IH]; intros σ s Hnd Hv Hfuel; cbn [rr_loop].
  - case_bool_decide as Hc; [|by eauto].
    destruct (Hturn σ s Hnd Hv Hc) as (σ1 & s1 & _ & _ & _ & Hs). lia.
  - case_bool_decide as Hc; [|by eauto].
    destruct (Hturn σ s Hnd Hv Hc) as (σ1 & s1 & -> & Hnd1 & Hv1 & Hs).
    apply IH; [done..|lia].
Qed.

Lemma sum_list_fmap_perm {A} (f : A → nat) (l l' : list A) :
  l ≡ₚ l' → sum_list (f <$> l) = sum_list (f <$> l').
Proof.
  induction 1 as [|x l l' _ IH|x y l|l l' l'' _ IH1 _ IH2]; simpl in *;
    unfold fmap in *; lia.
Qed.

Lemma rr_turns_left_init (processes : list Process) q :
  rr_turns_left q (mkStore [] (sorted arrival_key_ltb (copy_processes processes))) =
  rr_turns processes q.
Proof.
  unfold rr_turns_left, rr_turns. cbn [work_objs].
  rewrite (sum_list_fmap_perm _ _ _ (sorted_perm _ _)).
  unfold copy_processes. by rewrite <- list_fmap_compose.
Qed.

(** X11: on a valid input (unique pids, arrivals at or after 0, positive
    bursts) with a positive quantum, times and quantum being whole numbers
    on which the arithmetic is exact, [round_robin] returns a result after
    at most as many turns of its main loop as the burst times divided by
    the quantum, rounded up, add up to. *)
Theorem round_robin_returns fuel (processes : list Process) (time_quantum : Qc) :
  valid_input processes → exact_times processes →
  (Q2Qc 0 < time_quantum)%Qc → whole time_quantum →
  rr_turns processes time_quantum ≤ fuel →
  ∃ r, (round_robin fuel processes time_quantum).2 = Returned r.
Proof.
  intros [Hnd Hv] _ Hq _ Hfuel.
  destruct processes as [|p0 ps]; [by eexists|].
  set (processes := p0 :: ps) in *.
  rewrite round_robin_unfold by (done || by apply Qclt_not_le).
  cbn [snd]. cbn zeta.
  set (W0 := sorted arrival_key_ltb (copy_processes processes)) in *.
  destruct (rr_init_spec (mkStore [] W0)) as (s0 & Hi & _);
    [apply sorted_arrival_StronglySorted|].
  rewrite Hi. cbn [mbind outcome_bind].
  pose proof (rr_init_valid processes s0 Hv Hi) as Hv0.
  destruct (rr_loop_returns time_quantum fuel (mkStore [] W0) s0) as (σ' & s' & Hl).
  - done.
  - cbn [work_objs]. unfold W0. by rewrite sorted_perm, pid_copy_processes.
  - done.
  - unfold W0. by rewrite rr_turns_left_init.
  - rewrite Hl. cbn [snd mbind outcome_bind]. by eexists.
Qed.

Lemma round_robin_returns_witness :
  ∃ r, (round_robin 6 scenario (Qc_of_Z 2)).2 = Returned r.
Proof.
  apply (round_robin_returns 6 scenario (Qc_of_Z 2)).
  - split; compute_done.
  - split; compute_done.
  - reflexivity.
  - reflexivity.
  - vm_compute. lia.
Defined.

(** ** round_robin with a quantum that covers every burst is FCFS *)

Lemma fcfs_fold_pids (l : list Process) (sched : list ScheduleEntry) t e :
  e ∈ (foldl fcfs_step (sched, t) l).1 →
  e ∈ sched ∨ e.1.1 = IDLE ∨ e.1.1 ∈ pid <$> l.
Proof.
  revert sched t. induction l as [|p l IH]; intros sched t; [by left|].
  cbn [foldl]. unfold fcfs_step at 2. unfold Qc_ltb. case_bool_decide.
  - intros [Hin|[?|?]]%IH; [|by auto|by right; right; right].
    rewrite !elem_of_app, !list_elem_of_singleton in Hin.
    destruct Hin as [[?| ->]| ->]; [by left|by right; left|].
    right; right; left.
  - intros [Hin|[?|?]]%IH; [|by auto|by right; right; right].
    rewrite !elem_of_app, !list_elem_of_singleton in Hin.
    destruct Hin as [?| ->]; [by left|]. right; right; left.
Qed.

Lemma pid_set_snoc (l : list Process) (x : Process) :
  pid_set (l ++ [x]) = {[pid x]} ∪ pid_set l.
Proof.
  unfold pid_set. rewrite fmap_app, list_to_set_app_L. simpl. set_solver.
Qed.

Section rr_large_quantum.
Context (q : Qc) (W0 : list Process).
Hypothesis q_pos : (Q2Qc 0 < q)%Qc.
Hypothesis unique_pids : NoDup (pid <$> W0).
Hypothesis not_idle : Forall (λ p, pid p ≠ IDLE) W0.
Hypothesis covered : Forall (λ p, (burst_time p ≤ q)%Qc) W0.

Lemma size_pid_set_take j : size (pid_set (take j W0)) = j `min` length W0.
Proof.
  rewrite size_pid_set_NoDup.
  - by rewrite length_take.
  - rewrite fmap_take. eapply sublist_NoDup; [done|apply sublist_take].
Qed.

Lemma rr_body_as_fcfs σ s j σ' s' :
  rr_inv σ s → rr_served W0 σ s → rr_as_fcfs W0 σ s j →
  size (rr_completed s) < length (work_objs σ) →
  rr_body q σ s = (σ', Returned (Continue s')) →
  rr_as_fcfs W0 σ' s' (S j).
Proof.
  intros Hinv Hserved [Hstate Hqueue0 Hle Hcomp Hun] Hc Hb.
  pose proof (served_desc _ _ _ Hserved) as Hdesc.
  pose proof (Forall2_length _ _ _ Hdesc) as Hlen.
  rewrite Hcomp, size_pid_set_take, Hlen in Hc.
  assert (j < length W0) as Hj by lia.
  destruct (lookup_lt_is_Some_2 W0 j Hj) as [pj Hpj].
  destruct (rr_body_turn q σ s Hinv) as [(_ & _ & Hbr)|(σ1 & s1 & Hb1 & Ht & Hinv')];
    [congruence|].
  assert (σ' = σ1 ∧ s' = s1) as [-> ->] by (split; congruence).
  destruct Ht as (sched0 & t0 & head & rest & i0 & e & Hhead & Heq & Her & Hcase &
                  Hσ & Hem & Hct & Hsorted & Hpend & Hi' & Hqueue).
  destruct (rr_turn_head W0 σ s sched0 t0 head rest i0 Hinv Hserved Hhead)
    as (kh & ph & -> & Hph & Hkh & Htime & Harrived & Hentries).
  (* the head is the process at position [j] *)
  assert (kh = j ∧ rest = Work <$> seq (S j) (i0 - S j) ∧
          fcfs_step (rr_schedule s, rr_current_time s) pj =
            (sched0 ++ [(pid pj, t0, (t0 + burst_time pj)%Qc)],
             (t0 + burst_time pj)%Qc) ∧
          ∀ init s0, sched0 ≠ init ++ [(pid pj, s0, t0)]) as (-> & -> & Hstep & Hlast).
  { destruct (same_descriptor_deref σ W0 j pj Hdesc Hpj) as [(Hpid & Harr & _) _].
    pose proof (W0_not_idle W0 not_idle j pj Hpj) as Hnidle.
    destruct Hhead as [(Hq & -> & -> & ->)|(Hq & Hi & -> & -> & Harrb & ->)].
    - rewrite Hqueue0 in Hq. destruct (rr_i s - j) as [|d] eqn:Hd; [done|].
      cbn [seq fmap list_fmap] in Hq. injection Hq as <- <-.
      split_and!; [done|f_equal; f_equal; lia| |].
      + unfold fcfs_step, Qc_ltb.
        rewrite bool_decide_eq_false_2; [done|].
        apply Qcle_not_lt. apply (Harrived j pj Hpj). lia.
      + intros init s0 Heq0.
        assert ((pid pj, s0, rr_current_time s) ∈
                (foldl fcfs_step ([], Q2Qc 0) (take j W0)).1) as Hin.
        { rewrite Hstate. cbn [fst]. rewrite Heq0. set_solver. }
        apply fcfs_fold_pids in Hin as [Hin|[Hin|Hin]];
          [by apply elem_of_nil in Hin|done|].
        cbn [fst] in Hin. apply list_elem_of_fmap in Hin as (p' & Hp' & Hin).
        apply list_elem_of_lookup_1 in Hin as [k' Hk'].
        apply lookup_take_Some in Hk' as [Hk' Hlt].
        pose proof (W0_pid_inj W0 unique_pids j k' pj p' Hpj Hk' Hp'). lia.
    - rewrite Hqueue0 in Hq. destruct (rr_i s - j) as [|d] eqn:Hd; [|done].
      assert (rr_i s = j) as Hij by lia.
      destruct (arrived_by_prefix σ (rr_i s)
                  (arrival_time (deref σ (Work (rr_i s)))) Hsorted)
        as (m & Hm & _).
      rewrite <- Harrb in Hm. destruct m as [|m]; [done|].
      cbn [seq fmap list_fmap] in Hm. injection Hm as Hkh' Hrest.
      rewrite Hij in *. subst kh.
      split_and!; [done| | |].
      + rewrite Hrest. rewrite length_cons, length_fmap, length_seq.
        f_equal. f_equal. lia.
      + pose proof (rr_pending_future _ _ Hinv j ltac:(lia) Hi) as Hfut.
        rewrite Harr in *.
        unfold fcfs_step, Qc_ltb. rewrite bool_decide_eq_true_2 by done.
        by rewrite <- app_assoc.
      + intros init s0 [_ [=]]%app_inj_tail. done. }
  assert (ph = pj) as -> by congruence.
  destruct (same_descriptor_deref σ W0 j pj Hdesc Hpj) as [(Hpid & Harr & Hburst & _) Hjlen].
  pose proof (Hun j pj Hpj ltac:(lia)) as Hrem.
  assert (e = burst_time pj) as ->.
  { rewrite Hrem in Her, Hcase. rewrite Forall_forall in covered.
    pose proof (covered pj ltac:(by eapply list_elem_of_lookup_2)) as Hcov.
    destruct Hcase as [->|]; [|done]. clear -Her Hcov. qc_lra. }
  rewrite Hrem in Hqueue.
  rewrite bool_decide_eq_true_2 in Hqueue by (clear; qc_lra).
  destruct Hqueue as [Hqueue Hcompleted].
  destruct (arrived_by_prefix σ i0 (t0 + burst_time pj)%Qc Hsorted)
    as (m & Hm & _).
  rewrite Hm, length_fmap, length_seq in Hi'.
  constructor.
  - rewrite (take_S_r _ _ _ Hpj), foldl_app, Hstate. cbn [foldl].
    rewrite Hstep, Hct. f_equal.
    rewrite Hpid in Hem. inversion Hem as [Hnew Heq0|init s0 Heq0 Heq1]; [done|].
    by destruct (Hlast init s0).
  - rewrite Hqueue, Hm, Hi'. rewrite <- fmap_app. f_equal.
    replace (i0 + m - S j) with ((i0 - S j) + m) by lia.
    rewrite seq_app. do 2 f_equal. lia.
  - lia.
  - rewrite Hcompleted, Hcomp, Hpid, (take_S_r _ _ _ Hpj). by rewrite pid_set_snoc.
  - intros k p0 Hk Hge. rewrite Hσ, deref_assign_ne by (intros [=]; lia).
    apply Hun; [done|lia].
Qed.

Lemma rr_loop_as_fcfs fuel σ s j σ' s' :
  rr_inv σ s → rr_served W0 σ s → rr_as_fcfs W0 σ s j →
  rr_loop q fuel σ s = (σ', Returned s') →
  foldl fcfs_step ([], Q2Qc 0) W0 = (rr_schedule s', rr_current_time s').
Proof.
  revert σ s j.
  assert (∀ σ s j, rr_served W0 σ s → rr_as_fcfs W0 σ s j →
            ¬ size (rr_completed s) < length (work_objs σ) →
            foldl fcfs_step ([], Q2Qc 0) W0 = (rr_schedule s, rr_current_time s))
    as Hexit.
  { intros σ s j Hs Ha Hc.
    pose proof (Forall2_length _ _ _ (served_desc _ _ _ Hs)) as Hlen.
    rewrite (as_fcfs_completed _ _ _ _ Ha), size_pid_set_take, Hlen in Hc.
    rewrite <- (as_fcfs_state _ _ _ _ Ha). f_equal.
    symmetry. apply take_ge. lia. }
  induction fuel as [|fuel IH]; intros σ s j Hinv Hs Ha; cbn [rr_loop].
  - case_bool_decide as Hc; [done|]. intros [= <- <-]. by eapply Hexit.
  - case_bool_decide as Hc; [|intros [= <- <-]; by eapply Hexit].
    destruct (rr_body_turn q σ s Hinv)
      as [(Hq0 & Hi0 & Hbr)|(σ1 & s1 & Hb & _ & Hinv1)].
    + destruct (rr_no_break σ s Hinv); [|done|done].
      assert (pid <$> work_objs σ = pid <$> W0) as ->; [|done].
      pose proof (served_desc _ _ _ Hs) as Hd. clear -Hd.
      induction Hd as [|x y l l' (Hp & _) _ IH]; [done|]. simpl. by f_equal.
    + rewrite Hb. apply (IH σ1 s1 (S j)); [done| |].
      * exact (rr_body_served q W0 q_pos unique_pids not_idle σ s σ1 s1 Hinv Hs Hb).
      * exact (rr_body_as_fcfs σ s j σ1 s1 Hinv Hs Ha Hc Hb).
Qed.
End rr_large_quantum.

Lemma rr_as_fcfs_init (processes : list Process) s :
  Forall (λ p, (Q2Qc 0 ≤ arrival_time p)%Qc ∧ (Q2Qc 0 < burst_time p)%Qc) processes →
  rr_init (mkStore [] (sorted arrival_key_ltb (copy_processes processes))) = Returned s →
  rr_as_fcfs (sorted arrival_key_ltb (copy_processes processes))
             (mkStore [] (sorted arrival_key_ltb (copy_processes processes))) s 0.
Proof.
  intros Hv Hi.
  set (W0 := sorted arrival_key_ltb (copy_processes processes)) in *.
  set (σ := mkStore [] W0) in *.
  assert (StronglySorted arrival_key_le (work_objs σ)) as Hs
    by apply sorted_arrival_StronglySorted.
  destruct (rr_init_spec σ Hs) as (s0 & Hi0 & Hinv & Hsc & Ht & Hcomp & Hq & Hi').
  assert (s = s0) as -> by congruence.
  destruct (arrived_by_prefix σ 0 (Q2Qc 0) Hs) as (m & Hm & _).
  constructor.
  - by rewrite Hsc, Ht.
  - rewrite Hq, Hi', Hm, length_fmap, length_seq. by rewrite Nat.sub_0_r.
  - lia.
  - by rewrite Hcomp.
  - intros k p0 Hk _. cbn [deref work_objs σ].
    rewrite (list_lookup_total_correct _ _ _ Hk).
    assert (Forall (λ p, (Q2Qc 0 < burst_time p)%Qc ∧ remaining_time p = burst_time p) W0)
      as Hcopies.
    { unfold W0. rewrite sorted_perm. apply copy_processes_bursts.
      eapply Forall_impl; [exact Hv|]. by intros p [_ ?]. }
    rewrite Forall_forall in Hcopies.
    by destruct (Hcopies p0) as [_ ->]; [by eapply list_elem_of_lookup_2|].
Qed.

Lemma copy_processes_descriptors (l : list Process) :
  Forall2 same_descriptor (copy_processes l) l.
Proof. unfold copy_processes. induction l; simpl; by constructor. Qed.

Lemma fcfs_fold_copies (processes : list Process) :
  foldl fcfs_step ([], Q2Qc 0) (sorted arrival_key_ltb (copy_processes processes)) =
  foldl fcfs_step ([], Q2Qc 0) (sorted arrival_key_ltb processes).
Proof.
  apply (foldl_Forall2 same_descriptor).
  - intros [sched t] x x' (Hxp & Hxa & Hxb & _). unfold fcfs_step.
    by rewrite Hxp, Hxa, Hxb.
  - apply sorted_Forall2; [|apply copy_processes_descriptors].
    intros x x' y y' (Hxp & Hxa & _) (Hyp & Hya & _). unfold arrival_key_ltb.
    by rewrite Hxp, Hxa, Hyp, Hya.
Qed.

(** X12: when no burst time exceeds the quantum, a result returned by
    [round_robin] on a valid input (unique pids, none of them IDLE, arrivals
    at or after 0, positive bursts) has the schedule and the metrics of the
    result of [fcfs_scheduling] on the same input. *)
Theorem round_robin_large_quantum_is_fcfs fuel (processes : list Process)
    (time_quantum : Qc) r :
  valid_input processes → Forall (λ p, pid p ≠ IDLE) processes →
  Forall (λ p, (burst_time p ≤ time_quantum)%Qc) processes →
  (round_robin fuel processes time_quantum).2 = Returned r →
  ∃ r', (fcfs_scheduling processes).2 = Returned r' ∧
        schedule r = schedule r' ∧ metrics r = metrics r'.
Proof.
  intros [Hnd Hv] Hidle Hcov Hr.
  destruct processes as [|p0 ps].
  { simplify_eq/=. by eexists. }
  set (processes := p0 :: ps) in *.
  assert (Q2Qc 0 < time_quantum)%Qc as Hq.
  { apply Forall_cons in Hv as [[_ Hb] _]. apply Forall_cons in Hcov as [Hc _].
    clear -Hb Hc. qc_lra. }
  rewrite round_robin_unfold in Hr by (done || by apply Qclt_not_le).
  cbn [snd] in Hr. cbn zeta in Hr.
  set (W0 := sorted arrival_key_ltb (copy_processes processes)) in *.
  destruct (rr_init (mkStore [] W0)) as [s0| |] eqn:Hi; [|done..].
  cbn [mbind outcome_bind] in Hr.
  destruct (rr_loop time_quantum fuel (mkStore [] W0) s0) as [σ' [s'| |]] eqn:Hl;
    [|done..].
  cbn [snd mbind outcome_bind] in Hr. simplify_eq. cbn [schedule metrics].
  assert (NoDup (pid <$> W0)) as HndW.
  { unfold W0. by rewrite sorted_perm, pid_copy_processes. }
  assert (Forall (λ p, pid p ≠ IDLE) W0) as HidleW.
  { unfold W0. rewrite sorted_perm. unfold copy_processes. apply Forall_fmap.
    by eapply Forall_impl; [exact Hidle|]. }
  assert (Forall (λ p, (burst_time p ≤ time_quantum)%Qc) W0) as HcovW.
  { unfold W0. rewrite sorted_perm. unfold copy_processes. apply Forall_fmap.
    by eapply Forall_impl; [exact Hcov|]. }
  assert (rr_inv (mkStore [] W0) s0) as Hinv0.
  { destruct (rr_init_spec (mkStore [] W0)) as (s1 & Hi1 & Hinv1 & _);
      [apply sorted_arrival_StronglySorted|].
    by assert (s0 = s1) as -> by congruence. }
  pose proof (rr_loop_as_fcfs time_quantum W0 Hq HndW HidleW HcovW fuel _ _ 0 _ _
                Hinv0 (rr_served_init processes s0 Hv Hi)
                (rr_as_fcfs_init processes s0 Hv Hi) Hl) as Hfold.
  unfold W0 in Hfold. rewrite fcfs_fold_copies in Hfold.
  unfold fcfs_scheduling, processes. fold processes. rewrite Hfold.
  cbn [snd]. eexists. split; [done|]. done.
Qed.

Lemma round_robin_large_quantum_is_fcfs_witness :
  ∃ r, (round_robin 6 scenario (Qc_of_Z 5)).2 = Returned r ∧
  ∃ r', (fcfs_scheduling scenario).2 = Returned r' ∧
        schedule r = schedule r' ∧ metrics r = metrics r'.
Proof.
  destruct (round_robin 6 scenario (Qc_of_Z 5)).2 as [r|e|] eqn:E.
  - exists r. split; [reflexivity|].
    apply (round_robin_large_quantum_is_fcfs 6 scenario (Qc_of_Z 5) r).
    + split; compute_done.
    + unfold scenario. repeat constructor; discriminate.
    + compute_done.
    + exact E.
  - vm_compute in E. discriminate E.
  - vm_compute in E. discriminate E.
Defined.

(** ** heapq keeps the heap order *)

Lemma parent_lt c : 0 < c → parent c < c.
Proof.
  intros Hc. unfold parent.
  pose proof (Nat.Div0.div_lt_upper_bound (c - 1) 2 c). lia.
Qed.

Lemma parent_children p c :
  0 < c → parent c = p ↔ c = 2 * p + 1 ∨ c = 2 * p + 2.
Proof.
  intros Hc. unfold parent.
  pose proof (Nat.div_mod_eq (c - 1) 2) as Hd.
  pose proof (Nat.mod_upper_bound (c - 1) 2 ltac:(lia)) as Hm.
  split.
  - intros <-. lia.
  - intros [->| ->].
    + replace (2 * p + 1 - 1) with (p * 2) by lia. by rewrite Nat.div_mul.
    + replace (2 * p + 2 - 1) with (1 + p * 2) by lia.
      rewrite Nat.div_add by lia. done.
Qed.

Section heapq_order.
Context {A : Type} (lt : A → A → outcome bool).
Context (le : A → A → Prop) (dom : A → Prop).
Hypothesis lt_le : ∀ a b, dom a → dom b →
  ∃ r : bool, lt a b = Returned r ∧ if r then le a b else le b a.
Hypothesis le_refl : ∀ a, dom a → le a a.
Hypothesis le_trans : ∀ a b c, le a b → le b c → le a c.

Lemma heap_hole_insert (heap : list A) pos v :
  heap_hole le heap pos → heap_hole le (<[pos := v]> heap) pos.
Proof.
  intros [H1 H2]. split.
  - intros c x y Hc Hne Hp Hx Hy.
    rewrite list_lookup_insert_ne in Hx, Hy by done. by eapply (H1 c).
  - intros c x y Hc Hpos Hp Hx Hy.
    pose proof (parent_lt c Hc). pose proof (parent_lt pos Hpos).
    rewrite list_lookup_insert_ne in Hx, Hy by lia. by eapply (H2 c).
Qed.

(** Filling the hole with an item that is not below the parent of the hole
    and not above its children gives a heap. *)
Lemma heap_fill (heap : list A) pos newitem :
  pos < length heap →
  heap_hole le heap pos →
  (∀ c x, 0 < c → parent c = pos → heap !! c = Some x → le newitem x) →
  (∀ y, 0 < pos → heap !! parent pos = Some y → le y newitem) →
  heap_ok le (<[pos := newitem]> heap).
Proof.
  intros Hlen [H1 H2] Hch Hpar c x y Hc Hx Hy.
  pose proof (parent_lt c Hc).
  destruct (decide (c = pos)) as [->|Hne].
  - rewrite list_lookup_insert_eq in Hx by done.
    rewrite list_lookup_insert_ne in Hy by lia. simplify_eq. by apply Hpar.
  - rewrite list_lookup_insert_ne in Hx by done.
    destruct (decide (parent c = pos)) as [Hp|Hp].
    + rewrite Hp, list_lookup_insert_eq in Hy by done. injection Hy as <-.
      by eapply (Hch c).
    + rewrite list_lookup_insert_ne in Hy by done. by eapply (H1 c).
Qed.

Lemma siftdown_loop_ok fuel (heap : list A) pos newitem :
  pos < length heap → pos ≤ fuel →
  Forall dom heap → dom newitem →
  heap_hole le heap pos →
  (∀ c x, 0 < c → parent c = pos → heap !! c = Some x → le newitem x) →
  ∃ heap', siftdown_loop lt fuel heap 0 pos newitem = Returned heap' ∧
           heap_ok le heap' ∧ Forall dom heap'.
Proof.
  revert heap pos. induction fuel as [|fuel IH];
    intros heap pos Hlen Hfuel Hdom Hnew Hhole Hch.
  - assert (pos = 0) as -> by lia. cbn [siftdown_loop].
    rewrite bool_decide_eq_false_2 by lia. eexists. split; [done|]. split.
    + apply heap_fill; [done..|]. intros; lia.
    + by apply Forall_insert.
  - cbn [siftdown_loop]. case_bool_decide as Hpos.
    2:{ eexists. split; [done|]. split.
        - apply heap_fill; [done..|]. intros; lia.
        - by apply Forall_insert. }
    fold (parent pos). pose proof (parent_lt pos Hpos) as Hplt.
    destruct (lookup_lt_is_Some_2 heap (parent pos) ltac:(lia)) as [P HP].
    rewrite HP.
    assert (dom P) as HdP.
    { rewrite Forall_forall in Hdom. by eapply Hdom, list_elem_of_lookup_2. }
    destruct (lt_le newitem P Hnew HdP) as (r & -> & Hr).
    cbn [mbind outcome_bind]. destruct r.
    + destruct Hhole as [H1 H2].
      assert (∀ y, 0 < parent pos → heap !! parent (parent pos) = Some y → le y P)
        as HGP.
      { intros y Hpp Hy. pose proof (parent_lt _ Hpp).
        eapply (H1 (parent pos)); [done|lia|lia|done..]. }
      apply IH.
      * rewrite length_insert. lia.
      * lia.
      * by apply Forall_insert.
      * done.
      * split.
        -- intros c x y Hc Hne Hp Hx Hy.
           destruct (decide (c = pos)) as [->|Hcp]; [done|].
           rewrite list_lookup_insert_ne in Hx by done.
           destruct (decide (parent c = pos)) as [Hcpos|Hcpos].
           ++ rewrite Hcpos, list_lookup_insert_eq in Hy by done. injection Hy as <-.
              by eapply (H2 c).
           ++ rewrite list_lookup_insert_ne in Hy by done. by eapply (H1 c).
        -- intros c x y Hc Hpp Hp Hx Hy.
           pose proof (parent_lt _ Hpp).
           rewrite list_lookup_insert_ne in Hy by lia.
           destruct (decide (c = pos)) as [->|Hcp].
           ++ rewrite list_lookup_insert_eq in Hx by done. injection Hx as <-.
              by apply HGP.
           ++ rewrite list_lookup_insert_ne in Hx by done.
              eapply le_trans; [by apply HGP|].
              eapply (H1 c); [done|done|lia|done|]. by rewrite Hp.
      * intros c x Hc Hp Hx.
        destruct (decide (c = pos)) as [->|Hcp].
        -- rewrite list_lookup_insert_eq in Hx by done. by injection Hx as <-.
        -- rewrite list_lookup_insert_ne in Hx by done.
           eapply le_trans; [exact Hr|].
           eapply (H1 c); [done|done|lia|done|]. by rewrite Hp.
    + eexists. split; [done|]. split.
      * apply heap_fill; [done..|]. intros y _ Hy. by simplify_eq.
      * by apply Forall_insert.
Qed.

Lemma smaller_child_ok (heap : list A) pos :
  2 * pos + 1 < length heap → Forall dom heap →
  ∃ childpos C,
    smaller_child lt heap (length heap) (2 * pos + 1) = Returned childpos ∧
    heap !! childpos = Some C ∧ 0 < childpos ∧ parent childpos = pos ∧
    ∀ c x, 0 < c → parent c = pos → c ≠ childpos → heap !! c = Some x → le C x.
Proof.
  intros Hlen Hdom. unfold smaller_child.
  destruct (lookup_lt_is_Some_2 heap (2 * pos + 1) Hlen) as [L HL].
  assert (parent (2 * pos + 1) = pos) as HpL by (apply parent_children; lia).
  assert (parent (2 * pos + 1 + 1) = pos) as HpR by (apply parent_children; lia).
  assert (∀ c, 0 < c → parent c = pos → c = 2 * pos + 1 ∨ c = 2 * pos + 1 + 1)
    as Hcases.
  { intros c Hc Hp. apply parent_children in Hp; [lia|done]. }
  case_bool_decide as Hr.
  - destruct (lookup_lt_is_Some_2 heap (2 * pos + 1 + 1) Hr) as [R HR].
    rewrite HL, HR.
    assert (dom L ∧ dom R) as [HdL HdR].
    { rewrite Forall_forall in Hdom. split; by eapply Hdom, list_elem_of_lookup_2. }
    destruct (lt_le L R HdL HdR) as (r & -> & Hle). cbn [mbind outcome_bind].
    destruct r.
    + exists (2 * pos + 1), L. split_and!; [done|done|lia|done|].
      intros c x Hc Hp Hne Hx. destruct (Hcases c Hc Hp) as [->| ->]; [done|].
      by simplify_eq.
    + exists (2 * pos + 1 + 1), R. split_and!; [done|done|lia|done|].
      intros c x Hc Hp Hne Hx. destruct (Hcases c Hc Hp) as [->| ->]; [|done].
      by simplify_eq.
  - exists (2 * pos + 1), L. split_and!; [done|done|lia|done|].
    intros c x Hc Hp Hne Hx. destruct (Hcases c Hc Hp) as [->| ->]; [done|].
    apply lookup_lt_Some in Hx. lia.
Qed.

Lemma siftup_loop_ok fuel (heap : list A) pos :
  pos < length heap → length heap - pos ≤ fuel →
  Forall dom heap → heap_hole le heap pos →
  ∃ heap' pos',
    siftup_loop lt fuel heap (length heap) pos = Returned (heap', pos') ∧
    heap_hole le heap' pos' ∧ pos' < length heap' ∧ length heap' ≤ 2 * pos' + 1 ∧
    Forall dom heap'.
Proof.
  revert heap pos. induction fuel as [|fuel IH]; intros heap pos Hlen Hfuel Hdom Hhole;
    [lia|].
  cbn [siftup_loop]. case_bool_decide as Hc.
  2:{ eexists _, _. split; [done|]. split_and!; [done|done|lia|done]. }
  destruct (smaller_child_ok heap pos Hc Hdom)
    as (childpos & C & -> & HC & Hc0 & Hcp & Hsmall).
  cbn [mbind outcome_bind]. rewrite HC.
  assert (pos < childpos) as Hlt by (rewrite <- Hcp; by apply parent_lt).
  pose proof (lookup_lt_Some _ _ _ HC) as Hclen.
  assert (dom C) as HdC.
  { rewrite Forall_forall in Hdom. by eapply Hdom, list_elem_of_lookup_2. }
  destruct Hhole as [H1 H2].
  destruct (IH (<[pos := C]> heap) childpos) as (heap' & pos' & Hl & Hh & Hp' & Hleaf & Hd').
  - by rewrite length_insert.
  - rewrite length_insert. lia.
  - by apply Forall_insert.
  - split.
    + intros c x y Hc' Hne Hp Hx Hy.
      destruct (decide (c = pos)) as [->|Hcpos].
      * rewrite list_lookup_insert_eq in Hx by done. injection Hx as <-.
        pose proof (parent_lt pos Hc').
        rewrite list_lookup_insert_ne in Hy by lia.
        by eapply (H2 childpos).
      * rewrite list_lookup_insert_ne in Hx by done.
        destruct (decide (parent c = pos)) as [Hpc|Hpc].
        -- rewrite Hpc, list_lookup_insert_eq in Hy by done. injection Hy as <-.
           by eapply (Hsmall c).
        -- rewrite list_lookup_insert_ne in Hy by done. by eapply (H1 c).
    + intros c x y Hc' _ Hp Hx Hy.
      rewrite Hcp, list_lookup_insert_eq in Hy by done. injection Hy as <-.
      pose proof (parent_lt c Hc').
      rewrite list_lookup_insert_ne in Hx by lia.
      eapply (H1 c); [done|lia|lia|done|]. by rewrite Hp.
  - rewrite length_insert in Hl. rewrite Hl. eexists _, _. split; [done|].
    by split_and!.
Qed.

Lemma heap_ok_prefix (front : list A) (x : A) :
  heap_ok le (front ++ [x]) → heap_ok le front.
Proof.
  intros H c a b Hc Ha Hb. apply (H c a b Hc).
  - rewrite lookup_app_l; [done|]. by eapply lookup_lt_Some.
  - rewrite lookup_app_l; [done|]. by eapply lookup_lt_Some.
Qed.

(** The root of a heap is not above any of its items. *)
Lemma heap_ok_root (heap : list A) root :
  heap_ok le heap → Forall dom heap → heap !! 0 = Some root →
  ∀ i x, heap !! i = Some x → le root x.
Proof.
  intros Hok Hdom Hroot i. induction (lt_wf i) as [i _ IH]. intros x Hx.
  destruct (decide (i = 0)) as [->|Hi].
  - simplify_eq. apply le_refl. rewrite Forall_forall in Hdom.
    by eapply Hdom, list_elem_of_lookup_2.
  - pose proof (parent_lt i ltac:(lia)) as Hp.
    destruct (lookup_lt_is_Some_2 heap (parent i)) as [y Hy].
    { apply lookup_lt_Some in Hx. lia. }
    eapply le_trans; [by apply (IH (parent i) Hp y)|].
    eapply (Hok i); [lia|done..].
Qed.

Lemma heappush_ok (heap : list A) item :
  heap_ok le heap → Forall dom heap → dom item →
  ∃ heap', heappush lt heap item = Returned heap' ∧
           heap_ok le heap' ∧ Forall dom heap' ∧ heap' ≡ₚ item :: heap.
Proof.
  intros Hok Hdom Hitem. unfold heappush, siftdown.
  rewrite length_app. cbn [length]. replace (length heap + 1 - 1) with (length heap) by lia.
  rewrite lookup_app_r, Nat.sub_diag by lia. cbn [lookup list_lookup].
  destruct (siftdown_loop_ok (S (length heap)) (heap ++ [item]) (length heap) item)
    as (heap' & Hs & Hok' & Hdom').
  - rewrite length_app. simpl. lia.
  - lia.
  - apply Forall_app. split; [done|]. by apply Forall_singleton.
  - done.
  - split.
    + intros c x y Hc Hne Hp Hx Hy.
      assert (c < length heap).
      { apply lookup_lt_Some in Hx. rewrite length_app in Hx. simpl in Hx. lia. }
      pose proof (parent_lt c Hc).
      rewrite lookup_app_l in Hx, Hy by lia. by eapply (Hok c).
    + intros c x y Hc _ Hp Hx _.
      pose proof (parent_lt c Hc).
      apply lookup_lt_Some in Hx. rewrite length_app in Hx. simpl in Hx. lia.
  - intros c x Hc Hp Hx. pose proof (parent_lt c Hc).
    apply lookup_lt_Some in Hx. rewrite length_app in Hx. simpl in Hx. lia.
  - exists heap'. split_and!; [done..|].
    apply siftdown_loop_perm in Hs; [|rewrite length_app; simpl; lia].
    rewrite Hs. rewrite list_insert_id.
    + by rewrite Permutation_app_comm.
    + rewrite lookup_app_r, Nat.sub_diag by lia. done.
Qed.

Lemma heappop_ok (heap : list A) :
  heap_ok le heap → Forall dom heap → heap ≠ [] →
  ∃ item heap', heappop lt heap = Returned (item, heap') ∧
                heap_ok le heap' ∧ Forall dom heap' ∧
                heap ≡ₚ item :: heap' ∧ ∀ x, x ∈ heap → le item x.
Proof.
  intros Hok Hdom Hne.
  assert (∃ root, heap !! 0 = Some root) as [root Hroot]
    by (destruct heap; [done|by eexists]).
  pose proof (heap_ok_root heap root Hok Hdom Hroot) as Hmin.
  assert (∀ x, x ∈ heap → le root x) as Hmin'.
  { intros x [i Hi]%list_elem_of_lookup_1. by eapply Hmin. }
  unfold heappop.
  destruct (last heap) as [lastelt|] eqn:Hlast;
    [|by apply last_None in Hlast].
  apply last_Some in Hlast as [front ->]. rewrite removelast_last.
  apply Forall_app in Hdom as [Hdf Hdl]. rewrite Forall_singleton in Hdl.
  destruct front as [|returnitem rest].
  { simplify_eq/=. eexists _, _. split; [done|]. by split_and!. }
  cbn [app lookup list_lookup] in Hroot. simplify_eq.
  set (front := root :: rest) in *.
  pose proof (heap_ok_prefix front lastelt Hok) as Hokf.
  unfold siftup. change (<[0:=lastelt]> front !! 0) with (Some lastelt).
  destruct (siftup_loop_ok (length (<[0:=lastelt]> front)) (<[0:=lastelt]> front) 0)
    as (heap1 & pos1 & Hl & Hhole & Hp1 & Hleaf & Hd1).
  - simpl. lia.
  - lia.
  - by apply Forall_insert.
  - split.
    + intros c x y Hc Hc0 Hp Hx Hy.
      rewrite list_lookup_insert_ne in Hx, Hy by done. by eapply (Hokf c).
    + intros; lia.
  - rewrite Hl. cbn [mbind outcome_bind]. unfold siftdown.
    rewrite list_lookup_insert_eq by done.
    destruct (siftdown_loop_ok (S pos1) (<[pos1:=lastelt]> heap1) pos1 lastelt)
      as (heap2 & Hs & Hok2 & Hd2).
    + by rewrite length_insert.
    + lia.
    + by apply Forall_insert.
    + done.
    + by apply heap_hole_insert.
    + intros c x Hc Hp Hx. apply parent_children in Hp; [|done].
      apply lookup_lt_Some in Hx. rewrite length_insert in Hx. lia.
    + rewrite Hs. cbn [mbind outcome_bind]. eexists _, _. split; [done|].
      split_and!; [done|done| |done].
      assert (siftup lt (<[0:=lastelt]> front) 0 = Returned heap2) as Hsift.
      { unfold siftup. change (<[0:=lastelt]> front !! 0) with (Some lastelt).
        rewrite Hl. cbn [mbind outcome_bind]. unfold siftdown.
        by rewrite list_lookup_insert_eq. }
      apply siftup_perm in Hsift. rewrite Hsift.
      unfold front. simpl. f_equiv. apply (Permutation_app_comm rest [lastelt]).
Qed.
End heapq_order.

(** ** The preemptive loops: who runs in a turn *)

Lemma deref_work_elem σ k : k < length (work_objs σ) → deref σ (Work k) ∈ work_objs σ.
Proof.
  intros Hk. cbn [deref]. apply list_elem_of_lookup_2 with k.
  by apply list_lookup_lookup_total_lt.
Qed.

Lemma work_pid_inj σ k k' :
  NoDup (pid <$> work_objs σ) →
  k < length (work_objs σ) → k' < length (work_objs σ) →
  pid (deref σ (Work k)) = pid (deref σ (Work k')) → k = k'.
Proof.
  intros Hnd Hk Hk' Hpid.
  apply (NoDup_lookup (pid <$> work_objs σ) k k' (pid (deref σ (Work k))));
    [done|..]; rewrite list_lookup_fmap; cbn [deref].
  - by rewrite list_lookup_lookup_total_lt.
  - rewrite list_lookup_lookup_total_lt by done. simpl.
    cbn [deref] in Hpid. by rewrite Hpid.
Qed.

Section preemptive_turn.
Context {K : Type} (key : Process → K).
Context (keq : K → K → bool) (klt : K → K → outcome bool).
Context (ple : Process → Process → Prop) (good : Process → Prop).
Hypothesis key_order : ∀ x y, good x → good y →
  ∃ b : bool, tuple_lt keq klt (key x, pid x) (key y, pid y) = Returned b ∧
              if b then ple x y else ple y x.
Hypothesis keq_refl : ∀ a, keq a a = true.
Hypothesis ple_refl : ∀ x, good x → ple x x.
Hypothesis ple_trans : ∀ x y z, ple x y → ple y z → ple x z.
Hypothesis good_set : ∀ p v, good p → good (set_remaining_time p v).

Lemma item_lt_le σ (a b : K * string * ref) :
  NoDup (pid <$> work_objs σ) → Forall good (work_objs σ) →
  fresh_item key σ a → fresh_item key σ b →
  ∃ r : bool, item_lt keq klt σ a b = Returned r ∧
              if r then item_le ple σ a b else item_le ple σ b a.
Proof.
  intros Hnd Hgood (ka & Hka & ->) (kb & Hkb & ->).
  rewrite Forall_forall in Hgood.
  pose proof (Hgood _ (deref_work_elem σ ka Hka)) as Hga.
  pose proof (Hgood _ (deref_work_elem σ kb Hkb)) as Hgb.
  unfold item_lt, item_le. cbn [fst snd].
  destruct (decide (ka = kb)) as [->|Hne].
  - rewrite keq_refl, String.eqb_refl, bool_decide_eq_true_2 by done.
    exists false. split; [done|]. by apply ple_refl.
  - destruct (key_order _ _ Hga Hgb) as (b & Hb & Hle).
    unfold tuple_lt in Hb. cbn [fst snd] in Hb.
    exists b. split; [|done].
    destruct (keq _ _); [|done].
    assert (pid (deref σ (Work ka)) ≠ pid (deref σ (Work kb))) as Hpid.
    { intros Hp. apply Hne. by eapply work_pid_inj. }
    apply String.eqb_neq in Hpid. by rewrite Hpid.
Qed.

Lemma heappush_item σ (rq : list (K * string * ref)) it :
  NoDup (pid <$> work_objs σ) → Forall good (work_objs σ) →
  heap_ok (item_le ple σ) rq → Forall (fresh_item key σ) rq →
  fresh_item key σ it →
  ∃ rq', heappush (item_lt keq klt σ) rq it = Returned rq' ∧
         heap_ok (item_le ple σ) rq' ∧ Forall (fresh_item key σ) rq' ∧
         rq' ≡ₚ it :: rq.
Proof.
  intros Hnd Hgood. apply heappush_ok.
  - intros a b. by apply item_lt_le.
  - intros a b c. apply ple_trans.
Qed.

Lemma heappop_item σ (rq : list (K * string * ref)) :
  NoDup (pid <$> work_objs σ) → Forall good (work_objs σ) →
  heap_ok (item_le ple σ) rq → Forall (fresh_item key σ) rq → rq ≠ [] →
  ∃ it rq', heappop (item_lt keq klt σ) rq = Returned (it, rq') ∧
            heap_ok (item_le ple σ) rq' ∧ Forall (fresh_item key σ) rq' ∧
            rq ≡ₚ it :: rq' ∧ ∀ x, x ∈ rq → item_le ple σ it x.
Proof.
  intros Hnd Hgood. apply heappop_ok.
  - intros a b. by apply item_lt_le.
  - intros a (k & Hk & ->). unfold item_le. cbn [snd]. apply ple_refl.
    rewrite Forall_forall in Hgood. by apply Hgood, deref_work_elem.
  - intros a b c. apply ple_trans.
Qed.

(** The admissions of a turn: the processes that have arrived are pushed. *)
Lemma p_admit_ok fuel σ t (rq : list (K * string * ref)) i :
  NoDup (pid <$> work_objs σ) → Forall good (work_objs σ) →
  StronglySorted arrival_key_le (work_objs σ) →
  length (work_objs σ) - i ≤ fuel →
  heap_ok (item_le ple σ) rq → Forall (fresh_item key σ) rq →
  ∃ rq', p_admit key keq klt fuel σ t rq i =
           Returned (rq', i + length (arrived_by σ i t)) ∧
         heap_ok (item_le ple σ) rq' ∧ Forall (fresh_item key σ) rq' ∧
         snd <$> rq' ≡ₚ (snd <$> rq) ++ arrived_by σ i t.
Proof.
  intros Hnd Hgood Hs. revert rq i.
  induction fuel as [|fuel IH]; intros rq i Hf Hok Hfresh;
    cbn [p_admit]; unfold Qc_leb.
  - case_match eqn:Hg.
    + apply andb_true_iff in Hg as [?%bool_decide_eq_true _]. lia.
    + rewrite arrived_by_nil; [|done|].
      * exists rq. rewrite app_nil_r, Nat.add_0_r. by split_and!.
      * intros [? ?]. by rewrite !bool_decide_eq_true_2 in Hg.
  - case_match eqn:Hg.
    + apply andb_true_iff in Hg as [Hi%bool_decide_eq_true Ha%bool_decide_eq_true].
      destruct (heappush_item σ rq
                  (key (deref σ (Work i)), pid (deref σ (Work i)), Work i))
        as (rq1 & -> & Hok1 & Hfresh1 & Hperm1); [done..|by exists i|].
      cbn [mbind outcome_bind].
      destruct (IH rq1 (i + 1)) as (rq' & Hadm & Hok' & Hfresh' & Hperm');
        [lia|done|done|].
      rewrite Hadm. exists rq'.
      rewrite (arrived_by_cons σ i) by done.
      replace (i + 1) with (S i) in * by lia.
      split_and!; [|done|done|].
      * do 2 f_equal. simpl. lia.
      * rewrite Hperm'. apply (fmap_Permutation snd) in Hperm1. rewrite Hperm1.
        simpl. solve_Permutation.
    + rewrite arrived_by_nil; [|done|].
      * exists rq. rewrite app_nil_r, Nat.add_0_r. by split_and!.
      * intros [? ?]. by rewrite !bool_decide_eq_true_2 in Hg.
Qed.

(** The head of a turn: after the admissions, the least ready process (when
    there is one) becomes the running process and the process that was
    running goes to the heap. *)
Lemma p_pick_spec σ (s : p_state K) :
  p_inv key ple good σ s →
  ∃ rq1 cur1,
    p_pick key keq klt σ s =
      Returned (rq1, p_i s + length (arrived_by σ (p_i s) (p_current_time s)), cur1) ∧
    heap_ok (item_le ple σ) rq1 ∧ Forall (fresh_item key σ) rq1 ∧
    (((snd <$> p_ready_queue s) ++ arrived_by σ (p_i s) (p_current_time s) = [] ∧
      rq1 = [] ∧ cur1 = p_current_process s) ∨
     (∃ c, cur1 = Some c ∧
           c ∈ (snd <$> p_ready_queue s) ++ arrived_by σ (p_i s) (p_current_time s) ∧
           (∀ r, r ∈ (snd <$> p_ready_queue s) ++
                     arrived_by σ (p_i s) (p_current_time s) →
                 ple (deref σ c) (deref σ r)) ∧
           c :: (snd <$> rq1) ≡ₚ
             ((snd <$> p_ready_queue s) ++
              arrived_by σ (p_i s) (p_current_time s)) ++
             option_list (p_current_process s))).
Proof.
  intros [Hv Hs Hnd Hgood Hheap Hfresh Hacc].
  set (t := p_current_time s). set (arrived := arrived_by σ (p_i s) t).
  set (ready := (snd <$> p_ready_queue s) ++ arrived).
  unfold p_pick. fold t.
  destruct (p_admit_ok (length (work_objs σ) - p_i s) σ t (p_ready_queue s) (p_i s))
    as (rqA & -> & HokA & HfA & HpermA); [done..|].
  fold arrived in HpermA |- *. fold ready in HpermA.
  cbn [mbind outcome_bind].
  destruct (decide (rqA = [])) as [->|HneA].
  - (* nothing is ready *)
    assert (ready = []) as Hready.
    { simpl in HpermA. by apply Permutation_nil in HpermA. }
    cbn [p_pop mbind outcome_bind].
    exists [], (p_current_process s).
    split; [by destruct (p_current_process s)|].
    split_and!; [done|done|]. by left.
  - destruct (heappop_item σ rqA Hnd Hgood HokA HfA HneA)
      as (it & rq2 & Hpop & Hok2 & Hf2 & Hperm2 & Hmin).
    assert (p_pop keq klt σ rqA = Returned (Some it.2, rq2)) as ->.
    { unfold p_pop. destruct rqA; [done|]. by rewrite Hpop. }
    cbn [mbind outcome_bind].
    set (nx := it.2).
    assert (nx :: (snd <$> rq2) ≡ₚ ready) as Hperm.
    { rewrite <- HpermA. apply (fmap_Permutation snd) in Hperm2. by rewrite Hperm2. }
    assert (nx ∈ ready) as Hnx by (rewrite <- Hperm; left).
    assert (∀ r, r ∈ ready → ple (deref σ nx) (deref σ r)) as Hleast.
    { intros r Hr. rewrite <- HpermA in Hr.
      apply list_elem_of_fmap in Hr as (x & -> & Hx). by apply Hmin. }
    destruct (p_current_process s) as [c0|] eqn:Hcur.
    + (* the running process goes to the heap *)
      pose proof (p_valid_admitted _ _ Hv) as Hadm.
      pose proof (p_valid_nodup _ _ Hv) as Hnodup.
      pose proof (p_valid_i _ _ Hv) as Hi.
      rewrite Hcur in Hadm, Hnodup. unfold p_refs in Hadm, Hnodup.
      change (option_list (Some c0)) with [c0] in Hadm, Hnodup.
      apply Forall_app in Hadm as [_ Hc0]. rewrite Forall_singleton in Hc0.
      destruct Hc0 as (k0 & -> & Hk0).
      apply NoDup_app in Hnodup as (_ & Hnot & _).
      assert (Work k0 ∉ ready) as Hc0ready.
      { unfold ready. rewrite elem_of_app. intros [Hin|Hin].
        - apply (Hnot _ Hin). by left.
        - unfold arrived, arrived_by in Hin.
          apply list_elem_of_fmap in Hin as (k & [= ->] & Hin).
          apply list_elem_of_filter in Hin as [_ Hin]. apply elem_of_seq in Hin. lia. }
      assert (∃ kn, nx = Work kn ∧ kn < length (work_objs σ)) as (kn & Hkn & Hknlt).
      { rewrite Forall_forall in HfA.
        destruct (HfA it) as (k & Hk & Hit).
        - rewrite Hperm2. left.
        - exists k. split; [|done]. unfold nx. by rewrite Hit. }
      assert (pid (deref σ nx) ≠ pid (deref σ (Work k0))) as Hpid.
      { rewrite Hkn. intros Hp. apply work_pid_inj in Hp; [|done|done|lia].
        apply Hc0ready. by rewrite <- Hp, <- Hkn. }
      assert (is_completed (deref σ (Work k0)) = false) as Hlive.
      { unfold is_completed, Qc_leb. apply bool_decide_eq_false.
        apply Qclt_not_le. apply (p_valid_live _ _ Hv); [lia|].
        left. rewrite Hcur. unfold p_refs. rewrite elem_of_app. right. by left. }
      unfold p_switch. rewrite bool_decide_eq_true_2 by done. rewrite Hlive.
      cbn [negb].
      destruct (heappush_item σ rq2
                  (key (deref σ (Work k0)), pid (deref σ (Work k0)), Work k0))
        as (rq3 & -> & Hok3 & Hf3 & Hperm3); [done..|exists k0; split; [lia|done]|].
      cbn [mbind outcome_bind]. exists rq3, (Some nx).
      split_and!; [done..|]. right. exists nx. split_and!; [done..|].
      apply (fmap_Permutation snd) in Hperm3. rewrite Hperm3. cbn [fmap list_fmap snd].
      rewrite <- Hperm. change (option_list (Some (Work k0))) with [Work k0].
      solve_Permutation.
    + unfold p_switch. cbn [mbind outcome_bind].
      exists rq2, (Some nx). split_and!; [done..|]. right.
      exists nx. split_and!; [done..|]. change (option_list None) with (@nil ref).
      by rewrite app_nil_r.
Qed.

Lemma heap_ok_ext {A} (le le' : A → A → Prop) (heap : list A) :
  (∀ x y, x ∈ heap → y ∈ heap → le x y → le' x y) →
  heap_ok le heap → heap_ok le' heap.
Proof.
  intros Hext Hok c x y Hc Hx Hy.
  apply Hext; [by eapply list_elem_of_lookup_2..|]. by eapply (Hok c).
Qed.

Lemma good_assign σ r v :
  Forall good (work_objs σ) → Forall good (work_objs (assign_remaining_time σ r v)).
Proof.
  intros H. destruct r as [k|k]; [done|]. cbn [assign_remaining_time work_objs].
  revert k. induction H as [|x l Hx Hl IH]; intros k; [done|].
  destruct k as [|k]; simpl; constructor; auto. apply IH.
Qed.

(** A turn of the main loop: it faults on the idle gap, or runs a process
    as [p_turn] says. *)
Lemma p_body_spec σ (s : p_state K) :
  p_inv key ple good σ s →
  size (p_completed s) < length (work_objs σ) →
  ((snd <$> p_ready_queue s) ++ arrived_by σ (p_i s) (p_current_time s) = [] ∧
   p_current_process s = None ∧ p_i s < length (work_objs σ) ∧
   p_body key keq klt σ s = (σ, Raised NoneAttribute)) ∨
  (∃ σ' s', p_body key keq klt σ s = (σ', Returned (Continue s')) ∧
            p_turn ple σ s σ' s' ∧ p_inv key ple good σ' s').
Proof.
  intros Hinv Hcond.
  destruct (p_pick_spec σ s Hinv) as (rq1 & cur1 & Hpick & Hok1 & Hf1 & Hcase).
  pose proof Hinv as [Hv Hs Hnd Hgood Hheap Hfresh Hacc].
  set (t := p_current_time s) in *.
  set (arrived := arrived_by σ (p_i s) t) in *.
  set (ready := (snd <$> p_ready_queue s) ++ arrived) in *.
  destruct (arrived_by_prefix σ (p_i s) t Hs) as (m & Hm & Hmle & Hmin & Hmout).
  fold arrived in Hm.
  pose proof (p_valid_i _ _ Hv) as Hile.
  (* either nothing can run, or some process [c] runs *)
  assert ((ready = [] ∧ p_current_process s = None ∧ rq1 = [] ∧ cur1 = None) ∨
          ∃ c, cur1 = Some c ∧
               c :: (snd <$> rq1) ≡ₚ ready ++ option_list (p_current_process s) ∧
               ((ready = [] ∧ p_current_process s = Some c ∧ rq1 = []) ∨
                (c ∈ ready ∧ (∀ r, r ∈ ready → ple (deref σ c) (deref σ r)))))
    as [(Hready & Hcur & -> & ->)|(c & -> & Hperm & Hwho)].
  { destruct Hcase as [(Hready & -> & ->)|(c & -> & Hin & Hleast & Hperm)].
    - destruct (p_current_process s) as [c|] eqn:Hcur; [right|by left].
      exists c. split; [done|]. rewrite Hready. split; [done|]. by left.
    - right. exists c. split; [done|]. split; [done|]. by right. }
  - (* the idle gap *)
    left. apply app_eq_nil in Hready as Hparts. destruct Hparts as [Hrq Harr].
    assert (p_i s < length (work_objs σ)) as Hlt.
    { destruct (decide (p_i s < length (work_objs σ))) as [|Hge]; [done|].
      exfalso.
      assert (list_to_set (pid <$> work_objs σ) ⊆ p_completed s) as Hsub.
      { intros x [p [-> [k Hk]%list_elem_of_lookup_1]]%elem_of_list_to_set%list_elem_of_fmap.
        pose proof (lookup_lt_Some _ _ _ Hk).
        destruct (Hacc k) as [Hin|Hin]; [lia| |].
        - rewrite Hcur in Hin. unfold p_refs in Hin. rewrite Hrq in Hin.
          by apply elem_of_nil in Hin.
        - cbn [deref] in Hin. by rewrite (list_lookup_total_correct _ _ _ Hk) in Hin. }
      apply subseteq_size in Hsub.
      rewrite size_list_to_set, length_fmap in Hsub by done. lia. }
    split_and!; [done..|].
    unfold p_body. rewrite Hpick. fold arrived. rewrite Harr. cbn [length].
    rewrite Nat.add_0_r. by rewrite bool_decide_eq_true_2.
  - (* [c] runs *)
    right.
    assert (NoDup (ready ++ option_list (p_current_process s))) as Hnodup.
    { pose proof (p_valid_nodup _ _ Hv) as Hn. pose proof (p_valid_admitted _ _ Hv) as Ha.
      unfold p_refs in Hn, Ha. unfold ready.
      rewrite <- app_assoc.
      rewrite (Permutation_app_comm arrived), app_assoc.
      apply NoDup_app. split_and!; [done| |rewrite Hm; apply NoDup_work_seq].
      intros r Hr. rewrite Hm. intros (k & -> & [? ?]%elem_of_seq)%list_elem_of_fmap.
      rewrite Forall_forall in Ha. destruct (Ha _ Hr) as (k' & [= <-] & ?). lia. }
    rewrite <- Hperm in Hnodup. apply NoDup_cons in Hnodup as [Hcnot _].
    assert (∃ kc, c = Work kc ∧ kc < length (work_objs σ)) as (kc & -> & Hkc).
    { assert (c ∈ ready ++ option_list (p_current_process s)) as Hin
        by (rewrite <- Hperm; left).
      apply elem_of_app in Hin as [[Hin|Hin]%elem_of_app|Hin].
      - rewrite Forall_forall in Hfresh.
        apply list_elem_of_fmap in Hin as (it & -> & Hit).
        destruct (Hfresh it Hit) as (k & Hk & ->). by exists k.
      - rewrite Hm in Hin. apply list_elem_of_fmap in Hin as (k & -> & [? ?]%elem_of_seq).
        exists k. split; [done|]. lia.
      - pose proof (p_valid_admitted _ _ Hv) as Ha. unfold p_refs in Ha.
        apply Forall_app in Ha as [_ Ha]. rewrite Forall_forall in Ha.
        destruct (Ha _ Hin) as (k & -> & ?). exists k. split; [done|lia]. }
    set (p := deref σ (Work kc)).
    set (e := py_min (Q2Qc 1) (remaining_time p)).
    set (σ1 := assign_remaining_time σ (Work kc) (remaining_time p - e)%Qc).
    assert (deref σ1 (Work kc) = set_remaining_time p (remaining_time p - e)%Qc) as Hd
      by by apply deref_assign_eq.
    set (done_ := bool_decide (remaining_time p - e ≤ Q2Qc 0)%Qc).
    set (s1 := mkP (record_run (p_schedule s) (pid p) t (t + e)%Qc) (t + e)%Qc rq1
                   (if done_ then {[pid p]} ∪ p_completed s else p_completed s)
                   (p_i s + length arrived)
                   (if done_ then None else Some (Work kc))).
    assert (p_body key keq klt σ s = (σ1, Returned (Continue s1))) as Hbody.
    { unfold p_body. rewrite Hpick. cbn beta iota zeta. unfold execute.
      fold p e σ1. rewrite Hd. unfold is_completed, Qc_leb.
      cbn [remaining_time pid set_remaining_time]. fold done_. fold t.
      unfold s1. by destruct done_. }
    exists σ1, s1. split; [done|].
    destruct (py_min_spec (Q2Qc 1) (remaining_time p)) as (He1 & He2 & He3).
    fold e in He1, He2, He3.
    split.
    + (* the turn, in words *)
      exists (Work kc), e. cbn zeta. fold t arrived ready p.
      split_and!; [done| |done|done|done|done|apply record_run_emits|done|].
      * destruct Hwho as [(Hr & Hc & ->)|[Hin Hleast]]; [by left|right].
        split_and!; [done..|]. done.
      * fold done_. unfold s1. by destruct done_.
    + (* what holds after the turn *)
      assert (∀ r, r ≠ Work kc → deref σ1 r = deref σ r) as Hother.
      { intros r Hne. apply deref_assign_ne. congruence. }
      assert (∀ r, pid (deref σ1 r) = pid (deref σ r)) as Hpids
        by (intros r; apply pid_deref_assign).
      assert (∀ it, it ∈ rq1 → it.2 ≠ Work kc) as Hrq1.
      { intros it Hit Heq. apply Hcnot. rewrite <- Heq. by apply list_elem_of_fmap_2. }
      constructor.
      * by eapply (p_body_valid key keq klt σ s σ1 s1).
      * by apply sorted_assign.
      * unfold σ1. by rewrite pids_assign.
      * by apply good_assign.
      * cbn [p_ready_queue s1]. eapply heap_ok_ext; [|exact Hok1].
        intros x y Hx Hy. unfold item_le.
        by rewrite !Hother by by apply Hrq1.
      * cbn [p_ready_queue s1]. apply Forall_forall. intros it Hit.
        rewrite Forall_forall in Hf1. destruct (Hf1 it Hit) as (k & Hk & Heq).
        exists k. split; [unfold σ1; by rewrite length_work_assign|].
        rewrite Hother; [done|]. intros Hk'. apply (Hrq1 it Hit). by rewrite Heq.
      * cbn [p_i p_ready_queue p_current_process p_completed s1].
        intros k Hk. rewrite Hpids.
        assert (Work k ∈ Work kc :: (snd <$> rq1) ∨
                pid (deref σ (Work k)) ∈ p_completed s) as [Hin|Hin].
        { rewrite Hperm. destruct (decide (k < p_i s)) as [Hlt|Hge].
          - destruct (Hacc k Hlt) as [Hin|?]; [left|by right].
            unfold p_refs in Hin. unfold ready.
            rewrite !elem_of_app in *. tauto.
          - left. unfold ready. rewrite !elem_of_app. left. right.
            rewrite Hm. apply list_elem_of_fmap_2, elem_of_seq.
            rewrite Hm, length_fmap, length_seq in Hk. lia. }
        -- apply elem_of_cons in Hin as [[= ->]|Hin].
           ++ destruct done_; [right|left].
              ** fold p. set_solver.
              ** unfold p_refs. rewrite elem_of_app. right. by left.
           ++ left. unfold p_refs. rewrite elem_of_app. by left.
        -- right. destruct done_; set_solver.
Qed.

Lemma p_inv_init X (processes : list Process) :
  valid_input processes →
  Forall good (sorted arrival_key_ltb (copy_processes processes)) →
  p_inv key ple good
    (mkStore X (sorted arrival_key_ltb (copy_processes processes))) p_init.
Proof.
  intros [Hnd Hv] Hgood. constructor; cbn [work_objs p_init p_ready_queue p_i].
  - constructor; simpl.
    + constructor.
    + constructor.
    + lia.
    + intros k Hk _. by apply sorted_copies_positive.
    + done.
  - apply sorted_arrival_StronglySorted.
  - by rewrite sorted_perm, pid_copy_processes.
  - done.
  - intros c x y _ Hx. by rewrite lookup_nil in Hx.
  - constructor.
  - intros k Hk. lia.
Qed.

Lemma p_reachable_inv σ0 σ (s : p_state K) :
  p_inv key ple good σ0 p_init →
  p_reachable key keq klt σ0 σ s → p_inv key ple good σ s.
Proof.
  intros H0. induction 1 as [|σ s σ' s' _ IH Hc Hb]; [done|].
  destruct (p_body_spec σ s IH Hc) as [(_ & _ & _ & Hr)|(σ1 & s1 & Hb1 & _ & Hinv1)];
    [congruence|].
  by assert (σ' = σ1 ∧ s' = s1) as [-> ->] by (split; congruence).
Qed.
End preemptive_turn.

Lemma less_remaining_or_equal_order (x y : Process) :
  ∃ b : bool,
    tuple_lt Qc_eqb num_lt (remaining_time x, pid x) (remaining_time y, pid y) =
      Returned b ∧
    if b then less_remaining_or_equal x y else less_remaining_or_equal y x.
Proof.
  unfold tuple_lt, num_lt, less_remaining_or_equal, Qc_eqb, Qc_ltb. cbn [fst snd].
  case_bool_decide as He.
  - eexists. split; [done|]. destruct (String.ltb (pid x) (pid y)) eqn:E.
    + right. split; [done|]. by apply String_ltb_true.
    + right. split; [done|]. by apply String_ltb_false.
  - eexists. split; [done|]. case_bool_decide as Hl; [by left|].
    left. clear -He Hl. qc_lra.
Qed.

Lemma less_remaining_or_equal_trans (x y z : Process) :
  less_remaining_or_equal x y → less_remaining_or_equal y z →
  less_remaining_or_equal x z.
Proof.
  unfold less_remaining_or_equal.
  intros [H1|[H1 L1]] [H2|[H2 L2]].
  - left. clear -H1 H2. qc_lra.
  - left. by rewrite <- H2.
  - left. by rewrite H1.
  - right. split; [congruence|by etrans].
Qed.

Lemma Qc_eqb_refl (a : Qc) : Qc_eqb a a = true.
Proof. unfold Qc_eqb. by apply bool_decide_eq_true. Qed.

Lemma priority_eqb_refl (a : option Z) : priority_eqb a a = true.
Proof. unfold priority_eqb. by apply bool_decide_eq_true. Qed.

(** X13: on a valid input (unique pids, arrivals at or after 0, positive
    bursts) whose times are whole numbers on which the arithmetic is
    exact, a turn of the main loop of [sjf_preemptive] entered with
    processes left to complete either finds no process ready and none
    running while some have not arrived, and then faults in
    [current_process.execute] on [None] after recording the idle entry; or
    is a turn in the sense of [p_turn]: when some process is ready (in the
    heap, or arrived by now), the ready process that goes first by
    (remaining_time, pid) becomes the running process, whatever the
    remaining time of the process that was running, which goes to the heap;
    the running process then runs for min(1, remaining_time). *)
Theorem sjf_preemptive_turn (processes : list Process) σ s :
  valid_input processes → exact_times processes →
  p_reachable remaining_time Qc_eqb num_lt
    (mkStore processes (sorted arrival_key_ltb (copy_processes processes))) σ s →
  size (p_completed s) < length (work_objs σ) →
  ((snd <$> p_ready_queue s) ++ arrived_by σ (p_i s) (p_current_time s) = [] ∧
   p_current_process s = None ∧ p_i s < length (work_objs σ) ∧
   p_body remaining_time Qc_eqb num_lt σ s = (σ, Raised NoneAttribute)) ∨
  (∃ σ' s', p_body remaining_time Qc_eqb num_lt σ s = (σ', Returned (Continue s')) ∧
            p_turn less_remaining_or_equal σ s σ' s').
Proof.
  intros Hv _ Hr Hc.
  assert (p_inv remaining_time less_remaining_or_equal (λ _, True) σ s) as Hinv.
  { eapply (p_reachable_inv remaining_time Qc_eqb num_lt); [..|exact Hr]; try done.
    - intros x y _ _. apply less_remaining_or_equal_order.
    - apply Qc_eqb_refl.
    - intros x _. right. split; [done|reflexivity].
    - apply less_remaining_or_equal_trans.
    - apply p_inv_init; [done|]. by apply Forall_true. }
  destruct (p_body_spec remaining_time Qc_eqb num_lt less_remaining_or_equal
              (λ _, True)) with (σ := σ) (s := s)
    as [?|(σ' & s' & ? & ? & _)]; try done.
  - intros x y _ _. apply less_remaining_or_equal_order.
  - apply Qc_eqb_refl.
  - intros x _. right. split; [done|reflexivity].
  - apply less_remaining_or_equal_trans.
  - by left.
  - right. by exists σ', s'.
Qed.

Lemma sjf_preemptive_turn_witness :
  ∃ σ s,
    p_reachable remaining_time Qc_eqb num_lt
      (mkStore scenario_displace
         (sorted arrival_key_ltb (copy_processes scenario_displace))) σ s ∧
    (* P1 is running with 2 units left; P2 (5 units) and P3 (4) have arrived *)
    p_current_process s = Some (Work 0) ∧
    remaining_time (deref σ (Work 0)) = Qc_of_Z 2 ∧
    (snd <$> p_ready_queue s) ++ arrived_by σ (p_i s) (p_current_time s) =
      [Work 1; Work 2] ∧
    (((snd <$> p_ready_queue s) ++ arrived_by σ (p_i s) (p_current_time s) = [] ∧
      p_current_process s = None ∧ p_i s < length (work_objs σ) ∧
      p_body remaining_time Qc_eqb num_lt σ s = (σ, Raised NoneAttribute)) ∨
     (∃ σ' s', p_body remaining_time Qc_eqb num_lt σ s =
                 (σ', Returned (Continue s')) ∧
               p_turn less_remaining_or_equal σ s σ' s')).
Proof.
  eexists _, _. split.
  { eapply p_reachable_turn.
    - apply p_reachable_init.
    - vm_compute. lia.
    - vm_compute. reflexivity. }
  split; [reflexivity|]. split; [apply Qc_is_canon; reflexivity|].
  split; [vm_compute; reflexivity|].
  apply (sjf_preemptive_turn scenario_displace).
  - split; compute_done.
  - split; compute_done.
  - eapply p_reachable_turn.
    + apply p_reachable_init.
    + vm_compute. lia.
    + vm_compute. reflexivity.
  - vm_compute. lia.
Defined.

Lemma priority_sorted_copies (processes : list Process) :
  Forall (λ p, is_Some (priority p)) processes →
  Forall (λ p, is_Some (priority p))
    (sorted arrival_key_ltb (copy_processes processes)).
Proof.
  intros H. rewrite sorted_perm. by apply priority_copies.
Qed.

(** X14: on a valid input whose processes all have a priority and whose
    times are whole numbers on which the arithmetic is exact, a turn of the
    main loop of [priority_preemptive] entered with processes left to
    complete either finds no process ready and none running while some have
    not arrived, and then faults in [current_process.execute] on [None]
    after recording the idle entry; or is a turn in the sense of [p_turn]:
    when some process is ready (in the heap, or arrived by now), the ready
    process that goes first by (priority, pid) becomes the running process,
    even when the process that was running is more urgent, which goes to
    the heap; the running process then runs for min(1, remaining_time). *)
Theorem priority_preemptive_turn (processes : list Process) σ s :
  valid_input processes → exact_times processes →
  Forall (λ p, is_Some (priority p)) processes →
  p_reachable priority priority_eqb priority_lt
    (mkStore processes (sorted arrival_key_ltb (copy_processes processes))) σ s →
  size (p_completed s) < length (work_objs σ) →
  ((snd <$> p_ready_queue s) ++ arrived_by σ (p_i s) (p_current_time s) = [] ∧
   p_current_process s = None ∧ p_i s < length (work_objs σ) ∧
   p_body priority priority_eqb priority_lt σ s = (σ, Raised NoneAttribute)) ∨
  (∃ σ' s', p_body priority priority_eqb priority_lt σ s =
              (σ', Returned (Continue s')) ∧
            p_turn more_urgent_or_equal σ s σ' s').
Proof.
  intros Hv _ Hp Hr Hc.
  assert (∀ x : Process, is_Some (priority x) → more_urgent_or_equal x x) as Hrefl.
  { intros x [a Ha]. exists a, a. split_and!; [done..|].
    right. split; [done|reflexivity]. }
  assert (p_inv priority more_urgent_or_equal (λ p, is_Some (priority p)) σ s)
    as Hinv.
  { eapply (p_reachable_inv priority priority_eqb priority_lt); [..|exact Hr];
      try done.
    - intros x y. apply more_urgent_or_equal_order.
    - apply priority_eqb_refl.
    - apply more_urgent_or_equal_trans.
    - apply p_inv_init; [done|]. by apply priority_sorted_copies. }
  destruct (p_body_spec priority priority_eqb priority_lt more_urgent_or_equal
              (λ p, is_Some (priority p))) with (σ := σ) (s := s)
    as [?|(σ' & s' & ? & ? & _)]; try done.
  - intros x y. apply more_urgent_or_equal_order.
  - apply priority_eqb_refl.
  - apply more_urgent_or_equal_trans.
  - by left.
  - right. by exists σ', s'.
Qed.

Lemma priority_preemptive_turn_witness :
  ∃ σ s,
    p_reachable priority priority_eqb priority_lt
      (mkStore scenario_displace
         (sorted arrival_key_ltb (copy_processes scenario_displace))) σ s ∧
    (* P1, of priority 1, is running; P2 (priority 2) and P3 (3) have arrived *)
    p_current_process s = Some (Work 0) ∧
    priority (deref σ (Work 0)) = Some 1%Z ∧
    (snd <$> p_ready_queue s) ++ arrived_by σ (p_i s) (p_current_time s) =
      [Work 1; Work 2] ∧
    (((snd <$> p_ready_queue s) ++ arrived_by σ (p_i s) (p_current_time s) = [] ∧
      p_current_process s = None ∧ p_i s < length (work_objs σ) ∧
      p_body priority priority_eqb priority_lt σ s = (σ, Raised NoneAttribute)) ∨
     (∃ σ' s', p_body priority priority_eqb priority_lt σ s =
                 (σ', Returned (Continue s')) ∧
               p_turn more_urgent_or_equal σ s σ' s')).
Proof.
  eexists _, _. split.
  { eapply p_reachable_turn.
    - apply p_reachable_init.
    - vm_compute. lia.
    - vm_compute. reflexivity. }
  split; [reflexivity|]. split; [vm_compute; reflexivity|].
  split; [vm_compute; reflexivity|].
  apply (priority_preemptive_turn scenario_displace).
  - split; compute_done.
  - split; compute_done.
  - repeat constructor; by eexists.
  - eapply p_reachable_turn.
    + apply p_reachable_init.
    + vm_compute. lia.
    + vm_compute. reflexivity.
  - vm_compute. lia.
Defined.

(** ** Service and termination of the preemptive loops *)

Lemma py_sum_cons (x : Qc) (l : list Qc) : py_sum (x :: l) = (x + py_sum l)%Qc.
Proof. unfold py_sum. simpl. rewrite !foldl_Qcplus_foldr. ring. Qed.

Lemma py_sum_alter {A} `{Inhabited A} (f : A → Qc) (g : A → A) (l : list A) k :
  k < length l →
  py_sum (f <$> alter g k l) =
  (py_sum (f <$> l) + (f (g (l !!! k)) - f (l !!! k)))%Qc.
Proof.
  revert k. induction l as [|x l IH]; intros k Hk; [simpl in Hk; lia|].
  destruct k as [|k].
  - change (py_sum (f (g x) :: (f <$> l)) =
            (py_sum (f x :: (f <$> l)) + (f (g x) - f x))%Qc).
    rewrite !py_sum_cons. ring.
  - change (py_sum (f x :: (f <$> alter g k l)) =
            (py_sum (f x :: (f <$> l)) + (f (g (l !!! k)) - f (l !!! k)))%Qc).
    rewrite !py_sum_cons. rewrite IH by (simpl in Hk; lia). ring.
Qed.

Lemma served_time_assign σ k v :
  k < length (work_objs σ) →
  served_time (assign_remaining_time σ (Work k) v) =
  (served_time σ + (remaining_time (deref σ (Work k)) - v))%Qc.
Proof.
  intros Hk. unfold served_time. cbn [assign_remaining_time work_objs deref].
  rewrite (py_sum_alter _ (λ p, set_remaining_time p v) _ k Hk).
  simpl. ring.
Qed.

Lemma served_time_done (l : list Process) i :
  (∀ k p, l !! k = Some p → k < i → remaining_time p = Q2Qc 0) →
  (∀ k p, l !! k = Some p → i ≤ k → remaining_time p = burst_time p) →
  py_sum ((λ p, burst_time p - remaining_time p)%Qc <$> l) =
  py_sum (burst_time <$> take i l).
Proof.
  revert i. induction l as [|x l IH]; intros i H1 H2.
  - by rewrite take_nil.
  - destruct i as [|i].
    + rewrite fmap_cons, py_sum_cons. rewrite (IH 0).
      * rewrite (H2 0 x) by (done || lia). rewrite take_0. simpl. ring.
      * intros k p _ Hk. lia.
      * intros k p Hk _. apply (H2 (S k)); [done|lia].
    + cbn [take]. rewrite !fmap_cons, !py_sum_cons. rewrite (IH i).
      * rewrite (H1 0 x) by (done || lia). ring.
      * intros k p Hk Hlt. apply (H1 (S k)); [done|lia].
      * intros k p Hk Hle. apply (H2 (S k)); [done|lia].
Qed.

Lemma same_descriptor_bursts (l W0 : list Process) :
  Forall2 same_descriptor l W0 → burst_time <$> l = burst_time <$> W0.
Proof.
  induction 1 as [|x y l l' (_ & _ & Hb & _) _ IH]; [done|]. simpl. by f_equal.
Qed.

Lemma same_descriptor_pids (l W0 : list Process) :
  Forall2 same_descriptor l W0 → pid <$> l = pid <$> W0.
Proof.
  induction 1 as [|x y l l' (Hp & _) _ IH]; [done|]. simpl. by f_equal.
Qed.

Lemma emits_pids (P : string → Prop) sched p start finish sched' :
  emits sched p start finish sched' →
  Forall (λ e : ScheduleEntry, P e.1.1) sched → P p →
  Forall (λ e : ScheduleEntry, P e.1.1) sched'.
Proof.
  intros [_|init s0 ->] Hall Hp.
  - apply Forall_app. split; [done|]. by apply Forall_singleton.
  - apply Forall_app in Hall as [Hinit _]. apply Forall_app. split; [done|].
    by apply Forall_singleton.
Qed.

(** The process a turn runs was admitted, has arrived and has time
    remaining. *)
Lemma p_turn_runner {K} (W0 : list Process) σ (s : p_state K) (c : ref) :
  p_valid σ s → StronglySorted arrival_key_le (work_objs σ) → p_served W0 σ s →
  c ∈ p_refs (p_ready_queue s) (p_current_process s) ++
      arrived_by σ (p_i s) (p_current_time s) →
  ∃ kc pc, c = Work kc ∧ W0 !! kc = Some pc ∧ kc < length (work_objs σ) ∧
    kc < p_i s + length (arrived_by σ (p_i s) (p_current_time s)) ∧
    (arrival_time pc ≤ p_current_time s)%Qc ∧
    (Q2Qc 0 < remaining_time (deref σ (Work kc)))%Qc.
Proof.
  intros [Hnd Hadm Hi Hlive Hch] Hsorted Hs Hc.
  pose proof (p_served_desc _ _ _ Hs) as Hdesc.
  pose proof (Forall2_length _ _ _ Hdesc) as Hlen.
  apply elem_of_app in Hc as [Hc|Hc].
  - rewrite Forall_forall in Hadm. destruct (Hadm c Hc) as (kc & -> & Hkc).
    destruct (lookup_lt_is_Some_2 W0 kc) as [pc Hpc]; [lia|].
    exists kc, pc. split_and!; [done|done|lia|lia| |].
    + by eapply p_served_admitted.
    + apply Hlive; [lia|]. by left.
  - destruct (arrived_by_prefix σ (p_i s) (p_current_time s) Hsorted)
      as (m & Hm & Hle & Hin & _).
    rewrite Hm in Hc |- *. apply list_elem_of_fmap in Hc as (kc & -> & Hkc).
    apply elem_of_seq in Hkc. rewrite length_fmap, length_seq.
    specialize (Hle Hi).
    destruct (lookup_lt_is_Some_2 W0 kc) as [pc Hpc]; [lia|].
    exists kc, pc. split_and!; [done|done|lia|lia| |].
    + destruct (same_descriptor_deref σ W0 kc pc Hdesc Hpc) as [(_ & Ha & _) _].
      rewrite <- Ha. apply Hin; lia.
    + apply Hlive; [lia|]. right. lia.
Qed.

Lemma p_turn_chosen {K} (ple : Process → Process → Prop) σ (s : p_state K)
    (c : ref) (rq' : list (K * string * ref)) :
  ((snd <$> p_ready_queue s) ++ arrived_by σ (p_i s) (p_current_time s) = [] ∧
   p_current_process s = Some c ∧ rq' = []) ∨
  (c ∈ (snd <$> p_ready_queue s) ++ arrived_by σ (p_i s) (p_current_time s) ∧
   (∀ r, r ∈ (snd <$> p_ready_queue s) ++ arrived_by σ (p_i s) (p_current_time s) →
         ple (deref σ c) (deref σ r)) ∧
   c :: (snd <$> rq') ≡ₚ
     ((snd <$> p_ready_queue s) ++ arrived_by σ (p_i s) (p_current_time s)) ++
     option_list (p_current_process s)) →
  c ∈ p_refs (p_ready_queue s) (p_current_process s) ++
      arrived_by σ (p_i s) (p_current_time s).
Proof.
  unfold p_refs. intros [(_ & -> & _)|(Hc & _)].
  - set_solver.
  - set_solver.
Qed.

Lemma p_turn_served {K} (ple : Process → Process → Prop) (W0 : list Process)
    σ (s : p_state K) σ' s' :
  NoDup (pid <$> W0) →
  p_valid σ s → StronglySorted arrival_key_le (work_objs σ) → p_served W0 σ s →
  p_turn ple σ s σ' s' → p_served W0 σ' s'.
Proof.
  intros HndW Hv Hsorted Hs (c & e & Hi' & Hchoice & He1 & Her & Hcase & Hσ & Hem &
                             Hct & Hfin).
  cbn zeta in *.
  pose proof (p_turn_chosen ple σ s c (p_ready_queue s') Hchoice) as Hc.
  destruct (p_turn_runner W0 σ s c Hv Hsorted Hs Hc)
    as (kc & pc & -> & Hpc & Hkc & Hadm & Harr & Hlive).
  pose proof (p_served_desc _ _ _ Hs) as Hdesc.
  destruct (same_descriptor_deref σ W0 kc pc Hdesc Hpc) as [(Hpid & _ & Hburst & _) _].
  set (rem := remaining_time (deref σ (Work kc))) in *.
  assert (Q2Qc 0 ≤ e)%Qc as He.
  { destruct Hcase as [->| ->]; [done|]. clear -Hlive. qc_lra. }
  assert (∀ k, k ≠ kc → deref σ' (Work k) = deref σ (Work k)) as Hother.
  { intros k Hne. rewrite Hσ. apply deref_assign_ne. congruence. }
  assert (remaining_time (deref σ' (Work kc)) = (rem - e)%Qc) as Hrem.
  { rewrite Hσ, deref_assign_eq by done. done. }
  assert (∀ k k' p0 p0', W0 !! k = Some p0 → W0 !! k' = Some p0' →
                         pid p0 = pid p0' → k = k') as Hinj.
  { intros k k' p0 p0' Hk Hk' Hp.
    apply (NoDup_lookup (pid <$> W0) k k' (pid p0)); [done|..];
      rewrite list_lookup_fmap.
    - by rewrite Hk.
    - rewrite Hk'. simpl. by rewrite Hp. }
  assert (∀ x, service x (p_schedule s') =
               (service x (p_schedule s) +
                (if decide (pid pc = x) then e else Q2Qc 0))%Qc) as Hservice.
  { intros x. rewrite (service_emits x _ _ _ _ _ Hem). rewrite Hpid.
    destruct (decide (pid pc = x)); clear; qc_lra. }
  assert (∀ k, (remaining_time (deref σ' (Work k)) ≤
                remaining_time (deref σ (Work k)))%Qc) as Hdecr.
  { intros k. destruct (decide (k = kc)) as [->|Hne].
    - rewrite Hrem. fold rem. clear -He. qc_lra.
    - rewrite Hother by done. apply Qcle_refl. }
  constructor.
  - rewrite Hσ. by apply same_descriptor_assign.
  - intros k p0 Hk. rewrite Hservice.
    pose proof (p_served_sum _ _ _ Hs k p0 Hk) as Hsum.
    destruct (decide (k = kc)) as [->|Hne].
    + assert (p0 = pc) as -> by congruence.
      rewrite decide_True by done. rewrite Hrem. fold rem in Hsum.
      clear -Hsum. qc_lra.
    + rewrite decide_False.
      * rewrite Hother by done. clear -Hsum. qc_lra.
      * intros Hp. apply Hne. symmetry. by eapply Hinj.
  - intros k p0 Hk. destruct (decide (k = kc)) as [->|Hne].
    + rewrite Hrem. clear -Her. fold rem in Her. qc_lra.
    + rewrite Hother by done. by eapply p_served_left.
  - intros k p0 Hk.
    eapply (entries_of_emits (pid p0) (λ t, (arrival_time p0 ≤ t)%Qc)); [exact Hem| |].
    + by eapply p_served_start.
    + rewrite Hpid. intros Hp.
      assert (kc = k) as -> by by eapply Hinj.
      by assert (p0 = pc) as -> by congruence.
  - intros k p0 Hk Hlt. rewrite Hct. rewrite Hi' in Hlt.
    destruct (decide (k < p_i s)) as [Hlt0|Hge].
    + pose proof (p_served_admitted _ _ _ Hs k p0 Hk Hlt0) as H1.
      clear -H1 He. qc_lra.
    + destruct (arrived_by_prefix σ (p_i s) (p_current_time s) Hsorted)
        as (m & Hm & Hle & Hin & Hout).
      rewrite Hm, length_fmap, length_seq in Hlt.
      destruct (same_descriptor_deref σ W0 k p0 Hdesc Hk) as [(_ & Ha & _) _].
      rewrite <- Ha. specialize (Hin k ltac:(lia) ltac:(lia)).
      clear -Hin He. qc_lra.
  - intros x Hx.
    assert (x ∈ p_completed s →
            ∃ k p0, W0 !! k = Some p0 ∧ pid p0 = x ∧
                    (remaining_time (deref σ' (Work k)) ≤ Q2Qc 0)%Qc) as Hold.
    { intros Hx0. destruct (p_served_completed _ _ _ Hs x Hx0) as (k & p0 & Hk & Hp & Hr).
      exists k, p0. split_and!; [done..|]. specialize (Hdecr k).
      clear -Hdecr Hr. qc_lra. }
    case_bool_decide as Hdone.
    + destruct Hfin as [_ Hcomp]. rewrite Hcomp in Hx.
      apply elem_of_union in Hx as [Hx|Hx]; [|by apply Hold].
      apply elem_of_singleton in Hx as ->.
      exists kc, pc. split_and!; [done|done|]. by rewrite Hrem.
    + destruct Hfin as [_ Hcomp]. rewrite Hcomp in Hx. by apply Hold.
  - rewrite Hct, Hσ, served_time_assign by done.
    rewrite (p_served_time _ _ _ Hs). fold rem. ring.
  - intros k p0 Hk Hle. rewrite Hi' in Hle.
    rewrite Hother by lia. eapply p_served_untouched; [done..|lia].
  - eapply (emits_pids (λ x, x ∈ pid <$> W0)); [exact Hem|by eapply p_served_busy|].
    rewrite Hpid. apply list_elem_of_fmap. exists pc. split; [done|].
    by eapply list_elem_of_lookup_2.
Qed.

Lemma p_turn_measure {K} (ple : Process → Process → Prop) (W0 : list Process)
    σ (s : p_state K) σ' s' :
  p_valid σ s → StronglySorted arrival_key_le (work_objs σ) → p_served W0 σ s →
  p_turn ple σ s σ' s' →
  rr_turns_left (Q2Qc 1) σ = S (rr_turns_left (Q2Qc 1) σ').
Proof.
  intros Hv Hsorted Hs (c & e & Hi' & Hchoice & He1 & Her & Hcase & Hσ & _).
  cbn zeta in *.
  pose proof (p_turn_chosen ple σ s c (p_ready_queue s') Hchoice) as Hc.
  destruct (p_turn_runner W0 σ s c Hv Hsorted Hs Hc)
    as (kc & pc & -> & Hpc & Hkc & Hadm & Harr & Hlive).
  pose proof (rr_turns_left_assign (Q2Qc 1) σ kc
                (remaining_time (deref σ (Work kc)) - e)%Qc Hkc) as Hm.
  rewrite <- Hσ in Hm.
  rewrite (turns_for_step (Q2Qc 1) (remaining_time (deref σ (Work kc))))
    in Hm by done.
  rewrite <- (py_min_eq (Q2Qc 1) _ e) in Hm by done. lia.
Qed.

Lemma py_sum_take_le {A} (f g : A → Qc) (l : list A) k :
  (∀ j p, l !! j = Some p → j < k → (f p ≤ g p)%Qc) →
  (∀ j p, l !! j = Some p → k ≤ j → f p = Q2Qc 0) →
  (py_sum (f <$> l) ≤ py_sum (g <$> take k l))%Qc.
Proof.
  revert k. induction l as [|x l IH]; intros k H1 H2.
  - rewrite take_nil. apply Qcle_refl.
  - destruct k as [|k].
    + rewrite fmap_cons, py_sum_cons, take_0.
      specialize (IH 0). rewrite take_0 in IH.
      rewrite (H2 0 x) by (done || lia).
      assert (py_sum (f <$> l) ≤ py_sum (g <$> []))%Qc as Hle.
      { apply IH.
        - intros j p _ Hj. lia.
        - intros j p Hj _. apply (H2 (S j)); [done|lia]. }
      clear -Hle. change (py_sum (g <$> [])) with (Q2Qc 0) in *. qc_lra.
    + cbn [take]. rewrite !fmap_cons, !py_sum_cons.
      assert (py_sum (f <$> l) ≤ py_sum (g <$> take k l))%Qc as Hle.
      { apply IH.
        - intros j p Hj Hlt. apply (H1 (S j)); [done|lia].
        - intros j p Hj Hge. apply (H2 (S j)); [done|lia]. }
      pose proof (H1 0 x eq_refl ltac:(lia)) as Hx.
      clear -Hle Hx. qc_lra.
Qed.

Lemma turns_for_le_left q σ k :
  k < length (work_objs σ) →
  turns_for q (remaining_time (deref σ (Work k))) ≤ rr_turns_left q σ.
Proof.
  intros Hk. unfold rr_turns_left. cbn [deref].
  assert (work_objs σ !! k = Some (work_objs σ !!! k)) as Hl
    by by apply list_lookup_lookup_total_lt.
  revert Hl. generalize (work_objs σ !!! k). generalize (work_objs σ). clear.
  intros l. revert k. induction l as [|x l IH]; intros k p Hl; [done|].
  destruct k as [|k]; simpl in *.
  - injection Hl as ->. lia.
  - specialize (IH k p Hl). unfold fmap in *. lia.
Qed.

Lemma p_served_init {K} X (processes : list Process) :
  Forall (λ p, (Q2Qc 0 ≤ arrival_time p)%Qc ∧ (Q2Qc 0 < burst_time p)%Qc) processes →
  p_served (K:=K) (sorted arrival_key_ltb (copy_processes processes))
    (mkStore X (sorted arrival_key_ltb (copy_processes processes))) p_init.
Proof.
  intros Hv.
  set (W0 := sorted arrival_key_ltb (copy_processes processes)) in *.
  assert (Forall (λ p, (Q2Qc 0 < burst_time p)%Qc ∧ remaining_time p = burst_time p) W0)
    as Hcopies.
  { unfold W0. rewrite sorted_perm. apply copy_processes_bursts.
    eapply Forall_impl; [exact Hv|]. by intros p [_ ?]. }
  rewrite Forall_forall in Hcopies.
  constructor; cbn [p_init p_schedule p_current_time p_completed p_i work_objs].
  - apply Forall2_same_length_lookup. split; [done|].
    intros k x y Hx Hy. by simplify_eq.
  - intros k p0 Hk. cbn [deref work_objs].
    rewrite (list_lookup_total_correct _ _ _ Hk).
    destruct (Hcopies p0) as [_ ->]; [by eapply list_elem_of_lookup_2|].
    unfold service, entries_of. simpl. unfold py_sum. simpl. clear. qc_lra.
  - intros k p0 Hk. cbn [deref work_objs].
    rewrite (list_lookup_total_correct _ _ _ Hk).
    destruct (Hcopies p0) as [Hb ->]; [by eapply list_elem_of_lookup_2|].
    clear -Hb. qc_lra.
  - intros k p0 Hk. constructor.
  - intros k p0 Hk Hlt. lia.
  - intros x Hx. by apply elem_of_empty in Hx.
  - unfold served_time. cbn [work_objs]. rewrite (served_time_done W0 0).
    + by rewrite take_0.
    + intros k p _ Hk. lia.
    + intros k p Hk _. apply Hcopies. by eapply list_elem_of_lookup_2.
  - intros k p0 Hk _. cbn [deref work_objs].
    rewrite (list_lookup_total_correct _ _ _ Hk).
    apply Hcopies. by eapply list_elem_of_lookup_2.
  - constructor.
Qed.

Lemma p_served_done {K} (W0 : list Process) σ (s : p_state K) k p0 :
  NoDup (pid <$> W0) → p_served W0 σ s → length W0 ≤ size (p_completed s) →
  W0 !! k = Some p0 →
  service (pid p0) (p_schedule s) = burst_time p0.
Proof.
  intros Hnd Hs Hsize Hk.
  assert (p_completed s ⊆ pid_set W0) as Hsub.
  { intros x Hx. destruct (p_served_completed _ _ _ Hs x Hx) as (k' & p' & Hk' & <- & _).
    apply elem_of_pid_set. exists p'. split; [|done]. by eapply list_elem_of_lookup_2. }
  assert (p_completed s = pid_set W0) as Hall.
  { apply set_subseteq_size_eq; [done|]. rewrite size_pid_set_NoDup by done. lia. }
  assert (pid p0 ∈ p_completed s) as Hin.
  { rewrite Hall. apply elem_of_pid_set. exists p0. split; [|done].
    by eapply list_elem_of_lookup_2. }
  destruct (p_served_completed _ _ _ Hs _ Hin) as (k' & p' & Hk' & Hp & Hrem).
  assert (k' = k) as ->.
  { apply (NoDup_lookup (pid <$> W0) k' k (pid p0)); [done|..];
      rewrite list_lookup_fmap.
    - rewrite Hk'. simpl. by rewrite Hp.
    - by rewrite Hk. }
  pose proof (p_served_sum _ _ _ Hs k p0 Hk) as Hsum.
  pose proof (p_served_left _ _ _ Hs k p0 Hk) as Hleft.
  clear -Hsum Hleft Hrem. qc_lra.
Qed.

Section preemptive_loop.
Context {K : Type} (key : Process → K).
Context (keq : K → K → bool) (klt : K → K → outcome bool).
Context (ple : Process → Process → Prop) (good : Process → Prop).
Hypothesis key_order : ∀ x y, good x → good y →
  ∃ b : bool, tuple_lt keq klt (key x, pid x) (key y, pid y) = Returned b ∧
              if b then ple x y else ple y x.
Hypothesis keq_refl : ∀ a, keq a a = true.
Hypothesis ple_refl : ∀ x, good x → ple x x.
Hypothesis ple_trans : ∀ x y z, ple x y → ple y z → ple x z.
Hypothesis good_set : ∀ p v, good p → good (set_remaining_time p v).
Context (W0 : list Process).
Hypothesis unique_pids : NoDup (pid <$> W0).

Lemma p_body_served σ (s : p_state K) :
  p_inv key ple good σ s → p_served W0 σ s →
  size (p_completed s) < length (work_objs σ) →
  ((snd <$> p_ready_queue s) ++ arrived_by σ (p_i s) (p_current_time s) = [] ∧
   p_current_process s = None ∧ p_i s < length (work_objs σ) ∧
   p_body key keq klt σ s = (σ, Raised NoneAttribute)) ∨
  (∃ σ' s', p_body key keq klt σ s = (σ', Returned (Continue s')) ∧
            p_turn ple σ s σ' s' ∧ p_inv key ple good σ' s' ∧
            p_served W0 σ' s' ∧
            rr_turns_left (Q2Qc 1) σ = S (rr_turns_left (Q2Qc 1) σ')).
Proof.
  intros Hinv Hs Hc.
  destruct (p_body_spec key keq klt ple good key_order keq_refl ple_refl ple_trans
              good_set σ s Hinv Hc) as [?|(σ' & s' & Hb & Ht & Hinv')]; [by left|].
  right. exists σ', s'. split_and!; [done..| |].
  - eapply p_turn_served; [done| | |done|done].
    + by apply (p_inv_valid _ _ _ _ _ Hinv).
    + by apply (p_inv_sorted _ _ _ _ _ Hinv).
  - eapply p_turn_measure; [| |done|done].
    + by apply (p_inv_valid _ _ _ _ _ Hinv).
    + by apply (p_inv_sorted _ _ _ _ _ Hinv).
Qed.

Lemma p_loop_served fuel σ (s : p_state K) σ' s' :
  p_inv key ple good σ s → p_served W0 σ s →
  p_loop key keq klt fuel σ s = (σ', Returned s') →
  p_served W0 σ' s' ∧ length W0 ≤ size (p_completed s').
Proof.
  revert σ s.
  assert (∀ σ (s : p_state K), p_served W0 σ s → length (work_objs σ) = length W0)
    as Hlen.
  { intros σ s Hs. by eapply Forall2_length, p_served_desc. }
  induction fuel as [|fuel IH]; intros σ s Hinv Hs; cbn [p_loop].
  - case_bool_decide as Hc; [done|]. intros [= <- <-]. split; [done|].
    rewrite <- (Hlen σ s Hs). lia.
  - case_bool_decide as Hc.
    + destruct (p_body_served σ s Hinv Hs Hc)
        as [(_ & _ & _ & Hb)|(σ1 & s1 & Hb & _ & Hinv1 & Hs1 & _)].
      * by rewrite Hb.
      * rewrite Hb. by apply IH.
    + intros [= <- <-]. split; [done|]. rewrite <- (Hlen σ s Hs). lia.
Qed.

(** The current time is at most what the bursts of the copies before a
    position that was not admitted add up to. *)
Lemma p_served_time_bound σ (s : p_state K) k :
  p_served W0 σ s → p_i s ≤ k →
  (p_current_time s ≤ py_sum (burst_time <$> take k W0))%Qc.
Proof.
  intros Hs Hk.
  pose proof (p_served_desc _ _ _ Hs) as Hdesc.
  rewrite (p_served_time _ _ _ Hs). unfold served_time.
  rewrite fmap_take, <- (same_descriptor_bursts _ _ Hdesc), <- fmap_take.
  apply py_sum_take_le.
  - intros j p Hj _.
    assert (j < length W0) as Hlt.
    { rewrite <- (Forall2_length _ _ _ Hdesc). by eapply lookup_lt_Some. }
    destruct (lookup_lt_is_Some_2 W0 j Hlt) as [p0 Hp0].
    pose proof (p_served_left _ _ _ Hs j p0 Hp0) as Hleft.
    cbn [deref] in Hleft. rewrite (list_lookup_total_correct _ _ _ Hj) in Hleft.
    clear -Hleft. qc_lra.
  - intros j p Hj Hge.
    assert (j < length W0) as Hlt.
    { rewrite <- (Forall2_length _ _ _ Hdesc). by eapply lookup_lt_Some. }
    destruct (lookup_lt_is_Some_2 W0 j Hlt) as [p0 Hp0].
    pose proof (p_served_untouched _ _ _ Hs j p0 Hp0 ltac:(lia)) as Hu.
    destruct (same_descriptor_deref σ W0 j p0 Hdesc Hp0) as [(_ & _ & Hb & _) _].
    cbn [deref] in Hu, Hb. rewrite (list_lookup_total_correct _ _ _ Hj) in Hu, Hb.
    rewrite Hu, Hb. ring.
Qed.

Lemma p_no_gap σ (s : p_state K) :
  no_idle_gap W0 → p_inv key ple good σ s → p_served W0 σ s →
  p_i s < length (work_objs σ) →
  p_refs (p_ready_queue s) (p_current_process s) = [] →
  arrived_by σ (p_i s) (p_current_time s) ≠ [].
Proof.
  intros Hgap Hinv Hs Hi Hrefs.
  pose proof (p_served_desc _ _ _ Hs) as Hdesc.
  pose proof (Forall2_length _ _ _ Hdesc) as Hlen.
  assert (∀ k p, work_objs σ !! k = Some p → k < p_i s →
                 remaining_time p = Q2Qc 0) as Hdone.
  { intros k p Hk Hlt.
    destruct (lookup_lt_is_Some_2 W0 k) as [p0 Hp0]; [lia|].
    destruct (p_inv_accounted _ _ _ _ _ Hinv k Hlt) as [Hin|Hin].
    { rewrite Hrefs in Hin. by apply elem_of_nil in Hin. }
    destruct (p_served_completed _ _ _ Hs _ Hin) as (k' & p' & Hk' & Hp & Hrem).
    destruct (same_descriptor_deref σ W0 k p0 Hdesc Hp0) as [(Hpid & _) _].
    assert (k' = k) as ->.
    { apply (NoDup_lookup (pid <$> W0) k' k (pid p0)); [done|..];
        rewrite list_lookup_fmap.
      - rewrite Hk'. simpl. by rewrite Hp, Hpid.
      - by rewrite Hp0. }
    pose proof (p_served_left _ _ _ Hs k p0 Hp0) as Hleft.
    cbn [deref] in Hrem, Hleft.
    rewrite (list_lookup_total_correct _ _ _ Hk) in Hrem, Hleft.
    clear -Hrem Hleft. qc_lra. }
  assert (∀ k p, work_objs σ !! k = Some p → p_i s ≤ k →
                 remaining_time p = burst_time p) as Hrest.
  { intros k p Hk Hge.
    assert (k < length W0) as Hlt.
    { rewrite <- Hlen. by eapply lookup_lt_Some. }
    destruct (lookup_lt_is_Some_2 W0 k Hlt) as [p0 Hp0].
    pose proof (p_served_untouched _ _ _ Hs k p0 Hp0 Hge) as Hu.
    destruct (same_descriptor_deref σ W0 k p0 Hdesc Hp0) as [(_ & _ & Hb & _) _].
    cbn [deref] in Hu, Hb. rewrite (list_lookup_total_correct _ _ _ Hk) in Hu, Hb.
    by rewrite Hu, Hb. }
  destruct (lookup_lt_is_Some_2 W0 (p_i s)) as [pi Hpi]; [lia|].
  pose proof (Hgap _ _ Hpi) as Harr.
  rewrite fmap_take, <- (same_descriptor_bursts _ _ Hdesc), <- fmap_take in Harr.
  rewrite <- (served_time_done _ _ Hdone Hrest) in Harr.
  fold (served_time σ) in Harr. rewrite <- (p_served_time _ _ _ Hs) in Harr.
  destruct (same_descriptor_deref σ W0 (p_i s) pi Hdesc Hpi) as [(_ & Ha & _) _].
  rewrite <- Ha in Harr.
  by rewrite (arrived_by_cons σ (p_i s) (p_current_time s) Hi Harr).
Qed.

Lemma p_loop_returns fuel σ (s : p_state K) :
  no_idle_gap W0 → p_inv key ple good σ s → p_served W0 σ s →
  rr_turns_left (Q2Qc 1) σ ≤ fuel →
  ∃ σ' s', p_loop key keq klt fuel σ s = (σ', Returned s').
Proof.
  intros Hgap. revert σ s.
  induction fuel as [|fuel IH]; intros σ s Hinv Hs Hfuel; cbn [p_loop];
    (case_bool_decide as Hc; [|by eauto]);
    (destruct (p_body_served σ s Hinv Hs Hc)
       as [(Hready & Hcur & Hi & _)|(σ1 & s1 & Hb & _ & Hinv1 & Hs1 & Hm)];
     [destruct (p_no_gap σ s Hgap Hinv Hs Hi);
       [unfold p_refs; rewrite Hcur;
        by apply app_eq_nil in Hready as [-> _]
       |by apply app_eq_nil in Hready as [_ ->]]|]).
  - lia.
  - rewrite Hb. apply IH; [done..|lia].
Qed.

(** With an idle gap before the process at position [k], the loop faults
    when it reaches the gap, and does not return. *)
Lemma p_loop_gap k pk fuel σ (s : p_state K) :
  W0 !! k = Some pk →
  (py_sum (burst_time <$> take k W0) < arrival_time pk)%Qc →
  p_inv key ple good σ s → p_served W0 σ s → p_i s ≤ k →
  (∃ σ', p_loop key keq klt fuel σ s = (σ', Raised NoneAttribute)) ∨
  ((∃ σ', p_loop key keq klt fuel σ s = (σ', OutOfFuel)) ∧
   fuel < rr_turns_left (Q2Qc 1) σ).
Proof.
  intros Hk Hgap. revert σ s.
  assert (∀ σ (s : p_state K), p_inv key ple good σ s → p_served W0 σ s →
            p_i s ≤ k →
            size (p_completed s) < length (work_objs σ) ∧
            0 < rr_turns_left (Q2Qc 1) σ) as Hopen.
  { intros σ s Hinv Hs Hi.
    pose proof (p_served_desc _ _ _ Hs) as Hdesc.
    pose proof (Forall2_length _ _ _ Hdesc) as Hlen.
    pose proof (lookup_lt_Some _ _ _ Hk) as Hklt.
    pose proof (p_inv_valid _ _ _ _ _ Hinv) as Hv.
    split.
    - assert (p_completed s ⊆ pid_set (take (p_i s) W0)) as Hsub.
      { intros x Hx.
        destruct (p_served_completed _ _ _ Hs x Hx) as (k' & p' & Hk' & <- & Hrem).
        apply elem_of_pid_set. exists p'. split; [|done].
        apply (list_elem_of_lookup_2 _ k'). rewrite lookup_take_lt; [done|].
        destruct (decide (k' < p_i s)) as [|Hge]; [done|].
        pose proof (lookup_lt_Some _ _ _ Hk') as Hk'lt.
        assert (k' < length (work_objs σ)) as Hk'σ by lia.
        assert (p_i s ≤ k') as Hik' by lia.
        pose proof (p_valid_live _ _ Hv k' Hk'σ (or_intror Hik')) as Hl.
        clear -Hl Hrem. qc_lra. }
      apply subseteq_size in Hsub.
      pose proof (size_pid_set_le (take (p_i s) W0)) as Hle.
      rewrite length_take in Hle. lia.
    - assert (k < length (work_objs σ)) as Hkσ by lia.
      pose proof (p_valid_live _ _ Hv k Hkσ (or_intror Hi)) as Hl.
      pose proof (turns_for_le_left (Q2Qc 1) σ k Hkσ) as Hle.
      rewrite (turns_for_step (Q2Qc 1) _ eq_refl Hl) in Hle. lia. }
  induction fuel as [|fuel IH]; intros σ s Hinv Hs Hi; cbn [p_loop];
    destruct (Hopen σ s Hinv Hs Hi) as [Hc Hpos];
    rewrite bool_decide_eq_true_2 by done.
  - right. split; [by eexists|done].
  - destruct (p_body_served σ s Hinv Hs Hc)
      as [(_ & _ & _ & Hb)|(σ1 & s1 & Hb & Ht & Hinv1 & Hs1 & Hm)].
    + left. rewrite Hb. by eexists.
    + rewrite Hb.
      assert (p_i s1 ≤ k) as Hi1.
      { destruct Ht as (c & e & Hi' & _). cbn zeta in Hi'. rewrite Hi'.
        destruct (arrived_by_prefix σ (p_i s) (p_current_time s)
                    (p_inv_sorted _ _ _ _ _ Hinv)) as (m & Hm' & _ & Hin & _).
        rewrite Hm', length_fmap, length_seq.
        destruct (decide (p_i s + m ≤ k)) as [|Hgt]; [done|].
        specialize (Hin k Hi ltac:(lia)).
        pose proof (p_served_time_bound σ s k Hs Hi) as Hb'.
        destruct (same_descriptor_deref σ W0 k pk (p_served_desc _ _ _ Hs) Hk)
          as [(_ & Ha & _) _].
        rewrite Ha in Hin. clear -Hin Hb' Hgap. qc_lra. }
      destruct (IH σ1 s1 Hinv1 Hs1 Hi1) as [?|[? ?]]; [by left|right].
      split; [done|lia].
Qed.

End preemptive_loop.

Lemma less_remaining_or_equal_refl (x : Process) :
  True → less_remaining_or_equal x x.
Proof. intros _. right. split; [done|reflexivity]. Qed.

Lemma more_urgent_or_equal_refl (x : Process) :
  is_Some (priority x) → more_urgent_or_equal x x.
Proof.
  intros [a Ha]. exists a, a. split_and!; [done..|].
  right. split; [done|reflexivity].
Qed.

(** The loop of [sjf_preemptive] on a valid input: what a final state
    satisfies, when there is one, and when there is none. *)
Lemma sjf_preemptive_loop fuel (processes : list Process) :
  valid_input processes →
  let W0 := sorted arrival_key_ltb (copy_processes processes) in
  let run := p_loop remaining_time Qc_eqb num_lt fuel (mkStore [] W0) p_init in
  NoDup (pid <$> W0) ∧
  (∀ σ' s', run = (σ', Returned s') →
            p_served W0 σ' s' ∧ length W0 ≤ size (p_completed s')) ∧
  (no_idle_gap W0 → rr_turns processes (Q2Qc 1) ≤ fuel →
   ∃ σ' s', run = (σ', Returned s')) ∧
  (∀ k pk, W0 !! k = Some pk →
           (py_sum (burst_time <$> take k W0) < arrival_time pk)%Qc →
           (∃ σ', run = (σ', Raised NoneAttribute)) ∨
           ((∃ σ', run = (σ', OutOfFuel)) ∧ fuel < rr_turns processes (Q2Qc 1))).
Proof.
  intros [Hnd Hv] W0 run.
  assert (NoDup (pid <$> W0)) as HndW.
  { unfold W0. by rewrite sorted_perm, pid_copy_processes. }
  assert (p_inv remaining_time less_remaining_or_equal (λ _, True)
            (mkStore [] W0) p_init) as Hinv.
  { apply p_inv_init; [done|]. by apply Forall_true. }
  pose proof (p_served_init (K:=Qc) [] processes Hv) as Hs. fold W0 in Hs.
  pose proof (rr_turns_left_init processes (Q2Qc 1)) as Hm. fold W0 in Hm.
  split; [done|]. split_and!.
  - intros σ' s'.
    apply (p_loop_served remaining_time Qc_eqb num_lt less_remaining_or_equal
             (λ _, True) (λ x y _ _, less_remaining_or_equal_order x y)
             Qc_eqb_refl less_remaining_or_equal_refl
             less_remaining_or_equal_trans (λ _ _ _, I) W0 HndW); done.
  - intros Hgap Hfuel.
    apply (p_loop_returns remaining_time Qc_eqb num_lt less_remaining_or_equal
             (λ _, True) (λ x y _ _, less_remaining_or_equal_order x y)
             Qc_eqb_refl less_remaining_or_equal_refl
             less_remaining_or_equal_trans (λ _ _ _, I) W0 HndW); [done..|].
    by rewrite Hm.
  - intros k pk Hk Hgap. rewrite <- Hm.
    apply (p_loop_gap remaining_time Qc_eqb num_lt less_remaining_or_equal
             (λ _, True) (λ x y _ _, less_remaining_or_equal_order x y)
             Qc_eqb_refl less_remaining_or_equal_refl
             less_remaining_or_equal_trans (λ _ _ _, I) W0 HndW k pk);
      [done..|]. cbn [p_init p_i]. lia.
Qed.

(** The same for the loop of [priority_preemptive], when every process has
    a priority. *)
Lemma priority_preemptive_loop fuel (processes : list Process) :
  valid_input processes → Forall (λ p, is_Some (priority p)) processes →
  let W0 := sorted arrival_key_ltb (copy_processes processes) in
  let run := p_loop priority priority_eqb priority_lt fuel (mkStore [] W0) p_init in
  NoDup (pid <$> W0) ∧
  (∀ σ' s', run = (σ', Returned s') →
            p_served W0 σ' s' ∧ length W0 ≤ size (p_completed s')) ∧
  (no_idle_gap W0 → rr_turns processes (Q2Qc 1) ≤ fuel →
   ∃ σ' s', run = (σ', Returned s')) ∧
  (∀ k pk, W0 !! k = Some pk →
           (py_sum (burst_time <$> take k W0) < arrival_time pk)%Qc →
           (∃ σ', run = (σ', Raised NoneAttribute)) ∨
           ((∃ σ', run = (σ', OutOfFuel)) ∧ fuel < rr_turns processes (Q2Qc 1))).
Proof.
  intros [Hnd Hv] Hp W0 run.
  assert (NoDup (pid <$> W0)) as HndW.
  { unfold W0. by rewrite sorted_perm, pid_copy_processes. }
  assert (p_inv priority more_urgent_or_equal (λ p, is_Some (priority p))
            (mkStore [] W0) p_init) as Hinv.
  { apply p_inv_init; [done|]. by apply priority_sorted_copies. }
  pose proof (p_served_init (K:=option Z) [] processes Hv) as Hs. fold W0 in Hs.
  pose proof (rr_turns_left_init processes (Q2Qc 1)) as Hm. fold W0 in Hm.
  split; [done|]. split_and!.
  - intros σ' s'.
    apply (p_loop_served priority priority_eqb priority_lt more_urgent_or_equal
             (λ p, is_Some (priority p)) more_urgent_or_equal_order
             priority_eqb_refl more_urgent_or_equal_refl
             more_urgent_or_equal_trans (λ _ _ H, H) W0 HndW); done.
  - intros Hgap Hfuel.
    apply (p_loop_returns priority priority_eqb priority_lt more_urgent_or_equal
             (λ p, is_Some (priority p)) more_urgent_or_equal_order
             priority_eqb_refl more_urgent_or_equal_refl
             more_urgent_or_equal_trans (λ _ _ H, H) W0 HndW); [done..|].
    by rewrite Hm.
  - intros k pk Hk Hgap. rewrite <- Hm.
    apply (p_loop_gap priority priority_eqb priority_lt more_urgent_or_equal
             (λ p, is_Some (priority p)) more_urgent_or_equal_order
             priority_eqb_refl more_urgent_or_equal_refl
             more_urgent_or_equal_trans (λ _ _ H, H) W0 HndW k pk);
      [done..|]. cbn [p_init p_i]. lia.
Qed.

(** X15: on a valid input (unique pids, arrivals at or after 0, positive
    bursts) whose times are whole numbers on which the arithmetic is exact,
    without an idle gap, that is, where no process, in the order of
    (arrival_time, pid), arrives after the time the bursts of those before
    it add up to, [sjf_preemptive] returns a result after at most as many
    turns of its main loop as the burst times, rounded up, add up to, and
    so does [priority_preemptive] when every process has a priority. *)
Theorem preemptive_returns_without_gap fuel (processes : list Process) :
  valid_input processes → exact_times processes →
  no_idle_gap (sorted arrival_key_ltb (copy_processes processes)) →
  rr_turns processes (Q2Qc 1) ≤ fuel →
  (∃ r, (sjf_preemptive fuel processes).2 = Returned r) ∧
  (Forall (λ p, is_Some (priority p)) processes →
   ∃ r, (priority_preemptive fuel processes).2 = Returned r).
Proof.
  intros Hv _ Hgap Hfuel.
  destruct processes as [|p0 ps]; [by split; eauto|].
  set (processes := p0 :: ps) in *.
  split.
  - destruct (sjf_preemptive_loop fuel processes Hv) as (_ & _ & Hret & _).
    destruct (Hret Hgap Hfuel) as (σ' & s' & Hl).
    rewrite sjf_preemptive_unfold by done. cbn [snd].
    rewrite Hl. cbn [snd mbind outcome_bind]. by eexists.
  - intros Hp.
    destruct (priority_preemptive_loop fuel processes Hv Hp) as (_ & _ & Hret & _).
    destruct (Hret Hgap Hfuel) as (σ' & s' & Hl).
    rewrite priority_preemptive_unfold by done. cbn [snd].
    rewrite (check_priorities_passes _ Hp). cbn [mbind outcome_bind].
    rewrite Hl. cbn [snd mbind outcome_bind]. by eexists.
Qed.

Lemma preemptive_returns_without_gap_witness :
  (∃ r, (sjf_preemptive 10 scenario_busy).2 = Returned r) ∧
  (Forall (λ p, is_Some (priority p)) scenario_busy →
   ∃ r, (priority_preemptive 10 scenario_busy).2 = Returned r).
Proof.
  apply (preemptive_returns_without_gap 10 scenario_busy).
  - split; compute_done.
  - split; compute_done.
  - intros k p Hk. destruct k as [|[|[|k]]]; vm_compute in Hk;
      [injection Hk as <-; compute_done..|discriminate Hk].
  - vm_compute. lia.
Defined.

(** X16: on a valid input whose times are whole numbers on which the
    arithmetic is exact, with an idle gap, that is, where some process, in
    the order of (arrival_time, pid), arrives after the time the bursts of
    those before it add up to, [sjf_preemptive] returns no result: once the
    loop has taken as many turns as the burst times, rounded up, add up to,
    at the latest, it has failed with the AttributeError of
    [current_process.execute] on [None]; and so does [priority_preemptive]
    when every process has a priority. *)
Theorem preemptive_gap_faults fuel (processes : list Process) k p :
  valid_input processes → exact_times processes →
  sorted arrival_key_ltb (copy_processes processes) !! k = Some p →
  (py_sum (burst_time <$>
             take k (sorted arrival_key_ltb (copy_processes processes))) <
   arrival_time p)%Qc →
  ((∀ r, (sjf_preemptive fuel processes).2 ≠ Returned r) ∧
   (rr_turns processes (Q2Qc 1) ≤ fuel →
    (sjf_preemptive fuel processes).2 = Raised NoneAttribute)) ∧
  (Forall (λ p, is_Some (priority p)) processes →
   (∀ r, (priority_preemptive fuel processes).2 ≠ Returned r) ∧
   (rr_turns processes (Q2Qc 1) ≤ fuel →
    (priority_preemptive fuel processes).2 = Raised NoneAttribute)).
Proof.
  intros Hv _ Hk Hgap.
  destruct processes as [|p0 ps]; [done|].
  set (processes := p0 :: ps) in *.
  split.
  - destruct (sjf_preemptive_loop fuel processes Hv) as (_ & _ & _ & Hg).
    rewrite sjf_preemptive_unfold by done. cbn [snd].
    destruct (Hg k p Hk Hgap) as [[σ' Hl]|[[σ' Hl] Hlt]];
      rewrite Hl; cbn [snd mbind outcome_bind]; (split; [done|]).
    + done.
    + lia.
  - intros Hp.
    destruct (priority_preemptive_loop fuel processes Hv Hp) as (_ & _ & _ & Hg).
    rewrite priority_preemptive_unfold by done. cbn [snd].
    rewrite (check_priorities_passes _ Hp). cbn [mbind outcome_bind].
    destruct (Hg k p Hk Hgap) as [[σ' Hl]|[[σ' Hl] Hlt]];
      rewrite Hl; cbn [snd mbind outcome_bind]; (split; [done|]).
    + done.
    + lia.
Qed.

Lemma preemptive_gap_faults_witness :
  ((∀ r, (sjf_preemptive 10 scenario).2 ≠ Returned r) ∧
   (rr_turns scenario (Q2Qc 1) ≤ 10 →
    (sjf_preemptive 10 scenario).2 = Raised NoneAttribute)) ∧
  (Forall (λ p, is_Some (priority p)) scenario →
   (∀ r, (priority_preemptive 10 scenario).2 ≠ Returned r) ∧
   (rr_turns scenario (Q2Qc 1) ≤ 10 →
    (priority_preemptive 10 scenario).2 = Raised NoneAttribute)).
Proof.
  apply (preemptive_gap_faults 10 scenario 2 (PP "P3" 12 2 3)).
  - split; compute_done.
  - split; compute_done.
  - vm_compute. reflexivity.
  - compute_done.
Defined.

(** The final state behind a result of a preemptive algorithm. *)
Lemma preemptive_result fuel (processes : list Process) r :
  valid_input processes → processes ≠ [] →
  (sjf_preemptive fuel processes).2 = Returned r ∨
  (priority_preemptive fuel processes).2 = Returned r →
  let W0 := sorted arrival_key_ltb (copy_processes processes) in
  ∃ K σ' (s' : p_state K) t1,
    schedule r = p_schedule s' ∧
    metrics r = calculate_metrics processes (p_schedule s') ∧
    chain (Q2Qc 0) (p_schedule s') t1 ∧
    NoDup (pid <$> W0) ∧ p_served W0 σ' s' ∧
    length W0 ≤ size (p_completed s').
Proof.
  intros Hv Hne Hr W0. destruct Hr as [Hr|Hr].
  - destruct (sjf_preemptive_loop fuel processes Hv) as (HndW & Hserved & _).
    rewrite sjf_preemptive_unfold in Hr by done. cbn [snd] in Hr.
    destruct (p_loop _ _ _ _ _ _) as [σ' [s'| |]] eqn:Hl; [|done..].
    cbn [snd mbind outcome_bind] in Hr. simplify_eq.
    destruct (Hserved σ' s' eq_refl).
    exists Qc, σ', s', (p_current_time s'). split_and!; [done..| |done|done|done].
    eapply p_loop_valid; [|done]. apply p_init_valid. by destruct Hv.
  - rewrite priority_preemptive_unfold in Hr by done. cbn [snd] in Hr.
    destruct (check_priorities_cases processes) as [[Hc Hp]|[[a Hc] _]];
      rewrite Hc in Hr; [|done]. cbn [mbind outcome_bind] in Hr.
    destruct (priority_preemptive_loop fuel processes Hv Hp)
      as (HndW & Hserved & _).
    destruct (p_loop _ _ _ _ _ _) as [σ' [s'| |]] eqn:Hl; [|done..].
    cbn [snd mbind outcome_bind] in Hr. simplify_eq.
    destruct (Hserved σ' s' eq_refl).
    exists (option Z), σ', s', (p_current_time s').
    split_and!; [done..| |done|done|done].
    eapply p_loop_valid; [|done]. apply p_init_valid. by destruct Hv.
Qed.

(** X17: in a result returned by [sjf_preemptive] or by
    [priority_preemptive] on a valid input (unique pids, arrivals at or
    after 0, positive bursts) whose times are whole numbers on which the
    arithmetic is exact, the entries of every process add up to its
    burst time, none of them starts before the process arrives, and every
    entry bears the pid of a process: the schedule has no idle entry. *)
Theorem preemptive_serves_each_burst fuel (processes : list Process) r :
  valid_input processes → exact_times processes →
  (sjf_preemptive fuel processes).2 = Returned r ∨
  (priority_preemptive fuel processes).2 = Returned r →
  (∀ p, p ∈ processes →
     service (pid p) (schedule r) = burst_time p ∧
     Forall (λ e, (arrival_time p ≤ entry_start e)%Qc)
            (entries_of (pid p) (schedule r))) ∧
  Forall (λ e : ScheduleEntry, e.1.1 ∈ pid <$> processes) (schedule r).
Proof.
  intros Hv _ Hr.
  destruct processes as [|p0 ps].
  { destruct Hr as [Hr|Hr]; simpl in Hr; simplify_eq; cbn [schedule];
      (split; [by intros p ?%elem_of_nil|constructor]). }
  set (processes := p0 :: ps) in *.
  destruct (preemptive_result fuel processes r Hv ltac:(done) Hr)
    as (K & σ' & s' & t1 & Hsched & _ & _ & HndW & Hs & Hsize).
  set (W0 := sorted arrival_key_ltb (copy_processes processes)) in *.
  rewrite Hsched. split.
  - intros p Hp.
    destruct (sorted_copies_lookup processes p Hp)
      as (k & pk & Hk & Hpid & Harr & Hburst & _).
    fold W0 in Hk. rewrite <- Hpid, <- Harr, <- Hburst. split.
    + by eapply p_served_done.
    + by eapply p_served_start.
  - pose proof (p_served_busy _ _ _ Hs) as Hb.
    eapply Forall_impl; [exact Hb|]. intros e He. cbn beta in He.
    unfold W0 in He. rewrite sorted_perm, pid_copy_processes in He. exact He.
Qed.

Lemma preemptive_serves_each_burst_witness :
  ∃ r, (sjf_preemptive 10 scenario_busy).2 = Returned r ∧
  (∀ p, p ∈ scenario_busy →
     service (pid p) (schedule r) = burst_time p ∧
     Forall (λ e, (arrival_time p ≤ entry_start e)%Qc)
            (entries_of (pid p) (schedule r))) ∧
  Forall (λ e : ScheduleEntry, e.1.1 ∈ pid <$> scenario_busy) (schedule r).
Proof.
  destruct (sjf_preemptive 10 scenario_busy).2 as [r|e|] eqn:E.
  - exists r. split; [reflexivity|].
    apply (preemptive_serves_each_burst 10 scenario_busy r).
    + split; compute_done.
    + split; compute_done.
    + left. exact E.
  - vm_compute in E. discriminate E.
  - vm_compute in E. discriminate E.
Defined.

(** ** The processor utilisation of a result *)

Lemma round_half_even_range (q : Q) (lo hi : Z) :
  (inject_Z lo <= q)%Q → (q <= inject_Z hi)%Q →
  (lo ≤ round_half_even q)%Z ∧ (round_half_even q ≤ hi)%Z.
Proof.
  intros Hlo Hhi. unfold round_half_even.
  pose proof (Qfloor_le q) as Hf.
  assert (lo ≤ Qfloor q)%Z as H1.
  { rewrite <- (Qfloor_Z lo). by apply Qfloor_resp_le. }
  assert (Qfloor q ≤ hi)%Z as H2.
  { rewrite <- (Qfloor_Z hi). by apply Qfloor_resp_le. }
  set (f := Qfloor q) in *.
  assert (f = hi → (q - inject_Z f == 0)%Q) as Htop.
  { intros ->. lra. }
  destruct (Qcompare_spec (q - inject_Z f) (1 # 2)) as [He|Hl|Hg].
  - destruct (Z.even f); [lia|]. split; [lia|].
    destruct (decide (f = hi)) as [Heq|]; [|lia].
    specialize (Htop Heq). lra.
  - lia.
  - split; [lia|]. destruct (decide (f = hi)) as [Heq|]; [|lia].
    specialize (Htop Heq). lra.
Qed.

Lemma round2_percentage (x : Qc) :
  (Q2Qc 0 ≤ x)%Qc → (x ≤ Q2Qc 100)%Qc →
  (Q2Qc 0 ≤ round2 x)%Qc ∧ (round2 x ≤ Q2Qc 100)%Qc.
Proof.
  intros H0 H100. unfold round2.
  destruct (round_half_even_range (this x * 100) 0 10000) as [Hl Hh].
  - change (inject_Z 0) with 0%Q. clear -H0. qc_lra.
  - change (inject_Z 10000) with 10000%Q. clear -H100. qc_lra.
  - rewrite Zle_Qle in Hl, Hh.
    change (inject_Z 0) with 0%Q in Hl. change (inject_Z 10000) with 10000%Q in Hh.
    set (z := inject_Z (round_half_even (this x * 100))) in *.
    clearbody z. clear -Hl Hh.
    unfold Qcle, Q2Qc. cbn [this]. rewrite !Qred_correct.
    unfold Qdiv. change (/ 100)%Q with (1 # 100)%Q. split; lra.
Qed.

Lemma Qc_percentage (c T : Qc) :
  (Q2Qc 0 ≤ c)%Qc → (c ≤ T)%Qc → (Q2Qc 0 < T)%Qc →
  (Q2Qc 0 ≤ c / T * Q2Qc 100)%Qc ∧ (c / T * Q2Qc 100 ≤ Q2Qc 100)%Qc.
Proof.
  intros H0 HT Hpos.
  unfold Qcle, Qclt, Qcdiv, Qcmult, Qcinv, Q2Qc in *. cbn [this] in *.
  rewrite ?Qred_correct in *.
  assert (0 <= this c / this T)%Q as Ha.
  { apply Qle_shift_div_l; [done|]. lra. }
  assert (this c / this T <= 1)%Q as Hb.
  { apply Qle_shift_div_r; [done|]. lra. }
  unfold Qdiv in Ha, Hb. set (d := (this c * / this T)%Q) in *. clearbody d.
  split; lra.
Qed.

Lemma busy_time_cons (e : ScheduleEntry) (sched : list ScheduleEntry) :
  busy_time (e :: sched) =
  ((if decide (e.1.1 = IDLE) then Q2Qc 0 else duration e) + busy_time sched)%Qc.
Proof.
  destruct e as [[p s] t]. unfold busy_time, duration, entry_start, entry_end.
  cbn [fst snd]. destruct (decide (p = IDLE)) as [Hp|Hp].
  - rewrite filter_cons_False by (cbn [fst]; by intros ?). ring.
  - rewrite filter_cons_True by done. cbn [map]. by rewrite py_sum_cons.
Qed.

Lemma busy_time_chain t0 (sched : list ScheduleEntry) t1 :
  chain t0 sched t1 →
  (Q2Qc 0 ≤ busy_time sched)%Qc ∧ (busy_time sched ≤ t1 - t0)%Qc ∧
  (Forall (λ e : ScheduleEntry, e.1.1 ≠ IDLE) sched →
   busy_time sched = (t1 - t0)%Qc).
Proof.
  revert t0. induction sched as [|e l IH]; intros t0.
  - simpl. intros ->. unfold busy_time. simpl. change (py_sum []) with (Q2Qc 0).
    split_and!; [clear; qc_lra..|]. intros _. ring.
  - cbn [chain]. intros (Hs & Hlt & Hc).
    destruct (IH _ Hc) as (H0 & Hle & Hall).
    rewrite busy_time_cons. unfold duration. rewrite Hs in *.
    split_and!.
    + case_decide; clear -H0 Hlt; qc_lra.
    + case_decide; clear -Hle Hlt; qc_lra.
    + intros [Hne Hl]%Forall_cons. rewrite decide_False by done.
      rewrite (Hall Hl). ring.
Qed.

Lemma chain_lt t0 (sched : list ScheduleEntry) t1 :
  chain t0 sched t1 → sched ≠ [] → (t0 < t1)%Qc.
Proof.
  destruct sched as [|e l]; [done|]. cbn [chain]. intros (Hs & Hlt & Hc) _.
  apply chain_le in Hc. rewrite Hs in Hlt. clear -Hlt Hc. qc_lra.
Qed.

Lemma cpu_utilization_chain (processes : list Process)
    (sched : list ScheduleEntry) t1 :
  chain (Q2Qc 0) sched t1 →
  ∃ u, calculate_metrics processes sched !! "cpu_utilization" = Some u ∧
       (Q2Qc 0 ≤ u)%Qc ∧ (u ≤ Q2Qc 100)%Qc ∧
       (sched ≠ [] → Forall (λ e : ScheduleEntry, e.1.1 ≠ IDLE) sched →
        u = Q2Qc 100).
Proof.
  intros Hc. unfold calculate_metrics. rewrite collect_times_spec.
  rewrite lookup_insert_ne by done. rewrite lookup_insert_ne by done.
  rewrite lookup_insert_eq. eexists. split; [done|].
  destruct (busy_time_chain _ _ _ Hc) as (H0 & Hle & Hall).
  destruct (decide (sched = [])) as [->|Hne].
  - cbn [max_end_time]. unfold Qc_ltb. rewrite bool_decide_eq_false_2 by by compute.
    split_and!; [compute_done..|done].
  - rewrite (chain_max_end _ _ _ Hc Hne).
    pose proof (chain_lt _ _ _ Hc Hne) as Hpos.
    unfold Qc_ltb. rewrite bool_decide_eq_true_2 by done.
    assert (busy_time sched ≤ t1)%Qc as Hle' by (clear -Hle; qc_lra).
    destruct (Qc_percentage (busy_time sched) t1 H0 Hle' Hpos) as [Ha Hb].
    destruct (round2_percentage _ Ha Hb) as [Hc1 Hc2].
    split_and!; [done..|]. intros _ Hbusy. rewrite (Hall Hbusy).
    replace (t1 - Q2Qc 0)%Qc with t1 by ring.
    unfold Qcdiv. rewrite Qcmult_inv_r.
    + rewrite Qcmult_1_l. apply Qc_is_canon. by vm_compute.
    + intros ->. clear -Hpos. qc_lra.
Qed.

(** The schedule of a result is a chain of entries from time 0, and its
    metrics are those of [calculate_metrics] on the caller's list. *)
Lemma returned_chain fuel time_quantum alg (processes : list Process) r :
  valid_input processes → (Q2Qc 0 < time_quantum)%Qc → processes ≠ [] →
  alg ∈ algorithms fuel time_quantum →
  (alg processes).2 = Returned r →
  ∃ t1, chain (Q2Qc 0) (schedule r) t1 ∧
        metrics r = calculate_metrics processes (schedule r).
Proof.
  intros [Hnd Hv] Hq Hne Halg Hr. unfold algorithms in Halg.
  assert (Forall (λ p, (Q2Qc 0 < burst_time p)%Qc) processes) as Hb.
  { eapply Forall_impl; [done|]. by intros p [_ ?]. }
  assert (Forall (λ p, (Q2Qc 0 < burst_time p)%Qc) (copy_processes processes)) as Hbc.
  { eapply Forall_impl; [by apply copy_processes_bursts|]. by intros p [? _]. }
  destruct processes as [|p0 ps]; [done|].
  repeat (apply elem_of_cons in Halg as [->|Halg]);
    [..|by apply elem_of_nil in Halg].
  - unfold fcfs_scheduling in Hr.
    pose proof (fcfs_chain (sorted arrival_key_ltb (p0 :: ps)) (Q2Qc 0) [] (Q2Qc 0)) as Hc.
    destruct (foldl fcfs_step _ _) as [sched t]. cbn [snd] in Hr. simplify_eq.
    cbn [schedule metrics fst snd] in *. exists t. split; [|done].
    apply Hc; [|done].
    apply Forall_forall. intros x Hx. rewrite sorted_perm in Hx.
    rewrite Forall_forall in Hb. by apply Hb.
  - unfold sjf_non_preemptive in Hr. cbn [snd] in Hr.
    destruct (np_loop _ _ _ _ _ _) as [s| |] eqn:Hl;
      cbn [mbind outcome_bind] in Hr; simplify_eq. cbn [schedule metrics].
    exists (np_current_time s). split; [|done].
    eapply np_loop_chain; [done..|]. done.
  - rewrite sjf_preemptive_unfold in Hr by done. cbn [snd] in Hr.
    destruct (p_loop _ _ _ _ _ _) as [σ' [s| |]] eqn:Hl;
      cbn [snd mbind outcome_bind] in Hr; simplify_eq. cbn [schedule metrics].
    exists (p_current_time s). split; [|done].
    eapply p_loop_valid; [|done]. by apply p_init_valid.
  - unfold priority_non_preemptive in Hr. cbn [snd] in Hr.
    destruct (check_priorities _); [|done..]. cbn [mbind outcome_bind] in Hr.
    destruct (np_loop _ _ _ _ _ _) as [s| |] eqn:Hl;
      cbn [mbind outcome_bind] in Hr; simplify_eq. cbn [schedule metrics].
    exists (np_current_time s). split; [|done].
    eapply np_loop_chain; [done..|]. done.
  - rewrite priority_preemptive_unfold in Hr by done. cbn [snd] in Hr.
    destruct (check_priorities _); [|done..]. cbn [mbind outcome_bind] in Hr.
    destruct (p_loop _ _ _ _ _ _) as [σ' [s| |]] eqn:Hl;
      cbn [snd mbind outcome_bind] in Hr; simplify_eq. cbn [schedule metrics].
    exists (p_current_time s). split; [|done].
    eapply p_loop_valid; [|done]. by apply p_init_valid.
  - cbn beta in Hr.
    rewrite round_robin_unfold in Hr; [|done|clear -Hq; intros ?; qc_lra].
    cbn [snd] in Hr.
    destruct (rr_init _) as [s0| |] eqn:Hi; [|done..]. cbn [mbind outcome_bind] in Hr.
    destruct (rr_loop _ _ _ _) as [σ' [s| |]] eqn:Hl;
      cbn [snd mbind outcome_bind] in Hr; simplify_eq. cbn [schedule metrics].
    exists (rr_current_time s). split; [|done].
    eapply rr_loop_valid; [done| |done].
    by apply rr_init_valid.
Qed.

(** X18: in a result returned by any of the six algorithms on a valid,
    non-empty input (unique pids, arrivals at or after 0, positive bursts; a
    positive quantum) whose times and quantum are whole numbers on which
    the arithmetic is exact, so that no time overflows, the metric
    cpu_utilization is a percentage: it lies between 0 and 100. *)
Theorem cpu_utilization_is_a_percentage fuel time_quantum alg
    (processes : list Process) r :
  valid_input processes → exact_times processes →
  (Q2Qc 0 < time_quantum)%Qc → whole time_quantum → processes ≠ [] →
  alg ∈ algorithms fuel time_quantum →
  (alg processes).2 = Returned r →
  ∃ u, metrics r !! "cpu_utilization" = Some u ∧
       (Q2Qc 0 ≤ u)%Qc ∧ (u ≤ Q2Qc 100)%Qc.
Proof.
  intros Hv _ Hq _ Hne Halg Hr.
  destruct (returned_chain fuel time_quantum alg processes r Hv Hq Hne Halg Hr)
    as (t1 & Hc & ->).
  destruct (cpu_utilization_chain processes (schedule r) t1 Hc)
    as (u & Hu & H0 & H100 & _).
  by exists u.
Qed.

Lemma cpu_utilization_is_a_percentage_witness :
  ∃ r, (round_robin 20 scenario (Qc_of_Z 2)).2 = Returned r ∧
  ∃ u, metrics r !! "cpu_utilization" = Some u ∧
       (Q2Qc 0 ≤ u)%Qc ∧ (u ≤ Q2Qc 100)%Qc.
Proof.
  destruct (round_robin 20 scenario (Qc_of_Z 2)).2 as [r|e|] eqn:E.
  - exists r. split; [reflexivity|].
    apply (cpu_utilization_is_a_percentage 20 (Qc_of_Z 2)
             (λ processes, round_robin 20 processes (Qc_of_Z 2)) scenario r).
    + split; compute_done.
    + split; compute_done.
    + reflexivity.
    + reflexivity.
    + discriminate.
    + unfold algorithms. do 5 apply list_elem_of_further. apply list_elem_of_here.
    + exact E.
  - vm_compute in E. discriminate E.
  - vm_compute in E. discriminate E.
Defined.

(** X19: a result returned by [sjf_preemptive] or by [priority_preemptive]
    on a valid, non-empty input (unique pids, none of them IDLE, arrivals
    at or after 0, positive bursts) always reports a cpu_utilization of
    100: an input on which the processor would wait gets no result. *)
Theorem preemptive_cpu_utilization fuel (processes : list Process) r :
  valid_input processes → Forall (λ p, pid p ≠ IDLE) processes →
  processes ≠ [] →
  (sjf_preemptive fuel processes).2 = Returned r ∨
  (priority_preemptive fuel processes).2 = Returned r →
  metrics r !! "cpu_utilization" = Some (Q2Qc 100).
Proof.
  intros Hv Hidle Hne Hr.
  destruct (preemptive_result fuel processes r Hv Hne Hr)
    as (K & σ' & s' & t1 & Hsched & -> & Hc & HndW & Hs & Hsize).
  destruct (cpu_utilization_chain processes (p_schedule s') t1 Hc)
    as (u & Hu & _ & _ & Hfull).
  rewrite Hu. f_equal. apply Hfull.
  - destruct processes as [|p0 ps]; [done|].
    destruct (sorted_copies_lookup (p0 :: ps) p0 ltac:(left))
      as (k & pk & Hk & _ & _ & Hburst & _).
    pose proof (p_served_done _ _ _ k pk HndW Hs Hsize Hk) as Hserv.
    intros Hnil. rewrite Hnil in Hserv.
    assert (Q2Qc 0 < burst_time p0)%Qc as Hpos.
    { destruct Hv as [_ Hv]. by apply Forall_cons in Hv as [[_ ?] _]. }
    rewrite Hburst in Hserv. rewrite <- Hserv in Hpos.
    by vm_compute in Hpos.
  - eapply Forall_impl; [by eapply p_served_busy|]. intros e He Heq. cbn beta in He.
    rewrite sorted_perm, pid_copy_processes in He.
    apply list_elem_of_fmap in He as (p & Hp & Hin).
    rewrite Forall_forall in Hidle. apply (Hidle p Hin). congruence.
Qed.

Lemma preemptive_cpu_utilization_witness :
  ∃ r, (priority_preemptive 10 scenario_busy).2 = Returned r ∧
       metrics r !! "cpu_utilization" = Some (Q2Qc 100).
Proof.
  destruct (priority_preemptive 10 scenario_busy).2 as [r|e|] eqn:E.
  - exists r. split; [reflexivity|].
    apply (preemptive_cpu_utilization 10 scenario_busy r).
    + split; compute_done.
    + unfold scenario_busy. repeat constructor; discriminate.
    + discriminate.
    + right. exact E.
  - vm_compute in E. discriminate E.
  - vm_compute in E. discriminate E.
Defined.

(** * calculate_metrics and fcfs_scheduling on binary64 *)

#[local] Set Warnings "-inexact-float".

(** [round(x, 2)] on binary64: a tie of the value goes to the even decimal
    (0.125 is a float), and what decides is the value of the float, not the
    decimal it was written as (2.675 and 0.475 are written for floats just
    below them). *)
Lemma round2_examples :
  Binary64.round2 0.125 = 0.12%float ∧ Binary64.round2 0.375 = 0.38%float ∧
  Binary64.round2 2.675 = 2.67%float ∧ Binary64.round2 0.475 = 0.47%float ∧
  Binary64.round2 3.5 = 3.5%float ∧ Binary64.round2 (-0.001) = (-0)%float ∧
  Binary64.round2 9007199254740992 = 9007199254740992%float.
Proof. split_and!; vm_compute; reflexivity. Qed.

Lemma b64_completion_times_of_lookup (schedule : list Binary64.ScheduleEntry)
    (p : string) :
  Binary64.completion_times_of schedule !! p = Binary64.completion_time schedule p.
Proof.
  unfold Binary64.completion_times_of, Binary64.completion_time.
  induction schedule as [|[[q s] t] sched IH] using rev_ind; [done|].
  rewrite foldl_app, filter_app, last_app. simpl.
  rewrite filter_cons, filter_nil. simpl.
  case_bool_decide as Hq.
  - destruct (decide (q = p)) as [->|Hne].
    + rewrite lookup_insert_eq. rewrite decide_True by done. done.
    + rewrite lookup_insert_ne by done. rewrite decide_False by tauto. done.
  - rewrite decide_False by tauto. done.
Qed.

Lemma b64_collect_times_from (ct : gmap string float)
    (processes : list Binary64.Process) (a b : list float) :
  foldl (λ (acc : list float * list float) (process : Binary64.Process),
           let '(turnaround_times, waiting_times) := acc in
           match ct !! Binary64.pid process with
           | Some completion_time =>
               let turnaround_time :=
                 (completion_time - Binary64.arrival_time process)%float in
               let waiting_time :=
                 (turnaround_time - Binary64.burst_time process)%float in
               (turnaround_times ++ [turnaround_time],
                waiting_times ++ [waiting_time])
           | None => acc
           end)
        (a, b) processes =
  (a ++ omap (λ p, c ← ct !! Binary64.pid p;
                   Some (c - Binary64.arrival_time p)%float) processes,
   b ++ omap (λ p, c ← ct !! Binary64.pid p;
                   Some (c - Binary64.arrival_time p - Binary64.burst_time p)%float)
             processes).
Proof.
  revert a b. induction processes as [|p ps IH]; intros a b; simpl.
  - by rewrite !app_nil_r.
  - destruct (ct !! Binary64.pid p) as [c|]; simpl; [|apply IH].
    rewrite IH. by rewrite <- !app_assoc.
Qed.

Lemma b64_collect_times_spec (schedule : list Binary64.ScheduleEntry)
    (processes : list Binary64.Process) :
  Binary64.collect_times (Binary64.completion_times_of schedule) processes =
  (omap (Binary64.turnaround_time schedule) processes,
   omap (Binary64.waiting_time schedule) processes).
Proof.
  unfold Binary64.collect_times. rewrite b64_collect_times_from. simpl. f_equal.
  - apply list_omap_ext, Forall_Forall2_diag, Forall_forall. intros p _.
    unfold Binary64.turnaround_time. by rewrite b64_completion_times_of_lookup.
  - apply list_omap_ext, Forall_Forall2_diag, Forall_forall. intros p _.
    unfold Binary64.waiting_time, Binary64.turnaround_time.
    rewrite b64_completion_times_of_lookup.
    by destruct (Binary64.completion_time schedule (Binary64.pid p)).
Qed.



(** On binary64 a valid input can give an entry of no length: P1 arrives
    at 2^53 with a burst of 1.0, and 2^53 + 1.0 is 2^53. *)
Lemma fcfs_entry_of_no_length :
  let P1 := Binary64.new_Process "P1" 9007199254740992 1 None None in
  PrimFloat.leb 0 (Binary64.arrival_time P1) = true ∧
  PrimFloat.ltb 0 (Binary64.burst_time P1) = true ∧
  Binary64.schedule (Binary64.fcfs_scheduling [P1]) =
    [("IDLE", 0, 9007199254740992);
     ("P1", 9007199254740992, 9007199254740992)]%float ∧
  ∃ e : Binary64.ScheduleEntry,
    e ∈ Binary64.schedule (Binary64.fcfs_scheduling [P1]) ∧
    PrimFloat.ltb e.1.2 e.2 = false.
Proof.
  intros P1. split_and!; [vm_compute; reflexivity..|].
  exists ("P1", 9007199254740992, 9007199254740992)%float. split.
  - vm_compute. apply list_elem_of_further, list_elem_of_here.
  - vm_compute. reflexivity.
Qed.


(** On whole numbers the two embeddings of [fcfs_scheduling] give the same
    schedule and the same metrics: here on P1(0,5), P2(1,3), P3(12,2), with
    an idle entry from 8 to 12. *)
Lemma fcfs_scheduling_on_whole_numbers :
  ∃ r, (fcfs_scheduling scenario).2 = Returned r ∧
       Binary64.schedule (Binary64.fcfs_scheduling (binary64_process <$> scenario)) =
         binary64_entry <$> schedule r ∧
       Binary64.metrics (Binary64.fcfs_scheduling (binary64_process <$> scenario)) =
         Binary64.of_Qc <$> metrics r.
Proof.
  eexists. split; [reflexivity|]. split; vm_compute; reflexivity.
Qed.
